(** * knor: game construction and AIG synthesis, a shallow embedding

    Source files: [src/knor.cpp] (label evaluation, priority adjustment,
    explicit game construction, the driver) and [src/aigmaker.cpp]
    (conversion of decision diagrams to an And-Inverter Graph).

    Conventions.  A C++ [int] is a [Z]; signed overflow is undefined
    behaviour in the source and is excluded by explicit range hypotheses
    where a result depends on it.  A [uint64_t] is a [Z] reduced modulo
    [2^64] at every operation that can wrap.  An array passed together with
    its length is a [list].  A failed [assert], a null dereference and
    running out of fuel are all the result [None]. *)

From stdpp Require Import prelude gmap strings pretty sorting.

Local Open Scope Z_scope.

(** ** Machine arithmetic *)

Definition two64 : Z := 2 ^ 64.

(** Conversion to [uint64_t]. *)
Definition u64 (x : Z) : Z := x mod two64.

(** [x << n] on [uint64_t]. *)
Definition shl64 (x : Z) (n : Z) : Z := Z.shiftl x n mod two64.

(** * Part I: [knor.cpp] *)

(** ** Labels ([BTree] and [Alias] of simplehoa.h) *)

Inductive BTree : Type :=
| NT_BOOL (id : Z)
| NT_AND (left right : BTree)
| NT_OR (left right : BTree)
| NT_NOT (left : BTree)
| NT_AP (id : Z)
| NT_ALIAS (alias : string).

Record Alias : Type := mkAlias { alias : string; labelExpr : BTree }.

(** The loop [for (i=0; i<numAliases; i++) if (strcmp(a->alias, name) == 0)]:
    the first alias of that name. *)
Fixpoint find_alias (aliases : list Alias) (name : string) : option BTree :=
  match aliases with
  | [] => None
  | a :: rest =>
      if String.eqb (alias a) name then Some (labelExpr a)
      else find_alias rest name
  end.

(** The [NT_AP] case of [evalLabelNaive]: walk [apIds] with a one-bit mask
    that is shifted left (on [uint64_t]) at every step. *)
Fixpoint evalAP (id : Z) (apIds : list Z) (mask value : Z) : Z :=
  match apIds with
  | [] => 0
  | a :: rest =>
      if id =? a then (if Z.land mask value =? mask then 1 else -1)
      else evalAP id rest (shl64 mask 1) value
  end.

(** [evalLabelNaive]: 1 for true, -1 for false, 0 for unknown, -2 for an
    alias that is not defined.  The fuel bounds the depth of the recursion
    (aliases may refer to aliases). *)
Fixpoint evalLabelNaive (fuel : nat) (label : BTree) (aliases : list Alias)
    (apIds : list Z) (value : Z) : option Z :=
  match fuel with
  | O => None
  | S fuel =>
      match label with
      | NT_BOOL id => Some (if id =? 0 then -1 else 1)
      | NT_AND l r =>
          left ← evalLabelNaive fuel l aliases apIds value;
          right ← evalLabelNaive fuel r aliases apIds value;
          Some (if (left =? -1) || (right =? -1) then -1
                else if (left =? 0) || (right =? 0) then 0
                else 1)
      | NT_OR l r =>
          left ← evalLabelNaive fuel l aliases apIds value;
          right ← evalLabelNaive fuel r aliases apIds value;
          Some (if (left =? 1) || (right =? 1) then 1
                else if (left =? 0) || (right =? 0) then 0
                else -1)
      | NT_NOT l =>
          left ← evalLabelNaive fuel l aliases apIds value;
          Some (-1 * left)
      | NT_AP id => Some (evalAP id apIds 1 value)
      | NT_ALIAS name =>
          match find_alias aliases name with
          | Some e => evalLabelNaive fuel e aliases apIds value
          | None => Some (-2)
          end
      end
  end.

(** The two-valued reading of a label: the value of the AP listed at
    position [i] of [apIds] is bit [i] of [value].  [None] when an AP is not
    listed, an alias is not defined, or the fuel runs out. *)
Fixpoint ap_index (id : Z) (apIds : list Z) (i : Z) : option Z :=
  match apIds with
  | [] => None
  | a :: rest => if id =? a then Some i else ap_index id rest (i + 1)
  end.

Fixpoint label_truth (fuel : nat) (label : BTree) (aliases : list Alias)
    (apIds : list Z) (value : Z) : option bool :=
  match fuel with
  | O => None
  | S fuel =>
      match label with
      | NT_BOOL id => Some (negb (id =? 0))
      | NT_AND l r =>
          a ← label_truth fuel l aliases apIds value;
          b ← label_truth fuel r aliases apIds value;
          Some (a && b)
      | NT_OR l r =>
          a ← label_truth fuel l aliases apIds value;
          b ← label_truth fuel r aliases apIds value;
          Some (a || b)
      | NT_NOT l => negb <$> label_truth fuel l aliases apIds value
      | NT_AP id => Z.testbit value <$> ap_index id apIds 0
      | NT_ALIAS name =>
          e ← find_alias aliases name;
          label_truth fuel e aliases apIds value
      end
  end.

Definition truth_value (b : bool) : Z := if b then 1 else -1.

(** ** Priority adjustment *)

(** [adjustPriority]; [/] on [int] truncates, hence [Z.quot].  The numbers
    are those of the code as long as no intermediate value leaves [int],
    that is for [0 <= p <= noPriorities] and [noPriorities + 3 < 2^31]: the
    greatest intermediate values are [noPriorities + 1] and
    [evenMax - p + 2 <= noPriorities + 3]. *)
Definition adjustPriority (p : Z) (maxPriority controllerIsOdd : bool)
    (noPriorities : Z) : Z :=
  let p :=
    if negb maxPriority then
      let evenMax := 2 * ((noPriorities + 1) ÷ 2) in
      evenMax - p
    else p in
  let p := p + 2 in
  if controllerIsOdd then p - 1 else p.

(** The adjustment as the specification words it, with a ceiling:
    [2 * ceil((k+1)/2) - p], then [+2], then [-1] for an odd controller. *)
Definition ceil_half (n : Z) : Z := (n + 1) `div` 2.

Definition adjustPriority_spec (p : Z) (maxPriority controllerIsOdd : bool)
    (k : Z) : Z :=
  (if maxPriority then p else 2 * ceil_half (k + 1) - p) + 2
  - (if controllerIsOdd then 1 else 0).

(** * Part II: [aigmaker.cpp] *)

(** ** The AIG under construction *)

Definition aiger_false : Z := 0.
Definition aiger_true : Z := 1.

(** [aiger_not(l)] is [l ^ 1]. *)
Definition aiger_not (l : Z) : Z := Z.lxor l 1.

(** One row of the AND table, as [aiger_add_and (a, lhs, rhs0, rhs1)] stores it. *)
Record aiger_and : Type := mkAnd { lhs : Z; rhs0 : Z; rhs1 : Z }.

(** The fields of [AIGmaker] that the conversion functions read and write:
    the next free literal, the AND table of the [aiger] object (in the order
    the gates were appended), the gate cache, the memo table [mapping] and
    [var_to_lit]. *)
Record AIGmaker : Type := mkAIGmaker {
  lit : Z;
  ands : list aiger_and;
  cache : gmap Z Z;
  mapping : gmap Z Z;
  var_to_lit : gmap Z Z
}.

(** [cache_key = rhs1; cache_key <<= 32; cache_key |= rhs0] on [uint64_t]. *)
Definition cache_key (rhs0 rhs1 : Z) : Z :=
  Z.lor (shl64 (u64 rhs1) 32) (u64 rhs0).

(** [AIGmaker::makeand] *)
Definition makeand (rhs0 rhs1 : Z) (m : AIGmaker) : Z * AIGmaker :=
  let '(rhs0, rhs1) := if rhs1 <? rhs0 then (rhs1, rhs0) else (rhs0, rhs1) in
  if rhs0 =? 0 then (0, m)
  else if rhs0 =? 1 then (rhs1, m)
  else
    let key := cache_key rhs0 rhs1 in
    match cache m !! key with
    | Some c => (c, m)
    | None =>
        (lit m,
         {| lit := lit m + 2;
            ands := ands m ++ [mkAnd (lit m) rhs0 rhs1];
            cache := <[key := lit m]> (cache m);
            mapping := mapping m;
            var_to_lit := var_to_lit m |})
    end.

(** Literals are non-negative [int]s. *)
Definition is_literal (l : Z) : Prop := 0 <= l < 2 ^ 31.

(** The states an [AIGmaker] goes through when the only thing that happens
    to it is a sequence of [makeand] calls on literals, starting with an
    empty AND table and an empty cache. *)
Inductive makeand_reachable : AIGmaker -> Prop :=
| reachable_init m :
    ands m = [] -> cache m = ∅ -> makeand_reachable m
| reachable_makeand m a b :
    makeand_reachable m -> is_literal a -> is_literal b ->
    makeand_reachable (makeand a b m).2.

(** ** What a literal computes *)

(** Modelled from the spec: the AIGER library ([aiger.h]) is not part of
    src.  A literal [l] denotes variable [l/2], negated when [l] is odd;
    variable 0 is the constant false; the variable of an AND gate is the
    conjunction of its two input literals; the other variables (primary
    inputs and latches) are free. *)

Definition aiger_lit2var (l : Z) : Z := Z.shiftr l 1.

Definition lit_value (nv : Z -> bool) (l : Z) : bool :=
  xorb (nv (aiger_lit2var l)) (Z.odd l).

Definition and_step (nv : Z -> bool) (g : aiger_and) : Z -> bool :=
  fun v =>
    if v =? aiger_lit2var (lhs g)
    then lit_value nv (rhs0 g) && lit_value nv (rhs1 g)
    else nv v.

(** The value of every variable, given the values [inp] of the free ones:
    the gates are evaluated in table order. *)
Definition aiger_eval (inp : Z -> bool) (gs : list aiger_and) : Z -> bool :=
  fold_left and_step gs (fun v => if v =? 0 then false else inp v).

(** The Boolean function of literal [l] in the circuit of [m]. *)
Definition aig_value (m : AIGmaker) (inp : Z -> bool) (l : Z) : bool :=
  lit_value (aiger_eval inp (ands m)) l.

(** ** Computations on an [AIGmaker] *)

Definition M (A : Type) : Type := AIGmaker -> option (A * AIGmaker).

Definition ret {A} (x : A) : M A := fun m => Some (x, m).

Definition bind {A B} (c : M A) (k : A -> M B) : M B :=
  fun m => match c m with Some (x, m') => k x m' | None => None end.

Definition fail {A} : M A := fun _ => None.

Definition lift {A} (f : AIGmaker -> A * AIGmaker) : M A := fun m => Some (f m).

Definition of_option {A} (o : option A) : M A :=
  fun m => match o with Some x => Some (x, m) | None => None end.

Notation "'do' x <- c ; k" := (bind c (fun x => k))
  (at level 10, x name, c at level 100, k at level 200).

(** [mapping.find (key)] and [mapping[key] = res] *)
Definition mapping_find (key : Z) : M (option Z) :=
  fun m => Some (mapping m !! key, m).

Definition mapping_set (key res : Z) : M unit :=
  fun m => Some (tt,
    {| lit := lit m; ands := ands m; cache := cache m;
       mapping := <[key := res]> (mapping m);
       var_to_lit := var_to_lit m |}).

(** [var_to_lit[v]]: [operator[]] of [std::map] enters 0 for a missing key. *)
Definition var_to_lit_at (v : Z) : M Z :=
  fun m =>
    match var_to_lit m !! v with
    | Some l => Some (l, m)
    | None =>
        Some (0,
          {| lit := lit m; ands := ands m; cache := cache m;
             mapping := mapping m;
             var_to_lit := <[v := 0]> (var_to_lit m) |})
    end.

(** ** Decision diagrams *)

(** Modelled from the spec: the DD kernel (Sylvan) is not part of src.  A
    handle is a [uint64_t]: a node index with, in bit 63, the complement
    mark, "whose semantics is logical negation of the pointed-to node".
    False is index 0, true is its complement.  The node table maps the index
    of an inner node to its variable and its two child handles. *)

Definition sylvan_complement : Z := 0x8000000000000000.
Definition mtbdd_false : Z := 0.
Definition mtbdd_true : Z := sylvan_complement.

Record ddnode : Type := mkNode { node_var : Z; node_low : Z; node_high : Z }.

Definition mtbdd_hasmark (bdd : Z) : bool :=
  negb (Z.land bdd sylvan_complement =? 0).

Definition mtbdd_index (bdd : Z) : Z := Z.land bdd (sylvan_complement - 1).

Definition mtbdd_getvar (nodes : gmap Z ddnode) (bdd : Z) : option Z :=
  node_var <$> nodes !! mtbdd_index bdd.

(** The children of a handle: the mark of the handle is passed on. *)
Definition mtbdd_getlow (nodes : gmap Z ddnode) (bdd : Z) : option Z :=
  (fun n => Z.lxor (Z.land bdd sylvan_complement) (node_low n))
    <$> nodes !! mtbdd_index bdd.

Definition mtbdd_gethigh (nodes : gmap Z ddnode) (bdd : Z) : option Z :=
  (fun n => Z.lxor (Z.land bdd sylvan_complement) (node_high n))
    <$> nodes !! mtbdd_index bdd.

(** The Boolean function of a handle under the valuation [env] of the DD
    variables. *)
Fixpoint mtbdd_eval (fuel : nat) (nodes : gmap Z ddnode) (env : Z -> bool)
    (bdd : Z) : bool :=
  match fuel with
  | O => false
  | S fuel =>
      xorb (mtbdd_hasmark bdd)
        match nodes !! mtbdd_index bdd with
        | None => false
        | Some n =>
            if env (node_var n) then mtbdd_eval fuel nodes env (node_high n)
            else mtbdd_eval fuel nodes env (node_low n)
        end
  end.

(** The height of the node with index [i]: a leaf has height 0, a node is
    one above its higher child.  [idx] gives the index of a child handle.
    In a table of [size nodes] nodes no path is longer than [size nodes]
    unless the table has a cycle. *)
Fixpoint dd_height (idx : Z -> Z) (fuel : nat) (nodes : gmap Z ddnode) (i : Z)
    : nat :=
  match fuel with
  | O => O
  | S fuel =>
      match nodes !! i with
      | None => O
      | Some n =>
          S (Nat.max (dd_height idx fuel nodes (idx (node_low n)))
                     (dd_height idx fuel nodes (idx (node_high n))))
      end
  end.

Definition dd_rank (idx : Z -> Z) (nodes : gmap Z ddnode) (i : Z) : nat :=
  dd_height idx (size nodes) nodes i.

(** The table has no cycle: some measure decreases from every node to
    each child that is a node. *)
Definition dd_descends (idx : Z -> Z) (rank : Z -> nat) (nodes : gmap Z ddnode)
    : Prop :=
  forall i n c, nodes !! i = Some n ->
    c = idx (node_low n) \/ c = idx (node_high n) ->
    is_Some (nodes !! c) -> (rank c < rank i)%nat.

Definition dd_acyclic (idx : Z -> Z) (nodes : gmap Z ddnode) : Prop :=
  exists rank, dd_descends idx rank nodes.

(** The height of the node of a handle. *)
Definition bdd_rank (nodes : gmap Z ddnode) (bdd : Z) : nat :=
  dd_rank mtbdd_index nodes (mtbdd_index bdd).

(** The function of a handle: the evaluation with fuel for the longest
    path an acyclic table can have. *)
Definition mtbdd_denote (nodes : gmap Z ddnode) (env : Z -> bool) (bdd : Z) : bool :=
  mtbdd_eval (S (size nodes)) nodes env bdd.

(** A handle of the node table: a leaf or a node of the table, marked or
    not. *)
Definition handle_ok (nodes : gmap Z ddnode) (bdd : Z) : Prop :=
  0 <= bdd < two64
  /\ (mtbdd_index bdd = 0 \/ is_Some (nodes !! mtbdd_index bdd)).

(** A node table is well formed when the children of a node are handles of
    the table (index 0 is the leaf) and the table has no cycle.  The order
    of the indices plays no role. *)
Definition dd_wf (nodes : gmap Z ddnode) : Prop :=
  map_Forall (fun i n =>
    0 < i < sylvan_complement
    /\ handle_ok nodes (node_low n)
    /\ handle_ok nodes (node_high n)) nodes
  /\ dd_acyclic mtbdd_index nodes.

(** The nodes below the node with index [i], itself included. *)
Inductive dd_reach (nodes : gmap Z ddnode) : Z -> Z -> Prop :=
| dd_reach_here i : is_Some (nodes !! i) -> dd_reach nodes i i
| dd_reach_low i n j :
    nodes !! i = Some n -> dd_reach nodes (mtbdd_index (node_low n)) j ->
    dd_reach nodes i j
| dd_reach_high i n j :
    nodes !! i = Some n -> dd_reach nodes (mtbdd_index (node_high n)) j ->
    dd_reach nodes i j.

(** ** Shannon expansion: [AIGmaker::bdd_to_aig] *)

Fixpoint bdd_to_aig (fuel : nat) (nodes : gmap Z ddnode) (bdd : Z) : M Z :=
  match fuel with
  | O => fail
  | S fuel =>
      if bdd =? mtbdd_true then ret aiger_true
      else if bdd =? mtbdd_false then ret aiger_false
      else
        let comp := mtbdd_hasmark bdd in
        let bdd := if comp then Z.lxor bdd sylvan_complement else bdd in
        do it <- mapping_find bdd;
        match it with
        | Some l => ret (if comp then aiger_not l else l)
        | None =>
            do v <- of_option (mtbdd_getvar nodes bdd);
            do the_lit <- var_to_lit_at v;
            do low <- of_option (mtbdd_getlow nodes bdd);
            do high <- of_option (mtbdd_gethigh nodes bdd);
            do res <-
              (if low =? mtbdd_false then
                 if high =? mtbdd_true then ret the_lit
                 else
                   do rhs1 <- bdd_to_aig fuel nodes high;
                   lift (makeand the_lit rhs1)
               else if high =? mtbdd_false then
                 if low =? mtbdd_true then ret (aiger_not the_lit)
                 else
                   do rhs1 <- bdd_to_aig fuel nodes low;
                   lift (makeand (aiger_not the_lit) rhs1)
               else
                 do lowres <- bdd_to_aig fuel nodes low;
                 do highres <- bdd_to_aig fuel nodes high;
                 do g0 <- lift (makeand (aiger_not the_lit) lowres);
                 do g1 <- lift (makeand the_lit highres);
                 do g <- lift (makeand (aiger_not g0) (aiger_not g1));
                 ret (aiger_not g));
            do _ <- mapping_set bdd res;
            ret (if comp then aiger_not res else res)
        end
  end.

(** ** Invariants of the gate cache *)

Definition gate_inputs (g : aiger_and) : Z * Z := (rhs0 g, rhs1 g).

(** The cache and the AND table describe the same gates: the inputs of every
    gate are normalised literals that are not constants, a pair of literals
    has a cache entry exactly when the table has a gate for it, and no pair
    has two gates. *)
Record cache_inv (m : AIGmaker) : Prop := mkCacheInv {
  cache_inv_gates : forall g, g ∈ ands m ->
    2 <= rhs0 g /\ rhs0 g <= rhs1 g /\ rhs1 g < 2 ^ 31;
  cache_inv_lookup : forall a b l, is_literal a -> is_literal b ->
    cache m !! cache_key a b = Some l <-> mkAnd l a b ∈ ands m;
  cache_inv_nodup : NoDup (gate_inputs <$> ands m)
}.

(** An [AIGmaker] with three inputs and no gate yet. *)
Definition fresh_maker : AIGmaker :=
  {| lit := 8; ands := []; cache := ∅; mapping := ∅;
     var_to_lit := {[ 0 := 2; 1 := 4; 2 := 6 ]} |}.

(** The same after [makeand (2, 4)] and [makeand (4, 2)]. *)
Definition gate_twice : AIGmaker :=
  (makeand 4 2 (makeand 2 4 fresh_maker).2).2.

(** ** Invariants of the circuit *)

(** A literal of the circuit of [m]. *)
Definition lit_ok (m : AIGmaker) (l : Z) : Prop := 0 <= l < lit m.

(** The next literal is even and within [int]; literal 0 is false; a cache entry for a pair of
    literals is a literal of the circuit that computes their conjunction;
    and the literal of a DD variable is a positive literal of a free
    variable of the circuit (an input or a latch). *)
Record aig_inv (m : AIGmaker) : Prop := mkAigInv {
  inv_lit_even : Z.even (lit m) = true;
  inv_lit_range : 2 <= lit m < 2 ^ 31;
  inv_false : forall inp, aig_value m inp aiger_false = false;
  inv_cache : forall a b l, is_literal a -> is_literal b ->
    cache m !! cache_key a b = Some l ->
    lit_ok m l /\ lit_ok m a /\ lit_ok m b
    /\ forall inp, aig_value m inp l = aig_value m inp a && aig_value m inp b;
  inv_vars : forall v l, var_to_lit m !! v = Some l ->
    Z.even l = true /\ 2 <= l < lit m
    /\ forall inp, aig_value m inp l = inp (aiger_lit2var l)
}.

(** [m'] is [m] with more gates: the old literals keep their functions. *)
Record aig_extends (m m' : AIGmaker) : Prop := mkAigExtends {
  ext_lit : lit m <= lit m';
  ext_vars : var_to_lit m' = var_to_lit m;
  ext_value : forall l inp, lit_ok m l -> aig_value m' inp l = aig_value m inp l
}.

(** The valuation of the DD variables that an assignment [inp] of the free
    variables of the circuit induces through [var_to_lit]. *)
Definition dd_env (m : AIGmaker) (inp : Z -> bool) : Z -> bool :=
  fun v => inp (aiger_lit2var (default 0 (var_to_lit m !! v))).

(** The memo table is sound for the denotation [den] of its keys: every
    entry is a literal of the circuit that computes the function of its
    key, and every key satisfies [key_ok]. *)
Definition memo_inv (key_ok : Z -> Prop) (den : (Z -> bool) -> Z -> bool)
    (m : AIGmaker) : Prop :=
  forall n l, mapping m !! n = Some l ->
    key_ok n /\ lit_ok m l
    /\ forall inp, aig_value m inp l = den (dd_env m inp) n.

(** The memo table is closed under the children: with a node it holds
    every child of the node that is a node itself.  The empty table is
    closed. *)
Definition memo_closed (nodes : gmap Z ddnode) (m : AIGmaker) : Prop :=
  forall i n c, nodes !! i = Some n -> is_Some (mapping m !! i) ->
    c = mtbdd_index (node_low n) \/ c = mtbdd_index (node_high n) ->
    is_Some (nodes !! c) -> is_Some (mapping m !! c).

(** What a call on [bdd] leaves in the memo table: the table stays closed,
    no key is lost, and the node of the handle has an entry. *)
Definition memo_grows (nodes : gmap Z ddnode) (bdd : Z) (m m' : AIGmaker) : Prop :=
  memo_closed nodes m'
  /\ (forall k, is_Some (mapping m !! k) -> is_Some (mapping m' !! k))
  /\ (is_Some (nodes !! mtbdd_index bdd) -> is_Some (mapping m' !! mtbdd_index bdd)).

(** Every variable of the node table has a literal. *)
Definition vars_allocated (nodes : gmap Z ddnode) (m : AIGmaker) : Prop :=
  map_Forall (fun _ n => is_Some (var_to_lit m !! node_var n)) nodes.

(** ** The literal counter

    The nodes of the table that have no entry in the memo table yet; a
    potential that charges [c] literals for each of them; and the entries of
    the memo table for the nodes of height [r] and more being those of
    [m]. *)
Definition unmapped (nodes : gmap Z ddnode) (m : AIGmaker) : gset Z :=
  dom nodes ∖ dom (mapping m).

Definition potential (c : Z) (nodes : gmap Z ddnode) (m : AIGmaker) : Z :=
  lit m + c * Z.of_nat (size (unmapped nodes m)).

Definition memo_frame (rank : Z -> nat) (r : nat) (m m' : AIGmaker) : Prop :=
  forall k, (r <= rank k)%nat -> mapping m' !! k = mapping m !! k.

(** ** Specifications of computations on an [AIGmaker] *)

(** The circuit and the memo table are sound. *)
Definition state_ok (key_ok : Z -> Prop) (den : (Z -> bool) -> Z -> bool)
    (m : AIGmaker) : Prop :=
  aig_inv m /\ memo_inv key_ok den m.

(** Literal [l] of the circuit of [m] computes the function [f] of the DD
    variables. *)
Definition computes (f : (Z -> bool) -> bool) (m : AIGmaker) (l : Z) : Prop :=
  lit_ok m l /\ forall inp, aig_value m inp l = f (dd_env m inp).

(** The outcome [out] of a computation started in [m]: it returns, it only
    ever raises the literal counter, it leaves [var_to_lit] alone, and,
    when the precondition [P] holds, the state was sound and the literal
    counter has stayed within [int], the final state is sound, extends the
    circuit of [m], and satisfies [Q]. *)
Definition run_ok {A} (key_ok : Z -> Prop) (den : (Z -> bool) -> Z -> bool)
    (P : Prop) (m : AIGmaker) (Q : A -> AIGmaker -> Prop)
    (out : option (A * AIGmaker)) : Prop :=
  exists r m',
    out = Some (r, m')
    /\ lit m <= lit m'
    /\ var_to_lit m' = var_to_lit m
    /\ (P -> state_ok key_ok den m -> lit m' < 2 ^ 31 ->
        state_ok key_ok den m' /\ aig_extends m m' /\ Q r m').

(** The three-way case analysis in the body of [bdd_to_aig], with the
    recursive calls abstracted. *)
Definition shannon_node (rec : Z -> M Z) (the_lit low high : Z) : M Z :=
  if low =? mtbdd_false then
    if high =? mtbdd_true then ret the_lit
    else
      do rhs1 <- rec high;
      lift (makeand the_lit rhs1)
  else if high =? mtbdd_false then
    if low =? mtbdd_true then ret (aiger_not the_lit)
    else
      do rhs1 <- rec low;
      lift (makeand (aiger_not the_lit) rhs1)
  else
    do lowres <- rec low;
    do highres <- rec high;
    do g0 <- lift (makeand (aiger_not the_lit) lowres);
    do g1 <- lift (makeand the_lit highres);
    do g <- lift (makeand (aiger_not g0) (aiger_not g1));
    ret (aiger_not g).

(** The keys of the memo table of [bdd_to_aig] carry no mark. *)
Definition bdd_key_ok (n : Z) : Prop := mtbdd_hasmark n = false.

(** A node table for [x0 xor x1]: node 1 is [x1], node 2 tests [x0] and
    goes to node 1 or to its complement. *)
Definition xor_nodes : gmap Z ddnode :=
  {[ 1 := mkNode 1 mtbdd_false mtbdd_true;
     2 := mkNode 0 1 (Z.lor 1 sylvan_complement) ]}.

(** The same function in a table whose root has a smaller index than its
    children: node 2 is [x1], node 1 tests [x0] and goes to node 2 or to
    its complement. *)
Definition xor_nodes_rev : gmap Z ddnode :=
  {[ 1 := mkNode 0 2 (Z.lor 2 sylvan_complement);
     2 := mkNode 1 mtbdd_false mtbdd_true ]}.

(** ** Covers *)

(** Modelled from the spec: the ZDD part of the DD kernel (Sylvan) is not
    part of src.  A cover is a set of products (cubes); a product is a set
    of signed literals; DD variable [v] occurs in a product as ZDD variable
    [2v] (positive) or [2v+1] (negative).  [zdd_false] is the empty cover,
    [zdd_true] the cover of the empty product alone, and a node with
    variable [x] stands for the products of its low child together with the
    products of its high child extended by [x].  A handle is looked up in
    the node table as it is. *)

Definition zdd_false : Z := 0.
Definition zdd_true : Z := sylvan_complement.

Definition zdd_getvar (nodes : gmap Z ddnode) (cover : Z) : option Z :=
  node_var <$> nodes !! cover.

Definition zdd_getlow (nodes : gmap Z ddnode) (cover : Z) : option Z :=
  node_low <$> nodes !! cover.

Definition zdd_gethigh (nodes : gmap Z ddnode) (cover : Z) : option Z :=
  node_high <$> nodes !! cover.

(** The value of the signed literal [x] under a valuation of the DD
    variables. *)
Definition zdd_lit (env : Z -> bool) (x : Z) : bool :=
  xorb (env (x ÷ 2)) (Z.odd x).

(** The sum-of-products function of a cover. *)
Fixpoint cover_eval (fuel : nat) (nodes : gmap Z ddnode) (env : Z -> bool)
    (cover : Z) : bool :=
  match fuel with
  | O => false
  | S fuel =>
      if cover =? zdd_true then true
      else if cover =? zdd_false then false
      else
        match nodes !! cover with
        | None => false
        | Some n =>
            (zdd_lit env (node_var n) && cover_eval fuel nodes env (node_high n))
            || cover_eval fuel nodes env (node_low n)
        end
  end.

(** The height of a cover in the table; the handle is its own index. *)
Definition zdd_rank (nodes : gmap Z ddnode) (cover : Z) : nat :=
  dd_rank id nodes cover.

Definition cover_denote (nodes : gmap Z ddnode) (env : Z -> bool) (cover : Z) : bool :=
  cover_eval (S (size nodes)) nodes env cover.

(** The products of a cover, in the order in which
    [zdd_cover_enum_first] / [zdd_cover_enum_next] are taken to yield them:
    each product is the sequence of its signed literals (the terminating -1
    of the array is left out). *)
Fixpoint zdd_cover_enum (fuel : nat) (nodes : gmap Z ddnode) (cover : Z)
    : list (list Z) :=
  match fuel with
  | O => []
  | S fuel =>
      if cover =? zdd_true then [[]]
      else if cover =? zdd_false then []
      else
        match nodes !! cover with
        | None => []
        | Some n =>
            (cons (node_var n) <$> zdd_cover_enum fuel nodes (node_high n))
            ++ zdd_cover_enum fuel nodes (node_low n)
        end
  end.

Definition zdd_products (nodes : gmap Z ddnode) (cover : Z) : list (list Z) :=
  zdd_cover_enum (S (size nodes)) nodes cover.

(** The value of a list of products: some product has all its literals
    true. *)
Definition sop_value (env : Z -> bool) (ps : list (list Z)) : bool :=
  existsb (forallb (zdd_lit env)) ps.

(** A handle of the table of covers: a leaf or a node of the table. *)
Definition zdd_handle_ok (nodes : gmap Z ddnode) (cover : Z) : Prop :=
  cover = zdd_false \/ cover = zdd_true \/ is_Some (nodes !! cover).

(** A table of covers is well formed when the children of a node are
    handles of the table and the table has no cycle.  The order of the
    handles plays no role. *)
Definition zdd_wf (nodes : gmap Z ddnode) : Prop :=
  map_Forall (fun i n =>
    0 < i < sylvan_complement
    /\ 0 <= node_var n
    /\ zdd_handle_ok nodes (node_low n)
    /\ zdd_handle_ok nodes (node_high n)) nodes
  /\ dd_acyclic id nodes.

(** A child of the node with handle [i]: a handle of the table that is
    lower than [i]. *)
Definition zdd_child_ok (nodes : gmap Z ddnode) (i c : Z) : Prop :=
  zdd_handle_ok nodes c /\ (zdd_rank nodes c < zdd_rank nodes i)%nat.

(** Every DD variable of the cover has a literal. *)
Definition zdd_vars_allocated (nodes : gmap Z ddnode) (m : AIGmaker) : Prop :=
  map_Forall (fun _ n => is_Some (var_to_lit m !! (node_var n ÷ 2))) nodes.

(** ** Recursive conversion of a cover: [AIGmaker::bdd_to_aig_cover] *)

Fixpoint bdd_to_aig_cover (fuel : nat) (nodes : gmap Z ddnode) (cover : Z) : M Z :=
  match fuel with
  | O => fail
  | S fuel =>
      if cover =? zdd_true then ret aiger_true
      else if cover =? zdd_false then ret aiger_false
      else
        do it <- mapping_find cover;
        match it with
        | Some l => ret l
        | None =>
            do the_var <- of_option (zdd_getvar nodes cover);
            do the_lit <- var_to_lit_at (the_var ÷ 2);
            let the_lit :=
              if negb (Z.land the_var 1 =? 0) then aiger_not the_lit else the_lit in
            do low <- of_option (zdd_getlow nodes cover);
            do high <- of_option (zdd_gethigh nodes cover);
            let res := the_lit in
            do res <-
              (if negb (high =? zdd_true) then
                 do x <- bdd_to_aig_cover fuel nodes high;
                 lift (makeand res x)
               else ret res);
            do res <-
              (if negb (low =? zdd_false) then
                 do x <- bdd_to_aig_cover fuel nodes low;
                 do g <- lift (makeand (aiger_not res) (aiger_not x));
                 ret (aiger_not g)
               else ret res);
            do _ <- mapping_set cover res;
            ret res
        end
  end.

(** ** Sum of products: [AIGmaker::bdd_to_aig_cover_sop] *)

(** The literals of one product: the [for] loop over [product[i] != -1]. *)
Fixpoint product_gates (product : list Z) : M (list Z) :=
  match product with
  | [] => ret []
  | p :: rest =>
      do the_lit <- var_to_lit_at (p ÷ 2);
      let the_lit :=
        if negb (Z.land p 1 =? 0) then aiger_not the_lit else the_lit in
      do gates <- product_gates rest;
      ret (the_lit :: gates)
  end.

(** [while (!gates.empty())]: AND the two front gates and push the result
    at the back; the last gate left is pushed on [products].  Every round
    shortens the queue by one, so [length gates] rounds of fuel suffice. *)
Fixpoint and_queue (fuel : nat) (gates products : list Z) : M (list Z) :=
  match gates with
  | [] => ret products
  | [last] => ret (products ++ [last])
  | last :: last2 :: gates =>
      match fuel with
      | O => fail
      | S fuel =>
          do new_gate <- lift (makeand last last2);
          and_queue fuel (gates ++ [new_gate]) products
      end
  end.

(** [while (!products.empty())]: OR the two front products (De Morgan) and
    push the sum at the back; the last one left is returned.  The empty
    queue falls through to [return aiger_false]. *)
Fixpoint or_queue (fuel : nat) (products : list Z) : M Z :=
  match products with
  | [] => ret aiger_false
  | [product1] => ret product1
  | product1 :: product2 :: products =>
      match fuel with
      | O => fail
      | S fuel =>
          do g <- lift (makeand (aiger_not product1) (aiger_not product2));
          or_queue fuel (products ++ [aiger_not g])
      end
  end.

(** The loop over the products that the enumeration yields. *)
Fixpoint sop_products (ps : list (list Z)) (products : list Z) : M (list Z) :=
  match ps with
  | [] => ret products
  | product :: ps =>
      do gates <- product_gates product;
      do products <- and_queue (length gates) gates products;
      sop_products ps products
  end.

Definition bdd_to_aig_cover_sop (nodes : gmap Z ddnode) (cover : Z) : M Z :=
  if cover =? zdd_true then ret aiger_true
  else if cover =? zdd_false then ret aiger_false
  else
    do products <- sop_products (zdd_products nodes cover) [];
    or_queue (length products) products.


(** A cover with the empty product next to another one: [{ {}, {x0} }]. *)
Definition redundant_cover : gmap Z ddnode :=
  {[ 1 := mkNode 0 zdd_true zdd_true ]}.


(** A product with at least one literal. *)
Definition nonempty (p : list Z) : bool :=
  match p with [] => false | _ => true end.

(** The literals [ls] compute the functions [fs], one by one. *)
Definition computes_all (fs : list ((Z -> bool) -> bool)) (m : AIGmaker)
    (ls : list Z) : Prop :=
  Forall2 (fun f l => computes f m l) fs ls.

(** The function of one signed literal, and of one product. *)
Definition zdd_lit_fun (x : Z) : (Z -> bool) -> bool :=
  fun env => zdd_lit env x.

Definition product_value (p : list Z) : (Z -> bool) -> bool :=
  fun env => forallb (zdd_lit env) p.

(** ** The automaton ([HoaData] of simplehoa.h)

    A pointer that may be null is an [option]; an array with its length
    field is a [list] ([noSucc], [noTrans], [noStates], [noAliases] are the
    lengths).  The acceptance sets are kept as the source has them, a
    pointer [accSig] and a separate count [noAccSig], because the two
    constructions test different ones. *)

Record Transition : Type := mkTransition {
  t_label : option BTree;
  t_successors : list Z;
  t_accSig : option (list Z);
  t_noAccSig : Z
}.

Record State : Type := mkState {
  s_id : Z;
  s_name : option string;
  s_label : option BTree;
  s_accSig : option (list Z);
  s_noAccSig : Z;
  s_transitions : list Transition
}.

Record HoaData : Type := mkHoaData {
  noAPs : Z;
  cntAPs : list Z;
  aliases : list Alias;
  noAccSets : Z;
  states : list State
}.

Definition noStates (data : HoaData) : Z := Z.of_nat (length (states data)).

(** ** The parity game *)

(** Modelled from the spec: Oink's [pg::Game] is not part of src.  A game
    is a "directed graph of vertices, each carrying (priority, owner,
    optional label)", with "plain successors" as edges; here a finite map
    from the vertex index to the vertex.  [init_vertex] followed by
    [e_start], [e_add] for every successor and [e_finish] enters one
    vertex. *)

Record Vertex : Type := mkVertex {
  priority : Z;
  owner : Z;
  v_label : string;
  edges : list Z
}.

Definition init_vertex (game : gmap Z Vertex) (v priority owner : Z)
    (label : string) (succ : list Z) : gmap Z Vertex :=
  <[v := mkVertex priority owner label succ]> game.

(** ** Naive splitting: [constructGameNaive] *)

(** The bitset [controllable]. *)
Definition controllable (data : HoaData) (i : Z) : bool :=
  bool_decide (i ∈ cntAPs data).

(** [ucntAPs]: the uncontrollable APs in increasing order. *)
Definition ucntAPs (data : HoaData) : list Z :=
  List.filter (fun i => negb (controllable data i)) (seqZ 0 (noAPs data)).

Definition uap_count (data : HoaData) : Z := Z.of_nat (length (ucntAPs data)).

(** [1ULL << uap_count] *)
Definition numValuations (data : HoaData) : Z := shl64 1 (uap_count data).

(** [a[0]] of an array that may be null or empty. *)
Definition first_of (a : option (list Z)) : option Z :=
  a ≫= head.

(** Left fold with an early exit. *)
Fixpoint fold_opt {A B} (f : A -> B -> option A) (l : list B) (a : A) : option A :=
  match l with
  | [] => Some a
  | x :: l => a' ← f a x; fold_opt f l a'
  end.

(** The state of the construction: the game, [nextIndex] and the successor
    list that is being collected. *)
Definition build : Type := gmap Z Vertex * Z * list Z.

(** The label that guards a transition: the state's, if it has one. *)
Definition guard (state : State) (trans : Transition) : option BTree :=
  match s_label state with
  | Some l => Some l
  | None => t_label trans
  end.

(** The body of the loop over the transitions of [state], for the valuation
    [value] of the uncontrollable APs. *)
Definition naive_transition (fuel : nat) (data : HoaData)
    (isMaxParity controllerIsOdd : bool) (state : State) (value : Z)
    (b : build) (trans : Transition) : option build :=
  let '(game, nextIndex, succ_inter) := b in
  match t_successors trans with
  | [succ] =>
      label ← guard state trans;
      evald ← evalLabelNaive fuel label (aliases data) (ucntAPs data) value;
      if evald =? -1 then Some b
      else
        match s_accSig state with
        | None =>
            if t_noAccSig trans =? 1 then
              p ← first_of (t_accSig trans);
              let priority :=
                adjustPriority p isMaxParity controllerIsOdd (noAccSets data) in
              let vfin := nextIndex in
              Some (init_vertex game vfin priority 0 "" [succ],
                    nextIndex + 1, succ_inter ++ [vfin])
            else None
        | Some _ => Some (game, nextIndex, succ_inter ++ [succ])
        end
  | _ => None
  end.

(** The body of the loop over the valuations: the transitions, then the
    intermediate vertex.  [b] carries [succ_state]. *)
Definition naive_valuation (fuel : nat) (data : HoaData)
    (isMaxParity controllerIsOdd : bool) (state : State)
    (b : build) (value : Z) : option build :=
  let '(game, nextIndex, succ_state) := b in
  '(game, nextIndex, succ_inter) ←
    fold_opt (naive_transition fuel data isMaxParity controllerIsOdd state value)
      (s_transitions state) (game, nextIndex, []);
  let vinter := nextIndex in
  Some (init_vertex game vinter 0 0 "" succ_inter,
        nextIndex + 1, succ_state ++ [vinter]).

Definition state_label (state : State) : string :=
  match s_name state with
  | Some n => n
  | None => pretty (s_id state)
  end.

(** The body of the loop over the states. *)
Definition naive_state (fuel : nat) (data : HoaData)
    (isMaxParity controllerIsOdd : bool)
    (b : gmap Z Vertex * Z) (state : State) : option (gmap Z Vertex * Z) :=
  let '(game, nextIndex) := b in
  '(game, nextIndex, succ_state) ←
    fold_opt (naive_valuation fuel data isMaxParity controllerIsOdd state)
      (seqZ 0 (numValuations data)) (game, nextIndex, []);
  priority ←
    match s_accSig state with
    | Some sig =>
        p ← head sig;
        Some (adjustPriority p isMaxParity controllerIsOdd (noAccSets data))
    | None => Some 0
    end;
  Some (init_vertex game (s_id state) priority 1 (state_label state) succ_state,
        nextIndex).

(** [constructGameNaive]: the game and its number of vertices. *)
Definition constructGameNaive (fuel : nat) (data : HoaData)
    (isMaxParity controllerIsOdd : bool) : option (gmap Z Vertex * Z) :=
  fold_opt (naive_state fuel data isMaxParity controllerIsOdd)
    (states data) (∅, noStates data).

(** *** What the naive construction is expected to build *)

(** The transition is compatible with the valuation: the three-valued
    evaluation of its label does not say false. *)
Definition enabled (fuel : nat) (data : HoaData) (state : State) (value : Z)
    (trans : Transition) : bool :=
  match guard state trans with
  | Some l =>
      match evalLabelNaive fuel l (aliases data) (ucntAPs data) value with
      | Some e => negb (e =? -1)
      | None => false
      end
  | None => false
  end.

(** The assertions of the loop body hold for the transition, and its label
    evaluates (with the given fuel) under every valuation. *)
Definition trans_wf (fuel : nat) (data : HoaData) (state : State)
    (trans : Transition) : bool :=
  match t_successors trans with [_] => true | _ => false end
  && forallb (fun value =>
       match guard state trans with
       | Some l =>
           bool_decide (is_Some
             (evalLabelNaive fuel l (aliases data) (ucntAPs data) value))
       | None => false
       end) (seqZ 0 (numValuations data))
  && match s_accSig state with
     | Some _ => true
     | None =>
         (t_noAccSig trans =? 1)
         && bool_decide (is_Some (first_of (t_accSig trans)))
     end.

Definition state_wf (fuel : nat) (data : HoaData) (state : State) : bool :=
  match s_accSig state with Some [] => false | _ => true end
  && forallb (trans_wf fuel data state) (s_transitions state).

(** The automaton passes the checks of [main_task] (the id of a state is its
    index) and of the construction. *)
Definition naive_wf (fuel : nat) (data : HoaData) : bool :=
  bool_decide (s_id <$> states data = seqZ 0 (noStates data))
  && forallb (state_wf fuel data) (states data).

(** The successor [to] that stands for transition [trans] of [state] in an
    intermediate vertex: the target state itself when the priorities are on
    the states, and otherwise a vertex of the controller (owner 0) that
    carries the adjusted priority of the transition and has the target
    state as its only successor. *)
Definition link_ok (data : HoaData) (isMaxParity controllerIsOdd : bool)
    (game : gmap Z Vertex) (state : State) (trans : Transition) (to : Z) : Prop :=
  exists succ,
    t_successors trans = [succ]
    /\ match s_accSig state with
       | Some _ => to = succ
       | None =>
           exists p,
             first_of (t_accSig trans) = Some p
             /\ noStates data <= to
             /\ game !! to = Some (mkVertex
                  (adjustPriority p isMaxParity controllerIsOdd (noAccSets data))
                  0 "" [succ])
       end.

(** The intermediate vertex [vinter] of [state] for [value]: priority 0,
    owner 0, and one successor per enabled transition, in order. *)
Definition inter_ok (fuel : nat) (data : HoaData) (isMaxParity controllerIsOdd : bool)
    (game : gmap Z Vertex) (state : State) (value vinter : Z) : Prop :=
  exists vi,
    noStates data <= vinter
    /\ game !! vinter = Some vi
    /\ priority vi = 0 /\ owner vi = 0
    /\ Forall2 (link_ok data isMaxParity controllerIsOdd game state)
         (List.filter (enabled fuel data state value) (s_transitions state))
         (edges vi).

(** The vertex of [state]: owner 1, the priority of the state, and exactly
    one intermediate vertex per valuation, all different. *)
Definition state_vertex_ok (fuel : nat) (data : HoaData)
    (isMaxParity controllerIsOdd : bool)
    (game : gmap Z Vertex) (state : State) : Prop :=
  exists vs,
    game !! s_id state = Some vs
    /\ owner vs = 1
    /\ priority vs =
       match s_accSig state ≫= head with
       | Some p => adjustPriority p isMaxParity controllerIsOdd (noAccSets data)
       | None => 0
       end
    /\ NoDup (edges vs)
    /\ Forall2 (inter_ok fuel data isMaxParity controllerIsOdd game state)
         (seqZ 0 (numValuations data)) (edges vs).

(** Two APs, the first one uncontrollable; two states with priorities on
    the transitions. *)
Definition toggle_data : HoaData :=
  {| noAPs := 2; cntAPs := [1]; aliases := []; noAccSets := 2;
     states :=
       [ mkState 0 None None None 0
           [ mkTransition (Some (NT_AP 0)) [1] (Some [0]) 1;
             mkTransition (Some (NT_NOT (NT_AP 0))) [0] (Some [1]) 1 ];
         mkState 1 (Some "s1") None None 0
           [ mkTransition (Some (NT_BOOL 1)) [0] (Some [1]) 1 ] ] |}.

(** A vertex interposed for a transition that carries its own priority. *)
Definition fin_vertex (data : HoaData) (isMaxParity controllerIsOdd : bool)
    (v : Vertex) : Prop :=
  exists state trans p succ,
    state ∈ states data /\ trans ∈ s_transitions state
    /\ s_accSig state = None
    /\ first_of (t_accSig trans) = Some p
    /\ v = mkVertex
             (adjustPriority p isMaxParity controllerIsOdd (noAccSets data))
             0 "" [succ].

(** No vertex at or above [next] has been entered yet. *)
Definition fresh_from (game : gmap Z Vertex) (next : Z) : Prop :=
  forall k, next <= k -> game !! k = None.

(** ** Explicit splitting: [constructGame] *)

(** Modelled from the spec: the DD kernel (Sylvan) and
    [BDDTools::collectSubroots] are not part of src.  A decision diagram
    over the AP variables is represented by the function it denotes: a
    valuation is a number whose bit [i] is the value of DD variable [i], a
    BDD gives a truth value and an MTBDD gives the integer of the leaf it
    reaches.  The leaf [mtbdd_false] reads as 0. *)

(** [variables]: the DD variable of every AP, uncontrollable ones first. *)
Fixpoint assign_variables (data : HoaData) (aps : list Z) (uidx oidx : Z) : list Z :=
  match aps with
  | [] => []
  | i :: aps =>
      if controllable data i then oidx :: assign_variables data aps uidx (oidx + 1)
      else uidx :: assign_variables data aps (uidx + 1) oidx
  end.

Definition variables (data : HoaData) : list Z :=
  assign_variables data (seqZ 0 (noAPs data)) 0 (uap_count data).

(** [evalLabel]: the BDD of a label, as its value under the valuation [v].
    [None] stands for [mtbdd_invalid] (an alias that is not defined), for
    an AP outside [variables], and for no fuel. *)
Fixpoint evalLabel (fuel : nat) (label : BTree) (data : HoaData)
    (variables : list Z) (v : Z) : option bool :=
  match fuel with
  | O => None
  | S fuel =>
      match label with
      | NT_BOOL id => Some (negb (id =? 0))
      | NT_AND l r =>
          a ← evalLabel fuel l data variables v;
          b ← evalLabel fuel r data variables v;
          Some (a && b)
      | NT_OR l r =>
          a ← evalLabel fuel l data variables v;
          b ← evalLabel fuel r data variables v;
          Some (a || b)
      | NT_NOT l => negb <$> evalLabel fuel l data variables v
      | NT_AP id =>
          if id <? 0 then None
          else Z.testbit v <$> variables !! Z.to_nat id
      | NT_ALIAS name =>
          e ← find_alias (aliases data) name;
          evalLabel fuel e data variables v
      end
  end.

(** The leaf [((uint64_t)priority << 32) | (uint64_t)successor]. *)
Definition leaf_of (priority succ : Z) : Z :=
  Z.lor (shl64 (u64 priority) 32) (u64 succ).

(** [(int)(lval >> 32)] and [(int)(lval & 0xffffffff)] *)
Definition to_int (x : Z) : Z := if x <? 2 ^ 31 then x else x - 2 ^ 32.
Definition leaf_priority (lval : Z) : Z := to_int (Z.shiftr lval 32).
Definition leaf_target (lval : Z) : Z := to_int (Z.land lval 0xffffffff).

(** One round of the loop over the transitions of [state]: the leaf that
    [trans_bdd] reaches under [v] after [mtbdd_ite (lblbdd, leaf, trans_bdd)]. *)
Definition explicit_transition (fuel : nat) (data : HoaData)
    (isMaxParity controllerIsOdd : bool) (state : State) (v : Z)
    (trans_bdd : Z) (trans : Transition) : option Z :=
  match t_successors trans with
  | [succ] =>
      label ← guard state trans;
      priority ←
        match s_accSig state with
        | None =>
            if t_noAccSig trans =? 1 then
              p ← first_of (t_accSig trans);
              Some (adjustPriority p isMaxParity controllerIsOdd (noAccSets data))
            else None
        | Some _ => Some 0
        end;
      lblbdd ← evalLabel fuel label data (variables data) v;
      Some (if (lblbdd : bool) then leaf_of priority succ else trans_bdd)
  | _ => None
  end.

(** [trans_bdd] of [state], at the valuation [v]. *)
Definition state_mtbdd (fuel : nat) (data : HoaData)
    (isMaxParity controllerIsOdd : bool) (state : State) (v : Z) : option Z :=
  fold_opt (explicit_transition fuel data isMaxParity controllerIsOdd state v)
    (s_transitions state) 0.

Definition cap_count (data : HoaData) : Z := noAPs data - uap_count data.

(** The sub-diagram that the valuation [u] of the uncontrollable variables
    leads to, as the list of its leaves over the valuations of the
    controllable variables. *)
Definition subroot (fuel : nat) (data : HoaData)
    (isMaxParity controllerIsOdd : bool) (state : State) (u : Z)
    : option (list Z) :=
  mapM (fun c =>
          state_mtbdd fuel data isMaxParity controllerIsOdd state
            (Z.lor u (Z.shiftl c (uap_count data))))
       (seqZ 0 (2 ^ cap_count data)).

(** [BDDTools::collectSubroots (trans_bdd, uap_count)]: "all DD nodes
    reachable from the root whose level is >= first-cap variable", each
    once; the order is taken to be that of the first valuation that reaches
    the node. *)
Definition collectSubroots (fuel : nat) (data : HoaData)
    (isMaxParity controllerIsOdd : bool) (state : State)
    : option (list (list Z)) :=
  remove_dups <$>
    mapM (subroot fuel data isMaxParity controllerIsOdd state)
         (seqZ 0 (2 ^ uap_count data)).

(** [collect_targets]: the set of leaves of a sub-diagram, in the order of
    [std::set<uint64_t>].  The BDD [targets_bdd] that the source uses as
    the key of [inter_vertices] encodes this set, so the set is the key
    here. *)
Definition collect_targets (inter_bdd : list Z) : list Z :=
  merge_sort Z.le (remove_dups inter_bdd).

(** The body of [for (uint64_t lval : targets)]. *)
Definition explicit_target
    (b : gmap Z Vertex * Z * list Z * gmap Z Z) (lval : Z)
    : gmap Z Vertex * Z * list Z * gmap Z Z :=
  let '(game, nextIndex, succ_inter, target_vertices) := b in
  let priority := leaf_priority lval in
  let target := leaf_target lval in
  if negb (priority =? 0) then
    match target_vertices !! lval with
    | None =>
        let vfin := nextIndex in
        (init_vertex game vfin priority 0 "" [target], nextIndex + 1,
         succ_inter ++ [vfin], <[lval := vfin]> target_vertices)
    | Some vfin => (game, nextIndex, succ_inter ++ [vfin], target_vertices)
    end
  else (game, nextIndex, succ_inter ++ [target], target_vertices).

(** The body of [for (MTBDD inter_bdd : inter_bdds)]; [target_vertices] is
    empty at the start of every round because the source clears it at the
    end of every round. *)
Definition explicit_subroot (state : State)
    (b : gmap Z Vertex * Z * list Z * gmap (list Z) Z) (inter_bdd : list Z)
    : gmap Z Vertex * Z * list Z * gmap (list Z) Z :=
  let '(game, nextIndex, succ_state, inter_vertices) := b in
  let targets := collect_targets inter_bdd in
  match inter_vertices !! targets with
  | None =>
      let '(game, nextIndex, succ_inter, _) :=
        fold_left explicit_target targets (game, nextIndex, [], ∅) in
      let vinter := nextIndex in
      (init_vertex game vinter 0 0 ("from " +:+ pretty (s_id state)) succ_inter,
       nextIndex + 1, succ_state ++ [vinter],
       <[targets := vinter]> inter_vertices)
  | Some vinter => (game, nextIndex, succ_state ++ [vinter], inter_vertices)
  end.

(** The body of the loop over the states. *)
Definition explicit_state (fuel : nat) (data : HoaData)
    (isMaxParity controllerIsOdd : bool)
    (b : gmap Z Vertex * Z) (state : State) : option (gmap Z Vertex * Z) :=
  let '(game, nextIndex) := b in
  inter_bdds ← collectSubroots fuel data isMaxParity controllerIsOdd state;
  let '(game, nextIndex, succ_state, _) :=
    fold_left (explicit_subroot state) inter_bdds (game, nextIndex, [], ∅) in
  priority ←
    (if negb (s_noAccSig state =? 0) then
       p ← first_of (s_accSig state);
       Some (adjustPriority p isMaxParity controllerIsOdd (noAccSets data))
     else Some 0);
  Some (init_vertex game (s_id state) priority 1 (state_label state) succ_state,
        nextIndex).

(** [constructGame]: the game and its number of vertices. *)
Definition constructGame (fuel : nat) (data : HoaData)
    (isMaxParity controllerIsOdd : bool) : option (gmap Z Vertex * Z) :=
  fold_opt (explicit_state fuel data isMaxParity controllerIsOdd)
    (states data) (∅, noStates data).

(** The acceptance sets and successors of the automaton are in range: an
    acceptance set is one of [0 .. noAccSets], and the numbers fit the
    32-bit halves of a leaf. *)
Definition acc_ok (data : HoaData) (a : option (list Z)) : bool :=
  match first_of a with
  | Some p => (0 <=? p) && (p <=? noAccSets data)
  | None => true
  end.

Definition ranges_wf (data : HoaData) : bool :=
  (0 <=? noAccSets data) && (noAccSets data <? 2 ^ 30)
  && forallb (fun s =>
       acc_ok data (s_accSig s)
       && forallb (fun t =>
            acc_ok data (t_accSig t)
            && forallb (fun succ => (0 <=? succ) && (succ <? 2 ^ 31))
                 (t_successors t))
          (s_transitions s))
     (states data).

(** The label has a BDD: the fuel is enough for its depth, every alias is
    defined and every AP has a DD variable. *)
Fixpoint label_defined (fuel : nat) (label : BTree) (data : HoaData)
    (variables : list Z) : bool :=
  match fuel with
  | O => false
  | S fuel =>
      match label with
      | NT_BOOL _ => true
      | NT_AND l r | NT_OR l r =>
          label_defined fuel l data variables
          && label_defined fuel r data variables
      | NT_NOT l => label_defined fuel l data variables
      | NT_AP id =>
          (0 <=? id) && bool_decide (is_Some (variables !! Z.to_nat id))
      | NT_ALIAS name =>
          match find_alias (aliases data) name with
          | Some e => label_defined fuel e data variables
          | None => false
          end
      end
  end.

(** The assertions of the loop over the transitions in [constructGame] hold
    for the transition, and its label has a BDD. *)
Definition explicit_trans_wf (fuel : nat) (data : HoaData) (state : State)
    (trans : Transition) : bool :=
  match t_successors trans with [_] => true | _ => false end
  && match guard state trans with
     | Some l => label_defined fuel l data (variables data)
     | None => false
     end
  && match s_accSig state with
     | None =>
         (t_noAccSig trans =? 1)
         && bool_decide (is_Some (first_of (t_accSig trans)))
     | Some _ => true
     end.

(** A state that counts acceptance sets has one, and its transitions pass
    the assertions. *)
Definition explicit_state_wf (fuel : nat) (data : HoaData) (state : State) : bool :=
  ((s_noAccSig state =? 0) || bool_decide (is_Some (first_of (s_accSig state))))
  && forallb (explicit_trans_wf fuel data state) (s_transitions state).

Definition explicit_wf (fuel : nat) (data : HoaData) : bool :=
  forallb (explicit_state_wf fuel data) (states data).

(** The vertex [v] at index [k] is the vertex of one of the states [done],
    owned by the environment, with priority 0 only if the state carries no
    acceptance set. *)
Definition is_state_vertex (no_acc : State -> Prop) (done : list State)
    (k : Z) (v : Vertex) : Prop :=
  exists s, s ∈ done /\ k = s_id s /\ owner v = 1
            /\ 0 <= priority v /\ (priority v = 0 -> no_acc s).

(** The vertex at index [k] is a successor of the vertex of one of the
    states [done]: an intermediate (valuation-choice) vertex. *)
Definition is_attached (done : list State) (game : gmap Z Vertex) (k : Z) : Prop :=
  exists s vs, s ∈ done /\ game !! s_id s = Some vs /\ owner vs = 1
               /\ k ∈ edges vs.

(** Every vertex is the vertex of a state, or a vertex of the controller
    above the states that has a priority of at least 1 or is an
    intermediate vertex (attached to a state already, or [pending]). *)
Definition priorities_reserved (data : HoaData) (no_acc : State -> Prop)
    (done : list State) (pending : list Z) (game : gmap Z Vertex) : Prop :=
  forall k v, game !! k = Some v ->
    is_state_vertex no_acc done k v
    \/ (noStates data <= k /\ owner v = 0
        /\ (1 <= priority v
            \/ (priority v = 0
                /\ (is_attached done game k \/ k ∈ pending)))).

(** ** The driver: [main_task]

    The phases that the driver only calls (parser, acceptance check, game
    construction, solvers, bisimulation, encoder, rewriter) appear as events
    of a trace; what they return and the driver branches on is read from a
    [World].  The verbose timing reports are left out.  [exit (n)] and
    [return n] both end the run with code [n]. *)

Record Options : Type := mkOptions {
  opt_file : option string;      (* the unmatched argument *)
  opt_sym : bool;
  opt_naive : bool;
  opt_explicit : bool;
  opt_real : bool;
  opt_bisim : bool;
  opt_bisim_game : bool;
  opt_bisim_sol : bool;
  opt_onehot : bool;
  opt_isop : bool;
  opt_sop : bool;
  opt_compress : bool;
  opt_drewrite : bool;
  opt_best : bool;
  opt_no_solve : bool;
  opt_print_game : bool;
  opt_print_witness : bool;
  opt_print_kiss : bool;
  opt_write_ascii : bool;
  opt_write_binary : bool
}.

Section Driver.
Context {Circuit : Type}.

(** What the phases outside the driver return. *)
Record World : Type := mkWorld {
  file_found : bool;               (* fopen succeeded *)
  parse_ret : Z;                   (* parseHoa *)
  parity_ret : Z;                  (* isParityGFG *)
  parsed : HoaData;
  explicit_winner : Z;             (* game->winner[vstart] after Oink *)
  apply_ok : bool;                 (* sym->applyStrategy *)
  sym_solved : bool;               (* sym->solve *)
  encode : bool -> bool -> bool -> bool -> Circuit;
                                   (* encoder, by: solution minimised,
                                      isop, onehot, sop *)
  getNumAnds : Circuit -> Z;
  drewrite : Circuit -> Circuit;
  compress : Circuit -> Circuit
}.

Inductive Event : Type :=
| EvParse
| EvCheckParity
| EvInitSylvan
| EvConstructNaive
| EvConstructExplicit
| EvConstructSym
| EvBisimGame
| EvToExplicit
| EvWritePGSolver
| EvSolveExplicit
| EvApplyStrategy
| EvSolveSym
| EvPostprocess
| EvBisimSol
| EvEncode (bisim isop onehot sop : bool)
| EvDrewrite
| EvCompress
| EvPrintKiss
| EvPrintWitness
| EvStdout (s : string)
| EvStderr (s : string)
| EvWriteBinary (c : Circuit)
| EvWriteAscii (c : Circuit).

Definition Outcome : Type := list Event * Z.

(** Events, then the rest of the run. *)
Definition after (evs : list Event) (k : Outcome) : Outcome := (evs ++ k.1, k.2).

(** The loop that checks the ids of the states and where the priorities
    are: the messages, and [None] for the early [return -1] or else the
    flag [is_bad]. *)
Fixpoint check_states (sts : list State) (i : Z) (state_priorities is_bad : bool)
    (msgs : list Event) : list Event * option bool :=
  match sts with
  | [] => (msgs, Some is_bad)
  | s :: sts =>
      let bad := negb (i =? s_id s) in
      let msgs := if bad then msgs ++ [EvStderr "state has an invalid id"] else msgs in
      let is_bad := is_bad || bad in
      if negb (s_noAccSig s =? 0) then
        if i =? 0 then check_states sts (i + 1) true is_bad msgs
        else if negb state_priorities then
          (msgs ++ [EvStderr "not every state has a priority!"], None)
        else check_states sts (i + 1) state_priorities is_bad msgs
      else check_states sts (i + 1) state_priorities is_bad msgs
  end.

(** The rewriting passes that the flags ask for. *)
Definition rewrite_passes (w : World) (opts : Options) (c : Circuit) : Circuit :=
  let c := if opt_drewrite opts then drewrite w c else c in
  if opt_compress opts then compress w c else c.

(** [smallest]: the chain of [std::min] over the six circuits. *)
Definition smallest_of (w : World) (var1 var2 var3 var1b var2b var3b : Circuit) : Z :=
  let smallest := getNumAnds w var1 in
  let smallest := Z.min smallest (getNumAnds w var2) in
  let smallest := Z.min smallest (getNumAnds w var3) in
  let smallest := Z.min smallest (getNumAnds w var1b) in
  let smallest := Z.min smallest (getNumAnds w var2b) in
  Z.min smallest (getNumAnds w var3b).

(** The chain of [if (var->getNumAnds () == smallest) var->write (stdout)]. *)
Definition write_smallest (w : World) (write : Circuit -> Event)
    (var1 var2 var3 var1b var2b var3b : Circuit) : list Event :=
  let smallest := smallest_of w var1 var2 var3 var1b var2b var3b in
  if getNumAnds w var1 =? smallest then [write var1]
  else if getNumAnds w var2 =? smallest then [write var2]
  else if getNumAnds w var3 =? smallest then [write var3]
  else if getNumAnds w var1b =? smallest then [write var1b]
  else if getNumAnds w var2b =? smallest then [write var2b]
  else if getNumAnds w var3b =? smallest then [write var3b]
  else [].

(** The branch [if (best)]: six encodings, the optional rewriting passes on
    all six, and the smallest one written. *)
Definition best_of (w : World) (opts : Options) : Outcome :=
  let var1 := rewrite_passes w opts (encode w false false false false) in
  let var2 := rewrite_passes w opts (encode w false true false false) in
  let var3 := rewrite_passes w opts (encode w false false true false) in
  let var1b := rewrite_passes w opts (encode w true false false false) in
  let var2b := rewrite_passes w opts (encode w true true false false) in
  let var3b := rewrite_passes w opts (encode w true false true false) in
  after
    ([EvEncode false false false false; EvEncode false true false false;
      EvEncode false false true false; EvBisimSol;
      EvEncode true false false false; EvEncode true true false false;
      EvEncode true false true false]
     ++ (if opt_drewrite opts then [EvDrewrite] else [])
     ++ (if opt_compress opts then [EvCompress] else [])
     ++ (if opt_write_binary opts
         then write_smallest w EvWriteBinary var1 var2 var3 var1b var2b var3b
         else if opt_write_ascii opts
         then write_smallest w EvWriteAscii var1 var2 var3 var1b var2b var3b
         else []))
    ([], 10).

(** The part of [main_task] after the game is solved. *)
Definition after_solving (w : World) (opts : Options) (realizable : bool) : Outcome :=
  if opt_real opts then
    if realizable then ([EvStdout "REALIZABLE"], 10)
    else ([EvStdout "UNREALIZABLE"], 20)
  else if realizable then
    if opt_naive opts || opt_explicit opts then
      ([EvStderr "--naive and --explicit are incompatible with generating the AIG!"],
       10)
    else
      after [EvPostprocess]
        (if opt_best opts then best_of w opts
         else
           let bisim_sol := opt_bisim opts || opt_bisim_sol opts in
           after (if bisim_sol then [EvBisimSol] else [])
             (if opt_print_kiss opts then ([EvPrintKiss], 10)
              else if opt_print_witness opts then ([EvPrintWitness], 10)
              else
                let circuit :=
                  encode w bisim_sol (opt_isop opts) (opt_onehot opts) (opt_sop opts) in
                let ev_enc :=
                  [EvEncode bisim_sol (opt_isop opts) (opt_onehot opts) (opt_sop opts)] in
                let '(circuit, ev_drw) :=
                  if opt_drewrite opts then (drewrite w circuit, [EvDrewrite])
                  else (circuit, []) in
                let '(circuit, ev_cmp) :=
                  if opt_compress opts then (compress w circuit, [EvCompress])
                  else (circuit, []) in
                (ev_enc ++ ev_drw ++ ev_cmp
                 ++ (if opt_write_binary opts then [EvWriteBinary circuit]
                     else if opt_write_ascii opts then [EvWriteAscii circuit]
                     else []),
                 10)))
  else ([], 20).

(** The part of [main_task] from the initialisation of the DD kernel to the
    verdict of the solver. *)
Definition construct_and_solve (w : World) (opts : Options) : Outcome :=
  let explicit_solver := negb (opt_sym opts) in
  let bisim_game := opt_bisim opts || opt_bisim_game opts in
  if explicit_solver then
    let '(ev_construct, has_sym) :=
      if opt_naive opts then ([EvConstructNaive], false)
      else if opt_explicit opts then ([EvConstructExplicit], false)
      else ([EvConstructSym] ++ (if bisim_game then [EvBisimGame] else [])
            ++ [EvToExplicit], true) in
    after ev_construct
      (if opt_print_game opts then ([EvWritePGSolver], 0)
       else if opt_no_solve opts then ([], 0)
       else
         let realizable := explicit_winner w =? 0 in
         after ([EvSolveExplicit]
                ++ (if realizable && has_sym then
                      [EvApplyStrategy]
                      ++ (if apply_ok w then [] else [EvStderr "cannot apply strategy!"])
                    else []))
           (after_solving w opts realizable))
  else
    after ([EvConstructSym] ++ (if bisim_game then [EvBisimGame] else []))
      (if opt_print_game opts then ([EvToExplicit; EvWritePGSolver], 0)
       else if opt_no_solve opts then ([], 0)
       else after [EvSolveSym] (after_solving w opts (sym_solved w))).

(** [main_task] *)
Definition main_task (w : World) (opts : Options) : Outcome :=
  let parse : Outcome -> Outcome := fun k =>
    after [EvParse] (if negb (parse_ret w =? 0) then ([], parse_ret w) else k) in
  let rest : Outcome :=
    after [EvCheckParity]
      (if negb (parity_ret w =? 0) then ([], parity_ret w)
       else
         match check_states (states (parsed w)) 0 false false [] with
         | (msgs, None) => (msgs, -1)
         | (msgs, Some true) => (msgs, -1)
         | (msgs, Some false) =>
             after (msgs ++ [EvInitSylvan]) (construct_and_solve w opts)
         end) in
  match opt_file opts with
  | None => parse rest
  | Some filename =>
      if negb (file_found w) then ([EvStdout ("file not found: " +:+ filename)], 0)
      else parse rest
  end.

(** One encoded variant as the best-of mode is expected to compare it: the
    circuit of the encoder for the solution ([bisim]: minimised first) with
    the given encoding, rewritten by [drewrite] when [--drewrite] is given
    and then compressed when [--compress] is given.  This is written down
    from the four cases of the two flags, not from the code of the
    branch. *)
Definition encoded_variant (w : World) (opts : Options) (bisim isop onehot : bool)
    : Circuit :=
  match opt_drewrite opts, opt_compress opts with
  | false, false => encode w bisim isop onehot false
  | true, false => drewrite w (encode w bisim isop onehot false)
  | false, true => compress w (encode w bisim isop onehot false)
  | true, true => compress w (drewrite w (encode w bisim isop onehot false))
  end.

(** The six variants: Shannon, ISOP and one-hot, without and with
    bisimulation on the solution. *)
Definition best_candidates (w : World) (opts : Options) : list Circuit :=
  [encoded_variant w opts false false false;
   encoded_variant w opts false true false;
   encoded_variant w opts false false true;
   encoded_variant w opts true false false;
   encoded_variant w opts true true false;
   encoded_variant w opts true false true].

(** The circuits that a run writes to stdout. *)
Definition written (out : Outcome) : list Circuit :=
  omap (fun e =>
          match e with
          | EvWriteBinary c | EvWriteAscii c => Some c
          | _ => None
          end) out.1.

(** The phases of the pipeline. *)
Definition is_pipeline_phase (e : Event) : bool :=
  match e with
  | EvConstructNaive | EvConstructExplicit | EvConstructSym
  | EvSolveExplicit | EvSolveSym => true
  | _ => false
  end.
End Driver.

Arguments World : clear implicits.
Arguments Event : clear implicits.
Arguments Outcome : clear implicits.

(** A world in which everything succeeds and the game is realizable; a
    circuit is represented by its number of AND gates. *)
Definition good_world : World Z :=
  {| file_found := true; parse_ret := 0; parity_ret := 0;
     parsed := toggle_data; explicit_winner := 0; apply_ok := true;
     sym_solved := true;
     encode := fun bisim isop onehot sop =>
       (if bisim then 3 else 7) + (if isop then 2 else 0) + (if onehot then 1 else 0);
     getNumAnds := fun c => c;
     drewrite := fun c => c;
     compress := fun c => c - 1 |}.

Definition no_options : Options :=
  {| opt_file := None; opt_sym := false; opt_naive := false;
     opt_explicit := false; opt_real := false; opt_bisim := false;
     opt_bisim_game := false; opt_bisim_sol := false; opt_onehot := false;
     opt_isop := false; opt_sop := false; opt_compress := false;
     opt_drewrite := false; opt_best := false; opt_no_solve := false;
     opt_print_game := false; opt_print_witness := false;
     opt_print_kiss := false; opt_write_ascii := false;
     opt_write_binary := false |}.

(** [--naive -a] and [--best -a]. *)
Definition naive_ascii : Options :=
  {| opt_file := None; opt_sym := false; opt_naive := true;
     opt_explicit := false; opt_real := false; opt_bisim := false;
     opt_bisim_game := false; opt_bisim_sol := false; opt_onehot := false;
     opt_isop := false; opt_sop := false; opt_compress := false;
     opt_drewrite := false; opt_best := false; opt_no_solve := false;
     opt_print_game := false; opt_print_witness := false;
     opt_print_kiss := false; opt_write_ascii := true;
     opt_write_binary := false |}.

Definition best_ascii : Options :=
  {| opt_file := None; opt_sym := false; opt_naive := false;
     opt_explicit := false; opt_real := false; opt_bisim := false;
     opt_bisim_game := false; opt_bisim_sol := false; opt_onehot := false;
     opt_isop := false; opt_sop := false; opt_compress := true;
     opt_drewrite := false; opt_best := true; opt_no_solve := false;
     opt_print_game := false; opt_print_witness := false;
     opt_print_kiss := false; opt_write_ascii := true;
     opt_write_binary := false |}.

(** ** The ISOP path *)

Local Open Scope nat_scope.

(** Modelled from the spec: [zdd_isop], [zdd_cover_to_bdd] and the BDD
    operations they use belong to the DD kernel (Sylvan), which is not part
    of src.  The kernel keeps every BDD reduced and ordered in a unique
    table, so that two handles are equal exactly when the diagrams are the
    same; a handle is represented here by that diagram.  (The complement
    mark is left out: the spec allows an engine without it.)  [zdd_isop]
    computes "an irredundant sum-of-products cover of the BDD as a ZDD" by
    the procedure of Minato and Morreale on the interval between a lower
    and an upper bound, and hands back through [bddres] the BDD of the
    cover; [zdd_cover_to_bdd] gives the "characteristic BDD" of a cover. *)
Inductive bdd : Type :=
| bdd_false
| bdd_true
| bdd_node (var : nat) (low high : bdd).

Global Instance bdd_eq_dec : EqDecision bdd.
Proof. solve_decision. Defined.

(** A node with equal children is never made. *)
Definition bdd_makenode (var : nat) (low high : bdd) : bdd :=
  if decide (low = high) then low else bdd_node var low high.

Fixpoint bdd_sem (env : nat -> bool) (f : bdd) : bool :=
  match f with
  | bdd_false => false
  | bdd_true => true
  | bdd_node var low high => if env var then bdd_sem env high else bdd_sem env low
  end.

(** Reduced and ordered, over the variables [k .. n-1]. *)
Fixpoint bdd_ordered (k n : nat) (f : bdd) : Prop :=
  match f with
  | bdd_node var low high =>
      (k <= var < n)%nat /\ low <> high
      /\ bdd_ordered (S var) n low /\ bdd_ordered (S var) n high
  | _ => True
  end.

Definition bdd_var (f : bdd) : option nat :=
  match f with
  | bdd_node var _ _ => Some var
  | _ => None
  end.

(** The least of the variables at the two roots. *)
Definition top_var (a b : bdd) : option nat :=
  match bdd_var a, bdd_var b with
  | Some x, Some y => Some (x `min` y)
  | Some x, None => Some x
  | None, Some y => Some y
  | None, None => None
  end.

(** The cofactor of [f] for [x := c], with [x] at or above the root. *)
Definition cofactor (x : nat) (c : bool) (f : bdd) : bdd :=
  match f with
  | bdd_node var low high =>
      if decide (var = x) then (if c then high else low) else f
  | _ => f
  end.

Fixpoint bdd_depth (f : bdd) : nat :=
  match f with
  | bdd_node _ low high => S (bdd_depth low `max` bdd_depth high)
  | _ => O
  end.

(** One more than the greatest variable. *)
Fixpoint bdd_bound (f : bdd) : nat :=
  match f with
  | bdd_node var low high => S var `max` (bdd_bound low `max` bdd_bound high)
  | _ => O
  end.

Fixpoint sylvan_not (f : bdd) : bdd :=
  match f with
  | bdd_false => bdd_true
  | bdd_true => bdd_false
  | bdd_node var low high => bdd_node var (sylvan_not low) (sylvan_not high)
  end.

Fixpoint bdd_apply (op : bool -> bool -> bool) (fuel : nat) (a b : bdd) : bdd :=
  match top_var a b with
  | None =>
      if op (bdd_sem (fun _ => false) a) (bdd_sem (fun _ => false) b)
      then bdd_true else bdd_false
  | Some x =>
      match fuel with
      | O => bdd_false
      | S fuel =>
          bdd_makenode x
            (bdd_apply op fuel (cofactor x false a) (cofactor x false b))
            (bdd_apply op fuel (cofactor x true a) (cofactor x true b))
      end
  end.

Definition sylvan_and (a b : bdd) : bdd :=
  bdd_apply andb (bdd_depth a + bdd_depth b) a b.

Definition sylvan_or (a b : bdd) : bdd :=
  bdd_apply orb (bdd_depth a + bdd_depth b) a b.

(** Covers: ZDD variable [2x] is the literal [x], [2x+1] the literal
    [not x]; the high child of a node holds the products with the literal,
    the low child the others. *)
Inductive zcover : Type :=
| cover_false
| cover_true
| cover_node (var : nat) (low high : zcover).

Global Instance zcover_eq_dec : EqDecision zcover.
Proof. solve_decision. Defined.

(** A node whose high child is empty is never made. *)
Definition zdd_makenode (var : nat) (low high : zcover) : zcover :=
  if decide (high = cover_false) then low else cover_node var low high.

Definition zcover_lit (env : nat -> bool) (var : nat) : bool :=
  xorb (env (var / 2)%nat) (Nat.odd var).

Fixpoint zcover_sem (env : nat -> bool) (z : zcover) : bool :=
  match z with
  | cover_false => false
  | cover_true => true
  | cover_node var low high =>
      (zcover_lit env var && zcover_sem env high) || zcover_sem env low
  end.

(** The cover holds the empty product: the product without any literal is
    reached through the low children. *)
Fixpoint zcover_has_empty (z : zcover) : bool :=
  match z with
  | cover_false => false
  | cover_true => true
  | cover_node _ low _ => zcover_has_empty low
  end.

(** Modelled from the spec: [zdd_isop (L, U, &bddres)] of the DD kernel,
    "an irredundant sum-of-products cover" of a function between [L] and
    [U]: the cover and [bddres]. *)
Fixpoint isop_rec (fuel : nat) (L U : bdd) : zcover * bdd :=
  if decide (L = bdd_false) then (cover_false, bdd_false)
  else if decide (U = bdd_true) then (cover_true, bdd_true)
  else
    match fuel, top_var L U with
    | S fuel, Some x =>
        let L0 := cofactor x false L in
        let L1 := cofactor x true L in
        let U0 := cofactor x false U in
        let U1 := cofactor x true U in
        (* the products that need the literal [not x], then [x] *)
        let '(zdd0, bdd0) := isop_rec fuel (sylvan_and L0 (sylvan_not U1)) U0 in
        let '(zdd1, bdd1) := isop_rec fuel (sylvan_and L1 (sylvan_not U0)) U1 in
        (* what is left to cover, without the variable *)
        let Lnew :=
          sylvan_or (sylvan_and L0 (sylvan_not bdd0))
                    (sylvan_and L1 (sylvan_not bdd1)) in
        let Unew := sylvan_and U0 U1 in
        let '(zdd2, bdd2) := isop_rec fuel Lnew Unew in
        (zdd_makenode (2 * x) (zdd_makenode (2 * x + 1) zdd2 zdd0) zdd1,
         sylvan_or bdd2 (bdd_makenode x bdd0 bdd1))
    | _, _ => (cover_false, bdd_false)
    end.

Definition zdd_isop (L U : bdd) : zcover * bdd :=
  isop_rec (bdd_bound L `max` bdd_bound U) L U.

(** Modelled from the spec: [zdd_cover_to_bdd] of the DD kernel, the
    "characteristic BDD" of a cover: the sum of its products. *)
Fixpoint zdd_cover_to_bdd (z : zcover) : bdd :=
  match z with
  | cover_false => bdd_false
  | cover_true => bdd_true
  | cover_node var low high =>
      let x := (var / 2)%nat in
      let lit :=
        if Nat.even var then bdd_node x bdd_false bdd_true
        else bdd_node x bdd_true bdd_false in
      sylvan_or (sylvan_and lit (zdd_cover_to_bdd high)) (zdd_cover_to_bdd low)
  end.

(** The assertions of [bdd_to_aig_isop]: the cover that is handed to
    [bdd_to_aig_cover], or [None] when an assertion fails. *)
Definition isop_checked (f : bdd) : option zcover :=
  let '(isop, bddres) := zdd_isop f f in
  if decide (f = bddres) then
    if decide (f = zdd_cover_to_bdd isop) then Some isop else None
  else None.

(** The assertions of the two loops of [process] that fill [cap_zdds] and
    [state_zdds]. *)
Definition process_cover (f : bdd) : option zcover :=
  let '(isop, bddres) := zdd_isop f f in
  if decide (bddres = f) then Some isop else None.

Definition process_covers (cap_bdds state_bdds : list bdd)
    : option (list zcover * list zcover) :=
  cap_zdds ← mapM process_cover cap_bdds;
  state_zdds ← mapM process_cover state_bdds;
  Some (cap_zdds, state_zdds).

(** [x0 xor x1], and [x0 or (x1 and x2)]. *)
Definition xor_bdd : bdd :=
  bdd_node 0 (bdd_node 1 bdd_false bdd_true) (bdd_node 1 bdd_true bdd_false).

Definition or_and_bdd : bdd :=
  bdd_node 0 (bdd_node 1 bdd_false (bdd_node 2 bdd_false bdd_true)) bdd_true.

Local Close Scope nat_scope.

(** ** More of the driver *)

Section DriverDefs.
Context {Circuit : Type}.
(** What the solver says: [realizable]. *)
Definition solver_verdict (w : World Circuit) (opts : Options) : bool :=
  if opt_sym opts then sym_solved w else explicit_winner w =? 0.

(** The event of the solver that the options select. *)
Definition solve_event (opts : Options) : Event Circuit :=
  if opt_sym opts then EvSolveSym else EvSolveExplicit.

(** The events after the solver that belong to the synthesis of a circuit,
    and the events of the solver. *)
Definition is_synthesis (e : Event Circuit) : bool :=
  match e with
  | EvPostprocess | EvBisimSol | EvEncode _ _ _ _ | EvDrewrite | EvCompress
  | EvPrintKiss | EvPrintWitness | EvWriteBinary _ | EvWriteAscii _ => true
  | _ => false
  end.

Definition is_solving (e : Event Circuit) : bool :=
  match e with
  | EvSolveExplicit | EvSolveSym | EvApplyStrategy => true
  | _ => false
  end.
End DriverDefs.

(** [--real --best --compress -a], [--sym --bisim --best --no-solve -a] and
    [--isop --compress -a -b]. *)
Definition real_best : Options :=
  {| opt_file := None; opt_sym := false; opt_naive := false;
     opt_explicit := false; opt_real := true; opt_bisim := false;
     opt_bisim_game := false; opt_bisim_sol := false; opt_onehot := false;
     opt_isop := false; opt_sop := false; opt_compress := true;
     opt_drewrite := false; opt_best := true; opt_no_solve := false;
     opt_print_game := false; opt_print_witness := false;
     opt_print_kiss := false; opt_write_ascii := true;
     opt_write_binary := false |}.

Definition no_solve_best : Options :=
  {| opt_file := None; opt_sym := true; opt_naive := false;
     opt_explicit := false; opt_real := false; opt_bisim := true;
     opt_bisim_game := false; opt_bisim_sol := false; opt_onehot := false;
     opt_isop := false; opt_sop := false; opt_compress := false;
     opt_drewrite := false; opt_best := true; opt_no_solve := true;
     opt_print_game := false; opt_print_witness := false;
     opt_print_kiss := false; opt_write_ascii := true;
     opt_write_binary := false |}.

Definition isop_both : Options :=
  {| opt_file := None; opt_sym := false; opt_naive := false;
     opt_explicit := false; opt_real := false; opt_bisim := false;
     opt_bisim_game := false; opt_bisim_sol := false; opt_onehot := false;
     opt_isop := true; opt_sop := false; opt_compress := true;
     opt_drewrite := false; opt_best := false; opt_no_solve := false;
     opt_print_game := false; opt_print_witness := false;
     opt_print_kiss := false; opt_write_ascii := true;
     opt_write_binary := true |}.

(** ** The loops of the encoder: [AIGmaker::process] *)

(** [for (int i=0; i<n; i++) body (i, a[i])] over an array with its length,
    collecting what the bodies enter in the [aiger] object. *)
Fixpoint for_each {A B} (body : nat -> A -> M B) (i : nat) (a : list A) : M (list B) :=
  match a with
  | [] => ret []
  | x :: a =>
      do r <- body i x;
      do rs <- for_each body (S i) a;
      ret (r :: rs)
  end.

Section Process.
(** [zdd_isop (bdd, bdd, &bddres)] and [zdd_cover_to_bdd] of the DD kernel,
    on handles: parameters. *)
Variables (zdd_isop : Z -> Z * Z) (zdd_cover_to_bdd : Z -> Z).
Context (fuel : nat) (bdd_nodes zdd_nodes : gmap Z ddnode).
(** [caps] and [state_to_lit] *)
Context (caps : list string) (state_to_lit : list Z).

(** [AIGmaker::bdd_to_aig_isop]; a failed assertion ends the run. *)
Definition bdd_to_aig_isop (bdd : Z) : M Z :=
  let '(isop, bddres) := zdd_isop bdd in
  if negb (bdd =? bddres) then fail
  else if negb (bdd =? zdd_cover_to_bdd isop) then fail
  else bdd_to_aig_cover fuel zdd_nodes isop.

(** [AIGmaker::processCAP]: the output [(res, caps[i])]. *)
Definition processCAP (isop : bool) (i : nat) (bdd : Z) : M (Z * string) :=
  do res <- (if isop then bdd_to_aig_isop bdd else bdd_to_aig fuel bdd_nodes bdd);
  do name <- of_option (caps !! i);
  ret (res, name).

(** [AIGmaker::processState]: the latch [(state_to_lit[i], res)]. *)
Definition processState (isop : bool) (i : nat) (bdd : Z) : M (Z * Z) :=
  do res <- (if isop then bdd_to_aig_isop bdd else bdd_to_aig fuel bdd_nodes bdd);
  do l <- of_option (state_to_lit !! i);
  ret (l, res).

(** The first two loops of the ISOP branch: the cover of every BDD. *)
Definition isop_cover (bdd : Z) : option Z :=
  let '(isop, bddres) := zdd_isop bdd in
  if bddres =? bdd then Some isop else None.

(** [AIGmaker::process]: the outputs and the latches, in order. *)
Definition process (isop : bool) (cap_bdds state_bdds : list Z)
    : M (list (Z * string) * list (Z * Z)) :=
  if isop then
    do cap_zdds <- of_option (mapM isop_cover cap_bdds);
    do state_zdds <- of_option (mapM isop_cover state_bdds);
    do outputs <-
      for_each (fun i cover =>
                  do res <- bdd_to_aig_cover fuel zdd_nodes cover;
                  do name <- of_option (caps !! i);
                  ret (res, name)) 0 cap_zdds;
    do latches <-
      for_each (fun i cover =>
                  do res <- bdd_to_aig_cover fuel zdd_nodes cover;
                  do l <- of_option (state_to_lit !! i);
                  ret (l, res)) 0 state_zdds;
    ret (outputs, latches)
  else
    do outputs <- for_each (processCAP isop) 0 cap_bdds;
    do latches <- for_each (processState isop) 0 state_bdds;
    ret (outputs, latches).
End Process.

(** A BDD for [x0] and its cover, with a [zdd_isop] for them. *)
Definition x0_bdd_nodes : gmap Z ddnode := {[ 1 := mkNode 0 mtbdd_false mtbdd_true ]}.
Definition x0_zdd_nodes : gmap Z ddnode := {[ 1 := mkNode 0 zdd_false zdd_true ]}.
Definition x0_isop (bdd : Z) : Z * Z := (1, bdd).

(** What [process] has to establish for the BDD or cover at index [i]:
    the symbol and a literal that computes [f]. *)
Definition output_ok (caps : list string) (f : (Z -> bool) -> bool) (i : nat) (o : Z * string)
    (m : AIGmaker) : Prop :=
  caps !! i = Some o.2 /\ computes f m o.1.

Definition latch_ok (state_to_lit : list Z) (f : (Z -> bool) -> bool) (i : nat) (l : Z * Z)
    (m : AIGmaker) : Prop :=
  state_to_lit !! i = Some l.1 /\ computes f m l.2.

(** ** The constructor: [AIGmaker::AIGmaker] *)

(** The fields of [SymGame] that the allocation of the literals reads.  A
    variable set of the DD kernel is the list of its variables, in the order
    in which [mtbdd_set_first] and [mtbdd_set_next] go through it. *)
Record SymGame : Type := mkSymGame {
  g_uap_count : Z;
  g_cap_count : Z;
  g_statebits : Z;
  g_s_vars : list Z;
  g_uap_vars : list Z
}.

(** What the constructor leaves: the fields of [AIGmaker], the inputs
    entered in the [aiger] object (literal and AP), and the arrays
    [uap_to_lit], [caps] (as the APs whose names it holds) and
    [state_to_lit]. *)
Record Allocation : Type := mkAllocation {
  al_maker : AIGmaker;
  al_inputs : list (Z * Z);
  al_uap_to_lit : list Z;
  al_caps : list Z;
  al_state_to_lit : list Z
}.

(** The loop over the APs.  The arrays [uap_to_lit] and [caps] are the
    lists of what has been written so far; a write past the length given to
    [new] ends the run. *)
Fixpoint init_inputs (data : HoaData) (game : SymGame) (aps : list Z)
    (uap_to_lit caps : list Z) (inputs : list (Z * Z)) (lit : Z)
    : option (list Z * list Z * list (Z * Z) * Z) :=
  match aps with
  | [] => Some (uap_to_lit, caps, inputs, lit)
  | i :: aps =>
      if negb (controllable data i) then
        if Z.of_nat (length uap_to_lit) <? g_uap_count game then
          init_inputs data game aps (uap_to_lit ++ [lit]) caps
            (inputs ++ [(lit, i)]) (lit + 2)
        else None
      else
        if Z.of_nat (length caps) <? g_cap_count game then
          init_inputs data game aps uap_to_lit (caps ++ [i]) inputs lit
        else None
  end.

(** The loops [var_to_lit[bddvar] = lits[i]] for [i < n] over a variable
    set; an empty set or an element of [lits] that was never written ends
    the run. *)
Fixpoint set_vars (vars lits : list Z) (n : nat) (v2l : gmap Z Z)
    {struct n} : option (gmap Z Z) :=
  match n with
  | O => Some v2l
  | S n =>
      match vars, lits with
      | bddvar :: vars, l :: lits => set_vars vars lits n (<[bddvar := l]> v2l)
      | _, _ => None
      end
  end.

(** The allocation of the literals in the constructor. *)
Definition AIGmaker_init (data : HoaData) (game : SymGame) : option Allocation :=
  '(uap_to_lit, caps, inputs, lit) ←
    init_inputs data game (seqZ 0 (noAPs data)) [] [] [] 2;
  let state_to_lit := (fun i => lit + 2 * i) <$> seqZ 0 (g_statebits game) in
  let lit := lit + 2 * Z.of_nat (length state_to_lit) in
  v2l ← set_vars (g_s_vars game) state_to_lit (Z.to_nat (g_statebits game)) ∅;
  v2l ← set_vars (g_uap_vars game) uap_to_lit (Z.to_nat (g_uap_count game)) v2l;
  Some {| al_maker := {| lit := lit; ands := []; cache := ∅; mapping := ∅;
                         var_to_lit := v2l |};
          al_inputs := inputs;
          al_uap_to_lit := uap_to_lit;
          al_caps := caps;
          al_state_to_lit := state_to_lit |}.

(** The game of [toggle_data] with one state bit: DD variable 0 for the
    state, 1 for the uncontrollable AP. *)
Definition toggle_game : SymGame :=
  {| g_uap_count := 1; g_cap_count := 1; g_statebits := 1;
     g_s_vars := [0]; g_uap_vars := [1] |}.

(** ** The naive game as a graph *)



(** ** Compression: [AIGmaker::compress] *)

(** The commands of one compression round. *)
Definition compressCommands : list string :=
  [ "balance -l"; "resub -K 6 -l"; "rewrite -l"; "resub -K 6 -N 2";
    "refactor -l"; "resub -K 8 -l"; "balance -l"; "resub -K 8 -N 2 -l";
    "rewrite -l"; "resub -K 10 -l"; "rewrite -z -l"; "resub -K 10 -N 2 -l";
    "balance -l"; "resub -K 12 -l"; "refactor -z -l"; "resub -K 12 -N 2 -l";
    "balance -l"; "rewrite -z -l"; "balance -l" ]%string.

(** The value fits in an [int]. *)
Definition int_ok (z : Z) : bool := (- 2 ^ 31 <=? z) && (z <? 2 ^ 31).

Section Compress.
(** ABC is not part of src.  Its frame is a state of type [Abc];
    [Cmd_CommandExecute] runs a command on it and gives no frame when ABC
    reports a failure; [Abc_NtkNodeNum] is the size of the current network;
    [writeToAbc] starts a frame from the circuit and [readFromAbc] reads the
    circuit back, both through a temporary file, and give nothing when a
    step of theirs throws. *)
Context {Abc Aiger : Type}.
Context (Cmd_CommandExecute : string -> Abc -> option Abc)
        (Abc_NtkNodeNum : Abc -> Z)
        (writeToAbc : Aiger -> option Abc)
        (readFromAbc : Abc -> option Aiger).

(** [executeAbcCommand] throws when the command fails. *)
Definition executeAbcCommand (pAbc : Abc) (command : string) : option Abc :=
  Cmd_CommandExecute command pAbc.

Definition executeCompressCommands (pAbc : Abc) : option Abc :=
  fold_opt executeAbcCommand compressCommands pAbc.

(** The loop of [compress]; the fuel bounds the number of rounds.  An
    overflow of the [int] arithmetic gives no result. *)
Fixpoint compress_loop (fuel : nat) (old_num_nodes new_num_nodes : Z)
    (pAbc : Abc) : option Abc :=
  if (0 <? new_num_nodes) && (new_num_nodes <? old_num_nodes) then
    match fuel with
    | O => None
    | S fuel =>
        pAbc ← executeCompressCommands pAbc;
        let old_num_nodes := new_num_nodes in
        let new_num_nodes := Abc_NtkNodeNum pAbc in
        if negb (int_ok (old_num_nodes - new_num_nodes)) then None
        else if old_num_nodes - new_num_nodes <? old_num_nodes `quot` 20
        then Some pAbc
        else compress_loop fuel old_num_nodes new_num_nodes pAbc
    end
  else Some pAbc.

Definition AIGmaker_compress (fuel : nat) (a : Aiger) : option Aiger :=
  pAbc ← writeToAbc a;
  let new_num_nodes := Abc_NtkNodeNum pAbc in
  if negb (int_ok (new_num_nodes + 1)) then None
  else
    pAbc ← compress_loop fuel (new_num_nodes + 1) new_num_nodes pAbc;
    readFromAbc pAbc.

(** The rounds [ss] that follow each other from [s]: each is the result of
    the commands on the one before, and every round but the last has made
    the network smaller, by a twentieth of its size or more. *)
Definition rounds_from (s : Abc) (ss : list Abc) : Prop :=
  forall (i : nat) x y, (s :: ss) !! i = Some x -> ss !! i = Some y ->
    executeCompressCommands x = Some y
    /\ ((S i < length ss)%nat ->
        Abc_NtkNodeNum y < Abc_NtkNodeNum x
        /\ Abc_NtkNodeNum x `quot` 20 <= Abc_NtkNodeNum x - Abc_NtkNodeNum y).

End Compress.

(** A frame that is the size of its network, with commands that take a
    tenth off and one more. *)
Definition x0_exec (c : string) (s : Z) : option Z := Some (s - s `quot` 10 - 1).
Definition x0_size (s : Z) : Z := Z.max 0 (Z.min s 1000).

(** * Theorems *)

(** ** Priority adjustment *)

Lemma adjustPriority_unfold p mx odd k :
  adjustPriority p mx odd k =
  (if mx then p else 2 * ((k + 1) ÷ 2) - p) + 2 - (if odd then 1 else 0).
Proof. unfold adjustPriority. destruct mx, odd; simpl; lia. Qed.

Lemma ceil_half_succ k :
  0 <= k -> 2 * ceil_half (k + 1) = 2 * ((k + 1) ÷ 2) + (if Z.even k then 2 else 0).
Proof.
  intros Hk. unfold ceil_half.
  rewrite Z.quot_div_nonneg by lia.
  destruct (Z.even k) eqn:He.
  - apply Z.even_spec in He as [m ->].
    replace (2 * m + 1 + 1) with ((m + 1) * 2) by lia.
    rewrite Z.div_mul by lia.
    replace (2 * m + 1) with (1 + m * 2) by lia.
    rewrite Z.div_add by lia. change (1 `div` 2) with 0. lia.
  - assert (Ho : Z.odd k = true) by (rewrite <- Z.negb_even, He; done).
    apply Z.odd_spec in Ho as [m ->].
    replace (2 * m + 1 + 1 + 1) with (1 + (m + 1) * 2) by lia.
    rewrite Z.div_add by lia.
    replace (2 * m + 1 + 1) with ((m + 1) * 2) by lia.
    rewrite Z.div_mul by lia. change (1 `div` 2) with 0. lia.
Qed.

(** The intermediate values of [adjustPriority] and its result are
    [int]s. *)
Lemma adjustPriority_in_int (p : Z) (mx odd : bool) (k : Z) :
  0 <= p <= k -> k + 3 < 2 ^ 31 ->
  0 <= k + 1 < 2 ^ 31
  /\ 0 <= 2 * ((k + 1) ÷ 2) <= k + 1
  /\ 0 <= 2 * ((k + 1) ÷ 2) - p
  /\ 0 <= (if mx then p else 2 * ((k + 1) ÷ 2) - p) + 2 < 2 ^ 31
  /\ 1 <= adjustPriority p mx odd k < 2 ^ 31.
Proof.
  intros Hp Hk. rewrite adjustPriority_unfold.
  rewrite Z.quot_div_nonneg by lia.
  pose proof (Z.div_mod (k + 1) 2 ltac:(lia)).
  pose proof (Z.mod_pos_bound (k + 1) 2 ltac:(lia)).
  destruct mx, odd; lia.
Qed.

(** C2, as amended: for priorities and numbers of acceptance sets that keep
    the arithmetic within [int] ([0 <= p <= noPriorities],
    [noPriorities + 3 < 2^31]), the code rounds [(noPriorities+1)/2] down,
    not up, so the pivot of the min-to-max flip is the least even number
    that is at least [noPriorities].  The result is the specification's
    ceiling formula minus 2 exactly when the automaton is min-parity and
    [noPriorities] is even; with three acceptance sets (priorities 0, 1,
    2), min-parity and an odd controller the adjusted priorities are 5, 4,
    3. *)
Theorem adjustPriority_rounds_down p mx odd k :
  0 <= p <= k ->
  k + 3 < 2 ^ 31 ->
  adjustPriority p mx odd k
  = (if mx then p else 2 * ((k + 1) `div` 2) - p) + 2 - (if odd then 1 else 0)
  /\ adjustPriority p mx odd k
     = adjustPriority_spec p mx odd k
       - (if mx then 0 else if Z.even k then 2 else 0)
  /\ 1 <= adjustPriority p mx odd k < 2 ^ 31
  /\ (fun q => adjustPriority q false true 3) <$> [0; 1; 2] = [5; 4; 3].
Proof.
  intros Hp Hk.
  destruct (adjustPriority_in_int p mx odd k Hp Hk) as (_ & _ & _ & _ & Hr).
  split; [|split; [|split; [exact Hr|reflexivity]]].
  - rewrite adjustPriority_unfold. rewrite Z.quot_div_nonneg by lia. done.
  - rewrite adjustPriority_unfold.
    unfold adjustPriority_spec. destruct mx; [lia|].
    rewrite ceil_half_succ by lia. destruct (Z.even k); lia.
Qed.

Lemma adjustPriority_rounds_down_witness :
  adjustPriority 1 false true 2 = 2
  /\ adjustPriority 1 false true 2 = adjustPriority_spec 1 false true 2 - 2.
Proof.
  destruct (adjustPriority_rounds_down 1 false true 2 ltac:(lia) ltac:(lia))
    as (H1 & H2 & _).
  split; [exact H1 | exact H2].
Defined.

(** The claim as written fails: for two acceptance sets the ceiling formula
    is off by two, and for priorities 0, 1, 2 the code does not produce
    [{3,2,1}+2-1]. *)
Lemma adjustPriority_ceiling_counterexample :
  ~ (forall p mx odd k, 0 <= p <= k ->
       adjustPriority p mx odd k = adjustPriority_spec p mx odd k)
  /\ (fun q => adjustPriority q false true 3) <$> [0; 1; 2]
     <> [3 + 2 - 1; 2 + 2 - 1; 1 + 2 - 1]
  /\ (fun q => adjustPriority q false true 2) <$> [0; 1; 2]
     <> [3 + 2 - 1; 2 + 2 - 1; 1 + 2 - 1].
Proof.
  split; [|split].
  - intros H. specialize (H 0 false false 2 ltac:(lia)). vm_compute in H. done.
  - vm_compute. done.
  - vm_compute. done.
Qed.

(** Every adjusted priority is at least 1 (priority 0 stays reserved). *)
Lemma adjustPriority_pos p mx odd k :
  0 <= p <= k -> 1 <= adjustPriority p mx odd k.
Proof.
  intros Hp. rewrite adjustPriority_unfold.
  destruct mx, odd; try lia.
  all: rewrite Z.quot_div_nonneg by lia.
  all: pose proof (Z.div_mod (k + 1) 2 ltac:(lia)).
  all: pose proof (Z.mod_pos_bound (k + 1) 2 ltac:(lia)); lia.
Qed.

(** ** Label evaluation *)

Lemma land_pow2_testbit i v :
  0 <= i -> Z.land (2 ^ i) v = if Z.testbit v i then 2 ^ i else 0.
Proof.
  intros Hi. apply Z.bits_inj'. intros n Hn.
  rewrite Z.land_spec, Z.pow2_bits_eqb by lia.
  destruct (Z.eqb_spec i n) as [->|Hne].
  - destruct (Z.testbit v n) eqn:E; simpl.
    + rewrite Z.pow2_bits_eqb, Z.eqb_refl by lia. done.
    + rewrite Z.bits_0. done.
  - simpl. destruct (Z.testbit v i).
    + rewrite Z.pow2_bits_eqb by lia. symmetry. by apply Z.eqb_neq.
    + by rewrite Z.bits_0.
Qed.

Lemma shl64_pow2 i : 0 <= i -> i + 1 < 64 -> shl64 (2 ^ i) 1 = 2 ^ (i + 1).
Proof.
  intros Hi Hlt. unfold shl64, two64.
  rewrite Z.shiftl_mul_pow2 by lia.
  rewrite <- Z.pow_add_r by lia.
  apply Z.mod_small. split; [apply Z.pow_nonneg; lia|].
  apply Z.pow_lt_mono_r; lia.
Qed.

Lemma evalAP_listed id value apIds :
  forall i mask j,
    0 <= i -> i + Z.of_nat (length apIds) <= 64 ->
    (apIds <> [] -> mask = 2 ^ i) ->
    ap_index id apIds i = Some j ->
    evalAP id apIds mask value = truth_value (Z.testbit value j).
Proof.
  induction apIds as [|a rest IH]; intros i mask j Hi Hlen Hmask Hidx;
    simpl in *; [done|].
  assert (mask = 2 ^ i) as -> by (apply Hmask; discriminate).
  destruct (id =? a).
  - injection Hidx as <-.
    rewrite land_pow2_testbit by lia.
    assert (0 < 2 ^ i) by (apply Z.pow_pos_nonneg; lia).
    destruct (Z.testbit value i).
    + by rewrite Z.eqb_refl.
    + replace (0 =? 2 ^ i) with false; [done|].
      symmetry. apply Z.eqb_neq. lia.
  - apply (IH (i + 1)); [lia | lia | | done].
    intros Hne. apply shl64_pow2; [lia|].
    destruct rest; [done | simpl in Hlen; lia].
Qed.

Lemma evalAP_range id apIds mask value :
  -1 <= evalAP id apIds mask value <= 1.
Proof.
  revert mask. induction apIds as [|a rest IH]; intros mask; simpl; [lia|].
  destruct (id =? a); [|apply IH].
  destruct (_ =? mask); lia.
Qed.

Lemma evalLabelNaive_range fuel label aliases apIds value r :
  evalLabelNaive fuel label aliases apIds value = Some r -> -2 <= r <= 2.
Proof.
  revert label r. induction fuel as [|fuel IH]; intros label r H; [done|].
  destruct label; simpl in H.
  - injection H as <-. destruct (id =? 0); lia.
  - destruct (evalLabelNaive fuel label1 _ _ _) as [a|]; [|done].
    destruct (evalLabelNaive fuel label2 _ _ _) as [b|]; [|done].
    simpl in H. injection H as <-.
    destruct (_ || _); [lia|]. destruct (_ || _); lia.
  - destruct (evalLabelNaive fuel label1 _ _ _) as [a|]; [|done].
    destruct (evalLabelNaive fuel label2 _ _ _) as [b|]; [|done].
    simpl in H. injection H as <-.
    destruct (_ || _); [lia|]. destruct (_ || _); lia.
  - destruct (evalLabelNaive fuel label _ _ _) as [a|] eqn:E; [|done].
    simpl in H. injection H as <-. apply IH in E. lia.
  - injection H as <-. pose proof (evalAP_range id apIds 1 value). lia.
  - destruct (find_alias aliases alias0) as [e|]; [by apply IH in H|].
    injection H as <-. lia.
Qed.

Lemma evalLabelNaive_two_valued fuel label aliases apIds value b :
  (length apIds <= 64)%nat ->
  label_truth fuel label aliases apIds value = Some b ->
  evalLabelNaive fuel label aliases apIds value = Some (truth_value b).
Proof.
  intros Hlen. revert label b.
  induction fuel as [|fuel IH]; intros label b H; [done|].
  destruct label; simpl in *.
  - injection H as <-. by destruct (id =? 0).
  - destruct (label_truth fuel label1 _ _ _) as [x|] eqn:E1; [|done].
    destruct (label_truth fuel label2 _ _ _) as [y|] eqn:E2; [|done].
    simpl in H. injection H as <-.
    rewrite (IH _ _ E1), (IH _ _ E2). by destruct x, y.
  - destruct (label_truth fuel label1 _ _ _) as [x|] eqn:E1; [|done].
    destruct (label_truth fuel label2 _ _ _) as [y|] eqn:E2; [|done].
    simpl in H. injection H as <-.
    rewrite (IH _ _ E1), (IH _ _ E2). by destruct x, y.
  - destruct (label_truth fuel label _ _ _) as [x|] eqn:E1; [|done].
    simpl in H. injection H as <-.
    rewrite (IH _ _ E1). by destruct x.
  - destruct (ap_index id apIds 0) as [j|] eqn:E; [|done].
    simpl in H. injection H as <-. f_equal.
    apply (evalAP_listed id value apIds 0 1 j); [lia | lia | done | done].
  - destruct (find_alias aliases alias0) as [e|]; [|done].
    simpl in H. by apply IH.
Qed.

(** C10: the code breaks the claim, and the documentation of the function
    ("Returns -2 if there is a problem"), on the negation of an alias that
    is not defined: the alias evaluates to the problem value -2, the NOT
    node multiplies it by -1, and the result is 2, which is none of -2, -1,
    0 and 1. *)
Theorem evalLabelNaive_not_undefined_alias :
  evalLabelNaive 1 (NT_ALIAS "x") [] [] 0 = Some (-2)
  /\ evalLabelNaive 2 (NT_NOT (NT_ALIAS "x")) [] [] 0 = Some 2
  /\ 2 ∉ [-2; -1; 0; 1].
Proof.
  split; [reflexivity|]. split; [reflexivity|].
  rewrite !elem_of_cons, elem_of_nil. lia.
Qed.

(** ** The gate cache of [makeand] *)

Lemma land_shiftl_small a b n :
  0 <= n -> 0 <= a < 2 ^ n -> Z.land (Z.shiftl b n) a = 0.
Proof.
  intros Hn Ha. apply Z.bits_inj'. intros k Hk.
  rewrite Z.land_spec, Z.bits_0.
  destruct (decide (k < n)).
  - by rewrite Z.shiftl_spec_low by lia.
  - rewrite <- (Z.mod_small a (2 ^ n)) by lia.
    rewrite Z.mod_pow2_bits_high by lia. apply andb_false_r.
Qed.

Lemma cache_key_literals a b :
  is_literal a -> is_literal b -> cache_key a b = b * 2 ^ 32 + a.
Proof.
  unfold is_literal, cache_key, shl64, u64, two64. intros Ha Hb.
  rewrite (Z.mod_small a), (Z.mod_small b) by lia.
  rewrite Z.shiftl_mul_pow2 by lia.
  rewrite (Z.mod_small (b * 2 ^ 32)) by lia.
  rewrite <- Z.shiftl_mul_pow2 by lia.
  rewrite <- Z.lxor_lor by (apply land_shiftl_small; lia).
  rewrite <- Z.add_nocarry_lxor by (apply land_shiftl_small; lia).
  done.
Qed.

Lemma cache_key_inj a b a' b' :
  is_literal a -> is_literal b -> is_literal a' -> is_literal b' ->
  cache_key a b = cache_key a' b' -> a = a' /\ b = b'.
Proof.
  intros Ha Hb Ha' Hb'. rewrite !cache_key_literals by done.
  unfold is_literal in *. lia.
Qed.

Lemma makeand_comm a b m : makeand a b m = makeand b a m.
Proof.
  unfold makeand.
  destruct (Z.ltb_spec b a), (Z.ltb_spec a b); try lia; try done.
  by replace b with a by lia.
Qed.

Lemma makeand_false a m : 0 <= a -> makeand 0 a m = (0, m).
Proof.
  intros Ha. unfold makeand.
  destruct (Z.ltb_spec a 0); [lia|]. done.
Qed.

Lemma makeand_true a m : 0 <= a -> makeand 1 a m = (a, m).
Proof.
  intros Ha. unfold makeand.
  destruct (Z.ltb_spec a 1).
  - by replace a with 0 by lia.
  - done.
Qed.

Lemma cache_inv_init m : ands m = [] -> cache m = ∅ -> cache_inv m.
Proof.
  intros Ha Hc. split; rewrite Ha.
  - intros g Hg. by apply elem_of_nil in Hg.
  - intros a b l _ _. rewrite Hc, lookup_empty. split; [done|].
    intros Hg. by apply elem_of_nil in Hg.
  - constructor.
Qed.

(** [makeand] on two normalised literals, the smaller of which is not a
    constant. *)
Lemma makeand_normalised a b m :
  a <= b -> 2 <= a ->
  makeand a b m =
  match cache m !! cache_key a b with
  | Some c => (c, m)
  | None =>
      (lit m,
       {| lit := lit m + 2;
          ands := ands m ++ [mkAnd (lit m) a b];
          cache := <[cache_key a b := lit m]> (cache m);
          mapping := mapping m;
          var_to_lit := var_to_lit m |})
  end.
Proof.
  intros Hab Ha. unfold makeand.
  destruct (Z.ltb_spec b a); [lia|].
  destruct (Z.eqb_spec a 0); [lia|].
  destruct (Z.eqb_spec a 1); [lia|]. done.
Qed.

Lemma cache_inv_insert a b m :
  cache_inv m -> is_literal a -> is_literal b -> a <= b -> 2 <= a ->
  cache m !! cache_key a b = None ->
  cache_inv
    {| lit := lit m + 2;
       ands := ands m ++ [mkAnd (lit m) a b];
       cache := <[cache_key a b := lit m]> (cache m);
       mapping := mapping m;
       var_to_lit := var_to_lit m |}.
Proof.
  intros [Hg Hl Hn] Ha Hb Hab H2 Hmiss. split; simpl.
  - intros g [Hin| ->%list_elem_of_singleton]%elem_of_app; [by apply Hg|].
    simpl. unfold is_literal in Hb. lia.
  - intros a' b' l Ha' Hb'. rewrite elem_of_app, list_elem_of_singleton.
    destruct (decide (cache_key a b = cache_key a' b')) as [Heq|Hne].
    + apply cache_key_inj in Heq as [<- <-]; [|done..].
      rewrite lookup_insert_eq. split.
      * intros [= <-]. by right.
      * intros [Hin|[= ->]]; [|done].
        apply Hl in Hin; [|done..]. congruence.
    + rewrite lookup_insert_ne by done. rewrite Hl by done.
      split; [by left|]. intros [Hin|[= -> -> ->]]; done.
  - rewrite fmap_app. apply NoDup_app. split; [done|]. split.
    + intros p Hp [= ->]%list_elem_of_singleton.
      apply list_elem_of_fmap in Hp as (g & Hgi & Hin).
      destruct g as [l a' b']. unfold gate_inputs in Hgi. simpl in Hgi.
      injection Hgi as <- <-.
      apply Hl in Hin; [|done..]. congruence.
    + apply NoDup_singleton.
Qed.

Lemma makeand_cache_inv a b m :
  cache_inv m -> is_literal a -> is_literal b -> cache_inv (makeand a b m).2.
Proof.
  intros Hinv Ha Hb.
  assert (Hnorm : forall x y, is_literal x -> is_literal y -> x <= y ->
            cache_inv (makeand x y m).2).
  { intros x y Hx Hy Hxy.
    destruct (decide (x = 0)) as [->|]; [by rewrite makeand_false by apply Hy|].
    destruct (decide (x = 1)) as [->|]; [by rewrite makeand_true by apply Hy|].
    assert (2 <= x) by (unfold is_literal in Hx; lia).
    rewrite makeand_normalised by done.
    destruct (cache m !! cache_key x y) eqn:E; [done|].
    by apply cache_inv_insert. }
  destruct (decide (a <= b)); [by apply Hnorm|].
  rewrite makeand_comm. apply Hnorm; [done..|lia].
Qed.

Lemma makeand_reachable_inv m : makeand_reachable m -> cache_inv m.
Proof.
  induction 1 as [m Ha Hc|m a b _ IH Ha Hb].
  - by apply cache_inv_init.
  - by apply makeand_cache_inv.
Qed.

(** A pair that already has a gate gets that gate back, and nothing is
    added. *)
Lemma makeand_hit a b m g :
  cache_inv m -> is_literal a -> is_literal b ->
  g ∈ ands m -> rhs0 g = Z.min a b -> rhs1 g = Z.max a b ->
  makeand a b m = (lhs g, m).
Proof.
  intros Hinv Ha Hb Hg.
  assert (Hnorm : forall x y, is_literal x -> is_literal y -> x <= y ->
            rhs0 g = x -> rhs1 g = y -> makeand x y m = (lhs g, m));
    [|intros H0 H1].
  { intros x y Hx Hy Hxy Hgx Hgy.
    pose proof (cache_inv_gates m Hinv g Hg) as Hb2.
    rewrite makeand_normalised by lia.
    destruct g as [l x' y']. simpl in *. subst x' y'.
    apply (proj2 (cache_inv_lookup m Hinv _ _ _ Hx Hy)) in Hg.
    by rewrite Hg. }
  destruct (decide (a <= b)).
  - apply Hnorm; [done..|lia|lia].
  - rewrite makeand_comm. apply Hnorm; [done..|lia|lia|lia].
Qed.

(** C6: after any sequence of [makeand] calls no two gates of the AND table
    have the same normalised input pair; the inputs of every gate are
    ordered; [makeand (0, x)] is 0 and [makeand (1, x)] is [x], both without
    a new gate; a pair that has a gate gets the literal of that gate, again
    without a new gate; and [makeand] is symmetric. *)
Theorem makeand_structural_uniqueness m :
  makeand_reachable m ->
  NoDup (gate_inputs <$> ands m)
  /\ Forall (fun g => rhs0 g <= rhs1 g) (ands m)
  /\ forall a b, is_literal a -> is_literal b ->
       makeand 0 a m = (0, m)
       /\ makeand 1 a m = (a, m)
       /\ makeand a b m = makeand b a m
       /\ (forall g, g ∈ ands m ->
             rhs0 g = Z.min a b -> rhs1 g = Z.max a b ->
             makeand a b m = (lhs g, m))
       /\ (forall c, cache m !! cache_key (Z.min a b) (Z.max a b) = Some c ->
             2 <= Z.min a b -> makeand a b m = (c, m)).
Proof.
  intros Hr. pose proof (makeand_reachable_inv m Hr) as Hinv.
  split; [apply Hinv|]. split.
  { apply Forall_forall. intros g Hg.
    pose proof (cache_inv_gates m Hinv g Hg). lia. }
  intros a b Ha Hb. split; [apply makeand_false, Ha|].
  split; [apply makeand_true, Ha|].
  split; [apply makeand_comm|]. split.
  - intros g. by apply makeand_hit.
  - intros c Hc H2. destruct (decide (a <= b)).
    + rewrite Z.min_l, Z.max_r in Hc by lia.
      rewrite makeand_normalised by lia. by rewrite Hc.
    + rewrite Z.min_r, Z.max_l in Hc by lia.
      rewrite makeand_comm, makeand_normalised by lia. by rewrite Hc.
Qed.

Lemma is_literal_2 : is_literal 2.
Proof. unfold is_literal. lia. Qed.

Lemma is_literal_4 : is_literal 4.
Proof. unfold is_literal. lia. Qed.

Lemma makeand_structural_uniqueness_witness :
  NoDup (gate_inputs <$> ands gate_twice)
  /\ makeand 4 2 gate_twice = makeand 2 4 gate_twice.
Proof.
  assert (Hr : makeand_reachable gate_twice).
  { apply reachable_makeand; [apply reachable_makeand|..];
      [by apply reachable_init|apply is_literal_2 || apply is_literal_4..]. }
  destruct (makeand_structural_uniqueness gate_twice Hr) as (Hn & _ & Hall).
  split; [exact Hn|].
  destruct (Hall 4 2 is_literal_4 is_literal_2) as (_ & _ & Hc & _).
  exact Hc.
Defined.

(** ** What the literals compute *)

Lemma lxor_1_even l : Z.even l = true -> Z.lxor l 1 = l + 1.
Proof.
  intros He. rewrite <- Z.add_nocarry_lxor; [done|].
  change 1 with (Z.ones 1). rewrite Z.land_ones by lia.
  change (2 ^ 1) with 2. rewrite Zmod_even, He. done.
Qed.

Lemma lxor_1_odd l : Z.odd l = true -> Z.lxor l 1 = l - 1.
Proof.
  intros Ho.
  assert (He : Z.even (l - 1) = true).
  { rewrite Z.even_sub. rewrite <- Z.negb_odd, Ho. done. }
  replace l with ((l - 1) + 1) at 1 by lia.
  rewrite <- (lxor_1_even (l - 1)) by done.
  rewrite Z.lxor_assoc, Z.lxor_nilpotent, Z.lxor_0_r. done.
Qed.

Lemma aiger_not_cases l :
  aiger_not l = if Z.odd l then l - 1 else l + 1.
Proof.
  unfold aiger_not. destruct (Z.odd l) eqn:Ho.
  - by apply lxor_1_odd.
  - apply lxor_1_even. by rewrite <- Z.negb_odd, Ho.
Qed.

Lemma aiger_not_involutive l : aiger_not (aiger_not l) = l.
Proof.
  unfold aiger_not.
  by rewrite Z.lxor_assoc, Z.lxor_nilpotent, Z.lxor_0_r.
Qed.

Lemma aiger_not_odd l : Z.odd (aiger_not l) = negb (Z.odd l).
Proof.
  rewrite aiger_not_cases. destruct (Z.odd l) eqn:Ho.
  - rewrite Z.odd_sub, Ho. done.
  - rewrite Z.odd_add, Ho. done.
Qed.

Lemma aiger_not_var l : aiger_lit2var (aiger_not l) = aiger_lit2var l.
Proof.
  unfold aiger_lit2var. rewrite !Z.shiftr_div_pow2 by lia.
  change (2 ^ 1) with 2. rewrite aiger_not_cases.
  pose proof (Zmod_odd l) as Hm. pose proof (Z.div_mod l 2 ltac:(lia)) as Hd.
  destruct (Z.odd l); simpl in Hm; symmetry.
  - apply Z.div_unique with (r := 0); lia.
  - apply Z.div_unique with (r := 1); lia.
Qed.

Lemma lit_value_not nv l : lit_value nv (aiger_not l) = negb (lit_value nv l).
Proof.
  unfold lit_value. rewrite aiger_not_var, aiger_not_odd.
  by destruct (nv _), (Z.odd l).
Qed.

Lemma aig_value_not m inp l : aig_value m inp (aiger_not l) = negb (aig_value m inp l).
Proof. apply lit_value_not. Qed.

Lemma lit_ok_not m l : Z.even (lit m) = true -> lit_ok m l -> lit_ok m (aiger_not l).
Proof.
  unfold lit_ok. intros He Hl. rewrite aiger_not_cases.
  destruct (Z.odd l) eqn:Ho.
  - assert (l <> 0) by (intros ->; discriminate Ho). lia.
  - assert (l + 1 <> lit m); [|lia].
    intros Heq. rewrite <- Heq, Z.even_add, <- Z.negb_odd, Ho in He. done.
Qed.

Lemma aiger_eval_snoc inp gs g v :
  aiger_eval inp (gs ++ [g]) v = and_step (aiger_eval inp gs) g v.
Proof. unfold aiger_eval. by rewrite fold_left_app. Qed.

Lemma lit2var_below l L :
  Z.even L = true -> 0 <= l < L -> aiger_lit2var l <> aiger_lit2var L.
Proof.
  intros He Hl. unfold aiger_lit2var. rewrite !Z.shiftr_div_pow2 by lia.
  change (2 ^ 1) with 2.
  pose proof (Zmod_even L) as Hm. rewrite He in Hm.
  pose proof (Z.div_mod L 2 ltac:(lia)).
  pose proof (Z.div_mod l 2 ltac:(lia)).
  pose proof (Z.mod_pos_bound l 2 ltac:(lia)). lia.
Qed.

Lemma aig_value_true m inp :
  aig_inv m -> aig_value m inp aiger_true = true.
Proof.
  intros Hinv. change aiger_true with (aiger_not aiger_false).
  by rewrite aig_value_not, (inv_false m Hinv).
Qed.

Lemma aig_extends_refl m : aig_extends m m.
Proof. by split. Qed.

Lemma aig_extends_trans m1 m2 m3 :
  aig_extends m1 m2 -> aig_extends m2 m3 -> aig_extends m1 m3.
Proof.
  intros [L1 V1 E1] [L2 V2 E2]. split; [lia|congruence|].
  intros l inp Hl. rewrite E2, E1; [done..|]. unfold lit_ok in *. lia.
Qed.

Lemma dd_env_extends m m' inp : aig_extends m m' -> dd_env m' inp = dd_env m inp.
Proof. intros [_ Hv _]. unfold dd_env. by rewrite Hv. Qed.

(** Appending a gate for the next free literal. *)
Lemma add_gate_extends m a b :
  Z.even (lit m) = true ->
  aig_extends m
    {| lit := lit m + 2;
       ands := ands m ++ [mkAnd (lit m) a b];
       cache := <[cache_key a b := lit m]> (cache m);
       mapping := mapping m;
       var_to_lit := var_to_lit m |}.
Proof.
  intros He. split; simpl; [lia|done|].
  intros l inp Hl. unfold aig_value, lit_value. simpl.
  rewrite aiger_eval_snoc. unfold and_step. simpl.
  destruct (Z.eqb_spec (aiger_lit2var l) (aiger_lit2var (lit m))) as [E|]; [|done].
  by apply lit2var_below in E.
Qed.

Lemma add_gate_value m a b inp :
  aig_value
    {| lit := lit m + 2;
       ands := ands m ++ [mkAnd (lit m) a b];
       cache := <[cache_key a b := lit m]> (cache m);
       mapping := mapping m;
       var_to_lit := var_to_lit m |} inp (lit m)
  = if Z.odd (lit m)
    then negb (aig_value m inp a && aig_value m inp b)
    else aig_value m inp a && aig_value m inp b.
Proof.
  unfold aig_value at 1, lit_value at 1. simpl.
  rewrite aiger_eval_snoc. unfold and_step. simpl.
  rewrite Z.eqb_refl. unfold aig_value.
  destruct (Z.odd (lit m)); [|by rewrite xorb_false_r].
  by rewrite xorb_true_r.
Qed.

Lemma lit_ok_literal m l : lit m < 2 ^ 31 -> lit_ok m l -> is_literal l.
Proof. unfold lit_ok, is_literal. lia. Qed.

Lemma makeand_sound_normalised a b m :
  aig_inv m -> lit_ok m a -> lit_ok m b -> a <= b ->
  lit (makeand a b m).2 < 2 ^ 31 ->
  aig_inv (makeand a b m).2
  /\ aig_extends m (makeand a b m).2
  /\ lit_ok (makeand a b m).2 (makeand a b m).1
  /\ mapping (makeand a b m).2 = mapping m
  /\ forall inp, aig_value (makeand a b m).2 inp (makeand a b m).1
                 = aig_value m inp a && aig_value m inp b.
Proof.
  intros Hinv Ha Hb Hab.
  pose proof (inv_lit_range m Hinv) as Hrange.
  assert (Hla : is_literal a) by (apply (lit_ok_literal m); [lia|done]).
  assert (Hlb : is_literal b) by (apply (lit_ok_literal m); [lia|done]).
  destruct (decide (a = 0)) as [->|].
  { rewrite makeand_false by apply Hb. cbn [fst snd]. intros _.
    split; [done|]. split; [apply aig_extends_refl|]. split; [done|].
    split; [done|]. intros inp.
    pose proof (inv_false m Hinv inp) as Hf. unfold aiger_false in Hf.
    by rewrite Hf. }
  destruct (decide (a = 1)) as [->|].
  { rewrite makeand_true by apply Hb. cbn [fst snd]. intros _.
    split; [done|]. split; [apply aig_extends_refl|]. split; [done|].
    split; [done|]. intros inp.
    pose proof (aig_value_true m inp Hinv) as Ht. unfold aiger_true in Ht.
    by rewrite Ht. }
  assert (2 <= a) by (unfold lit_ok in Ha; lia).
  rewrite makeand_normalised by done.
  destruct (cache m !! cache_key a b) as [c|] eqn:Hc; simpl.
  { intros _. destruct (inv_cache m Hinv a b c Hla Hlb Hc) as (Hok & _ & _ & Hv).
    split; [done|]. split; [apply aig_extends_refl|]. done. }
  intros Hlit.
  pose proof (add_gate_extends m a b (inv_lit_even m Hinv)) as Hext.
  pose proof (add_gate_value m a b) as Hval.
  rewrite <- Z.negb_even, (inv_lit_even m Hinv) in Hval. simpl in Hval.
  set (m' := {| lit := lit m + 2 |}) in *.
  split; [|split; [done|]; split; [unfold lit_ok; simpl; lia|]; split; [done|];
           exact Hval].
  split; simpl.
  - rewrite Z.even_add, (inv_lit_even m Hinv). done.
  - lia.
  - intros inp. rewrite (ext_value m m' Hext); [apply Hinv|].
    unfold lit_ok, aiger_false. lia.
  - intros a' b' l Ha' Hb'.
    destruct (decide (cache_key a b = cache_key a' b')) as [Heq|Hne].
    + apply cache_key_inj in Heq as [<- <-]; [|done..].
      rewrite lookup_insert_eq. intros [= <-].
      assert (Hsub : forall x, lit_ok m x -> lit_ok m' x)
        by (unfold lit_ok; simpl; lia).
      split; [unfold lit_ok; simpl; lia|].
      split; [by apply Hsub|]. split; [by apply Hsub|].
      intros inp. rewrite Hval.
      by rewrite !(ext_value m m' Hext) by done.
    + rewrite lookup_insert_ne by done. intros Hl.
      destruct (inv_cache m Hinv a' b' l Ha' Hb' Hl) as (H1 & H2 & H3 & Hv).
      assert (Hsub : forall x, lit_ok m x -> lit_ok m' x)
        by (unfold lit_ok; simpl; lia).
      split; [by apply Hsub|]. split; [by apply Hsub|].
      split; [by apply Hsub|].
      intros inp. by rewrite !(ext_value m m' Hext) by done.
  - intros v l Hv.
    destruct (inv_vars m Hinv v l Hv) as (He & Hr & Hval').
    split; [done|]. split; [lia|].
    intros inp. rewrite (ext_value m m' Hext); [done|].
    unfold lit_ok. lia.
Qed.

(** What [makeand] computes: a literal of the conjunction; the circuit is
    only extended. *)
Lemma makeand_sound a b m :
  aig_inv m -> lit_ok m a -> lit_ok m b ->
  lit (makeand a b m).2 < 2 ^ 31 ->
  aig_inv (makeand a b m).2
  /\ aig_extends m (makeand a b m).2
  /\ lit_ok (makeand a b m).2 (makeand a b m).1
  /\ mapping (makeand a b m).2 = mapping m
  /\ forall inp, aig_value (makeand a b m).2 inp (makeand a b m).1
                 = aig_value m inp a && aig_value m inp b.
Proof.
  intros Hinv Ha Hb. destruct (decide (a <= b)).
  - by apply makeand_sound_normalised.
  - rewrite makeand_comm. intros Hlit.
    destruct (makeand_sound_normalised b a m) as (H1 & H2 & H3 & H4 & H5);
      [done|done|done|lia|done|].
    split; [done|]. split; [done|]. split; [done|]. split; [done|].
    intros inp. rewrite H5. apply andb_comm.
Qed.

Lemma makeand_lit_mono a b m : lit m <= lit (makeand a b m).2.
Proof.
  unfold makeand. destruct (b <? a).
  all: repeat (match goal with
       | |- context [if ?c then _ else _] => destruct c
       | |- context [match ?c with Some _ => _ | None => _ end] => destruct c
       end; simpl; try lia).
Qed.

(** ** Handles of decision diagrams *)

Lemma sylvan_complement_pow : sylvan_complement = 2 ^ 63.
Proof. reflexivity. Qed.

Lemma testbit_63 bdd : 0 <= bdd < two64 -> Z.testbit bdd 63 = bool_decide (2 ^ 63 <= bdd).
Proof.
  intros Hb. unfold two64 in Hb.
  destruct (Z.testbit bdd 63) eqn:E; symmetry.
  - apply bool_decide_eq_true. apply Z.testbit_true in E; [|lia].
    destruct (decide (2 ^ 63 <= bdd)); [done|].
    rewrite Z.div_small in E by lia. done.
  - apply bool_decide_eq_false. intros Hge.
    apply Z.testbit_false in E; [|lia].
    assert (bdd `div` 2 ^ 63 = 1); [|by rewrite H in E].
    symmetry. apply Z.div_unique with (r := bdd - 2 ^ 63); lia.
Qed.

(** A handle is either unmarked, and then it is its own index, or marked,
    and then removing the mark gives its index. *)
Lemma handle_cases bdd :
  0 <= bdd < two64 ->
  (bdd < sylvan_complement /\ mtbdd_hasmark bdd = false
   /\ mtbdd_index bdd = bdd /\ Z.land bdd sylvan_complement = 0
   /\ Z.lxor bdd sylvan_complement = bdd + sylvan_complement)
  \/ (sylvan_complement <= bdd /\ mtbdd_hasmark bdd = true
      /\ mtbdd_index bdd = bdd - sylvan_complement
      /\ Z.land bdd sylvan_complement = sylvan_complement
      /\ Z.lxor bdd sylvan_complement = bdd - sylvan_complement).
Proof.
  intros Hb. pose proof (testbit_63 bdd Hb) as Ht.
  assert (Hidx : mtbdd_index bdd = bdd `mod` 2 ^ 63).
  { unfold mtbdd_index. rewrite sylvan_complement_pow.
    change (2 ^ 63 - 1) with (Z.ones 63). by rewrite Z.land_ones by lia. }
  assert (Hland : Z.land bdd sylvan_complement
                  = if Z.testbit bdd 63 then 2 ^ 63 else 0).
  { rewrite sylvan_complement_pow, Z.land_comm. by apply land_pow2_testbit. }
  unfold mtbdd_hasmark. rewrite Hidx, Hland, Ht.
  unfold two64 in Hb. rewrite sylvan_complement_pow.
  assert (Hclear : forall x, 0 <= x < 2 ^ 63 -> Z.lxor x (2 ^ 63) = x + 2 ^ 63).
  { intros x Hx. rewrite <- Z.add_nocarry_lxor; [done|].
    rewrite Z.land_comm, land_pow2_testbit by lia.
    rewrite testbit_63 by (unfold two64; lia).
    rewrite bool_decide_eq_false_2 by lia. done. }
  destruct (decide (2 ^ 63 <= bdd)) as [Hge|Hlt].
  - right. rewrite bool_decide_eq_true_2 by done.
    split; [done|]. split; [done|]. split.
    { symmetry. apply Z.mod_unique with (q := 1); lia. }
    split; [done|].
    replace bdd with ((bdd - 2 ^ 63) + 2 ^ 63) at 1 by lia.
    rewrite <- Hclear by lia.
    by rewrite Z.lxor_assoc, Z.lxor_nilpotent, Z.lxor_0_r.
  - left. rewrite bool_decide_eq_false_2 by done.
    split; [lia|]. split; [done|]. split; [apply Z.mod_small; lia|].
    split; [done|]. apply Hclear. lia.
Qed.

Lemma handle_index_range bdd :
  0 <= bdd < two64 -> 0 <= mtbdd_index bdd < sylvan_complement.
Proof.
  intros Hb. rewrite sylvan_complement_pow in *. unfold two64 in *.
  destruct (handle_cases bdd) as [(H1 & _ & -> & _)|(H1 & _ & -> & _)];
    rewrite ?sylvan_complement_pow in *; unfold two64; lia.
Qed.

(** Toggling the mark keeps the index and flips the mark. *)
Lemma handle_toggle bdd :
  0 <= bdd < two64 ->
  0 <= Z.lxor bdd sylvan_complement < two64
  /\ mtbdd_index (Z.lxor bdd sylvan_complement) = mtbdd_index bdd
  /\ mtbdd_hasmark (Z.lxor bdd sylvan_complement) = negb (mtbdd_hasmark bdd).
Proof.
  intros Hb.
  destruct (handle_cases bdd Hb) as [(H1 & Hm & Hi & _ & Hx)|(H1 & Hm & Hi & _ & Hx)];
    rewrite Hx, Hm, Hi; rewrite sylvan_complement_pow in *; unfold two64 in *.
  - destruct (handle_cases (bdd + 2 ^ 63)) as [(H1' & _)|(_ & Hm' & Hi' & _)];
      rewrite ?sylvan_complement_pow in *; unfold two64; try lia.
    rewrite Hm', Hi'. split; [lia|]. split; [lia|done].
  - destruct (handle_cases (bdd - 2 ^ 63)) as [(_ & Hm' & Hi' & _)|(H1' & _)];
      rewrite ?sylvan_complement_pow in *; unfold two64; try lia.
    rewrite Hm', Hi'. split; [lia|]. split; [lia|done].
Qed.

(** ** Heights in a table without cycles *)

Section Height.
Context (idx : Z -> Z) (nodes : gmap Z ddnode).
Context (rank : Z -> nat) (Hrank : dd_descends idx rank nodes).

Lemma dd_height_leaf fuel i : nodes !! i = None -> dd_height idx fuel nodes i = O.
Proof. intros E. destruct fuel; simpl; by rewrite ?E. Qed.

Lemma dd_height_le fuel : forall i, (dd_height idx fuel nodes i <= fuel)%nat.
Proof.
  induction fuel as [|fuel IH]; intros i; simpl; [lia|].
  destruct (nodes !! i); [|lia].
  pose proof (IH (idx (node_low d))). pose proof (IH (idx (node_high d))). lia.
Qed.

(** The nodes below [i] form a set whose size bounds the height of [i]. *)
Lemma dd_height_below r : forall i, (rank i <= r)%nat ->
  exists X : gset Z,
    X ⊆ dom nodes
    /\ (forall j, j ∈ X -> (rank j <= rank i)%nat)
    /\ forall f, (size X <= f)%nat ->
         dd_height idx f nodes i = dd_height idx (size X) nodes i.
Proof.
  induction r as [r IH] using lt_wf_ind. intros i Hr.
  destruct (nodes !! i) as [n|] eqn:E.
  2:{ exists ∅. split; [apply empty_subseteq|].
      split; [intros j Hj; by apply elem_of_empty in Hj|].
      intros f _. by rewrite !dd_height_leaf. }
  assert (Hchild : forall c, c = idx (node_low n) \/ c = idx (node_high n) ->
    exists X : gset Z,
      X ⊆ dom nodes /\ (i ∉ X)
      /\ (forall j, j ∈ X -> (rank j < rank i)%nat)
      /\ forall f, (size X <= f)%nat ->
           dd_height idx f nodes c = dd_height idx (size X) nodes c).
  { intros c Hc. destruct (nodes !! c) as [nc|] eqn:Ec.
    - assert (Hlt : (rank c < rank i)%nat) by (eapply Hrank; eauto).
      destruct (IH (rank c) ltac:(lia) c ltac:(lia)) as (X & Hsub & Hle & Hst).
      exists X. split; [done|]. split.
      { intros Hin. specialize (Hle i Hin). lia. }
      split; [|done]. intros j Hj. specialize (Hle j Hj). lia.
    - exists ∅. split; [apply empty_subseteq|]. split; [apply not_elem_of_empty|].
      split; [intros j Hj; by apply elem_of_empty in Hj|].
      intros f _. by rewrite !dd_height_leaf. }
  destruct (Hchild (idx (node_low n)) ltac:(by left)) as (Xl & Hsl & Hil & Hrl & Hstl).
  destruct (Hchild (idx (node_high n)) ltac:(by right)) as (Xh & Hsh & Hih & Hrh & Hsth).
  exists ({[i]} ∪ (Xl ∪ Xh)).
  assert (Hdisj : ({[i]} : gset Z) ## (Xl ∪ Xh)).
  { intros j Hj Hj'. apply elem_of_singleton in Hj as ->.
    apply elem_of_union in Hj' as [?|?]; done. }
  pose proof (size_union ({[i]} : gset Z) (Xl ∪ Xh) Hdisj) as Hsz.
  rewrite size_singleton in Hsz.
  assert (Hl : (size Xl <= size (Xl ∪ Xh))%nat)
    by apply subseteq_size, union_subseteq_l.
  assert (Hh : (size Xh <= size (Xl ∪ Xh))%nat)
    by apply subseteq_size, union_subseteq_r.
  split.
  { apply union_subseteq. split; [|by apply union_subseteq].
    apply singleton_subseteq_l, elem_of_dom. by eexists. }
  split.
  { intros j Hj. apply elem_of_union in Hj as [Hj|Hj].
    - apply elem_of_singleton in Hj as ->. lia.
    - apply elem_of_union in Hj as [Hj|Hj];
        [specialize (Hrl j Hj)|specialize (Hrh j Hj)]; lia. }
  intros f Hf. rewrite Hsz in *. destruct f as [|f]; [lia|].
  simpl. rewrite E.
  rewrite (Hstl f), (Hsth f), (Hstl (size (Xl ∪ Xh))), (Hsth (size (Xl ∪ Xh)));
    [done|lia..].
Qed.

Lemma dd_rank_leaf i : nodes !! i = None -> dd_rank idx nodes i = O.
Proof. apply dd_height_leaf. Qed.

Lemma dd_rank_le i : (dd_rank idx nodes i <= size nodes)%nat.
Proof. apply dd_height_le. Qed.

(** The height decreases from a node to its children. *)
Lemma dd_rank_node i n :
  nodes !! i = Some n ->
  dd_rank idx nodes i
  = S (Nat.max (dd_rank idx nodes (idx (node_low n)))
               (dd_rank idx nodes (idx (node_high n)))).
Proof.
  intros E. unfold dd_rank.
  assert (Hin : i ∈ dom nodes) by (apply elem_of_dom; by eexists).
  assert (Hchild : forall c, c = idx (node_low n) \/ c = idx (node_high n) ->
            forall f, (size nodes <= S f)%nat ->
              dd_height idx f nodes c = dd_height idx (size nodes) nodes c).
  { intros c Hc f Hf. destruct (nodes !! c) as [nc|] eqn:Ec.
    2:{ by rewrite !dd_height_leaf. }
    assert (Hlt : (rank c < rank i)%nat) by (eapply Hrank; eauto).
    destruct (dd_height_below (rank c) c ltac:(lia)) as (X & Hsub & Hle & Hst).
    assert (Hni : i ∉ X) by (intros Hi; specialize (Hle i Hi); lia).
    assert (Hsz : (size X < size nodes)%nat).
    { rewrite <- (size_dom (D := gset Z) nodes).
      apply subset_size. split; [done|]. intros Hd. apply Hni, Hd, Hin. }
    rewrite (Hst f), (Hst (size nodes)); [done|lia..]. }
  destruct (size nodes) as [|f] eqn:Esz.
  { apply map_size_empty_inv in Esz. by rewrite Esz, lookup_empty in E. }
  cbn [dd_height]. rewrite E.
  rewrite (Hchild _ (or_introl eq_refl) f), (Hchild _ (or_intror eq_refl) f);
    [done|lia..].
Qed.
End Height.

Lemma dd_rank_child idx nodes i n :
  dd_acyclic idx nodes -> nodes !! i = Some n ->
  (dd_rank idx nodes (idx (node_low n)) < dd_rank idx nodes i)%nat
  /\ (dd_rank idx nodes (idx (node_high n)) < dd_rank idx nodes i)%nat.
Proof.
  intros [rank Hrank] E. rewrite (dd_rank_node idx nodes rank Hrank i n E). lia.
Qed.

(** A measure that is checked node by node shows that a table has no
    cycle. *)
Lemma dd_acyclic_ranked idx (rank : Z -> nat) nodes :
  map_Forall (fun i n =>
    (is_Some (nodes !! idx (node_low n)) -> (rank (idx (node_low n)) < rank i)%nat)
    /\ (is_Some (nodes !! idx (node_high n)) ->
        (rank (idx (node_high n)) < rank i)%nat))
    nodes ->
  dd_acyclic idx nodes.
Proof.
  intros Hord. exists rank. intros i n c Hn Hc Hin.
  destruct (Hord i n Hn) as [Hl Hh]. destruct Hc as [->| ->]; auto.
Qed.

(** A table in which the children have smaller indices than their parents
    has no cycle. *)
Lemma dd_acyclic_ordered idx nodes :
  map_Forall (fun i n =>
    (is_Some (nodes !! idx (node_low n)) -> 0 <= idx (node_low n) < i)
    /\ (is_Some (nodes !! idx (node_high n)) -> 0 <= idx (node_high n) < i))
    nodes ->
  dd_acyclic idx nodes.
Proof.
  intros Hord. exists Z.to_nat. intros i n c Hn Hc Hin.
  destruct (Hord i n Hn) as [Hl Hh]. destruct Hc as [->| ->].
  - specialize (Hl Hin). lia.
  - specialize (Hh Hin). lia.
Qed.

(** ** The function of a handle *)

Section DD.
Context (nodes : gmap Z ddnode) (Hwf : dd_wf nodes).

Lemma dd_wf_lookup i n :
  nodes !! i = Some n ->
  0 < i < sylvan_complement
  /\ 0 <= node_low n < two64
  /\ (bdd_rank nodes (node_low n) < dd_rank mtbdd_index nodes i)%nat
  /\ 0 <= node_high n < two64
  /\ (bdd_rank nodes (node_high n) < dd_rank mtbdd_index nodes i)%nat.
Proof.
  intros H. destruct Hwf as [Hall Hacyc].
  destruct (Hall i n H) as (Hi & [Hl _] & [Hh _]).
  destruct (dd_rank_child mtbdd_index nodes i n Hacyc H) as [Hrl Hrh]. done.
Qed.

Lemma dd_wf_children i n :
  nodes !! i = Some n ->
  handle_ok nodes (node_low n) /\ handle_ok nodes (node_high n).
Proof.
  intros H. destruct Hwf as [Hall _]. destruct (Hall i n H) as (_ & Hl & Hh). done.
Qed.

Lemma dd_wf_leaf : nodes !! 0 = None.
Proof.
  destruct (nodes !! 0) as [n|] eqn:E; [|done].
  destruct Hwf as [Hall _]. destruct (Hall 0 n E) as (Hi & _). lia.
Qed.

Lemma bdd_rank_le bdd : (bdd_rank nodes bdd <= size nodes)%nat.
Proof. apply dd_rank_le. Qed.

Lemma mtbdd_eval_stable env f1 :
  forall f2 bdd,
    0 <= bdd < two64 ->
    (bdd_rank nodes bdd < f1)%nat ->
    (bdd_rank nodes bdd < f2)%nat ->
    mtbdd_eval f1 nodes env bdd = mtbdd_eval f2 nodes env bdd.
Proof.
  induction f1 as [|f1 IH]; intros f2 bdd Hb H1 H2; [lia|].
  destruct f2 as [|f2]; [lia|]. simpl.
  destruct (nodes !! mtbdd_index bdd) as [n|] eqn:E; [|done].
  destruct (dd_wf_lookup _ _ E) as (Hi & Hl & Hli & Hh & Hhi).
  unfold bdd_rank in H1, H2.
  f_equal. destruct (env (node_var n)); apply IH; try done; lia.
Qed.

Lemma mtbdd_denote_node env bdd n :
  0 <= bdd < two64 ->
  nodes !! mtbdd_index bdd = Some n ->
  mtbdd_denote nodes env bdd
  = xorb (mtbdd_hasmark bdd)
      (if env (node_var n) then mtbdd_denote nodes env (node_high n)
       else mtbdd_denote nodes env (node_low n)).
Proof.
  intros Hb E. unfold mtbdd_denote at 1. simpl. rewrite E.
  destruct (dd_wf_lookup _ _ E) as (Hi & Hl & Hli & Hh & Hhi).
  pose proof (dd_rank_le mtbdd_index nodes (mtbdd_index bdd)).
  f_equal. destruct (env (node_var n)); apply mtbdd_eval_stable; try done; lia.
Qed.

Lemma mtbdd_denote_leaf env bdd :
  nodes !! mtbdd_index bdd = None ->
  mtbdd_denote nodes env bdd = mtbdd_hasmark bdd.
Proof.
  intros E. unfold mtbdd_denote. simpl. rewrite E. apply xorb_false_r.
Qed.

Lemma mtbdd_denote_toggle env bdd :
  0 <= bdd < two64 ->
  mtbdd_denote nodes env (Z.lxor bdd sylvan_complement)
  = negb (mtbdd_denote nodes env bdd).
Proof.
  intros Hb. destruct (handle_toggle bdd Hb) as (Hr & Hi & Hm).
  unfold mtbdd_denote. simpl. rewrite Hi, Hm.
  by destruct (mtbdd_hasmark bdd), (match nodes !! _ with Some _ => _ | None => _ end).
Qed.
End DD.

(** ** Rules for computations on an [AIGmaker] *)

Lemma computes_extends f m m' l :
  aig_extends m m' -> computes f m l -> computes f m' l.
Proof.
  intros Hext [Hl Hv]. split.
  - pose proof (ext_lit m m' Hext). unfold lit_ok in *. lia.
  - intros inp. rewrite (ext_value m m' Hext) by done.
    by rewrite (dd_env_extends m m').
Qed.

Lemma computes_not f m l :
  aig_inv m -> computes f m l -> computes (fun env => negb (f env)) m (aiger_not l).
Proof.
  intros Hinv [Hl Hv]. split.
  - apply lit_ok_not; [apply Hinv | done].
  - intros inp. by rewrite aig_value_not, Hv.
Qed.

Lemma computes_false m : aig_inv m -> computes (fun _ => false) m aiger_false.
Proof.
  intros Hinv. split.
  - pose proof (inv_lit_range m Hinv). unfold lit_ok, aiger_false. lia.
  - intros inp. apply Hinv.
Qed.

Lemma computes_true m : aig_inv m -> computes (fun _ => true) m aiger_true.
Proof.
  intros Hinv. split.
  - pose proof (inv_lit_range m Hinv). unfold lit_ok, aiger_true. lia.
  - intros inp. by apply aig_value_true.
Qed.

Lemma computes_ext f g m l :
  (forall env, f env = g env) -> computes f m l -> computes g m l.
Proof. intros Hfg [Hl Hv]. split; [done|]. intros inp. by rewrite Hv. Qed.

(** The literal of an allocated DD variable computes that variable. *)
Lemma computes_var m v l :
  aig_inv m -> var_to_lit m !! v = Some l -> computes (fun env => env v) m l.
Proof.
  intros Hinv Hv. destruct (inv_vars m Hinv v l Hv) as (He & Hr & Hval).
  split; [unfold lit_ok; lia|].
  intros inp. rewrite Hval. unfold dd_env. by rewrite Hv.
Qed.

Lemma memo_inv_extends K D m m' :
  aig_extends m m' -> mapping m' = mapping m -> memo_inv K D m -> memo_inv K D m'.
Proof.
  intros Hext Hmap Hmemo n l Hn. rewrite Hmap in Hn.
  destruct (Hmemo n l Hn) as (Hk & Hl & Hv). split; [done|].
  apply (computes_extends (fun env => D env n) m m' l Hext). by split.
Qed.

Section Rules.
Context (K : Z -> Prop) (D : (Z -> bool) -> Z -> bool).

Lemma run_ok_ret {A} (P : Prop) m (Q : A -> AIGmaker -> Prop) x :
  (P -> state_ok K D m -> Q x m) -> run_ok K D P m Q (ret x m).
Proof.
  intros HQ. exists x, m. split; [done|]. split; [lia|]. split; [done|].
  intros HP Hok _. split; [done|]. split; [apply aig_extends_refl|]. by apply HQ.
Qed.

Lemma run_ok_bind {A B} (P : Prop) m (Q1 : A -> AIGmaker -> Prop)
    (Q2 : B -> AIGmaker -> Prop) (c : M A) (k : A -> M B) :
  run_ok K D P m Q1 (c m) ->
  (forall x m1, var_to_lit m1 = var_to_lit m ->
     run_ok K D (P /\ state_ok K D m /\ aig_extends m m1 /\ Q1 x m1) m1 Q2 (k x m1)) ->
  run_ok K D P m Q2 (bind c k m).
Proof.
  intros (x & m1 & Hc & Hl1 & Hv1 & H1) Hk.
  destruct (Hk x m1 Hv1) as (r & m' & Hr & Hl2 & Hv2 & H2).
  exists r, m'. unfold bind. rewrite Hc. split; [done|]. split; [lia|].
  split; [congruence|]. intros HP Hok Hlit.
  destruct H1 as (Hok1 & Hext1 & HQ1); [done..|lia|].
  destruct H2 as (Hok2 & Hext2 & HQ2); [done..|].
  split; [done|]. split; [|done]. by apply (aig_extends_trans m m1 m').
Qed.

Lemma run_ok_weaken {A} (P P' : Prop) m (Q Q' : A -> AIGmaker -> Prop) out :
  run_ok K D P m Q out ->
  (P' -> state_ok K D m -> P) ->
  (forall r m', P' -> state_ok K D m -> state_ok K D m' -> aig_extends m m' ->
                Q r m' -> Q' r m') ->
  run_ok K D P' m Q' out.
Proof.
  intros (r & m' & Hr & Hl & Hv & H) HP HQ.
  exists r, m'. split; [done|]. split; [done|]. split; [done|].
  intros HP' Hok Hlit. destruct H as (Hok' & Hext & Hq); [by apply HP|done..|].
  split; [done|]. split; [done|]. by apply HQ.
Qed.

(** [makeand] computes the conjunction of what its arguments compute. *)
Lemma run_ok_makeand fa fb a b m :
  run_ok K D (computes fa m a /\ computes fb m b) m
    (fun r m' => computes (fun env => fa env && fb env) m' r)
    (lift (makeand a b) m).
Proof.
  exists (makeand a b m).1, (makeand a b m).2. unfold lift.
  split; [by destruct (makeand a b m)|].
  split; [apply makeand_lit_mono|].
  assert (Hvars : var_to_lit (makeand a b m).2 = var_to_lit m).
  { unfold makeand. destruct (b <? a).
    all: repeat (match goal with
         | |- context [if ?c then _ else _] => destruct c
         | |- context [match ?c with Some _ => _ | None => _ end] => destruct c
         end; simpl; try done). }
  split; [done|].
  intros [[Hla Hva] [Hlb Hvb]] [Hinv Hmemo] Hlit.
  destruct (makeand_sound a b m Hinv Hla Hlb Hlit) as (Hinv' & Hext & Hl & Hmap & Hv).
  split; [split; [done|by apply (memo_inv_extends K D m)]|].
  split; [done|]. split; [done|].
  intros inp. rewrite Hv, Hva, Hvb. by rewrite (dd_env_extends m _ inp Hext).
Qed.

(** [mapping[key] = res] keeps the memo table sound when [res] computes
    the function of [key]. *)
Lemma run_ok_mapping_set key res m :
  run_ok K D (K key /\ computes (fun env => D env key) m res) m
    (fun _ m' => mapping m' = <[key := res]> (mapping m) /\ lit m' = lit m)
    (mapping_set key res m).
Proof.
  eexists tt, _. split; [done|]. simpl. split; [lia|]. split; [done|].
  intros [Hk [Hl Hv]] [Hinv Hmemo] _.
  assert (Hext : aig_extends m
    {| lit := lit m; ands := ands m; cache := cache m;
       mapping := <[key := res]> (mapping m); var_to_lit := var_to_lit m |})
    by (by split).
  split; [|by split]. split.
  - destruct Hinv as [H1 H2 H3 H4 H5]. by split.
  - intros n l. simpl. destruct (decide (key = n)) as [<-|Hne].
    + rewrite lookup_insert_eq. intros [= <-]. by split.
    + rewrite lookup_insert_ne by done. intros Hn.
      destruct (Hmemo n l Hn) as (Hkn & Hln & Hvn). by split.
Qed.
End Rules.

(** ** Shannon expansion *)

Lemma bdd_to_aig_unfold fuel nodes bdd :
  bdd_to_aig (S fuel) nodes bdd =
  if bdd =? mtbdd_true then ret aiger_true
  else if bdd =? mtbdd_false then ret aiger_false
  else
    let comp := mtbdd_hasmark bdd in
    let bdd := if comp then Z.lxor bdd sylvan_complement else bdd in
    do it <- mapping_find bdd;
    match it with
    | Some l => ret (if comp then aiger_not l else l)
    | None =>
        do v <- of_option (mtbdd_getvar nodes bdd);
        do the_lit <- var_to_lit_at v;
        do low <- of_option (mtbdd_getlow nodes bdd);
        do high <- of_option (mtbdd_gethigh nodes bdd);
        do res <- shannon_node (bdd_to_aig fuel nodes) the_lit low high;
        do _ <- mapping_set bdd res;
        ret (if comp then aiger_not res else res)
    end.
Proof. reflexivity. Qed.

Ltac computes_conv H :=
  cbv beta in H; revert H; apply computes_ext; intros env.

Section Shannon.
Context (K : Z -> Prop) (D : (Z -> bool) -> Z -> bool).

Lemma run_ok_rec {A} P m (Q : A -> AIGmaker -> Prop) out :
  run_ok K D True m Q out -> run_ok K D P m Q out.
Proof.
  intros H. eapply run_ok_weaken; [exact H|done|].
  intros r m' _ _ _ _ Hr. exact Hr.
Qed.

Lemma shannon_node_ok (rec : Z -> M Z) the_lit low high m fv fl fh :
  (forall m1, var_to_lit m1 = var_to_lit m ->
     run_ok K D True m1 (fun r m' => computes fl m' r) (rec low m1)) ->
  (forall m1, var_to_lit m1 = var_to_lit m ->
     run_ok K D True m1 (fun r m' => computes fh m' r) (rec high m1)) ->
  (low = mtbdd_false -> forall env, fl env = false) ->
  (low = mtbdd_true -> forall env, fl env = true) ->
  (high = mtbdd_false -> forall env, fh env = false) ->
  (high = mtbdd_true -> forall env, fh env = true) ->
  run_ok K D (computes fv m the_lit) m
    (fun r m' => computes (fun env => if fv env then fh env else fl env) m' r)
    (shannon_node rec the_lit low high m).
Proof.
  intros Hlow Hhigh Hlf Hlt Hhf Hht. unfold shannon_node.
  destruct (Z.eqb_spec low mtbdd_false) as [El|El].
  { destruct (Z.eqb_spec high mtbdd_true) as [Eh|Eh].
    - apply run_ok_ret. intros Hc _. computes_conv Hc.
      rewrite (Hlf El), (Hht Eh). by destruct (fv env).
    - eapply run_ok_bind; [apply run_ok_rec, (Hhigh m eq_refl)|].
      intros rhs1 m1 Hv. simpl.
      eapply run_ok_weaken; [apply (run_ok_makeand K D fv fh)| |].
      + intros (Hc & _ & Hext & Hr) _. split; [|done].
        by apply (computes_extends fv m m1).
      + intros r m' _ _ _ _ Hr. computes_conv Hr.
        rewrite (Hlf El). by destruct (fv env). }
  destruct (Z.eqb_spec high mtbdd_false) as [Eh|Eh].
  { destruct (Z.eqb_spec low mtbdd_true) as [El'|El'].
    - apply run_ok_ret. intros Hc [Hinv _].
      apply computes_not in Hc; [|done]. computes_conv Hc.
      rewrite (Hhf Eh), (Hlt El'). by destruct (fv env).
    - eapply run_ok_bind; [apply run_ok_rec, (Hlow m eq_refl)|].
      intros rhs1 m1 Hv. simpl.
      eapply run_ok_weaken;
        [apply (run_ok_makeand K D (fun env => negb (fv env)) fl)| |].
      + intros (Hc & [Hinv _] & Hext & Hr) _. split; [|done].
        apply (computes_extends _ m m1); [done|]. by apply computes_not.
      + intros r m' _ _ _ _ Hr. computes_conv Hr.
        rewrite (Hhf Eh). by destruct (fv env). }
  eapply run_ok_bind; [apply run_ok_rec, (Hlow m eq_refl)|].
  intros lowres m1 Hv1. simpl.
  eapply run_ok_bind; [apply run_ok_rec, (Hhigh m1 Hv1)|].
  intros highres m2 Hv2. simpl. eapply run_ok_bind.
  { eapply run_ok_weaken;
      [apply (run_ok_makeand K D (fun env => negb (fv env)) fl)| |].
    - intros ((Hc & [Hinv _] & Hext1 & Hlr) & _ & Hext2 & Hhr) _.
      split.
      + apply (computes_extends _ m1 m2); [done|].
        apply (computes_extends _ m m1); [done|]. by apply computes_not.
      + by apply (computes_extends _ m1 m2).
    - intros r m' _ _ _ _ Hr. exact Hr. }
  intros g0 m3 Hv3. simpl. eapply run_ok_bind.
  { eapply run_ok_weaken; [apply (run_ok_makeand K D fv fh)| |].
    - intros (((Hc & _ & Hext1 & Hlr) & _ & Hext2 & Hhr) & _ & Hext3 & Hg0) _.
      split.
      + apply (computes_extends _ m2 m3); [done|].
        apply (computes_extends _ m1 m2); [done|].
        by apply (computes_extends _ m m1).
      + by apply (computes_extends _ m2 m3).
    - intros r m' _ _ _ _ Hr. exact Hr. }
  intros g1 m4 Hv4. simpl. eapply run_ok_bind.
  { eapply run_ok_weaken;
      [apply (run_ok_makeand K D
                (fun env => negb (negb (fv env) && fl env))
                (fun env => negb (fv env && fh env)))| |].
    - intros ((_ & _ & _ & Hg0) & [Hinv3 _] & Hext4 & Hg1) [Hinv4 _]. split.
      + apply computes_not; [done|]. by apply (computes_extends _ m3 m4).
      + by apply computes_not.
    - intros r m' _ _ _ _ Hr. exact Hr. }
  intros g m5 Hv5. simpl. apply run_ok_ret.
  intros (_ & _ & _ & Hg) [Hinv5 _].
  apply computes_not in Hg; [|done]. computes_conv Hg.
  by destruct (fv env), (fl env), (fh env).
Qed.
End Shannon.

Lemma handle_strip bdd :
  0 <= bdd < two64 ->
  (if mtbdd_hasmark bdd then Z.lxor bdd sylvan_complement else bdd)
  = mtbdd_index bdd.
Proof.
  intros Hb.
  destruct (handle_cases bdd Hb) as [(_ & -> & -> & _)|(_ & -> & -> & _ & ->)];
    done.
Qed.

Lemma handle_index_unmarked bdd :
  0 <= bdd < two64 ->
  mtbdd_index (mtbdd_index bdd) = mtbdd_index bdd
  /\ mtbdd_hasmark (mtbdd_index bdd) = false
  /\ Z.land (mtbdd_index bdd) sylvan_complement = 0.
Proof.
  intros Hb. pose proof (handle_index_range bdd Hb) as Hr.
  destruct (handle_cases (mtbdd_index bdd)) as [(_ & Hm & Hi & Hl & _)|(Hge & _)].
  - unfold two64. rewrite sylvan_complement_pow in Hr. lia.
  - done.
  - lia.
Qed.

Lemma handle_inner bdd :
  0 <= bdd < two64 -> bdd <> mtbdd_true -> bdd <> mtbdd_false ->
  mtbdd_index bdd <> 0.
Proof.
  intros Hb Ht Hf. unfold mtbdd_true, mtbdd_false in *.
  destruct (handle_cases bdd Hb) as [(_ & _ & -> & _)|(_ & _ & -> & _)]; lia.
Qed.

Lemma mtbdd_denote_index nodes env bdd :
  0 <= bdd < two64 ->
  mtbdd_denote nodes env bdd
  = xorb (mtbdd_hasmark bdd) (mtbdd_denote nodes env (mtbdd_index bdd)).
Proof.
  intros Hb. destruct (handle_index_unmarked bdd Hb) as (Hi & Hm & _).
  unfold mtbdd_denote. simpl. rewrite Hi, Hm. simpl.
  by destruct (mtbdd_hasmark bdd), (match nodes !! _ with Some _ => _ | None => _ end).
Qed.

Lemma computes_polarity f m l (comp : bool) :
  aig_inv m -> computes f m l ->
  computes (fun env => xorb comp (f env)) m (if comp then aiger_not l else l).
Proof.
  intros Hinv Hc. destruct comp.
  - apply computes_not in Hc; [|done]. computes_conv Hc. done.
  - computes_conv Hc. done.
Qed.

Section ShannonCorrect.
Context (nodes : gmap Z ddnode) (Hwf : dd_wf nodes).

Let K := bdd_key_ok.
Let D := mtbdd_denote nodes.

Lemma bdd_to_aig_ok fuel :
  forall bdd m,
    handle_ok nodes bdd ->
    (bdd_rank nodes bdd < fuel)%nat ->
    vars_allocated nodes m ->
    run_ok K D True m
      (fun r m' => computes (fun env => mtbdd_denote nodes env bdd) m' r)
      (bdd_to_aig fuel nodes bdd m).
Proof.
  induction fuel as [|fuel IH]; intros bdd m [Hb Hin] Hfuel Hvars; [lia|].
  rewrite bdd_to_aig_unfold.
  destruct (Z.eqb_spec bdd mtbdd_true) as [->|Ht].
  { apply run_ok_ret. intros _ [Hinv _].
    pose proof (computes_true m Hinv) as Hc. computes_conv Hc.
    rewrite mtbdd_denote_leaf; [done|]. by apply dd_wf_leaf. }
  destruct (Z.eqb_spec bdd mtbdd_false) as [->|Hf].
  { apply run_ok_ret. intros _ [Hinv _].
    pose proof (computes_false m Hinv) as Hc. computes_conv Hc.
    rewrite mtbdd_denote_leaf; [done|]. by apply dd_wf_leaf. }
  cbv zeta. rewrite handle_strip by done.
  pose proof (handle_inner bdd Hb Ht Hf) as Hnz.
  destruct Hin as [?|[n Hn]]; [done|].
  destruct (handle_index_unmarked bdd Hb) as (Hii & Hmi & Hland).
  set (b0 := mtbdd_index bdd) in *.
  set (comp := mtbdd_hasmark bdd).
  assert (Hden : forall env, mtbdd_denote nodes env bdd
                             = xorb comp (mtbdd_denote nodes env b0))
    by (intros env; by apply mtbdd_denote_index).
  unfold bind at 1, mapping_find.
  destruct (mapping m !! b0) as [l|] eqn:Hmap.
  { apply run_ok_ret. intros _ [Hinv Hmemo].
    destruct (Hmemo b0 l Hmap) as (_ & Hl & Hv).
    assert (Hc : computes (fun env => D env b0) m l) by done.
    apply (computes_polarity _ _ _ comp) in Hc; [|done].
    computes_conv Hc. by rewrite Hden. }
  unfold bind at 1, of_option, mtbdd_getvar. rewrite Hii, Hn. simpl.
  destruct (Hvars b0 n Hn) as [the_lit Hlit].
  unfold bind at 1, var_to_lit_at. rewrite Hlit.
  unfold bind at 1, of_option, mtbdd_getlow. rewrite Hii, Hn. simpl.
  unfold bind at 1, of_option, mtbdd_gethigh. rewrite Hii, Hn. simpl.
  rewrite Hland, !Z.lxor_0_l.
  destruct (dd_wf_lookup nodes Hwf b0 n Hn) as (Hi & Hl & Hli & Hh & Hhi).
  destruct (dd_wf_children nodes Hwf b0 n Hn) as (Hlok & Hhok).
  unfold bdd_rank in Hfuel. fold b0 in Hfuel.
  assert (Hb0 : 0 <= b0 < two64).
  { pose proof (handle_index_range _ Hb) as Hr.
    rewrite sylvan_complement_pow in Hr. unfold two64. subst b0. lia. }
  assert (Hnode : forall env, mtbdd_denote nodes env b0
            = if env (node_var n) then mtbdd_denote nodes env (node_high n)
              else mtbdd_denote nodes env (node_low n)).
  { intros env. rewrite (mtbdd_denote_node nodes Hwf env b0 n); [|done|by rewrite Hii].
    by rewrite Hmi. }
  assert (Hleaf : forall env h, mtbdd_index h = 0 ->
            mtbdd_denote nodes env h = mtbdd_hasmark h).
  { intros env h Hh0. apply mtbdd_denote_leaf. rewrite Hh0. by apply dd_wf_leaf. }
  eapply run_ok_bind.
  { eapply run_ok_weaken;
      [apply (shannon_node_ok K D (bdd_to_aig fuel nodes) the_lit
                (node_low n) (node_high n) m
                (fun env => env (node_var n))
                (fun env => mtbdd_denote nodes env (node_low n))
                (fun env => mtbdd_denote nodes env (node_high n)))| |].
    - intros m1 Hv1. apply IH; [done|lia|].
      unfold vars_allocated. by rewrite Hv1.
    - intros m1 Hv1. apply IH; [done|lia|].
      unfold vars_allocated. by rewrite Hv1.
    - intros -> env. by apply Hleaf.
    - intros -> env. by apply Hleaf.
    - intros -> env. by apply Hleaf.
    - intros -> env. by apply Hleaf.
    - intros _ [Hinv _]. by apply computes_var.
    - intros r m' _ _ _ _ Hr. exact Hr. }
  intros res m1 Hv1. simpl. eapply run_ok_bind.
  { eapply run_ok_weaken; [apply (run_ok_mapping_set K D b0 res)| |].
    - intros (_ & _ & _ & Hres) _. split; [done|].
      computes_conv Hres. unfold D. by rewrite Hnode.
    - intros r m' _ _ _ _ Hr. exact Hr. }
  intros [] m2 Hv2. simpl. apply run_ok_ret.
  intros ((_ & _ & _ & Hres) & _ & Hext & _) [Hinv2 _].
  apply (computes_extends _ m1 m2) in Hres; [|done].
  apply (computes_polarity _ _ _ comp) in Hres; [|done].
  computes_conv Hres. by rewrite Hden, Hnode.
Qed.
End ShannonCorrect.

(** A maker without gates is sound when its variable literals are even
    literals below the counter. *)
Lemma aig_inv_fresh m :
  ands m = [] -> cache m = ∅ ->
  Z.even (lit m) = true -> 2 <= lit m < 2 ^ 31 ->
  map_Forall (fun _ l => Z.even l = true /\ 2 <= l < lit m) (var_to_lit m) ->
  aig_inv m.
Proof.
  intros Ha Hc He Hr Hv. split; [done|done| | |].
  - intros inp. unfold aig_value. rewrite Ha. done.
  - intros a b l _ _. by rewrite Hc, lookup_empty.
  - intros v l Hl. destruct (Hv v l Hl) as [Hel Hrl].
    split; [done|]. split; [done|]. intros inp.
    unfold aig_value, lit_value. rewrite Ha.
    unfold aiger_eval. cbn [fold_left].
    rewrite <- Z.negb_even, Hel, xorb_false_r.
    destruct (Z.eqb_spec (aiger_lit2var l) 0) as [E|]; [|done].
    unfold aiger_lit2var in E. rewrite Z.shiftr_div_pow2 in E by lia.
    change (2 ^ 1) with 2 in E.
    pose proof (Z.div_mod l 2 ltac:(lia)).
    pose proof (Z.mod_pos_bound l 2 ltac:(lia)). lia.
Qed.

Lemma memo_inv_empty K D m : mapping m = ∅ -> memo_inv K D m.
Proof. intros Hm n l. by rewrite Hm, lookup_empty. Qed.

(** Toggling the mark of the entry handle negates the returned literal and
    changes nothing else. *)
Lemma bdd_to_aig_toggle fuel nodes bdd m :
  0 <= bdd < two64 ->
  bdd_to_aig fuel nodes (Z.lxor bdd sylvan_complement) m
  = (fun rm => (aiger_not rm.1, rm.2)) <$> bdd_to_aig fuel nodes bdd m.
Proof.
  intros Hb. destruct fuel as [|fuel]; [done|].
  rewrite !bdd_to_aig_unfold.
  destruct (handle_toggle bdd Hb) as (Hr & Hi & Hm).
  destruct (Z.eqb_spec bdd mtbdd_true) as [->|Ht]; [done|].
  destruct (Z.eqb_spec bdd mtbdd_false) as [->|Hf]; [done|].
  pose proof (handle_inner bdd Hb Ht Hf) as Hnz.
  destruct (Z.eqb_spec (Z.lxor bdd sylvan_complement) mtbdd_true) as [E|_].
  { rewrite E in Hi. by rewrite <- Hi in Hnz. }
  destruct (Z.eqb_spec (Z.lxor bdd sylvan_complement) mtbdd_false) as [E|_].
  { rewrite E in Hi. by rewrite <- Hi in Hnz. }
  cbv zeta. rewrite !handle_strip, Hi, Hm by done.
  generalize (mtbdd_index bdd), (mtbdd_hasmark bdd). intros b0 comp.
  unfold bind, mapping_find, ret.
  destruct (mapping m !! b0) as [l|].
  { simpl. destruct comp; simpl; by rewrite ?aiger_not_involutive. }
  destruct (of_option (mtbdd_getvar nodes b0) m) as [[v m1]|]; [|done].
  destruct (var_to_lit_at v m1) as [[the_lit m2]|]; [|done].
  destruct (of_option (mtbdd_getlow nodes b0) m2) as [[low m3]|]; [|done].
  destruct (of_option (mtbdd_gethigh nodes b0) m3) as [[high m4]|]; [|done].
  destruct (shannon_node _ the_lit low high m4) as [[res m5]|]; [|done].
  destruct (mapping_set b0 res m5) as [[[] m6]|]; [|done].
  simpl. destruct comp; simpl; by rewrite ?aiger_not_involutive.
Qed.

(** ** The literal counter of [bdd_to_aig] *)

Lemma makeand_mapping a b m : mapping (makeand a b m).2 = mapping m.
Proof.
  unfold makeand. destruct (b <? a).
  all: repeat (match goal with
       | |- context [if ?c then _ else _] => destruct c
       | |- context [match ?c with Some _ => _ | None => _ end] => destruct c
       end; simpl; try done).
Qed.

Lemma makeand_lit_step a b m : lit (makeand a b m).2 <= lit m + 2.
Proof.
  unfold makeand. destruct (b <? a).
  all: repeat (match goal with
       | |- context [if ?c then _ else _] => destruct c
       | |- context [match ?c with Some _ => _ | None => _ end] => destruct c
       end; simpl; try lia).
Qed.

Lemma size_remove (X : gset Z) (x : Z) :
  x ∈ X -> (size (X ∖ {[x]}) + 1 = size X)%nat.
Proof.
  intros Hx. rewrite (union_difference_singleton_L x X Hx) at 2.
  assert (Hdisj : ({[x]} : gset Z) ## X ∖ {[x]}).
  { intros y Hy1 Hy2. apply elem_of_difference in Hy2 as [_ Hy2]. done. }
  pose proof (size_union ({[x]} : gset Z) (X ∖ {[x]}) Hdisj) as Hsz.
  rewrite size_singleton in Hsz. lia.
Qed.

Section Budget.
Context (nodes : gmap Z ddnode) (Hwf : dd_wf nodes).

Lemma potential_makeand rank c a b m :
  0 <= c ->
  memo_frame rank 0 m (makeand a b m).2
  /\ potential c nodes (makeand a b m).2 <= potential c nodes m + 2.
Proof.
  intros Hc. unfold memo_frame, potential, unmapped. rewrite makeand_mapping.
  split; [done|]. pose proof (makeand_lit_step a b m). lia.
Qed.

Lemma potential_mapping_set rank c b0 res m n :
  0 <= c ->
  nodes !! b0 = Some n -> mapping m !! b0 = None ->
  forall u m', mapping_set b0 res m = Some (u, m') ->
    memo_frame rank (S (rank b0)) m m'
    /\ potential c nodes m' + c = potential c nodes m.
Proof.
  intros Hc Hn Hmap u m' [= _ <-]. split.
  - intros k Hk. simpl. apply lookup_insert_ne. intros ->. lia.
  - unfold potential, unmapped. simpl. rewrite dom_insert_L.
    assert (Hin : b0 ∈ dom nodes ∖ dom (mapping m)).
    { apply elem_of_difference. split; [by apply elem_of_dom|].
      by apply not_elem_of_dom. }
    replace (dom nodes ∖ ({[b0]} ∪ dom (mapping m)))
      with ((dom nodes ∖ dom (mapping m)) ∖ {[b0]}).
    + pose proof (size_remove _ _ Hin). lia.
    + apply set_eq. intros k.
      rewrite !elem_of_difference, elem_of_union, elem_of_singleton. tauto.
Qed.

Lemma memo_frame_trans rank b0 m1 m2 m3 :
  memo_frame rank b0 m1 m2 -> memo_frame rank b0 m2 m3 -> memo_frame rank b0 m1 m3.
Proof. intros H1 H2 k Hk. by rewrite H2, H1. Qed.

Lemma memo_frame_weaken rank b0 b1 m1 m2 :
  (b0 <= b1)%nat -> memo_frame rank b0 m1 m2 -> memo_frame rank b1 m1 m2.
Proof. intros Hb H k Hk. apply H. lia. Qed.

Lemma budget_makeand rank b0 a b m r m' :
  lift (makeand a b) m = Some (r, m') ->
  memo_frame rank b0 m m' /\ potential 6 nodes m' <= potential 6 nodes m + 2.
Proof.
  unfold lift. intros [= Hm]. destruct (makeand a b m) as [r' m''] eqn:E.
  injection Hm as -> ->.
  pose proof (makeand_mapping a b m) as Hmap.
  pose proof (makeand_lit_step a b m) as Hlit. rewrite E in Hmap, Hlit. simpl in *.
  split; [intros k _; by rewrite Hmap|].
  unfold potential, unmapped. rewrite Hmap. lia.
Qed.

Lemma shannon_node_budget (rec : Z -> M Z) rank b0 the_lit low high m res m' :
  (forall child m1 r m2,
     child = low \/ child = high ->
     rec child m1 = Some (r, m2) ->
     memo_frame rank b0 m1 m2 /\ potential 6 nodes m2 <= potential 6 nodes m1) ->
  shannon_node rec the_lit low high m = Some (res, m') ->
  memo_frame rank b0 m m' /\ potential 6 nodes m' <= potential 6 nodes m + 6.
Proof.
  intros Hrec. unfold shannon_node.
  destruct (low =? mtbdd_false).
  { destruct (high =? mtbdd_true).
    - intros [= _ <-]. split; [done|lia].
    - unfold bind. destruct (rec high m) as [[rhs1 m1]|] eqn:E1; [|done].
      intros [Hf Hp]%(budget_makeand rank b0).
      destruct (Hrec high m rhs1 m1) as [Hf1 Hp1]; [by right|done|].
      split; [by eapply memo_frame_trans|lia]. }
  destruct (high =? mtbdd_false).
  { destruct (low =? mtbdd_true).
    - intros [= _ <-]. split; [done|lia].
    - unfold bind. destruct (rec low m) as [[rhs1 m1]|] eqn:E1; [|done].
      intros [Hf Hp]%(budget_makeand rank b0).
      destruct (Hrec low m rhs1 m1) as [Hf1 Hp1]; [by left|done|].
      split; [by eapply memo_frame_trans|lia]. }
  unfold bind at 1. destruct (rec low m) as [[lowres m1]|] eqn:E1; [|done].
  unfold bind at 1. destruct (rec high m1) as [[highres m2]|] eqn:E2; [|done].
  unfold bind at 1.
  destruct (lift (makeand (aiger_not the_lit) lowres) m2) as [[g0 m3]|] eqn:E3; [|done].
  unfold bind at 1.
  destruct (lift (makeand the_lit highres) m3) as [[g1 m4]|] eqn:E4; [|done].
  unfold bind at 1.
  destruct (lift (makeand (aiger_not g0) (aiger_not g1)) m4) as [[g m5]|] eqn:E5; [|done].
  intros [= _ <-].
  destruct (Hrec low m lowres m1) as [Hf1 Hp1]; [by left|done|].
  destruct (Hrec high m1 highres m2) as [Hf2 Hp2]; [by right|done|].
  apply (budget_makeand rank b0) in E3 as [Hf3 Hp3].
  apply (budget_makeand rank b0) in E4 as [Hf4 Hp4].
  apply (budget_makeand rank b0) in E5 as [Hf5 Hp5].
  split; [|lia].
  eapply memo_frame_trans; [|exact Hf5]. eapply memo_frame_trans; [|exact Hf4].
  eapply memo_frame_trans; [|exact Hf3]. by eapply memo_frame_trans.
Qed.

(** A call enters only nodes that are not higher than that of its handle
    in the memo table, and pays for its gates with the nodes it enters: at
    most three gates for each. *)
Lemma bdd_to_aig_budget fuel : forall bdd m res m',
  handle_ok nodes bdd ->
  bdd_to_aig fuel nodes bdd m = Some (res, m') ->
  memo_frame (dd_rank mtbdd_index nodes) (S (bdd_rank nodes bdd)) m m'
  /\ potential 6 nodes m' <= potential 6 nodes m.
Proof.
  induction fuel as [|fuel IH]; intros bdd m res m' [Hb Hin]; [done|].
  rewrite bdd_to_aig_unfold.
  destruct (Z.eqb_spec bdd mtbdd_true) as [->|Ht]; [by intros [= _ <-]|].
  destruct (Z.eqb_spec bdd mtbdd_false) as [->|Hf]; [by intros [= _ <-]|].
  cbv zeta. rewrite handle_strip by done.
  destruct (handle_index_unmarked bdd Hb) as (Hii & Hmi & Hland).
  set (b0 := mtbdd_index bdd) in *.
  unfold bind at 1, mapping_find.
  destruct (mapping m !! b0) as [l|] eqn:Hmap; [by intros [= _ <-]|].
  unfold bind at 1, of_option, mtbdd_getvar. rewrite Hii.
  destruct (nodes !! b0) as [n|] eqn:Hn; [|done]. simpl.
  unfold bind at 1.
  destruct (var_to_lit_at (node_var n) m) as [[the_lit m2]|] eqn:Hvl; [|done].
  assert (Hm2 : mapping m2 = mapping m /\ lit m2 = lit m).
  { unfold var_to_lit_at in Hvl.
    destruct (var_to_lit m !! node_var n); by injection Hvl as _ <-. }
  destruct Hm2 as [Hmap2 Hlit2].
  unfold bind at 1, of_option, mtbdd_getlow. rewrite Hii, Hn. simpl.
  unfold bind at 1, of_option, mtbdd_gethigh. rewrite Hii, Hn. simpl.
  rewrite Hland, !Z.lxor_0_l.
  destruct (dd_wf_lookup nodes Hwf b0 n Hn) as (Hi & Hl & Hli & Hh & Hhi).
  destruct (dd_wf_children nodes Hwf b0 n Hn) as (Hlok & Hhok).
  unfold bind at 1.
  destruct (shannon_node (bdd_to_aig fuel nodes) the_lit (node_low n) (node_high n) m2)
    as [[r m5]|] eqn:Hsh; [|done].
  unfold bind at 1.
  destruct (mapping_set b0 r m5) as [[u m6]|] eqn:Hset; [|done].
  intros [= _ <-].
  apply (shannon_node_budget _ (dd_rank mtbdd_index nodes)
           (dd_rank mtbdd_index nodes b0)) in Hsh as [Hf5 Hp5].
  2:{ intros child m1 r' m2' [->| ->] Hrun.
      - destruct (IH _ _ _ _ Hlok Hrun) as [Hfr Hpot].
        split; [|done]. eapply memo_frame_weaken; [|exact Hfr]. lia.
      - destruct (IH _ _ _ _ Hhok Hrun) as [Hfr Hpot].
        split; [|done]. eapply memo_frame_weaken; [|exact Hfr]. lia. }
  assert (Hmap5 : mapping m5 !! b0 = None).
  { rewrite (Hf5 b0), Hmap2 by lia. done. }
  destruct (potential_mapping_set (dd_rank mtbdd_index nodes) 6 b0 r m5 n
              ltac:(lia) Hn Hmap5 u m6 Hset)
    as [Hf6 Hp6].
  assert (Hp2 : potential 6 nodes m2 = potential 6 nodes m).
  { unfold potential, unmapped. by rewrite Hmap2, Hlit2. }
  split; [|lia].
  intros k Hk. unfold bdd_rank in Hk. fold b0 in Hk.
  rewrite (Hf6 k), (Hf5 k), Hmap2 by lia. done.
Qed.

(** The literal counter after a call: at most six more for every node of
    the table. *)
Lemma bdd_to_aig_lit_bound fuel bdd m res m' :
  handle_ok nodes bdd ->
  bdd_to_aig fuel nodes bdd m = Some (res, m') ->
  lit m' <= lit m + 6 * Z.of_nat (size nodes).
Proof.
  intros Hok Hrun.
  destruct (bdd_to_aig_budget fuel bdd m res m' Hok Hrun) as [_ Hp].
  unfold potential in Hp.
  assert (size (unmapped nodes m) <= size nodes)%nat.
  { rewrite <- (size_dom (D := gset Z) nodes).
    apply subseteq_size. unfold unmapped. intros k Hk.
    by apply elem_of_difference in Hk as [Hk _]. }
  lia.
Qed.
End Budget.

(** ** The entries of the memo table *)

Lemma dd_reach_node nodes i j : dd_reach nodes i j -> is_Some (nodes !! i).
Proof. intros H. destruct H; [done|by eexists|by eexists]. Qed.

(** A closed memo table that holds a node holds every node below it. *)
Lemma memo_closed_reach nodes m i j :
  memo_closed nodes m -> dd_reach nodes i j ->
  is_Some (mapping m !! i) -> is_Some (mapping m !! j).
Proof.
  intros Hcl Hreach. induction Hreach as [i Hi|i n j Hn Hr IH|i n j Hn Hr IH];
    intros Hm; [done| |].
  - apply IH. apply (Hcl i n); [done|done|by left|by eapply dd_reach_node].
  - apply IH. apply (Hcl i n); [done|done|by right|by eapply dd_reach_node].
Qed.

Section ShannonMemo.
Context (nodes : gmap Z ddnode) (Hwf : dd_wf nodes).

Lemma memo_grows_makeand bdd a b m0 m r m' :
  lift (makeand a b) m = Some (r, m') ->
  memo_grows nodes bdd m0 m -> memo_grows nodes bdd m0 m'.
Proof.
  unfold lift. intros [= Hm]. destruct (makeand a b m) as [r' m''] eqn:E.
  injection Hm as -> ->.
  pose proof (makeand_mapping a b m) as Hmap. rewrite E in Hmap. simpl in Hmap.
  unfold memo_grows, memo_closed. by rewrite Hmap.
Qed.

Lemma memo_grows_trans b1 b2 m1 m2 m3 :
  memo_grows nodes b1 m1 m2 -> memo_grows nodes b2 m2 m3 ->
  memo_closed nodes m3
  /\ (forall k, is_Some (mapping m1 !! k) -> is_Some (mapping m3 !! k))
  /\ (is_Some (nodes !! mtbdd_index b1) -> is_Some (mapping m3 !! mtbdd_index b1))
  /\ (is_Some (nodes !! mtbdd_index b2) -> is_Some (mapping m3 !! mtbdd_index b2)).
Proof.
  intros (_ & Hk1 & Hb1) (Hc2 & Hk2 & Hb2).
  split; [done|]. split; [intros k Hk; by apply Hk2, Hk1|].
  split; [intros H; by apply Hk2, Hb1|done].
Qed.

Lemma mtbdd_leaf_index bdd :
  bdd = mtbdd_false \/ bdd = mtbdd_true -> nodes !! mtbdd_index bdd = None.
Proof. intros [->| ->]; by apply dd_wf_leaf. Qed.

Lemma shannon_node_memo (rec : Z -> M Z) the_lit low high m res m' :
  (forall child m1 r m2,
     child = low \/ child = high ->
     memo_closed nodes m1 ->
     rec child m1 = Some (r, m2) -> memo_grows nodes child m1 m2) ->
  memo_closed nodes m ->
  shannon_node rec the_lit low high m = Some (res, m') ->
  memo_grows nodes low m m' /\ memo_grows nodes high m m'.
Proof.
  intros Hrec Hcl. unfold shannon_node.
  assert (Hleaf : forall c m1, c = mtbdd_false \/ c = mtbdd_true ->
            memo_closed nodes m1 -> memo_grows nodes c m1 m1).
  { intros c m1 Hc Hcl1. split; [done|]. split; [done|].
    rewrite (mtbdd_leaf_index c Hc). by intros [? ?]. }
  destruct (Z.eqb_spec low mtbdd_false) as [El|El].
  { destruct (Z.eqb_spec high mtbdd_true) as [Eh|Eh].
    - intros [= _ <-]. split; apply Hleaf; auto.
    - unfold bind. destruct (rec high m) as [[rhs1 m1]|] eqn:E1; [|done].
      intros Hand.
      pose proof (Hrec high m rhs1 m1 (or_intror eq_refl) Hcl E1) as Hg.
      split; [|by apply (memo_grows_makeand high _ _ m m1 res m' Hand)].
      apply (memo_grows_makeand low _ _ m m1 res m' Hand).
      destruct Hg as (Hc1 & Hk1 & _). split; [done|]. split; [done|].
      rewrite (mtbdd_leaf_index low) by auto. by intros [? ?]. }
  destruct (Z.eqb_spec high mtbdd_false) as [Eh|Eh].
  { destruct (Z.eqb_spec low mtbdd_true) as [El'|El'].
    - intros [= _ <-]. split; apply Hleaf; auto.
    - unfold bind. destruct (rec low m) as [[rhs1 m1]|] eqn:E1; [|done].
      intros Hand.
      pose proof (Hrec low m rhs1 m1 (or_introl eq_refl) Hcl E1) as Hg.
      split; [by apply (memo_grows_makeand low _ _ m m1 res m' Hand)|].
      apply (memo_grows_makeand high _ _ m m1 res m' Hand).
      destruct Hg as (Hc1 & Hk1 & _). split; [done|]. split; [done|].
      rewrite (mtbdd_leaf_index high) by auto. by intros [? ?]. }
  unfold bind at 1. destruct (rec low m) as [[lowres m1]|] eqn:E1; [|done].
  unfold bind at 1. destruct (rec high m1) as [[highres m2]|] eqn:E2; [|done].
  unfold bind at 1.
  destruct (lift (makeand (aiger_not the_lit) lowres) m2) as [[g0 m3]|] eqn:E3; [|done].
  unfold bind at 1.
  destruct (lift (makeand the_lit highres) m3) as [[g1 m4]|] eqn:E4; [|done].
  unfold bind at 1.
  destruct (lift (makeand (aiger_not g0) (aiger_not g1)) m4) as [[g m5]|] eqn:E5; [|done].
  intros [= _ <-].
  pose proof (Hrec low m lowres m1 (or_introl eq_refl) Hcl E1) as Hg1.
  pose proof (Hrec high m1 highres m2 (or_intror eq_refl) (proj1 Hg1) E2) as Hg2.
  destruct (memo_grows_trans low high m m1 m2 Hg1 Hg2) as (Hc & Hk & Hl & Hh).
  split.
  - apply (memo_grows_makeand low _ _ m m4 g m5 E5).
    apply (memo_grows_makeand low _ _ m m3 g1 m4 E4).
    apply (memo_grows_makeand low _ _ m m2 g0 m3 E3). by split.
  - apply (memo_grows_makeand high _ _ m m4 g m5 E5).
    apply (memo_grows_makeand high _ _ m m3 g1 m4 E4).
    apply (memo_grows_makeand high _ _ m m2 g0 m3 E3). by split.
Qed.

(** A call on a handle of a node leaves the node in the memo table, with
    the literal it returns for the unmarked handle, and leaves the table
    closed. *)
Lemma bdd_to_aig_memo fuel : forall bdd m res m',
  handle_ok nodes bdd ->
  memo_closed nodes m ->
  bdd_to_aig fuel nodes bdd m = Some (res, m') ->
  memo_grows nodes bdd m m'
  /\ (is_Some (nodes !! mtbdd_index bdd) ->
      exists l, mapping m' !! mtbdd_index bdd = Some l
                /\ res = if mtbdd_hasmark bdd then aiger_not l else l).
Proof.
  induction fuel as [|fuel IH]; intros bdd m res m' [Hb Hin] Hcl; [done|].
  rewrite bdd_to_aig_unfold.
  destruct (Z.eqb_spec bdd mtbdd_true) as [->|Ht].
  { intros [= _ <-]. rewrite (mtbdd_leaf_index mtbdd_true) by auto.
    split; [|by intros [? ?]]. split; [done|]. split; [done|].
    rewrite (mtbdd_leaf_index mtbdd_true) by auto. by intros [? ?]. }
  destruct (Z.eqb_spec bdd mtbdd_false) as [->|Hf].
  { intros [= _ <-]. rewrite (mtbdd_leaf_index mtbdd_false) by auto.
    split; [|by intros [? ?]]. split; [done|]. split; [done|].
    rewrite (mtbdd_leaf_index mtbdd_false) by auto. by intros [? ?]. }
  cbv zeta. rewrite handle_strip by done.
  destruct (handle_index_unmarked bdd Hb) as (Hii & Hmi & Hland).
  set (b0 := mtbdd_index bdd) in *.
  unfold bind at 1, mapping_find.
  destruct (mapping m !! b0) as [l|] eqn:Hmap.
  { intros [= <- <-]. split; [|intros _; by exists l].
    split; [done|]. split; [done|]. intros _. by exists l. }
  unfold bind at 1, of_option, mtbdd_getvar. rewrite Hii.
  destruct (nodes !! b0) as [n|] eqn:Hn; [|done]. simpl.
  unfold bind at 1.
  destruct (var_to_lit_at (node_var n) m) as [[the_lit m2]|] eqn:Hvl; [|done].
  assert (Hmap2 : mapping m2 = mapping m).
  { unfold var_to_lit_at in Hvl.
    destruct (var_to_lit m !! node_var n); by injection Hvl as _ <-. }
  unfold bind at 1, of_option, mtbdd_getlow. rewrite Hii, Hn. simpl.
  unfold bind at 1, of_option, mtbdd_gethigh. rewrite Hii, Hn. simpl.
  rewrite Hland, !Z.lxor_0_l.
  destruct (dd_wf_children nodes Hwf b0 n Hn) as (Hlok & Hhok).
  unfold bind at 1.
  destruct (shannon_node (bdd_to_aig fuel nodes) the_lit (node_low n) (node_high n) m2)
    as [[r m5]|] eqn:Hsh; [|done].
  unfold bind at 1, mapping_set, ret. intros [= <- <-].
  assert (Hcl2 : memo_closed nodes m2) by (unfold memo_closed; by rewrite Hmap2).
  apply shannon_node_memo in Hsh as [(Hc5 & Hk5 & Hl5) (_ & _ & Hh5)]; [|
    intros child m1 r' m2' [->| ->] Hcl1 Hrun;
      [by apply (IH _ _ _ _ Hlok Hcl1 Hrun)|by apply (IH _ _ _ _ Hhok Hcl1 Hrun)]
    |done].
  cbn [mapping].
  assert (Hmono : forall k, is_Some (mapping m5 !! k) ->
                            is_Some (<[b0 := r]> (mapping m5) !! k)).
  { intros k Hk. destruct (decide (b0 = k)) as [<-|Hne].
    - rewrite lookup_insert_eq. by eexists.
    - by rewrite lookup_insert_ne. }
  split.
  - split; [|split].
    + intros i ni c Hi Hmi' Hc Hcn. cbn [mapping] in *. apply Hmono.
      destruct (decide (b0 = i)) as [<-|Hne].
      * rewrite Hn in Hi. injection Hi as <-.
        destruct Hc as [->| ->]; [by apply Hl5|by apply Hh5].
      * rewrite lookup_insert_ne in Hmi' by done. by apply (Hc5 i ni).
    + intros k Hk. cbn [mapping]. apply Hmono, Hk5. by rewrite Hmap2.
    + intros _. cbn [mapping]. rewrite lookup_insert_eq. by eexists.
  - intros _. exists r. rewrite lookup_insert_eq. split; [done|].
    by destruct (mtbdd_hasmark bdd).
Qed.
(** The entry of the called handle does not depend on what the table held
    before. *)
Lemma bdd_to_aig_entry fuel bdd m res m' :
  handle_ok nodes bdd ->
  bdd_to_aig fuel nodes bdd m = Some (res, m') ->
  is_Some (nodes !! mtbdd_index bdd) ->
  exists l, mapping m' !! mtbdd_index bdd = Some l
            /\ res = if mtbdd_hasmark bdd then aiger_not l else l.
Proof.
  intros [Hb Hin] Hrun Hnode. destruct fuel as [|fuel]; [done|].
  rewrite bdd_to_aig_unfold in Hrun.
  destruct (Z.eqb_spec bdd mtbdd_true) as [->|Ht].
  { rewrite (mtbdd_leaf_index mtbdd_true) in Hnode by auto. by destruct Hnode. }
  destruct (Z.eqb_spec bdd mtbdd_false) as [->|Hf].
  { rewrite (mtbdd_leaf_index mtbdd_false) in Hnode by auto. by destruct Hnode. }
  cbv zeta in Hrun. rewrite handle_strip in Hrun by done.
  revert Hrun. generalize (mtbdd_index bdd), (mtbdd_hasmark bdd). intros b0 comp.
  unfold bind at 1, mapping_find.
  destruct (mapping m !! b0) as [l|] eqn:Hmap.
  { intros [= <- <-]. by exists l. }
  unfold bind at 1.
  destruct (of_option (mtbdd_getvar nodes b0) m) as [[v m1]|]; [|done].
  unfold bind at 1.
  destruct (var_to_lit_at v m1) as [[the_lit m2]|]; [|done].
  unfold bind at 1.
  destruct (of_option (mtbdd_getlow nodes b0) m2) as [[low m3]|]; [|done].
  unfold bind at 1.
  destruct (of_option (mtbdd_gethigh nodes b0) m3) as [[high m4]|]; [|done].
  unfold bind at 1.
  destruct (shannon_node _ the_lit low high m4) as [[r m5]|]; [|done].
  unfold bind at 1, mapping_set, ret.
  intros [= <- <-]. exists r. cbn [mapping]. by rewrite lookup_insert_eq.
Qed.
End ShannonMemo.

(** C1: on a well-formed node table (any table without cycles) whose
    variables all have a literal, [bdd_to_aig] returns for every handle,
    marked or not, once the fuel exceeds the height of the handle (the
    number of nodes always does); the handle with the opposite mark gives
    the negated literal and the same final state; the literal counter grows
    by at most six for every node of the table; the memo table holds the
    node of the handle, with the literal that the unmarked handle gets (the
    call returns it, negated for a marked handle), and, if the table was
    closed under the children before (as the empty table is), also every
    node below; and, from a sound state and provided the literal counter
    has stayed within [int], the returned literal computes the function of
    the handle (read through [var_to_lit]), the final circuit extends the
    initial one, and every entry of the memo table belongs to an unmarked
    handle and computes the function of its node. *)
Theorem bdd_to_aig_correct nodes fuel bdd m :
  dd_wf nodes ->
  handle_ok nodes bdd ->
  (bdd_rank nodes bdd < fuel)%nat ->
  vars_allocated nodes m ->
  aig_inv m ->
  memo_inv bdd_key_ok (mtbdd_denote nodes) m ->
  exists res m',
    bdd_to_aig fuel nodes bdd m = Some (res, m')
    /\ bdd_to_aig fuel nodes (Z.lxor bdd sylvan_complement) m
       = Some (aiger_not res, m')
    /\ lit m' <= lit m + 6 * Z.of_nat (size nodes)
    /\ (is_Some (nodes !! mtbdd_index bdd) ->
        exists l, mapping m' !! mtbdd_index bdd = Some l
                  /\ res = if mtbdd_hasmark bdd then aiger_not l else l)
    /\ (memo_closed nodes m ->
        memo_closed nodes m'
        /\ forall j, dd_reach nodes (mtbdd_index bdd) j ->
             is_Some (mapping m' !! j))
    /\ (lit m' < 2 ^ 31 ->
        (forall inp, aig_value m' inp res
                     = mtbdd_denote nodes (dd_env m' inp) bdd)
        /\ lit_ok m' res
        /\ aig_inv m'
        /\ aig_extends m m'
        /\ forall n l, mapping m' !! n = Some l ->
             mtbdd_hasmark n = false
             /\ lit_ok m' l
             /\ forall inp, aig_value m' inp l
                            = mtbdd_denote nodes (dd_env m' inp) n).
Proof.
  intros Hwf Hok Hfuel Hvars Hinv Hmemo.
  destruct (bdd_to_aig_ok nodes Hwf fuel bdd m Hok Hfuel Hvars)
    as (res & m' & Hrun & Hlit & Hv & Hpost).
  exists res, m'. split; [done|]. split.
  { rewrite bdd_to_aig_toggle by apply Hok. by rewrite Hrun. }
  split; [by apply (bdd_to_aig_lit_bound nodes Hwf fuel bdd m res)|].
  split.
  { intros Hnode.
    apply (bdd_to_aig_entry nodes Hwf fuel bdd m res m' Hok Hrun Hnode). }
  split.
  { intros Hcl.
    destruct (bdd_to_aig_memo nodes Hwf fuel bdd m res m' Hok Hcl Hrun)
      as [(Hcl' & _ & Hhere) _].
    split; [done|]. intros j Hreach.
    apply (memo_closed_reach nodes m' (mtbdd_index bdd) j Hcl' Hreach).
    apply Hhere. by eapply dd_reach_node. }
  intros Hbound.
  destruct Hpost as ([Hinv' Hmemo'] & Hext & Hl & Hval); [done|by split|done|].
  split; [done|]. split; [done|]. split; [done|]. split; [done|].
  exact Hmemo'.
Qed.

Lemma xor_nodes_wf : dd_wf xor_nodes.
Proof.
  split.
  - unfold xor_nodes.
    apply map_Forall_insert_2; [|apply map_Forall_singleton].
    + split; [done|]. split; split; [done|by left|done|by left].
    + split; [done|]. split; split; [done|right; by eexists|done|right; by eexists].
  - apply dd_acyclic_ordered, (bool_decide_unpack _). by vm_compute.
Qed.

Lemma fresh_maker_inv : aig_inv fresh_maker.
Proof.
  apply aig_inv_fresh; [done|done|done|done|].
  unfold fresh_maker. simpl.
  apply map_Forall_insert_2; [done|].
  apply map_Forall_insert_2; [done|].
  by apply map_Forall_singleton.
Qed.

Lemma xor_nodes_allocated : vars_allocated xor_nodes fresh_maker.
Proof.
  unfold vars_allocated, xor_nodes.
  apply map_Forall_insert_2; [by eexists|].
  apply map_Forall_singleton. by eexists.
Qed.

Lemma xor_nodes_rev_wf : dd_wf xor_nodes_rev.
Proof.
  split.
  - unfold xor_nodes_rev.
    apply map_Forall_insert_2; [|apply map_Forall_singleton].
    + split; [done|]. split; split; [done|right; by eexists|done|right; by eexists].
    + split; [done|]. split; split; [done|by left|done|by left].
  - apply (dd_acyclic_ranked _ (fun i => if i =? 1 then 2%nat else 1%nat)),
      (bool_decide_unpack _). by vm_compute.
Qed.

Lemma xor_nodes_rev_allocated : vars_allocated xor_nodes_rev fresh_maker.
Proof.
  unfold vars_allocated, xor_nodes_rev.
  apply map_Forall_insert_2; [by eexists|].
  apply map_Forall_singleton. by eexists.
Qed.

Lemma bdd_to_aig_correct_witness :
  exists res m',
    bdd_to_aig 3 xor_nodes_rev (Z.lor 1 sylvan_complement) fresh_maker
    = Some (res, m')
    /\ bdd_to_aig 3 xor_nodes_rev 1 fresh_maker = Some (aiger_not res, m')
    /\ is_Some (mapping m' !! 1) /\ is_Some (mapping m' !! 2)
    /\ lit m' < 2 ^ 31.
Proof.
  destruct (bdd_to_aig_correct xor_nodes_rev 3 (Z.lor 1 sylvan_complement)
              fresh_maker xor_nodes_rev_wf)
    as (res & m' & Hrun & Htog & _ & _ & Hmemo & _).
  - split; [done|]. right. by eexists.
  - vm_compute. lia.
  - exact xor_nodes_rev_allocated.
  - exact fresh_maker_inv.
  - by apply memo_inv_empty.
  - exists res, m'. split; [done|]. split; [exact Htog|].
    destruct Hmemo as [_ Hall].
    { intros i n c _ [? Hi]. by vm_compute in Hi. }
    split; [apply Hall, dd_reach_here; by eexists|].
    split; [apply Hall; eapply dd_reach_low; [reflexivity|];
            apply dd_reach_here; by eexists|].
    vm_compute in Hrun. injection Hrun as _ <-. done.
Defined.

(** ** Covers and their products *)

Lemma land_1_odd x : negb (Z.land x 1 =? 0) = Z.odd x.
Proof.
  change 1 with (Z.ones 1). rewrite Z.land_ones by lia.
  change (2 ^ 1) with 2. rewrite Zmod_odd. by destruct (Z.odd x).
Qed.

Lemma zdd_true_not_false : zdd_true <> zdd_false.
Proof. done. Qed.

Section Cover.
Context (nodes : gmap Z ddnode) (Hwf : zdd_wf nodes).

Lemma zdd_wf_inner i n :
  nodes !! i = Some n -> i <> zdd_true /\ i <> zdd_false /\ 0 < i.
Proof.
  intros H. destruct Hwf as [Hall _]. destruct (Hall i n H) as (Hi & _).
  unfold zdd_true, zdd_false. lia.
Qed.

Lemma zdd_wf_node i n :
  nodes !! i = Some n ->
  0 <= node_var n
  /\ zdd_child_ok nodes i (node_low n) /\ zdd_child_ok nodes i (node_high n).
Proof.
  intros H. destruct Hwf as [Hall Hacyc].
  destruct (Hall i n H) as (_ & Hv & Hl & Hh).
  destruct (dd_rank_child id nodes i n Hacyc H) as [Hrl Hrh].
  split; [done|]. by split.
Qed.

Lemma zdd_child_handle i c : zdd_child_ok nodes i c -> zdd_handle_ok nodes c.
Proof. by intros [? _]. Qed.

Lemma zdd_child_rank i n c :
  nodes !! i = Some n -> zdd_child_ok nodes i c ->
  (zdd_rank nodes c < zdd_rank nodes i)%nat.
Proof. by intros _ [_ ?]. Qed.

Lemma zdd_rank_le c : (zdd_rank nodes c <= size nodes)%nat.
Proof. apply dd_rank_le. Qed.

Lemma cover_eval_stable env f1 :
  forall f2 c,
    zdd_handle_ok nodes c ->
    (zdd_rank nodes c < f1)%nat -> (zdd_rank nodes c < f2)%nat ->
    cover_eval f1 nodes env c = cover_eval f2 nodes env c.
Proof.
  induction f1 as [|f1 IH]; intros f2 c Hc H1 H2; [lia|].
  destruct f2 as [|f2]; [lia|]. simpl.
  destruct (c =? zdd_true); [done|]. destruct (c =? zdd_false); [done|].
  destruct (nodes !! c) as [n|] eqn:E; [|done].
  destruct (zdd_wf_node c n E) as (_ & Hl & Hh).
  pose proof (zdd_child_rank c n _ E Hl). pose proof (zdd_child_rank c n _ E Hh).
  rewrite (IH f2 (node_high n)), (IH f2 (node_low n));
    [done|by eapply zdd_child_handle|lia|lia|by eapply zdd_child_handle|lia|lia].
Qed.

Lemma cover_denote_node env c n :
  nodes !! c = Some n ->
  cover_denote nodes env c
  = (zdd_lit env (node_var n) && cover_denote nodes env (node_high n))
    || cover_denote nodes env (node_low n).
Proof.
  intros E. destruct (zdd_wf_inner c n E) as (Ht & Hf & _).
  unfold cover_denote at 1. simpl.
  destruct (Z.eqb_spec c zdd_true); [done|].
  destruct (Z.eqb_spec c zdd_false); [done|]. rewrite E.
  destruct (zdd_wf_node c n E) as (_ & Hl & Hh).
  pose proof (zdd_child_rank c n _ E Hl). pose proof (zdd_child_rank c n _ E Hh).
  pose proof (zdd_rank_le c).
  unfold cover_denote.
  rewrite (cover_eval_stable env _ (S (size nodes)) (node_high n)),
          (cover_eval_stable env _ (S (size nodes)) (node_low n));
    [done|by eapply zdd_child_handle|lia|lia|by eapply zdd_child_handle|lia|lia].
Qed.

Lemma cover_denote_true env : cover_denote nodes env zdd_true = true.
Proof. done. Qed.

Lemma cover_denote_false env : cover_denote nodes env zdd_false = false.
Proof. done. Qed.

Lemma zdd_cover_enum_stable f1 :
  forall f2 c,
    zdd_handle_ok nodes c ->
    (zdd_rank nodes c < f1)%nat -> (zdd_rank nodes c < f2)%nat ->
    zdd_cover_enum f1 nodes c = zdd_cover_enum f2 nodes c.
Proof.
  induction f1 as [|f1 IH]; intros f2 c Hc H1 H2; [lia|].
  destruct f2 as [|f2]; [lia|]. simpl.
  destruct (c =? zdd_true); [done|]. destruct (c =? zdd_false); [done|].
  destruct (nodes !! c) as [n|] eqn:E; [|done].
  destruct (zdd_wf_node c n E) as (_ & Hl & Hh).
  pose proof (zdd_child_rank c n _ E Hl). pose proof (zdd_child_rank c n _ E Hh).
  rewrite (IH f2 (node_high n)), (IH f2 (node_low n));
    [done|by eapply zdd_child_handle|lia|lia|by eapply zdd_child_handle|lia|lia].
Qed.

Lemma zdd_products_node c n :
  nodes !! c = Some n ->
  zdd_products nodes c
  = (cons (node_var n) <$> zdd_products nodes (node_high n))
    ++ zdd_products nodes (node_low n).
Proof.
  intros E. destruct (zdd_wf_inner c n E) as (Ht & Hf & _).
  unfold zdd_products at 1. simpl.
  destruct (Z.eqb_spec c zdd_true); [done|].
  destruct (Z.eqb_spec c zdd_false); [done|]. rewrite E.
  destruct (zdd_wf_node c n E) as (_ & Hl & Hh).
  pose proof (zdd_child_rank c n _ E Hl). pose proof (zdd_child_rank c n _ E Hh).
  pose proof (zdd_rank_le c).
  unfold zdd_products.
  rewrite (zdd_cover_enum_stable _ (S (size nodes)) (node_high n)),
          (zdd_cover_enum_stable _ (S (size nodes)) (node_low n));
    [done|by eapply zdd_child_handle|lia|lia|by eapply zdd_child_handle|lia|lia].
Qed.

Lemma sop_value_app env ps qs :
  sop_value env (ps ++ qs) = sop_value env ps || sop_value env qs.
Proof. unfold sop_value. apply existsb_app. Qed.

Lemma sop_value_cons_all env x ps :
  sop_value env (cons x <$> ps) = zdd_lit env x && sop_value env ps.
Proof.
  unfold sop_value. induction ps as [|p ps IH].
  - simpl. by rewrite andb_false_r.
  - rewrite fmap_cons. cbn [existsb forallb]. rewrite IH.
    by destruct (zdd_lit env x), (forallb _ p).
Qed.

(** The products of a cover denote the function of the cover. *)
Lemma sop_value_products env :
  forall fuel c,
    zdd_handle_ok nodes c -> (zdd_rank nodes c < fuel)%nat ->
    sop_value env (zdd_products nodes c) = cover_denote nodes env c.
Proof.
  induction fuel as [|fuel IH]; intros c Hc Hf; [lia|].
  destruct Hc as [->|[->|[n E]]]; [done|done|].
  rewrite (zdd_products_node c n E), (cover_denote_node env c n E).
  destruct (zdd_wf_node c n E) as (_ & Hl & Hh).
  pose proof (zdd_child_rank c n _ E Hl). pose proof (zdd_child_rank c n _ E Hh).
  rewrite sop_value_app, sop_value_cons_all.
  rewrite !IH; [done|by eapply zdd_child_handle|lia|by eapply zdd_child_handle|lia].
Qed.
End Cover.

(** ** Recursive conversion of a cover *)

Lemma bdd_to_aig_cover_unfold fuel nodes cover :
  bdd_to_aig_cover (S fuel) nodes cover =
  if cover =? zdd_true then ret aiger_true
  else if cover =? zdd_false then ret aiger_false
  else
    do it <- mapping_find cover;
    match it with
    | Some l => ret l
    | None =>
        do the_var <- of_option (zdd_getvar nodes cover);
        do the_lit <- var_to_lit_at (the_var ÷ 2);
        let the_lit :=
          if negb (Z.land the_var 1 =? 0) then aiger_not the_lit else the_lit in
        do low <- of_option (zdd_getlow nodes cover);
        do high <- of_option (zdd_gethigh nodes cover);
        let res := the_lit in
        do res <-
          (if negb (high =? zdd_true) then
             do x <- bdd_to_aig_cover fuel nodes high;
             lift (makeand res x)
           else ret res);
        do res <-
          (if negb (low =? zdd_false) then
             do x <- bdd_to_aig_cover fuel nodes low;
             do g <- lift (makeand (aiger_not res) (aiger_not x));
             ret (aiger_not g)
           else ret res);
        do _ <- mapping_set cover res;
        ret res
    end.
Proof. reflexivity. Qed.

Lemma computes_zdd_lit m x l :
  aig_inv m -> var_to_lit m !! (x ÷ 2) = Some l ->
  computes (fun env => zdd_lit env x) m
    (if negb (Z.land x 1 =? 0) then aiger_not l else l).
Proof.
  intros Hinv Hl. rewrite land_1_odd.
  pose proof (computes_var m _ l Hinv Hl) as Hc.
  apply (computes_polarity _ _ _ (Z.odd x)) in Hc; [|done].
  computes_conv Hc. unfold zdd_lit. apply xorb_comm.
Qed.

Section CoverCorrect.
Context (nodes : gmap Z ddnode) (Hwf : zdd_wf nodes).

Let K : Z -> Prop := fun _ => True.
Let D := cover_denote nodes.

Lemma bdd_to_aig_cover_ok fuel :
  forall cover m,
    zdd_handle_ok nodes cover ->
    (zdd_rank nodes cover < fuel)%nat ->
    zdd_vars_allocated nodes m ->
    run_ok K D True m
      (fun r m' => computes (fun env => cover_denote nodes env cover) m' r)
      (bdd_to_aig_cover fuel nodes cover m).
Proof.
  induction fuel as [|fuel IH]; intros cover m Hok Hfuel Hvars; [lia|].
  rewrite bdd_to_aig_cover_unfold.
  destruct (Z.eqb_spec cover zdd_true) as [->|Ht].
  { apply run_ok_ret. intros _ [Hinv _]. by apply computes_true. }
  destruct (Z.eqb_spec cover zdd_false) as [->|Hf].
  { apply run_ok_ret. intros _ [Hinv _]. by apply computes_false. }
  destruct Hok as [?|[?|[n Hn]]]; [done|done|].
  unfold bind at 1, mapping_find.
  destruct (mapping m !! cover) as [l|] eqn:Hmap.
  { apply run_ok_ret. intros _ [Hinv Hmemo].
    destruct (Hmemo cover l Hmap) as (_ & Hl & Hv). by split. }
  unfold bind at 1, of_option, zdd_getvar. rewrite Hn. simpl.
  destruct (Hvars cover n Hn) as [the_lit Hlit].
  unfold bind at 1, var_to_lit_at. rewrite Hlit.
  unfold bind at 1, of_option, zdd_getlow. rewrite Hn. simpl.
  unfold bind at 1, of_option, zdd_gethigh. rewrite Hn. simpl.
  destruct (zdd_wf_node nodes Hwf cover n Hn) as (Hvar & Hl & Hh).
  pose proof (zdd_child_rank nodes cover n _ Hn Hl) as Hrl.
  pose proof (zdd_child_rank nodes cover n _ Hn Hh) as Hrh.
  set (lit0 := if negb (Z.land (node_var n) 1 =? 0)
               then aiger_not the_lit else the_lit).
  set (fv := fun env : Z -> bool => zdd_lit env (node_var n)).
  set (fh := fun env : Z -> bool => cover_denote nodes env (node_high n)).
  set (fl := fun env : Z -> bool => cover_denote nodes env (node_low n)).
  assert (Hrec : forall c m1, zdd_child_ok nodes cover c ->
            var_to_lit m1 = var_to_lit m ->
            run_ok K D True m1
              (fun r m' => computes (fun env => cover_denote nodes env c) m' r)
              (bdd_to_aig_cover fuel nodes c m1)).
  { intros c m1 Hc Hv1.
    pose proof (zdd_child_rank nodes cover n _ Hn Hc).
    apply IH; [by eapply zdd_child_handle|lia|].
    unfold zdd_vars_allocated. by rewrite Hv1. }
  eapply run_ok_bind.
  { (* res = the_lit, and-ed with the high child unless that is true *)
    instantiate (1 := fun r m' => computes (fun env => fv env && fh env) m' r).
    destruct (Z.eqb_spec (node_high n) zdd_true) as [Eh|Eh]; simpl.
    - apply run_ok_ret. intros _ [Hinv _].
      pose proof (computes_zdd_lit m _ _ Hinv Hlit) as Hc. computes_conv Hc.
      unfold fv, fh. rewrite Eh, cover_denote_true. by rewrite andb_true_r.
    - eapply run_ok_bind; [apply run_ok_rec, (Hrec _ m Hh eq_refl)|].
      intros x m1 Hv1. simpl.
      eapply run_ok_weaken; [apply (run_ok_makeand K D fv fh)| |].
      + intros (_ & [Hinv _] & Hext & Hx) _. split; [|done].
        apply (computes_extends _ m m1); [done|].
        by apply computes_zdd_lit.
      + intros r m' _ _ _ _ Hr. exact Hr. }
  intros res1 m1 Hv1. simpl. eapply run_ok_bind.
  { (* or-ed with the low child unless that is false *)
    instantiate (1 := fun r m' =>
      computes (fun env => (fv env && fh env) || fl env) m' r).
    destruct (Z.eqb_spec (node_low n) zdd_false) as [El|El]; simpl.
    - apply run_ok_ret. intros (_ & _ & _ & Hres) _. computes_conv Hres.
      unfold fl. rewrite El, cover_denote_false. by rewrite orb_false_r.
    - eapply run_ok_bind; [apply run_ok_rec, (Hrec _ m1 Hl Hv1)|].
      intros x m2 Hv2. simpl. eapply run_ok_bind.
      { eapply run_ok_weaken;
          [apply (run_ok_makeand K D
                    (fun env => negb (fv env && fh env))
                    (fun env => negb (fl env)))| |].
        - intros ((_ & _ & _ & Hres) & _ & Hext & Hx) [Hinv2 _]. split.
          + apply computes_not; [done|]. by apply (computes_extends _ m1 m2).
          + by apply computes_not.
        - intros r m' _ _ _ _ Hr. exact Hr. }
      intros g m3 Hv3. simpl. apply run_ok_ret.
      intros (_ & _ & _ & Hg) [Hinv3 _].
      apply computes_not in Hg; [|done]. computes_conv Hg.
      by destruct (fv env && fh env), (fl env). }
  intros res m2 Hv2. simpl. eapply run_ok_bind.
  { eapply run_ok_weaken; [apply (run_ok_mapping_set K D cover res)| |].
    - intros (_ & _ & _ & Hres) _. split; [done|].
      computes_conv Hres. unfold D. by rewrite (cover_denote_node nodes Hwf env cover n).
    - intros r m' _ _ _ _ Hr. exact Hr. }
  intros [] m3 Hv3. simpl. apply run_ok_ret.
  intros ((_ & _ & _ & Hres) & _ & Hext & _) _.
  apply (computes_extends _ m2 m3) in Hres; [|done].
  computes_conv Hres. by rewrite (cover_denote_node nodes Hwf env cover n).
Qed.
End CoverCorrect.

(** ** Sum of products *)

Lemma computes_all_extends fs m m' ls :
  aig_extends m m' -> computes_all fs m ls -> computes_all fs m' ls.
Proof.
  intros Hext H. induction H; constructor; [|done].
  by apply (computes_extends _ m m').
Qed.

Lemma product_gates_ok product m :
  Forall (fun x => is_Some (var_to_lit m !! (x ÷ 2))) product ->
  exists gates,
    product_gates product m = Some (gates, m)
    /\ length gates = length product
    /\ (aig_inv m -> computes_all (zdd_lit_fun <$> product) m gates).
Proof.
  induction 1 as [|x product [l Hl] _ (gates & Hrun & Hlen & Hc)]; simpl.
  - exists []. split; [done|]. split; [done|]. intros _. constructor.
  - eexists (_ :: gates). unfold bind at 1, var_to_lit_at. rewrite Hl.
    unfold bind at 1. rewrite Hrun. split; [done|].
    split; [simpl; lia|]. intros Hinv. constructor; [|by apply Hc].
    by apply computes_zdd_lit.
Qed.

Lemma computes_all_two fs m a b ls :
  computes_all fs m (a :: b :: ls) ->
  exists f1 f2 frest,
    fs = f1 :: f2 :: frest /\ computes f1 m a /\ computes f2 m b
    /\ computes_all frest m ls.
Proof.
  intros H. inversion H as [|f1 ? fs1 ? H1 Hr1]; subst.
  inversion Hr1 as [|f2 ? fs2 ? H2 Hr2]; subst.
  by exists f1, f2, fs2.
Qed.

Lemma forallb_snoc {A} (f : A -> bool) l x :
  forallb f (l ++ [x]) = forallb f l && f x.
Proof. rewrite forallb_app. simpl. by rewrite andb_true_r. Qed.

Lemma existsb_snoc {A} (f : A -> bool) l x :
  existsb f (l ++ [x]) = existsb f l || f x.
Proof. rewrite existsb_app. simpl. by rewrite orb_false_r. Qed.

Section SumOfProducts.
Context (K : Z -> Prop) (D : (Z -> bool) -> Z -> bool).

Lemma and_queue_ok fuel :
  forall gates fs products m,
    (length gates <= fuel)%nat ->
    run_ok K D (computes_all fs m gates) m
      (fun r m' =>
         match gates with
         | [] => r = products
         | _ => exists l, r = products ++ [l]
                  /\ computes (fun env => forallb (fun f => f env) fs) m' l
         end)
      (and_queue fuel gates products m).
Proof.
  induction fuel as [|fuel IH]; intros gates fs products m Hlen.
  { destruct gates as [|last [|last2 gates]]; simpl in *; [|lia|lia].
    by apply run_ok_ret. }
  destruct gates as [|last [|last2 gates]].
  - by apply run_ok_ret.
  - apply run_ok_ret. intros Hc _. exists last. split; [done|].
    inversion Hc as [|f ? fs' ? Hf Hnil]; subst. inversion Hnil; subst.
    computes_conv Hf. simpl. by rewrite andb_true_r.
  - set (f1 := default (fun _ => true) (fs !! 0%nat)).
    set (f2 := default (fun _ => true) (fs !! 1%nat)).
    set (frest := drop 2 fs).
    cbn [and_queue]. eapply run_ok_bind.
    { eapply run_ok_weaken; [apply (run_ok_makeand K D f1 f2)| |].
      - intros Hc _.
        destruct (computes_all_two _ _ _ _ _ Hc) as (g1 & g2 & gr & -> & H1 & H2 & _).
        by split.
      - intros r m' _ _ _ _ Hr. exact Hr. }
    intros new_gate m1 Hv1. simpl.
    eapply run_ok_weaken;
      [apply (IH (gates ++ [new_gate])
                 (frest ++ [fun env => f1 env && f2 env]) products m1)| |].
    + rewrite length_app. simpl in *. lia.
    + intros (Hc & _ & Hext & Hg) _.
      destruct (computes_all_two _ _ _ _ _ Hc) as (g1 & g2 & gr & -> & _ & _ & Hr).
      apply Forall2_app; [by apply (computes_all_extends _ m m1)|].
      by constructor.
    + intros r m' (Hc & _) _ _ _ Hr.
      destruct (computes_all_two _ _ _ _ _ Hc) as (g1 & g2 & gr & -> & _).
      assert (Hex : exists l, r = products ++ [l]
                /\ computes (fun env => forallb (fun f => f env)
                     (frest ++ [fun env => f1 env && f2 env])) m' l).
      { destruct (gates ++ [new_gate]) eqn:E; [|done].
        by apply app_eq_nil in E as [_ ?]. }
      destruct Hex as (l & -> & Hl). exists l. split; [done|].
      computes_conv Hl. rewrite forallb_snoc. subst f1 f2 frest. simpl. rewrite drop_0.
      by destruct (g1 env), (g2 env), (forallb (fun f => f env) gr).
Qed.

Lemma or_queue_ok fuel :
  forall products fs m,
    (length products <= fuel)%nat ->
    run_ok K D (computes_all fs m products) m
      (fun r m' => computes (fun env => existsb (fun f => f env) fs) m' r)
      (or_queue fuel products m).
Proof.
  induction fuel as [|fuel IH]; intros products fs m Hlen.
  { destruct products as [|p1 [|p2 products]]; simpl in *; [|lia|lia].
    apply run_ok_ret. intros Hc [Hinv _]. inversion Hc; subst.
    by apply computes_false. }
  destruct products as [|p1 [|p2 products]].
  - apply run_ok_ret. intros Hc [Hinv _]. inversion Hc; subst.
    by apply computes_false.
  - apply run_ok_ret. intros Hc _.
    inversion Hc as [|f ? fs' ? Hf Hnil]; subst. inversion Hnil; subst.
    computes_conv Hf. simpl. by rewrite orb_false_r.
  - set (f1 := default (fun _ => true) (fs !! 0%nat)).
    set (f2 := default (fun _ => true) (fs !! 1%nat)).
    set (frest := drop 2 fs).
    cbn [or_queue]. eapply run_ok_bind.
    { eapply run_ok_weaken;
        [apply (run_ok_makeand K D (fun env => negb (f1 env))
                  (fun env => negb (f2 env)))| |].
      - intros Hc [Hinv _].
        destruct (computes_all_two _ _ _ _ _ Hc) as (g1 & g2 & gr & -> & H1 & H2 & _).
        split; by apply computes_not.
      - intros r m' _ _ _ _ Hr. exact Hr. }
    intros g m1 Hv1. simpl.
    eapply run_ok_weaken;
      [apply (IH (products ++ [aiger_not g])
                 (frest ++ [fun env => f1 env || f2 env]) m1)| |].
    + rewrite length_app. simpl in *. lia.
    + intros (Hc & _ & Hext & Hg) [Hinv1 _].
      destruct (computes_all_two _ _ _ _ _ Hc) as (g1 & g2 & gr & -> & _ & _ & Hr).
      apply Forall2_app; [by apply (computes_all_extends _ m m1)|].
      constructor; [|constructor].
      apply computes_not in Hg; [|done]. computes_conv Hg.
      subst f1 f2. simpl. by destruct (g1 env), (g2 env).
    + intros r m' (Hc & _) _ _ _ Hr.
      destruct (computes_all_two _ _ _ _ _ Hc) as (g1 & g2 & gr & -> & _).
      computes_conv Hr. rewrite existsb_snoc. subst f1 f2 frest. simpl.
      rewrite drop_0.
      by destruct (g1 env), (g2 env), (existsb (fun f => f env) gr).
Qed.
End SumOfProducts.

Lemma forallb_lit_funs env p :
  forallb (fun f => f env) (zdd_lit_fun <$> p) = product_value p env.
Proof.
  unfold product_value. induction p as [|x p IH]; [done|].
  rewrite fmap_cons. cbn [forallb]. by rewrite IH.
Qed.

Lemma existsb_product_values env qs :
  existsb (fun f => f env) (product_value <$> qs) = sop_value env qs.
Proof.
  unfold sop_value. induction qs as [|q qs IH]; [done|].
  rewrite fmap_cons. cbn [existsb]. by rewrite IH.
Qed.


Lemma zdd_cover_enum_allocated nodes m fuel :
  zdd_vars_allocated nodes m ->
  forall c,
    Forall (Forall (fun x => is_Some (var_to_lit m !! (x ÷ 2))))
      (zdd_cover_enum fuel nodes c).
Proof.
  intros Hvars. induction fuel as [|fuel IH]; intros c; simpl; [constructor|].
  destruct (c =? zdd_true); [by repeat constructor|].
  destruct (c =? zdd_false); [constructor|].
  destruct (nodes !! c) as [n|] eqn:E; [|constructor].
  apply Forall_app. split; [|apply IH].
  apply Forall_fmap. eapply Forall_impl; [apply IH|].
  intros p Hp. simpl. constructor; [|done]. exact (Hvars c n E).
Qed.

Section SumOfProductsCorrect.
Context (K : Z -> Prop) (D : (Z -> bool) -> Z -> bool).

Lemma sop_products_ok ps :
  forall products fs0 m,
    Forall (Forall (fun x => is_Some (var_to_lit m !! (x ÷ 2)))) ps ->
    run_ok K D (computes_all fs0 m products) m
      (fun r m' =>
         computes_all (fs0 ++ (product_value <$> List.filter nonempty ps)) m' r)
      (sop_products ps products m).
Proof.
  induction ps as [|p ps IH]; intros products fs0 m Hall.
  { apply run_ok_ret. intros Hc _. simpl. by rewrite app_nil_r. }
  apply Forall_cons in Hall as [Hp Hps].
  destruct (product_gates_ok p m Hp) as (gates & Hrun & Hlen & Hgates).
  cbn [sop_products]. unfold bind at 1. rewrite Hrun.
  eapply run_ok_bind.
  { eapply run_ok_weaken;
      [apply (and_queue_ok K D (length gates) gates (zdd_lit_fun <$> p) products m);
       lia| |].
    - intros _ [Hinv _]. by apply Hgates.
    - intros r m' _ _ _ _ Hr. exact Hr. }
  intros products1 m1 Hv1. simpl.
  eapply run_ok_weaken;
    [apply (IH products1 (fs0 ++ (product_value <$> List.filter nonempty [p])) m1)| |].
  - by rewrite Hv1.
  - intros (Hc & _ & Hext & Hq) _.
    apply (computes_all_extends _ m m1) in Hc; [|done].
    destruct p as [|x p]; destruct gates as [|g gates]; try done.
    + subst products1. simpl. by rewrite app_nil_r.
    + destruct Hq as (l & -> & Hl). simpl.
      apply Forall2_app; [done|]. constructor; [|constructor].
      computes_conv Hl. apply (forallb_lit_funs env (x :: p)).
  - intros r m' _ _ _ _ Hr. cbv beta in Hr.
    rewrite <- app_assoc, <- fmap_app in Hr.
    replace (List.filter nonempty [p] ++ List.filter nonempty ps)
      with (List.filter nonempty (p :: ps)) in Hr; [done|].
    simpl. by destruct (nonempty p).
Qed.

Lemma bdd_to_aig_cover_sop_ok nodes cover m :
  zdd_vars_allocated nodes m ->
  run_ok K D True m
    (fun r m' =>
       computes (fun env =>
         if cover =? zdd_true then true
         else sop_value env (List.filter nonempty (zdd_products nodes cover))) m' r)
    (bdd_to_aig_cover_sop nodes cover m).
Proof.
  intros Hvars. unfold bdd_to_aig_cover_sop.
  destruct (Z.eqb_spec cover zdd_true) as [->|Ht].
  { apply run_ok_ret. intros _ [Hinv _]. by apply computes_true. }
  destruct (Z.eqb_spec cover zdd_false) as [->|Hf].
  { apply run_ok_ret. intros _ [Hinv _]. by apply computes_false. }
  eapply run_ok_bind.
  { eapply run_ok_weaken;
      [apply (sop_products_ok (zdd_products nodes cover) [] [] m)| |].
    - by apply zdd_cover_enum_allocated.
    - intros _ _. constructor.
    - intros r m' _ _ _ _ Hr. exact Hr. }
  intros products m1 Hv1. simpl.
  eapply run_ok_weaken;
    [apply (or_queue_ok K D (length products) products
              (product_value <$> List.filter nonempty (zdd_products nodes cover)) m1);
     lia| |].
  - intros (_ & _ & _ & Hc) _. exact Hc.
  - intros r m' _ _ _ _ Hr. computes_conv Hr. apply existsb_product_values.
Qed.
End SumOfProductsCorrect.

(** ** The literal counter of the cover conversions *)



Section CoverBudget.
Context (nodes : gmap Z ddnode) (Hwf : zdd_wf nodes).


End CoverBudget.










Lemma redundant_cover_wf : zdd_wf redundant_cover.
Proof.
  split.
  - unfold redundant_cover. apply map_Forall_singleton.
    split; [done|]. split; [done|]. split; by right; left.
  - apply dd_acyclic_ordered, (bool_decide_unpack _). by vm_compute.
Qed.

(** A cover that has the empty product next to another product is not the
    cover of an irredundant sum of products.  On [{ {}, {x0} }] the
    sum-of-products loop passes over the empty product and returns the
    literal of [x0], while the recursive conversion gives the constant
    true, the function of the cover. *)
Lemma cover_sop_empty_product :
  zdd_wf redundant_cover
  /\ zdd_vars_allocated redundant_cover fresh_maker
  /\ fst <$> bdd_to_aig_cover_sop redundant_cover 1 fresh_maker = Some 2
  /\ fst <$> bdd_to_aig_cover 2 redundant_cover 1 fresh_maker = Some 1
  /\ (fun rm => aig_value rm.2 (fun _ => false) rm.1)
       <$> bdd_to_aig_cover_sop redundant_cover 1 fresh_maker = Some false
  /\ (fun rm => aig_value rm.2 (fun _ => false) rm.1)
       <$> bdd_to_aig_cover 2 redundant_cover 1 fresh_maker = Some true
  /\ cover_denote redundant_cover (dd_env fresh_maker (fun _ => false)) 1 = true.
Proof.
  split; [|split].
  - exact redundant_cover_wf.
  - unfold zdd_vars_allocated, redundant_cover. apply map_Forall_singleton.
    by eexists.
  - repeat split; vm_compute; reflexivity.
Qed.

(** ** The naive construction *)

Lemma fold_opt_app {A B} (f : A -> B -> option A) l1 l2 a :
  fold_opt f (l1 ++ l2) a = fold_opt f l1 a ≫= fold_opt f l2.
Proof.
  revert a. induction l1 as [|x l1 IH]; intros a; simpl; [done|].
  destruct (f a x) as [a'|]; simpl; [apply IH|done].
Qed.

Section Naive.
Context (fuel : nat) (data : HoaData) (isMaxParity controllerIsOdd : bool).

Abbreviation link := (link_ok data isMaxParity controllerIsOdd).
Abbreviation inter := (inter_ok fuel data isMaxParity controllerIsOdd).
Abbreviation fin := (fin_vertex data isMaxParity controllerIsOdd).

Lemma trans_wf_unpack state trans value :
  trans_wf fuel data state trans = true ->
  value ∈ seqZ 0 (numValuations data) ->
  exists succ l e,
    t_successors trans = [succ]
    /\ guard state trans = Some l
    /\ evalLabelNaive fuel l (aliases data) (ucntAPs data) value = Some e
    /\ (s_accSig state = None ->
        t_noAccSig trans = 1 /\ is_Some (first_of (t_accSig trans))).
Proof.
  unfold trans_wf. intros H Hv.
  apply andb_prop in H as [H Hacc]. apply andb_prop in H as [Hsucc Hlab].
  destruct (t_successors trans) as [|succ [|]]; try done.
  rewrite forallb_forall in Hlab.
  specialize (Hlab value). rewrite <- list_elem_of_In in Hlab.
  specialize (Hlab Hv).
  destruct (guard state trans) as [l|]; [|done].
  apply bool_decide_eq_true in Hlab as [e He].
  exists succ, l, e. split; [done|]. split; [done|]. split; [done|].
  intros Hnone. rewrite Hnone in Hacc.
  apply andb_prop in Hacc as [H1 H2].
  apply Z.eqb_eq in H1. by apply bool_decide_eq_true in H2.
Qed.

Lemma link_weaken g g' state trans to :
  g ⊆ g' -> link g state trans to -> link g' state trans to.
Proof.
  intros Hsub (succ & Hs & H). exists succ. split; [done|].
  destruct (s_accSig state); [done|].
  destruct H as (p & Hp & Hto & Hg). exists p. split; [done|]. split; [done|].
  by eapply lookup_weaken.
Qed.

Lemma inter_weaken g g' state value vinter :
  g ⊆ g' -> inter g state value vinter -> inter g' state value vinter.
Proof.
  intros Hsub (vi & Hn & Hg & Hp & Ho & Hl). exists vi.
  split; [done|]. split; [by eapply lookup_weaken|]. split; [done|].
  split; [done|]. eapply Forall2_impl; [exact Hl|].
  intros tr to. by apply link_weaken.
Qed.

Lemma naive_transition_spec state value g next si trans :
  state ∈ states data -> trans ∈ s_transitions state ->
  trans_wf fuel data state trans = true ->
  value ∈ seqZ 0 (numValuations data) ->
  noStates data <= next -> fresh_from g next ->
  exists g' next' new,
    naive_transition fuel data isMaxParity controllerIsOdd state value
      (g, next, si) trans = Some (g', next', si ++ new)
    /\ next <= next' /\ g ⊆ g' /\ fresh_from g' next'
    /\ (forall k v, g !! k = None -> g' !! k = Some v ->
          noStates data <= k /\ fin v)
    /\ Forall2 (link g' state)
         (List.filter (enabled fuel data state value) [trans]) new.
Proof.
  intros Hs Ht Hwf Hv Hnext Hfresh.
  destruct (trans_wf_unpack state trans value Hwf Hv)
    as (succ & l & e & Hsucc & Hguard & Heval & Hacc).
  unfold naive_transition. simpl. unfold enabled.
  rewrite Hsucc, Hguard. simpl. rewrite Heval. simpl.
  destruct (e =? -1); simpl.
  { exists g, next, []. rewrite app_nil_r. split; [done|]. split; [lia|].
    split; [done|]. split; [done|]. split; [|constructor].
    intros k v H1 H2. congruence. }
  destruct (s_accSig state) as [sig|] eqn:Hsig.
  { exists g, next, [succ]. split; [done|]. split; [lia|].
    split; [done|]. split; [done|]. split.
    - intros k v H1 H2. congruence.
    - constructor; [|constructor]. exists succ. split; [done|]. by rewrite Hsig. }
  destruct (Hacc eq_refl) as [Hno [p Hp]]. rewrite Hno, Hp. simpl.
  eexists _, (next + 1), [next]. split; [done|]. split; [lia|].
  assert (Hnone : g !! next = None) by (apply Hfresh; lia).
  split; [by apply insert_subseteq|]. split.
  { intros k Hk. unfold init_vertex. rewrite lookup_insert_ne by lia.
    apply Hfresh. lia. }
  split.
  - intros k v H1 H2. unfold init_vertex in H2.
    destruct (decide (next = k)) as [<-|Hne].
    + rewrite lookup_insert_eq in H2. injection H2 as <-.
      split; [done|]. by exists state, trans, p, succ.
    + rewrite lookup_insert_ne in H2 by done. congruence.
  - constructor; [|constructor]. exists succ. split; [done|]. rewrite Hsig.
    exists p. split; [done|]. split; [done|].
    unfold init_vertex. by rewrite lookup_insert_eq.
Qed.

Lemma naive_transitions_spec state value trans_list :
  forall g next si,
    state ∈ states data ->
    Forall (fun trans => trans ∈ s_transitions state
                         /\ trans_wf fuel data state trans = true) trans_list ->
    value ∈ seqZ 0 (numValuations data) ->
    noStates data <= next -> fresh_from g next ->
    exists g' next' new,
      fold_opt (naive_transition fuel data isMaxParity controllerIsOdd state value)
        trans_list (g, next, si) = Some (g', next', si ++ new)
      /\ next <= next' /\ g ⊆ g' /\ fresh_from g' next'
      /\ (forall k v, g !! k = None -> g' !! k = Some v ->
            noStates data <= k /\ fin v)
      /\ Forall2 (link g' state)
           (List.filter (enabled fuel data state value) trans_list) new.
Proof.
  induction trans_list as [|trans rest IH]; intros g next si Hs Hall Hv Hnext Hfresh.
  { exists g, next, []. rewrite app_nil_r. split; [done|]. split; [lia|].
    split; [done|]. split; [done|]. split; [|constructor].
    intros k v H1 H2. congruence. }
  apply Forall_cons in Hall as [[Hin Hwf] Hall].
  destruct (naive_transition_spec state value g next si trans Hs Hin Hwf Hv Hnext Hfresh)
    as (g1 & next1 & new1 & Hrun1 & Hle1 & Hsub1 & Hfresh1 & Hnew1 & Hlink1).
  destruct (IH g1 next1 (si ++ new1) Hs Hall Hv ltac:(lia) Hfresh1)
    as (g2 & next2 & new2 & Hrun2 & Hle2 & Hsub2 & Hfresh2 & Hnew2 & Hlink2).
  exists g2, next2, (new1 ++ new2). cbn [fold_opt]. rewrite Hrun1.
  cbn [mbind option_bind]. rewrite Hrun2, app_assoc. split; [done|]. split; [lia|].
  split; [by etrans|]. split; [done|]. split.
  - intros k v H1 H2. destruct (g1 !! k) as [v1|] eqn:E.
    + rewrite (lookup_weaken _ _ _ _ E Hsub2) in H2. injection H2 as <-.
      by apply Hnew1.
    + by apply Hnew2.
  - change (trans :: rest) with ([trans] ++ rest). rewrite List.filter_app.
    apply Forall2_app; [|done].
    eapply Forall2_impl; [exact Hlink1|]. intros tr to. by apply link_weaken.
Qed.

Lemma naive_valuation_spec state value g next ss :
  state ∈ states data ->
  state_wf fuel data state = true ->
  value ∈ seqZ 0 (numValuations data) ->
  noStates data <= next -> fresh_from g next ->
  exists g' next' vinter,
    naive_valuation fuel data isMaxParity controllerIsOdd state
      (g, next, ss) value = Some (g', next', ss ++ [vinter])
    /\ next <= vinter < next' /\ g ⊆ g' /\ fresh_from g' next'
    /\ (forall k v, g !! k = None -> g' !! k = Some v ->
          noStates data <= k
          /\ (fin v \/ (k = vinter /\ priority v = 0 /\ owner v = 0)))
    /\ inter g' state value vinter.
Proof.
  intros Hs Hwf Hv Hnext Hfresh.
  apply andb_prop in Hwf as [_ Hwf]. rewrite forallb_forall in Hwf.
  assert (Hall : Forall (fun trans => trans ∈ s_transitions state
                   /\ trans_wf fuel data state trans = true) (s_transitions state)).
  { apply Forall_forall. intros tr Htr. split; [done|].
    apply Hwf. by apply list_elem_of_In. }
  destruct (naive_transitions_spec state value (s_transitions state) g next []
              Hs Hall Hv Hnext Hfresh)
    as (g1 & next1 & si & Hrun & Hle & Hsub & Hfresh1 & Hnew & Hlink).
  unfold naive_valuation. rewrite Hrun. simpl.
  assert (Hnone : g1 !! next1 = None) by (apply Hfresh1; lia).
  eexists _, (next1 + 1), next1. split; [done|]. split; [lia|].
  split; [etrans; [exact Hsub|by apply insert_subseteq]|]. split.
  { intros k Hk. unfold init_vertex. rewrite lookup_insert_ne by lia.
    apply Hfresh1. lia. }
  split.
  - intros k v H1 H2. unfold init_vertex in H2.
    destruct (decide (next1 = k)) as [<-|Hne].
    + rewrite lookup_insert_eq in H2. injection H2 as <-.
      split; [lia|]. by right.
    + rewrite lookup_insert_ne in H2 by done.
      destruct (Hnew k v H1 H2). split; [done|]. by left.
  - eexists. split; [lia|]. split; [unfold init_vertex; by rewrite lookup_insert_eq|].
    split; [done|]. split; [done|]. simpl.
    eapply Forall2_impl; [exact Hlink|]. intros tr to.
    apply link_weaken. by apply insert_subseteq.
Qed.

Lemma naive_valuations_spec state values :
  forall g next ss,
    state ∈ states data ->
    state_wf fuel data state = true ->
    Forall (fun value => value ∈ seqZ 0 (numValuations data)) values ->
    noStates data <= next -> fresh_from g next ->
    exists g' next' new,
      fold_opt (naive_valuation fuel data isMaxParity controllerIsOdd state)
        values (g, next, ss) = Some (g', next', ss ++ new)
      /\ next <= next' /\ g ⊆ g' /\ fresh_from g' next'
      /\ (forall k v, g !! k = None -> g' !! k = Some v ->
            noStates data <= k
            /\ (fin v \/ (k ∈ new /\ priority v = 0 /\ owner v = 0)))
      /\ Forall2 (inter g' state) values new
      /\ Forall (fun vinter => next <= vinter < next') new
      /\ NoDup new.
Proof.
  induction values as [|value rest IH]; intros g next ss Hs Hwf Hall Hnext Hfresh.
  { exists g, next, []. rewrite app_nil_r. split; [done|]. split; [lia|].
    split; [done|]. split; [done|]. split; [intros k v H1 H2; congruence|].
    split; [constructor|]. split; constructor. }
  apply Forall_cons in Hall as [Hv Hall].
  destruct (naive_valuation_spec state value g next ss Hs Hwf Hv Hnext Hfresh)
    as (g1 & next1 & vinter & Hrun1 & Hle1 & Hsub1 & Hfresh1 & Hnew1 & Hinter1).
  destruct (IH g1 next1 (ss ++ [vinter]) Hs Hwf Hall ltac:(lia) Hfresh1)
    as (g2 & next2 & new2 & Hrun2 & Hle2 & Hsub2 & Hfresh2 & Hnew2 & Hinter2
        & Hrange2 & Hnodup2).
  exists g2, next2, (vinter :: new2). cbn [fold_opt]. rewrite Hrun1.
  cbn [mbind option_bind]. rewrite Hrun2, <- app_assoc. split; [done|]. split; [lia|].
  split; [by etrans|]. split; [done|]. split.
  { intros k v H1 H2. destruct (g1 !! k) as [v1|] eqn:E.
    - rewrite (lookup_weaken _ _ _ _ E Hsub2) in H2. injection H2 as <-.
      destruct (Hnew1 k v1 H1 E) as [Hk [Hf|(-> & Hp & Ho)]].
      + split; [done|]. by left.
      + split; [done|]. right. split; [left|done].
    - destruct (Hnew2 k v E H2) as [Hk [Hf|(Hin & Hp & Ho)]].
      + split; [done|]. by left.
      + split; [done|]. right. split; [by right|done]. }
  split.
  { constructor; [|done]. by apply (inter_weaken g1 g2). }
  split.
  { constructor; [lia|]. eapply Forall_impl; [exact Hrange2|].
    intros x Hx. simpl in Hx. lia. }
  constructor; [|done]. intros Hin.
  rewrite Forall_forall in Hrange2. specialize (Hrange2 vinter Hin).
  simpl in Hrange2. lia.
Qed.

Abbreviation state_vertex := (state_vertex_ok fuel data isMaxParity controllerIsOdd).

Lemma state_vertex_weaken g g' state :
  g ⊆ g' -> state_vertex g state -> state_vertex g' state.
Proof.
  intros Hsub (vs & Hg & Ho & Hp & Hn & Hi). exists vs.
  split; [by eapply lookup_weaken|]. split; [done|]. split; [done|].
  split; [done|]. eapply Forall2_impl; [exact Hi|].
  intros value vinter. by apply inter_weaken.
Qed.

Lemma naive_state_spec state g next :
  state ∈ states data ->
  state_wf fuel data state = true ->
  s_id state < noStates data ->
  g !! s_id state = None ->
  noStates data <= next -> fresh_from g next ->
  exists g' next',
    naive_state fuel data isMaxParity controllerIsOdd (g, next) state
      = Some (g', next')
    /\ next <= next' /\ g ⊆ g' /\ fresh_from g' next'
    /\ (forall k v, g !! k = None -> g' !! k = Some v ->
          k = s_id state
          \/ (noStates data <= k
              /\ (fin v
                  \/ (priority v = 0 /\ owner v = 0
                      /\ exists vs, g' !! s_id state = Some vs /\ k ∈ edges vs))))
    /\ state_vertex g' state.
Proof.
  intros Hs Hwf Hid Hnone Hnext Hfresh.
  assert (Hall : Forall (fun value => value ∈ seqZ 0 (numValuations data))
                   (seqZ 0 (numValuations data))) by by apply Forall_forall.
  destruct (naive_valuations_spec state _ g next [] Hs Hwf Hall Hnext Hfresh)
    as (g1 & next1 & new & Hrun & Hle & Hsub & Hfresh1 & Hnew & Hinter & Hrange & Hnodup).
  unfold naive_state. rewrite Hrun. cbn [mbind option_bind app].
  assert (Hprio : exists priority,
    match s_accSig state with
    | Some sig =>
        p ← head sig;
        Some (adjustPriority p isMaxParity controllerIsOdd (noAccSets data))
    | None => Some 0
    end = Some priority
    /\ priority = match s_accSig state ≫= head with
                  | Some p => adjustPriority p isMaxParity controllerIsOdd (noAccSets data)
                  | None => 0
                  end).
  { apply andb_prop in Hwf as [Hsig _].
    destruct (s_accSig state) as [[|p sig]|]; [done| |]; by eexists. }
  destruct Hprio as (prio & -> & Hprio). cbn [mbind option_bind].
  assert (Hnone1 : g1 !! s_id state = None).
  { destruct (g1 !! s_id state) as [v|] eqn:E; [|done].
    destruct (Hnew _ _ Hnone E). lia. }
  assert (Hsub1 : g1 ⊆ init_vertex g1 (s_id state) prio 1 (state_label state) new)
    by by apply insert_subseteq.
  eexists _, next1. split; [done|]. split; [lia|]. split; [by etrans|].
  split.
  { intros k Hk. unfold init_vertex. rewrite lookup_insert_ne by lia.
    by apply Hfresh1. }
  split.
  - intros k v H1 H2. unfold init_vertex in H2.
    destruct (decide (s_id state = k)) as [<-|Hne]; [by left|right].
    rewrite lookup_insert_ne in H2 by done.
    destruct (Hnew k v H1 H2) as [Hk [Hf|(Hin & Hp & Ho)]].
    + split; [done|]. by left.
    + split; [done|]. right. split; [done|]. split; [done|].
      eexists. split; [unfold init_vertex; by rewrite lookup_insert_eq|done].
  - eexists. split; [unfold init_vertex; by rewrite lookup_insert_eq|].
    split; [done|]. split; [done|]. split; [done|]. simpl.
    eapply Forall2_impl; [exact Hinter|]. intros value vinter.
    by apply inter_weaken.
Qed.

Lemma naive_states_spec sts :
  forall g next,
    Forall (fun s => s ∈ states data /\ state_wf fuel data s = true
                     /\ s_id s < noStates data /\ g !! s_id s = None) sts ->
    NoDup (s_id <$> sts) ->
    noStates data <= next -> fresh_from g next ->
    exists g' next',
      fold_opt (naive_state fuel data isMaxParity controllerIsOdd) sts (g, next)
        = Some (g', next')
      /\ next <= next' /\ g ⊆ g' /\ fresh_from g' next'
      /\ (forall k v, g !! k = None -> g' !! k = Some v ->
            (exists s, s ∈ sts /\ k = s_id s)
            \/ (noStates data <= k
                /\ (fin v
                    \/ (priority v = 0 /\ owner v = 0
                        /\ exists s vs, s ∈ sts /\ g' !! s_id s = Some vs
                                        /\ k ∈ edges vs))))
      /\ Forall (state_vertex g') sts.
Proof.
  induction sts as [|s rest IH]; intros g next Hall Hnd Hnext Hfresh.
  { exists g, next. split; [done|]. split; [lia|]. split; [done|].
    split; [done|]. split; [intros k v H1 H2; congruence|constructor]. }
  apply Forall_cons in Hall as [(Hs & Hwf & Hid & Hnone) Hall].
  rewrite fmap_cons in Hnd. apply NoDup_cons in Hnd as [Hnotin Hnd].
  destruct (naive_state_spec s g next Hs Hwf Hid Hnone Hnext Hfresh)
    as (g1 & next1 & Hrun1 & Hle1 & Hsub1 & Hfresh1 & Hnew1 & Hsv1).
  destruct (IH g1 next1) as (g2 & next2 & Hrun2 & Hle2 & Hsub2 & Hfresh2 & Hnew2 & Hsv2);
    [|done|lia|done|].
  { apply Forall_forall. intros s' Hin.
    rewrite Forall_forall in Hall.
    destruct (Hall s' Hin) as (Hs' & Hwf' & Hid' & Hnone').
    split; [done|]. split; [done|]. split; [done|].
    destruct (g1 !! s_id s') as [v|] eqn:E; [|done].
    destruct (Hnew1 _ _ Hnone' E) as [Heq|[Hk _]]; [|lia].
    exfalso. apply Hnotin. rewrite <- Heq. by apply list_elem_of_fmap_2. }
  exists g2, next2. cbn [fold_opt]. rewrite Hrun1. cbn [mbind option_bind].
  split; [done|]. split; [lia|]. split; [by etrans|]. split; [done|]. split.
  - intros k v H1 H2. destruct (g1 !! k) as [v1|] eqn:E.
    + rewrite (lookup_weaken _ _ _ _ E Hsub2) in H2. injection H2 as <-.
      destruct (Hnew1 k v1 H1 E) as [->|[Hk [Hf|(Hp & Ho & vs & Hvs & Hin)]]].
      * left. exists s. split; [left|done].
      * right. split; [done|]. by left.
      * right. split; [done|]. right. split; [done|]. split; [done|].
        exists s, vs. split; [left|]. split; [by eapply lookup_weaken|done].
    + destruct (Hnew2 k v E H2) as [(s' & Hin & ->)|[Hk [Hf|(Hp & Ho & s' & vs & Hin & Hvs & Hk')]]].
      * left. exists s'. split; [by right|done].
      * right. split; [done|]. by left.
      * right. split; [done|]. right. split; [done|]. split; [done|].
        exists s', vs. split; [by right|done].
  - constructor; [|done]. by apply (state_vertex_weaken g1 g2).
Qed.

(** Every vertex of the game is a state vertex, an intermediate vertex of a
    state, or a vertex interposed for a transition. *)
Lemma constructGameNaive_spec :
  naive_wf fuel data = true ->
  exists game n,
    constructGameNaive fuel data isMaxParity controllerIsOdd = Some (game, n)
    /\ (forall k v, game !! k = Some v ->
          (exists s, s ∈ states data /\ k = s_id s)
          \/ (noStates data <= k
              /\ (fin v
                  \/ (priority v = 0 /\ owner v = 0
                      /\ exists s vs, s ∈ states data
                           /\ game !! s_id s = Some vs /\ k ∈ edges vs))))
    /\ Forall (state_vertex game) (states data).
Proof.
  intros Hwf. apply andb_prop in Hwf as [Hids Hwf].
  apply bool_decide_eq_true in Hids. rewrite forallb_forall in Hwf.
  destruct (naive_states_spec (states data) ∅ (noStates data))
    as (g & n & Hrun & _ & _ & _ & Hnew & Hsv).
  - apply Forall_forall. intros s Hs. split; [done|].
    split; [by apply Hwf, list_elem_of_In|]. split; [|done].
    assert (Hin : s_id s ∈ seqZ 0 (noStates data))
      by (rewrite <- Hids; by apply list_elem_of_fmap_2).
    apply elem_of_seqZ in Hin. lia.
  - rewrite Hids. apply NoDup_seqZ.
  - lia.
  - intros k _. apply lookup_empty.
  - exists g, n. split; [done|]. split; [|done].
    intros k v Hk. by apply Hnew.
Qed.
End Naive.




(** ** Priorities of the constructed games *)

Lemma leaf_of_literals priority succ :
  0 <= priority < 2 ^ 31 -> 0 <= succ < 2 ^ 31 ->
  leaf_of priority succ = priority * 2 ^ 32 + succ.
Proof. intros Hp Hs. by apply (cache_key_literals succ priority). Qed.

Lemma leaf_priority_of priority succ :
  0 <= priority < 2 ^ 31 -> 0 <= succ < 2 ^ 31 ->
  leaf_priority (leaf_of priority succ) = priority.
Proof.
  intros Hp Hs. rewrite leaf_of_literals by done.
  unfold leaf_priority, to_int. rewrite Z.shiftr_div_pow2 by lia.
  rewrite Z.add_comm, Z.div_add, Z.div_small by lia.
  destruct (Z.ltb_spec (0 + priority) (2 ^ 31)); lia.
Qed.

Lemma adjustPriority_upper p mx odd k :
  0 <= p <= k -> adjustPriority p mx odd k <= k + 3.
Proof.
  intros Hp. rewrite adjustPriority_unfold.
  rewrite Z.quot_div_nonneg by lia.
  pose proof (Z.div_mod (k + 1) 2 ltac:(lia)).
  pose proof (Z.mod_pos_bound (k + 1) 2 ltac:(lia)).
  destruct mx, odd; lia.
Qed.

Lemma fold_opt_inv {A B} (f : A -> B -> option A) (P : A -> Prop) l :
  forall a r,
    fold_opt f l a = Some r -> P a ->
    (forall a x a', x ∈ l -> P a -> f a x = Some a' -> P a') ->
    P r.
Proof.
  induction l as [|x l IH]; intros a r Hrun Ha Hstep; simpl in Hrun.
  - by injection Hrun as <-.
  - destruct (f a x) as [a'|] eqn:E; [|done]. simpl in Hrun.
    apply (IH a' r Hrun).
    + apply (Hstep a x a'); [left|done|done].
    + intros a1 y a2 Hy. apply Hstep. by right.
Qed.

Lemma fold_left_inv {A B} (f : A -> B -> A) (P : A -> Prop) l :
  forall a,
    P a -> (forall a x, x ∈ l -> P a -> P (f a x)) -> P (fold_left f l a).
Proof.
  induction l as [|x l IH]; intros a Ha Hstep; simpl; [done|].
  apply IH.
  - apply Hstep; [left|done].
  - intros a1 y Hy. apply Hstep. by right.
Qed.

Lemma acc_ok_range data a p :
  acc_ok data a = true -> first_of a = Some p -> 0 <= p <= noAccSets data.
Proof.
  unfold acc_ok. intros H Hf. rewrite Hf in H.
  apply andb_prop in H as [H1 H2]. lia.
Qed.

Section Explicit.
Context (fuel : nat) (data : HoaData) (isMaxParity controllerIsOdd : bool).
Context (Hranges : ranges_wf data = true).

Lemma ranges_noAccSets : 0 <= noAccSets data < 2 ^ 30.
Proof.
  unfold ranges_wf in Hranges. apply andb_prop in Hranges as [H _]. lia.
Qed.

Lemma ranges_state s :
  s ∈ states data -> acc_ok data (s_accSig s) = true.
Proof.
  intros Hs. unfold ranges_wf in Hranges.
  apply andb_prop in Hranges as [_ H]. rewrite forallb_forall in H.
  apply list_elem_of_In, H in Hs. by apply andb_prop in Hs as [? _].
Qed.

Lemma ranges_trans s t :
  s ∈ states data -> t ∈ s_transitions s ->
  acc_ok data (t_accSig t) = true
  /\ forall succ, succ ∈ t_successors t -> 0 <= succ < 2 ^ 31.
Proof.
  intros Hs Ht. unfold ranges_wf in Hranges.
  apply andb_prop in Hranges as [_ H]. rewrite forallb_forall in H.
  apply list_elem_of_In, H in Hs. apply andb_prop in Hs as [_ Hs].
  rewrite forallb_forall in Hs. apply list_elem_of_In, Hs in Ht.
  apply andb_prop in Ht as [Ha Hsucc]. split; [done|].
  intros succ Hin. rewrite forallb_forall in Hsucc.
  apply list_elem_of_In, Hsucc in Hin. lia.
Qed.

Lemma adjusted_range p :
  0 <= p <= noAccSets data ->
  1 <= adjustPriority p isMaxParity controllerIsOdd (noAccSets data) < 2 ^ 31.
Proof.
  intros Hp. pose proof ranges_noAccSets.
  pose proof (adjustPriority_pos p isMaxParity controllerIsOdd _ Hp).
  pose proof (adjustPriority_upper p isMaxParity controllerIsOdd _ Hp). lia.
Qed.

(** The priority half of every leaf of the transition relation of a state
    is 0 or an adjusted priority. *)
Lemma state_mtbdd_priority state v lval :
  state ∈ states data ->
  state_mtbdd fuel data isMaxParity controllerIsOdd state v = Some lval ->
  0 <= leaf_priority lval.
Proof.
  intros Hs Hrun. unfold state_mtbdd in Hrun.
  apply (fold_opt_inv _ (fun l => 0 <= leaf_priority l) _ _ _ Hrun); [done|].
  intros a t a' Ht Ha Hstep. unfold explicit_transition in Hstep.
  destruct (t_successors t) as [|succ [|]] eqn:Hsucc; try done.
  destruct (guard state t) as [label|]; [|done]. simpl in Hstep.
  destruct (ranges_trans state t Hs Ht) as [Hacc Hsuccs].
  assert (Hsr : 0 <= succ < 2 ^ 31) by (apply Hsuccs; rewrite Hsucc; left).
  assert (Hprio : forall prio,
    match s_accSig state with
    | None =>
        if t_noAccSig t =? 1 then
          p ← first_of (t_accSig t);
          Some (adjustPriority p isMaxParity controllerIsOdd (noAccSets data))
        else None
    | Some _ => Some 0
    end = Some prio -> 0 <= prio < 2 ^ 31).
  { intros prio. destruct (s_accSig state); [intros [= <-]; lia|].
    destruct (t_noAccSig t =? 1); [|done].
    destruct (first_of (t_accSig t)) as [p|] eqn:Hp; [|done].
    simpl. intros [= <-].
    pose proof (adjusted_range p (acc_ok_range _ _ _ Hacc Hp)). lia. }
  destruct (match s_accSig state with Some _ => _ | None => _ end) as [prio|];
    [|done].
  specialize (Hprio prio eq_refl). simpl in Hstep.
  destruct (evalLabel fuel label data (variables data) v) as [[]|]; [| |done].
  - simpl in Hstep. injection Hstep as <-.
    rewrite leaf_priority_of by done. lia.
  - simpl in Hstep. by injection Hstep as <-.
Qed.

Context (no_acc : State -> Prop).

Abbreviation reserved := (priorities_reserved data no_acc).

Lemma reserved_pending_mono done pending pending' game :
  pending ⊆ pending' -> reserved done pending game -> reserved done pending' game.
Proof.
  intros Hsub H k v Hk. destruct (H k v Hk) as [Hs|(Hn & Ho & Hp)]; [by left|].
  right. split; [done|]. split; [done|].
  destruct Hp as [Hp|[Hp [Ha|Hin]]]; [by left|right..].
  - split; [done|]. by left.
  - split; [done|]. right. by apply Hsub.
Qed.

(** Entering a vertex of the controller at a fresh index above the
    states. *)
Lemma reserved_insert done pending game next v :
  (forall s, s ∈ done -> s_id s < noStates data) ->
  noStates data <= next -> game !! next = None ->
  reserved done pending game ->
  owner v = 0 ->
  1 <= priority v \/ (priority v = 0 /\ next ∈ pending) ->
  reserved done pending (<[next := v]> game).
Proof.
  intros Hids Hnext Hnone H Ho Hp k w Hk.
  assert (Hatt : forall k', is_attached done game k' ->
                            is_attached done (<[next := v]> game) k').
  { intros k' (s & vs & Hs & Hvs & Hov & Hin). exists s, vs.
    split; [done|]. split; [|done].
    rewrite lookup_insert_ne; [done|]. specialize (Hids s Hs). lia. }
  destruct (decide (next = k)) as [<-|Hne].
  - rewrite lookup_insert_eq in Hk. injection Hk as <-.
    right. split; [done|]. split; [done|].
    destruct Hp as [Hp|[Hp Hin]]; [by left|right]. split; [done|]. by right.
  - rewrite lookup_insert_ne in Hk by done.
    destruct (H k w Hk) as [Hs|(Hn & Hw & Hpw)]; [by left|].
    right. split; [done|]. split; [done|].
    destruct Hpw as [Hpw|[Hpw [Ha|Hin]]]; [by left|right..].
    + split; [done|]. left. by apply Hatt.
    + split; [done|]. by right.
Qed.

(** Entering the vertex of a state: the pending intermediate vertices
    become its successors. *)
Lemma reserved_state done pending game s prio lbl :
  (forall s', s' ∈ done -> s_id s' <> s_id s) ->
  s_id s < noStates data ->
  reserved done pending game ->
  0 <= prio -> (prio = 0 -> no_acc s) ->
  reserved (done ++ [s]) [] (init_vertex game (s_id s) prio 1 lbl pending).
Proof.
  intros Hids Hid H Hprio Hno k v Hk. unfold init_vertex in *.
  assert (Hatt : forall k', is_attached done game k' ->
            is_attached (done ++ [s])
              (<[s_id s := mkVertex prio 1 lbl pending]> game) k').
  { intros k' (s' & vs & Hs' & Hvs & Hov & Hin). exists s', vs.
    split; [apply elem_of_app; by left|]. split; [|done].
    rewrite lookup_insert_ne; [done|]. intros Heq. by apply (Hids s' Hs'). }
  destruct (decide (s_id s = k)) as [<-|Hne].
  - rewrite lookup_insert_eq in Hk. injection Hk as <-. left.
    exists s. split; [apply elem_of_app; right; left|]. done.
  - rewrite lookup_insert_ne in Hk by done.
    destruct (H k v Hk) as [(s' & Hs' & Hks & Hrest)|(Hn & Hw & Hpw)].
    + left. exists s'. split; [apply elem_of_app; by left|done].
    + right. split; [done|]. split; [done|].
      destruct Hpw as [Hpw|[Hpw [Ha|Hin]]]; [by left|right..].
      * split; [done|]. left. by apply Hatt.
      * split; [done|]. left. exists s, (mkVertex prio 1 lbl pending).
        split; [apply elem_of_app; right; left|].
        split; [by rewrite lookup_insert_eq|done].
Qed.

(** The state of a construction: the indices are above the states, nothing
    is entered at or above [next], and the priorities are as reserved. *)
Definition build_inv (done : list State) (pending : list Z)
    (game : gmap Z Vertex) (next : Z) : Prop :=
  (forall s, s ∈ done -> s_id s < noStates data)
  /\ noStates data <= next /\ fresh_from game next
  /\ reserved done pending game.

Lemma build_inv_insert done pending game next v :
  build_inv done pending game next ->
  owner v = 0 ->
  1 <= priority v \/ (priority v = 0 /\ next ∈ pending) ->
  build_inv done pending (<[next := v]> game) (next + 1).
Proof.
  intros (Hids & Hnext & Hfresh & Hres) Ho Hp.
  split; [done|]. split; [lia|]. split.
  - intros k Hk. rewrite lookup_insert_ne by lia. apply Hfresh. lia.
  - apply reserved_insert; try done. apply Hfresh. lia.
Qed.

Lemma explicit_target_inv done pending game next si tv lval :
  build_inv done pending game next ->
  0 <= leaf_priority lval ->
  build_inv done pending
    (explicit_target (game, next, si, tv) lval).1.1.1
    (explicit_target (game, next, si, tv) lval).1.1.2.
Proof.
  intros Hinv Hp. unfold explicit_target.
  destruct (Z.eqb_spec (leaf_priority lval) 0) as [E|E]; simpl; [done|].
  destruct (tv !! lval); simpl; [done|].
  apply build_inv_insert; [done|done|]. left. simpl. lia.
Qed.

Lemma explicit_subroot_inv done state pending game next iv inter_bdd :
  build_inv done pending game next ->
  Forall (fun lval => 0 <= leaf_priority lval) inter_bdd ->
  exists new,
    (explicit_subroot state (game, next, pending, iv) inter_bdd).1.2
      = pending ++ new
    /\ build_inv done (pending ++ new)
         (explicit_subroot state (game, next, pending, iv) inter_bdd).1.1.1
         (explicit_subroot state (game, next, pending, iv) inter_bdd).1.1.2.
Proof.
  intros Hinv Hleaves. unfold explicit_subroot.
  assert (Hmono : forall g n new, build_inv done pending g n ->
            build_inv done (pending ++ new) g n).
  { intros g n new (H1 & H2 & H3 & H4). split; [done|]. split; [done|].
    split; [done|]. eapply reserved_pending_mono; [|done].
    intros x Hx. apply elem_of_app. by left. }
  destruct (iv !! collect_targets inter_bdd) as [vinter|].
  { exists [vinter]. split; [done|]. by apply Hmono. }
  set (P := fun b : gmap Z Vertex * Z * list Z * gmap Z Z =>
              build_inv done pending b.1.1.1 b.1.1.2).
  assert (HP : P (fold_left explicit_target (collect_targets inter_bdd)
                    (game, next, [], ∅))).
  { apply (fold_left_inv explicit_target P); [done|].
    intros [[[g n] si] tv] lval Hin HPa. apply explicit_target_inv; [done|].
    rewrite Forall_forall in Hleaves. apply Hleaves.
    unfold collect_targets in Hin.
    rewrite merge_sort_Permutation, elem_of_remove_dups in Hin. exact Hin. }
  destruct (fold_left explicit_target _ _) as [[[g1 n1] si1] tv1].
  unfold P in HP. simpl in HP. exists [n1]. split; [done|]. simpl.
  unfold init_vertex. apply build_inv_insert; [by apply Hmono|done|].
  right. split; [done|]. apply elem_of_app. right. left.
Qed.

Lemma explicit_subroots_inv done state inter_bdds :
  forall game next pending iv,
    build_inv done pending game next ->
    Forall (Forall (fun lval => 0 <= leaf_priority lval)) inter_bdds ->
    exists new,
      (fold_left (explicit_subroot state) inter_bdds
         (game, next, pending, iv)).1.2 = pending ++ new
      /\ build_inv done (pending ++ new)
           (fold_left (explicit_subroot state) inter_bdds
              (game, next, pending, iv)).1.1.1
           (fold_left (explicit_subroot state) inter_bdds
              (game, next, pending, iv)).1.1.2.
Proof.
  induction inter_bdds as [|inter_bdd rest IH]; intros game next pending iv Hinv Hall.
  { exists []. rewrite app_nil_r. by split. }
  apply Forall_cons in Hall as [Hleaves Hall]. cbn [fold_left].
  destruct (explicit_subroot_inv done state pending game next iv inter_bdd Hinv Hleaves)
    as (new1 & Hp1 & Hinv1).
  destruct (explicit_subroot state (game, next, pending, iv) inter_bdd)
    as [[[g1 n1] p1] iv1]. simpl in Hp1, Hinv1. subst p1.
  destruct (IH g1 n1 (pending ++ new1) iv1 Hinv1 Hall) as (new2 & Hp2 & Hinv2).
  exists (new1 ++ new2). rewrite app_assoc. by split.
Qed.

Lemma build_inv_state done pending game next s prio lbl :
  build_inv done pending game next ->
  (forall s', s' ∈ done -> s_id s' <> s_id s) ->
  s_id s < noStates data ->
  0 <= prio -> (prio = 0 -> no_acc s) ->
  build_inv (done ++ [s]) []
    (init_vertex game (s_id s) prio 1 lbl pending) next.
Proof.
  intros (Hids & Hnext & Hfresh & Hres) Hne Hid Hprio Hno.
  split.
  { intros s' [Hs'| ->%list_elem_of_singleton]%elem_of_app; [by apply Hids|done]. }
  split; [done|]. split.
  - intros k Hk. unfold init_vertex. rewrite lookup_insert_ne by lia.
    by apply Hfresh.
  - by apply reserved_state.
Qed.

Lemma subroot_leaves state u tbl :
  state ∈ states data ->
  subroot fuel data isMaxParity controllerIsOdd state u = Some tbl ->
  Forall (fun lval => 0 <= leaf_priority lval) tbl.
Proof.
  intros Hs Hrun. unfold subroot in Hrun. apply mapM_Some_1 in Hrun.
  apply Forall_forall. intros lval Hin.
  apply list_elem_of_lookup in Hin as [i Hi].
  destruct (Forall2_lookup_r _ _ _ _ _ Hrun Hi) as (c & _ & Hc).
  by apply (state_mtbdd_priority state _ lval Hs Hc).
Qed.

Lemma collectSubroots_leaves state inter_bdds :
  state ∈ states data ->
  collectSubroots fuel data isMaxParity controllerIsOdd state = Some inter_bdds ->
  Forall (Forall (fun lval => 0 <= leaf_priority lval)) inter_bdds.
Proof.
  intros Hs Hrun. unfold collectSubroots in Hrun.
  destruct (mapM _ _) as [tables|] eqn:E; [|done].
  simpl in Hrun. injection Hrun as <-. apply mapM_Some_1 in E.
  apply Forall_forall. intros tbl Hin. rewrite elem_of_remove_dups in Hin.
  apply list_elem_of_lookup in Hin as [i Hi].
  destruct (Forall2_lookup_r _ _ _ _ _ E Hi) as (u & _ & Hu).
  by apply (subroot_leaves state u).
Qed.

Lemma explicit_state_inv done s game next game' next' :
  (forall s, s_noAccSig s = 0 -> no_acc s) ->
  build_inv done [] game next ->
  s ∈ states data -> s_id s < noStates data ->
  (forall s', s' ∈ done -> s_id s' <> s_id s) ->
  explicit_state fuel data isMaxParity controllerIsOdd (game, next) s
    = Some (game', next') ->
  build_inv (done ++ [s]) [] game' next'.
Proof.
  intros Hno Hinv Hs Hid Hne Hrun. unfold explicit_state in Hrun.
  destruct (collectSubroots fuel data isMaxParity controllerIsOdd s)
    as [inter_bdds|] eqn:Hsub; [|done].
  simpl in Hrun.
  pose proof (collectSubroots_leaves s inter_bdds Hs Hsub) as Hleaves.
  destruct (explicit_subroots_inv done s inter_bdds game next [] ∅ Hinv Hleaves)
    as (new & Hp & Hinv1).
  destruct (fold_left (explicit_subroot s) inter_bdds (game, next, [], ∅))
    as [[[g1 n1] p1] iv1]. simpl in Hp, Hinv1. subst p1.
  destruct (Z.eqb_spec (s_noAccSig s) 0) as [E|E]; simpl in Hrun.
  - injection Hrun as <- <-. apply build_inv_state; try done. intros _. by apply Hno.
  - destruct (first_of (s_accSig s)) as [p|] eqn:Hp; [|done].
    simpl in Hrun. injection Hrun as <- <-.
    pose proof (adjusted_range p (acc_ok_range _ _ _ (ranges_state s Hs) Hp)).
    apply build_inv_state; try done; lia.
Qed.

Lemma explicit_states_inv rest :
  forall done game next game' next',
    (forall s, s_noAccSig s = 0 -> no_acc s) ->
    build_inv done [] game next ->
    Forall (fun s => s ∈ states data /\ s_id s < noStates data) rest ->
    NoDup (s_id <$> done ++ rest) ->
    fold_opt (explicit_state fuel data isMaxParity controllerIsOdd) rest
      (game, next) = Some (game', next') ->
    build_inv (done ++ rest) [] game' next'.
Proof.
  induction rest as [|s rest IH];
    intros done game next game' next' Hno Hinv Hall Hnd Hrun.
  { simpl in Hrun. injection Hrun as <- <-. by rewrite app_nil_r. }
  apply Forall_cons in Hall as [[Hs Hid] Hall]. cbn [fold_opt] in Hrun.
  destruct (explicit_state fuel data isMaxParity controllerIsOdd (game, next) s)
    as [[g1 n1]|] eqn:E; [|done].
  cbn [mbind option_bind] in Hrun.
  replace (done ++ s :: rest) with ((done ++ [s]) ++ rest) in *
    by by rewrite <- app_assoc.
  apply (IH (done ++ [s]) g1 n1); try done.
  apply (explicit_state_inv done s game next); try done.
  intros s' Hs' Heq.
  rewrite <- app_assoc, fmap_app in Hnd. apply NoDup_app in Hnd as (_ & Hnd & _).
  apply (Hnd (s_id s')); [by apply list_elem_of_fmap_2|].
  rewrite Heq. simpl. left.
Qed.
End Explicit.

(** [evalLabel] gives a BDD for a label that is defined. *)
Lemma label_defined_evalLabel fuel : forall label data vars v,
  label_defined fuel label data vars = true ->
  is_Some (evalLabel fuel label data vars v).
Proof.
  induction fuel as [|fuel IH]; intros label data vars v; [done|].
  destruct label as [id|l r|l r|l|id|name]; cbn [label_defined evalLabel].
  - by eexists.
  - intros [Hl Hr]%andb_prop.
    destruct (IH l data vars v Hl) as [a ->].
    destruct (IH r data vars v Hr) as [b ->]. by eexists.
  - intros [Hl Hr]%andb_prop.
    destruct (IH l data vars v Hl) as [a ->].
    destruct (IH r data vars v Hr) as [b ->]. by eexists.
  - intros Hl. destruct (IH l data vars v Hl) as [a ->]. by eexists.
  - intros [Hid Hv]%andb_prop. apply bool_decide_eq_true in Hv as [x Hx].
    destruct (Z.ltb_spec id 0); [lia|]. rewrite Hx. by eexists.
  - destruct (find_alias (aliases data) name) as [e|]; [|done].
    cbn [mbind option_bind]. apply IH.
Qed.

Section ExplicitReturns.
Context (fuel : nat) (data : HoaData) (isMaxParity controllerIsOdd : bool).

Lemma explicit_transition_returns state v b trans :
  explicit_trans_wf fuel data state trans = true ->
  is_Some (explicit_transition fuel data isMaxParity controllerIsOdd state v b trans).
Proof.
  unfold explicit_trans_wf, explicit_transition. intros Hwf.
  apply andb_prop in Hwf as [Hwf Hacc]. apply andb_prop in Hwf as [Hsucc Hlab].
  destruct (t_successors trans) as [|succ [|]]; try done.
  destruct (guard state trans) as [l|]; [|done]. cbn [mbind option_bind].
  destruct (label_defined_evalLabel fuel l data (variables data) v Hlab)
    as [lbl Hlbl].
  destruct (s_accSig state) as [sig|].
  - cbn [mbind option_bind]. rewrite Hlbl. by eexists.
  - apply andb_prop in Hacc as [Hno Hfirst]. rewrite Hno.
    apply bool_decide_eq_true in Hfirst as [p ->].
    cbn [mbind option_bind]. rewrite Hlbl. by eexists.
Qed.

Lemma state_mtbdd_returns state v :
  Forall (fun trans => explicit_trans_wf fuel data state trans = true)
    (s_transitions state) ->
  is_Some (state_mtbdd fuel data isMaxParity controllerIsOdd state v).
Proof.
  unfold state_mtbdd. generalize 0 at 1. generalize (s_transitions state).
  intros ts. induction ts as [|trans ts IH]; intros b Hall; [by eexists|].
  apply Forall_cons in Hall as [Hwf Hall]. cbn [fold_opt].
  destruct (explicit_transition_returns state v b trans Hwf) as [b' ->].
  cbn [mbind option_bind]. by apply IH.
Qed.

Lemma explicit_state_returns b state :
  explicit_state_wf fuel data state = true ->
  is_Some (explicit_state fuel data isMaxParity controllerIsOdd b state).
Proof.
  intros Hwf. apply andb_prop in Hwf as [Hsig Hts].
  rewrite forallb_forall in Hts.
  assert (Hall : Forall (fun trans => explicit_trans_wf fuel data state trans = true)
                   (s_transitions state)).
  { apply Forall_forall. intros tr Htr. by apply Hts, list_elem_of_In. }
  assert (Hsub : is_Some (collectSubroots fuel data isMaxParity controllerIsOdd state)).
  { unfold collectSubroots. apply fmap_is_Some, mapM_is_Some_2, Forall_forall.
    intros u _. unfold compose, subroot. apply mapM_is_Some_2, Forall_forall.
    intros c _. unfold compose. by apply state_mtbdd_returns. }
  destruct Hsub as [inter_bdds Hsub]. destruct b as [game next].
  unfold explicit_state. rewrite Hsub. cbn [mbind option_bind].
  destruct (fold_left (explicit_subroot state) inter_bdds (game, next, [], ∅))
    as [[[g1 n1] ss] iv].
  destruct (Z.eqb_spec (s_noAccSig state) 0) as [E|E]; cbn [negb].
  - by eexists.
  - cbn [orb] in Hsig. apply bool_decide_eq_true in Hsig as [p ->]. by eexists.
Qed.

(** The explicit construction returns for an automaton that passes its
    assertions. *)
Lemma constructGame_returns :
  explicit_wf fuel data = true ->
  is_Some (constructGame fuel data isMaxParity controllerIsOdd).
Proof.
  unfold explicit_wf, constructGame. intros Hwf. rewrite forallb_forall in Hwf.
  assert (Hall : Forall (fun s => explicit_state_wf fuel data s = true) (states data)).
  { apply Forall_forall. intros s Hs. by apply Hwf, list_elem_of_In. }
  revert Hall. generalize (∅ : gmap Z Vertex, noStates data), (states data).
  intros b sts. revert b.
  induction sts as [|s sts IH]; intros b Hall; [by eexists|].
  apply Forall_cons in Hall as [Hs Hall]. cbn [fold_opt].
  destruct (explicit_state_returns b s Hs) as [b' ->]. cbn [mbind option_bind].
  by apply IH.
Qed.
End ExplicitReturns.

(** C4: for an automaton whose acceptance sets lie in [0 .. noAccSets] (and
    whose numbers fit the 32-bit halves of a leaf) and that passes the
    checks of the constructions, and for either parity convention and either
    controller parity: every adjusted priority is at least 1;
    [constructGameNaive] and [constructGame] both return a game; every
    vertex of either game has a non-negative priority; and a vertex with
    priority 0 is the vertex of a state that carries no acceptance set or
    an intermediate vertex, that is, a successor of the vertex of a
    state. *)
Theorem game_priorities fuel data isMaxParity controllerIsOdd :
  ranges_wf data = true ->
  naive_wf fuel data = true ->
  explicit_wf fuel data = true ->
  (forall p, 0 <= p <= noAccSets data ->
     1 <= adjustPriority p isMaxParity controllerIsOdd (noAccSets data))
  /\ (exists game n,
        constructGameNaive fuel data isMaxParity controllerIsOdd = Some (game, n)
        /\ forall k v, game !! k = Some v ->
             0 <= priority v
             /\ (priority v = 0 ->
                 (exists s, s ∈ states data /\ k = s_id s /\ s_accSig s = None)
                 \/ is_attached (states data) game k))
  /\ (exists game n,
        constructGame fuel data isMaxParity controllerIsOdd = Some (game, n)
        /\ forall k v, game !! k = Some v ->
             0 <= priority v
             /\ (priority v = 0 ->
                 (exists s, s ∈ states data /\ k = s_id s /\ s_noAccSig s = 0)
                 \/ is_attached (states data) game k)).
Proof.
  intros Hranges Hwf Hewf. split; [intros p Hp; by apply adjustPriority_pos|].
  assert (Hids : s_id <$> states data = seqZ 0 (noStates data)).
  { apply andb_prop in Hwf as [Hids _]. by apply bool_decide_eq_true in Hids. }
  assert (Hid : forall s, s ∈ states data -> s_id s < noStates data).
  { intros s Hs.
    assert (Hin : s_id s ∈ seqZ 0 (noStates data))
      by (rewrite <- Hids; by apply list_elem_of_fmap_2).
    apply elem_of_seqZ in Hin. lia. }
  split.
  - destruct (constructGameNaive_spec fuel data isMaxParity controllerIsOdd Hwf)
      as (game & n & Hrun & Hclass & Hsv).
    exists game, n. split; [done|]. intros k v Hk.
    rewrite Forall_forall in Hsv.
    destruct (Hclass k v Hk) as [(s & Hs & ->)|[Hn [Hfin|(Hp & Ho & s & vs & Hs & Hvs & Hin)]]].
    + destruct (Hsv s Hs) as (vs & Hvs & Ho & Hp & _).
      rewrite Hk in Hvs. injection Hvs as <-.
      pose proof (ranges_state data Hranges s Hs) as Hacc.
      apply andb_prop in Hwf as [_ Hwf]. rewrite forallb_forall in Hwf.
      assert (Hswf : state_wf fuel data s = true)
        by (by apply Hwf, list_elem_of_In).
      apply andb_prop in Hswf as [Hsig _].
      destruct (s_accSig s) as [[|p sig]|] eqn:Esig; [done| |].
      * simpl in Hp.
        pose proof (adjusted_range data isMaxParity controllerIsOdd Hranges p
                      (acc_ok_range data _ p Hacc eq_refl)).
        split; [lia|]. intros H0. lia.
      * simpl in Hp. split; [lia|]. intros _. left. by exists s.
    + destruct Hfin as (s & t & p & succ & Hs & Ht & Hsig & Hp & ->). simpl.
      destruct (ranges_trans data Hranges s t Hs Ht) as [Hacc _].
      pose proof (adjusted_range data isMaxParity controllerIsOdd Hranges p
                    (acc_ok_range data _ p Hacc Hp)).
      split; [lia|]. intros H0. lia.
    + split; [lia|]. intros _. right.
      destruct (Hsv s Hs) as (vs' & Hvs' & Ho' & _).
      rewrite Hvs in Hvs'. injection Hvs' as <-. by exists s, vs.
  - destruct (constructGame_returns fuel data isMaxParity controllerIsOdd Hewf)
      as [[game n] Hrun].
    exists game, n. split; [done|]. intros k v Hk.
    assert (Hinv : build_inv data (fun s => s_noAccSig s = 0)
                     ([] ++ states data) [] game n).
    { apply (explicit_states_inv fuel data isMaxParity controllerIsOdd Hranges
               _ (states data) [] ∅ (noStates data)); try done.
      - split; [intros s Hs; by apply elem_of_nil in Hs|]. split; [lia|].
        split; [intros k' _; apply lookup_empty|].
        intros k' v'. by rewrite lookup_empty.
      - apply Forall_forall. intros s Hs. split; [done|by apply Hid].
      - simpl. rewrite Hids. apply NoDup_seqZ. }
    simpl in Hinv. destruct Hinv as (_ & _ & _ & Hres).
    destruct (Hres k v Hk) as [(s & Hs & -> & Ho & Hp & Hno)|(Hn & Ho & Hp)].
    + split; [done|]. intros H0. left. exists s. by auto.
    + destruct Hp as [Hp|[Hp [Ha|Hin]]].
      * split; [lia|]. intros H0. lia.
      * split; [lia|]. intros _. by right.
      * by apply elem_of_nil in Hin.
Qed.

Lemma game_priorities_witness :
  1 <= adjustPriority 0 false true (noAccSets toggle_data)
  /\ exists game n,
       constructGame 3 toggle_data false true = Some (game, n)
       /\ forall k v, game !! k = Some v -> 0 <= priority v.
Proof.
  destruct (game_priorities 3 toggle_data false true eq_refl eq_refl eq_refl)
    as (Hadj & _ & game & n & Hrun & Hexp).
  split; [apply Hadj; simpl; lia|].
  exists game, n. split; [done|].
  intros k v Hk. by destruct (Hexp k v Hk).
Defined.

(** ** The driver *)

Section DriverFacts.
Context {Circuit : Type}.
Implicit Types (w : World Circuit) (opts : Options).

Lemma written_after (evs : list (Event Circuit)) (k : Outcome Circuit) :
  written (after evs k) = written (evs, 0) ++ written k.
Proof. unfold written, after. simpl. apply omap_app. Qed.

Lemma written_app (evs1 evs2 : list (Event Circuit)) z :
  written (evs1 ++ evs2, z) = written (evs1, z) ++ written (evs2, z).
Proof. unfold written. simpl. apply omap_app. Qed.

Lemma write_smallest_spec w (write : Circuit -> Event Circuit) v1 v2 v3 v4 v5 v6 c :
  (forall x, written ([write x], 0) = [x]) ->
  c ∈ written (write_smallest w write v1 v2 v3 v4 v5 v6, 0) ->
  c ∈ [v1; v2; v3; v4; v5; v6]
  /\ forall c', c' ∈ [v1; v2; v3; v4; v5; v6] -> getNumAnds w c <= getNumAnds w c'.
Proof.
  intros Hw. unfold write_smallest.
  assert (Hmin : forall c', c' ∈ [v1; v2; v3; v4; v5; v6] ->
            smallest_of w v1 v2 v3 v4 v5 v6 <= getNumAnds w c').
  { intros c' Hc'. unfold smallest_of. rewrite !elem_of_cons, elem_of_nil in Hc'.
    destruct Hc' as [->|[->|[->|[->|[->|[->|[]]]]]]]; lia. }
  assert (Hcase : forall v, v ∈ [v1; v2; v3; v4; v5; v6] ->
            getNumAnds w v = smallest_of w v1 v2 v3 v4 v5 v6 ->
            c ∈ written ([write v], 0) ->
            c ∈ [v1; v2; v3; v4; v5; v6]
            /\ forall c', c' ∈ [v1; v2; v3; v4; v5; v6] ->
                 getNumAnds w c <= getNumAnds w c').
  { intros v Hv E Hin. rewrite Hw in Hin. apply list_elem_of_singleton in Hin.
    subst c. split; [done|]. intros c' Hc'. rewrite E. by apply Hmin. }
  destruct (Z.eqb_spec (getNumAnds w v1) (smallest_of w v1 v2 v3 v4 v5 v6)) as [E1|E1];
    [apply Hcase; [rewrite !elem_of_cons; tauto|done]|].
  destruct (Z.eqb_spec (getNumAnds w v2) (smallest_of w v1 v2 v3 v4 v5 v6)) as [E2|E2];
    [apply Hcase; [rewrite !elem_of_cons; tauto|done]|].
  destruct (Z.eqb_spec (getNumAnds w v3) (smallest_of w v1 v2 v3 v4 v5 v6)) as [E3|E3];
    [apply Hcase; [rewrite !elem_of_cons; tauto|done]|].
  destruct (Z.eqb_spec (getNumAnds w v4) (smallest_of w v1 v2 v3 v4 v5 v6)) as [E4|E4];
    [apply Hcase; [rewrite !elem_of_cons; tauto|done]|].
  destruct (Z.eqb_spec (getNumAnds w v5) (smallest_of w v1 v2 v3 v4 v5 v6)) as [E5|E5];
    [apply Hcase; [rewrite !elem_of_cons; tauto|done]|].
  destruct (Z.eqb_spec (getNumAnds w v6) (smallest_of w v1 v2 v3 v4 v5 v6)) as [E6|E6];
    [apply Hcase; [rewrite !elem_of_cons; tauto|done]|].
  exfalso. unfold smallest_of in *. lia.
Qed.

(** The chain always finds a circuit to write. *)
Lemma write_smallest_some w (write : Circuit -> Event Circuit) v1 v2 v3 v4 v5 v6 :
  exists c, write_smallest w write v1 v2 v3 v4 v5 v6 = [write c].
Proof.
  unfold write_smallest.
  destruct (Z.eqb_spec (getNumAnds w v1) (smallest_of w v1 v2 v3 v4 v5 v6)); [by eexists|].
  destruct (Z.eqb_spec (getNumAnds w v2) (smallest_of w v1 v2 v3 v4 v5 v6)); [by eexists|].
  destruct (Z.eqb_spec (getNumAnds w v3) (smallest_of w v1 v2 v3 v4 v5 v6)); [by eexists|].
  destruct (Z.eqb_spec (getNumAnds w v4) (smallest_of w v1 v2 v3 v4 v5 v6)); [by eexists|].
  destruct (Z.eqb_spec (getNumAnds w v5) (smallest_of w v1 v2 v3 v4 v5 v6)); [by eexists|].
  destruct (Z.eqb_spec (getNumAnds w v6) (smallest_of w v1 v2 v3 v4 v5 v6)); [by eexists|].
  exfalso. unfold smallest_of in *. lia.
Qed.

Lemma written_flag (b : bool) (e : Event Circuit) :
  (forall c, e <> EvWriteBinary c) -> (forall c, e <> EvWriteAscii c) ->
  written ((if b then [e] else []), 0) = [].
Proof.
  intros H1 H2. destruct b; [|done]. unfold written. simpl.
  destruct e; try done; [by destruct (H1 c)|by destruct (H2 c)].
Qed.

(** The passes of the branch give the variant that is expected. *)
Lemma rewrite_passes_variant w opts bisim isop onehot :
  rewrite_passes w opts (encode w bisim isop onehot false)
  = encoded_variant w opts bisim isop onehot.
Proof.
  unfold rewrite_passes, encoded_variant.
  by destruct (opt_drewrite opts), (opt_compress opts).
Qed.

(** What the best-of branch writes: one of the six candidates, with the
    least number of AND gates. *)
Lemma best_of_written w opts c :
  c ∈ written (best_of w opts) ->
  c ∈ best_candidates w opts
  /\ forall c', c' ∈ best_candidates w opts -> getNumAnds w c <= getNumAnds w c'.
Proof.
  unfold best_of, best_candidates. cbv zeta.
  rewrite !rewrite_passes_variant.
  rewrite written_after, !written_app, app_nil_r.
  rewrite !written_flag by done.
  change (written ([EvEncode false false false false; EvEncode false true false false;
      EvEncode false false true false; EvBisimSol;
      EvEncode true false false false; EvEncode true true false false;
      EvEncode true false true false], 0)) with (@nil Circuit).
  rewrite !app_nil_l.
  destruct (opt_write_binary opts).
  - by apply write_smallest_spec.
  - destruct (opt_write_ascii opts).
    + by apply write_smallest_spec.
    + intros Hc. by apply elem_of_nil in Hc.
Qed.
Lemma written_code (evs : list (Event Circuit)) z z' :
  written (evs, z) = written (evs, z').
Proof. done. Qed.

Lemma check_states_msgs (sts : list State) i sp bad (msgs : list (Event Circuit)) :
  written (msgs, 0) = [] ->
  written ((check_states sts i sp bad msgs).1, 0) = [].
Proof.
  revert i sp bad msgs. induction sts as [|s sts IH]; intros i sp bad msgs Hm; [done|].
  cbn [check_states].
  assert (Hm' : written
            ((if negb (i =? s_id s)
              then msgs ++ [EvStderr "state has an invalid id"] else msgs), 0) = []).
  { destruct (negb (i =? s_id s)); [|done]. by rewrite written_app, Hm. }
  destruct (negb (s_noAccSig s =? 0)); [|by apply IH].
  destruct (i =? 0); [by apply IH|].
  destruct (negb sp); [|by apply IH].
  cbn [fst]. by rewrite written_app, Hm'.
Qed.

Lemma written_after_solving_best w opts realizable c :
  opt_best opts = true ->
  c ∈ written (after_solving w opts realizable) ->
  c ∈ written (best_of w opts).
Proof.
  intros Hb. unfold after_solving. rewrite Hb.
  destruct (opt_real opts).
  { destruct realizable; intros Hc; by apply elem_of_nil in Hc. }
  destruct realizable; [|intros Hc; by apply elem_of_nil in Hc].
  destruct (opt_naive opts || opt_explicit opts).
  { intros Hc; by apply elem_of_nil in Hc. }
  by rewrite written_after.
Qed.

Lemma written_flag2 (b : bool) (evs : list (Event Circuit)) :
  written (evs, 0) = [] -> written ((if b then evs else []), 0) = [].
Proof. by destruct b. Qed.

Lemma written_construct_and_solve_best w opts c :
  opt_best opts = true ->
  c ∈ written (construct_and_solve w opts) ->
  c ∈ written (best_of w opts).
Proof.
  intros Hb. unfold construct_and_solve.
  destruct (negb (opt_sym opts)).
  - assert (Hev : forall evb : list (Event Circuit) * bool,
              written (evb.1, 0) = [] ->
              c ∈ written
                (let '(ev_construct, has_sym) := evb in
                 after ev_construct
                   (if opt_print_game opts then ([EvWritePGSolver], 0)
                    else if opt_no_solve opts then ([], 0)
                    else
                      let realizable := explicit_winner w =? 0 in
                      after ([EvSolveExplicit]
                             ++ (if realizable && has_sym then
                                   [EvApplyStrategy]
                                   ++ (if apply_ok w then []
                                       else [EvStderr "cannot apply strategy!"])
                                 else []))
                        (after_solving w opts realizable))) ->
              c ∈ written (best_of w opts)).
    { intros [evs has_sym] Hevs. cbn [fst] in Hevs. rewrite written_after, Hevs, app_nil_l.
      destruct (opt_print_game opts); [intros Hc; by apply elem_of_nil in Hc|].
      destruct (opt_no_solve opts); [intros Hc; by apply elem_of_nil in Hc|].
      cbv zeta. rewrite written_after.
      replace (written
        ([EvSolveExplicit] ++
         (if (explicit_winner w =? 0) && has_sym
          then [EvApplyStrategy] ++
               (if apply_ok w then [] else [EvStderr "cannot apply strategy!"])
          else []), 0)) with (@nil Circuit).
      - rewrite app_nil_l. by apply written_after_solving_best.
      - destruct ((explicit_winner w =? 0) && has_sym), (apply_ok w); done. }
    apply Hev.
    destruct (opt_naive opts); [done|]. destruct (opt_explicit opts); [done|].
    cbn [fst]. by destruct (opt_bisim opts || opt_bisim_game opts).
  - rewrite written_after.
    replace (written
      ([EvConstructSym] ++
       (if opt_bisim opts || opt_bisim_game opts then [EvBisimGame] else []), 0))
      with (@nil Circuit) by (by destruct (opt_bisim opts || opt_bisim_game opts)).
    rewrite app_nil_l.
    destruct (opt_print_game opts); [intros Hc; by apply elem_of_nil in Hc|].
    destruct (opt_no_solve opts); [intros Hc; by apply elem_of_nil in Hc|].
    rewrite written_after, app_nil_l. by apply written_after_solving_best.
Qed.

Lemma written_main_task_best w opts c :
  opt_best opts = true ->
  c ∈ written (main_task w opts) ->
  c ∈ written (best_of w opts).
Proof.
  intros Hb. unfold main_task.
  assert (Hrest : c ∈ written
     (after [EvParse]
        (if negb (parse_ret w =? 0) then ([], parse_ret w)
         else after [EvCheckParity]
           (if negb (parity_ret w =? 0) then ([], parity_ret w)
            else
              match check_states (states (parsed w)) 0 false false [] with
              | (msgs, None) => (msgs, -1)
              | (msgs, Some true) => (msgs, -1)
              | (msgs, Some false) =>
                  after (msgs ++ [EvInitSylvan]) (construct_and_solve w opts)
              end))) ->
     c ∈ written (best_of w opts)).
  { rewrite written_after, app_nil_l.
    destruct (negb (parse_ret w =? 0)); [intros Hc; by apply elem_of_nil in Hc|].
    rewrite written_after, app_nil_l.
    destruct (negb (parity_ret w =? 0)); [intros Hc; by apply elem_of_nil in Hc|].
    pose proof (check_states_msgs (states (parsed w)) 0 false false (@nil (Event Circuit))
                  eq_refl) as Hmsgs.
    destruct (check_states (states (parsed w)) 0 false false []) as [msgs [[|]|]];
      cbn [fst] in Hmsgs.
    - rewrite (written_code msgs (-1) 0), Hmsgs. intros Hc; by apply elem_of_nil in Hc.
    - rewrite written_after, written_app, Hmsgs, !app_nil_l.
      by apply written_construct_and_solve_best.
    - rewrite (written_code msgs (-1) 0), Hmsgs. intros Hc; by apply elem_of_nil in Hc. }
  destruct (opt_file opts) as [filename|]; [|exact Hrest].
  destruct (negb (file_found w)); [intros Hc; by apply elem_of_nil in Hc|exact Hrest].
Qed.

(** A run that reaches the encoders in best mode. *)
Lemma main_task_best_run w opts (msgs : list (Event Circuit)) :
  opt_best opts = true ->
  (opt_file opts = None \/ file_found w = true) ->
  parse_ret w = 0 -> parity_ret w = 0 ->
  check_states (states (parsed w)) 0 false false [] = (msgs, Some false) ->
  opt_print_game opts = false -> opt_no_solve opts = false ->
  opt_real opts = false ->
  opt_naive opts = false -> opt_explicit opts = false ->
  (if opt_sym opts then sym_solved w else explicit_winner w =? 0) = true ->
  exists pre, main_task w opts = after pre (best_of w opts) /\ written (pre, 0) = [].
Proof.
  intros Hb Hfile Hparse Hparity Hcheck Hpg Hns Hreal Hnaive Hexpl Hwin.
  pose proof (check_states_msgs (states (parsed w)) 0 false false
                (@nil (Event Circuit)) eq_refl) as Hmsgs.
  rewrite Hcheck in Hmsgs. cbn [fst] in Hmsgs.
  assert (Hcs : exists pre, construct_and_solve w opts = after pre (best_of w opts)
                            /\ written (pre, 0) = []).
  { unfold construct_and_solve, after_solving.
    rewrite Hb, Hpg, Hns, Hreal, Hnaive, Hexpl. cbn [orb].
    destruct (opt_sym opts); cbn [negb]; rewrite Hwin; cbn [andb].
    - eexists. split.
      + unfold after. cbn [fst snd]. rewrite !app_assoc. reflexivity.
      + by destruct (opt_bisim opts || opt_bisim_game opts).
    - eexists. split.
      + unfold after. cbn [fst snd]. rewrite !app_assoc. reflexivity.
      + by destruct (opt_bisim opts || opt_bisim_game opts), (apply_ok w). }
  destruct Hcs as (pre & Hcs & Hpre).
  exists ([EvParse; EvCheckParity] ++ msgs ++ [EvInitSylvan] ++ pre). split.
  - unfold main_task. rewrite Hparse, Hparity, Hcheck, Hcs. cbn [Z.eqb negb].
    assert (Hgo : after [EvParse]
              (after [EvCheckParity]
                 (after (msgs ++ [EvInitSylvan]) (after pre (best_of w opts))))
            = after ([EvParse; EvCheckParity] ++ msgs ++ [EvInitSylvan] ++ pre)
                (best_of w opts)).
    { unfold after. cbn [fst snd]. f_equal. by rewrite <- !app_assoc. }
    destruct Hfile as [Hf|Hf].
    + by rewrite Hf.
    + rewrite Hf. cbn [negb]. by destruct (opt_file opts).
  - by rewrite !written_app, Hmsgs, Hpre.
Qed.

(** A run with [--naive] or [--explicit] that reaches the solver. *)
Lemma main_task_naive_run w opts (msgs : list (Event Circuit)) :
  opt_naive opts || opt_explicit opts = true ->
  (opt_file opts = None \/ file_found w = true) ->
  parse_ret w = 0 -> parity_ret w = 0 ->
  check_states (states (parsed w)) 0 false false [] = (msgs, Some false) ->
  opt_print_game opts = false -> opt_no_solve opts = false ->
  opt_real opts = false ->
  main_task w opts
  = let realizable := if opt_sym opts then sym_solved w else explicit_winner w =? 0 in
    ([EvParse; EvCheckParity] ++ msgs ++ [EvInitSylvan]
     ++ (if opt_sym opts
         then [EvConstructSym]
              ++ (if opt_bisim opts || opt_bisim_game opts then [EvBisimGame] else [])
              ++ [EvSolveSym]
         else if opt_naive opts then [EvConstructNaive; EvSolveExplicit]
         else [EvConstructExplicit; EvSolveExplicit])
     ++ (if realizable
         then [EvStderr "--naive and --explicit are incompatible with generating the AIG!"]
         else []),
     if realizable then 10 else 20).
Proof.
  intros Hne Hfile Hparse Hparity Hcheck Hpg Hns Hreal.
  assert (Hcs : construct_and_solve w opts
    = let realizable := if opt_sym opts then sym_solved w else explicit_winner w =? 0 in
      ((if opt_sym opts
        then [EvConstructSym]
             ++ (if opt_bisim opts || opt_bisim_game opts then [EvBisimGame] else [])
             ++ [EvSolveSym]
        else if opt_naive opts then [EvConstructNaive; EvSolveExplicit]
        else [EvConstructExplicit; EvSolveExplicit])
       ++ (if realizable
           then [EvStderr "--naive and --explicit are incompatible with generating the AIG!"]
           else []),
       if realizable then 10 else 20)).
  { unfold construct_and_solve, after_solving. rewrite Hpg, Hns, Hreal, Hne.
    destruct (opt_sym opts); cbn [negb].
    - unfold after. cbv zeta. destruct (sym_solved w); cbn [fst snd];
        by rewrite <- ?app_assoc.
    - destruct (opt_naive opts).
      + unfold after. cbv zeta. rewrite andb_false_r.
        by destruct (explicit_winner w =? 0).
      + cbn [orb] in Hne. rewrite Hne. unfold after. cbv zeta. rewrite andb_false_r.
        by destruct (explicit_winner w =? 0). }
  unfold main_task. rewrite Hparse, Hparity, Hcheck, Hcs. cbn [Z.eqb negb].
  cbv zeta. unfold after. cbn [fst snd].
  assert (Hgo : forall (evs : list (Event Circuit)) (z : Z),
            ([EvParse] ++ [EvCheckParity] ++ (msgs ++ [EvInitSylvan]) ++ evs, z)
            = ([EvParse; EvCheckParity] ++ msgs ++ [EvInitSylvan] ++ evs, z)).
  { intros evs z. by rewrite <- !app_assoc. }
  destruct Hfile as [Hf|Hf].
  - rewrite Hf. apply Hgo.
  - rewrite Hf. cbn [negb]. destruct (opt_file opts); apply Hgo.
Qed.
End DriverFacts.

(** C8: in best mode, a run on a realizable input that is asked for a circuit
    writes exactly one circuit and exits with 10; the circuit is one of the
    six encoded variants (Shannon, ISOP and one-hot, without and with
    bisimulation on the solution), each rewritten by [drewrite] when
    [--drewrite] is given and compressed afterwards when [--compress] is
    given, and none of the six has fewer AND gates: its number of AND gates
    is the minimum over the six. *)
Theorem best_mode_writes_smallest {Circuit : Type} (w : World Circuit) (opts : Options)
    (msgs : list (Event Circuit)) :
  opt_best opts = true ->
  (opt_file opts = None \/ file_found w = true) ->
  parse_ret w = 0 -> parity_ret w = 0 ->
  check_states (states (parsed w)) 0 false false [] = (msgs, Some false) ->
  opt_print_game opts = false -> opt_no_solve opts = false ->
  opt_real opts = false ->
  opt_naive opts = false -> opt_explicit opts = false ->
  (if opt_sym opts then sym_solved w else explicit_winner w =? 0) = true ->
  opt_write_binary opts || opt_write_ascii opts = true ->
  exists c,
    written (main_task w opts) = [c]
    /\ (main_task w opts).2 = 10
    /\ c ∈ best_candidates w opts
    /\ forall c', c' ∈ best_candidates w opts -> getNumAnds w c <= getNumAnds w c'.
Proof.
  intros Hb Hfile Hparse Hparity Hcheck Hpg Hns Hreal Hnaive Hexpl Hwin Hwrite.
  destruct (main_task_best_run w opts msgs) as (pre & Hrun & Hpre); try done.
  assert (Hsome : exists c, written (best_of w opts) = [c]).
  { unfold best_of. cbv zeta. rewrite written_after, !written_app, app_nil_r.
    rewrite !written_flag by done.
    destruct (opt_write_binary opts).
    - destruct (write_smallest_some w EvWriteBinary
                  (rewrite_passes w opts (encode w false false false false))
                  (rewrite_passes w opts (encode w false true false false))
                  (rewrite_passes w opts (encode w false false true false))
                  (rewrite_passes w opts (encode w true false false false))
                  (rewrite_passes w opts (encode w true true false false))
                  (rewrite_passes w opts (encode w true false true false)))
        as [c ->].
      by exists c.
    - cbn [orb] in Hwrite. rewrite Hwrite.
      destruct (write_smallest_some w EvWriteAscii
                  (rewrite_passes w opts (encode w false false false false))
                  (rewrite_passes w opts (encode w false true false false))
                  (rewrite_passes w opts (encode w false false true false))
                  (rewrite_passes w opts (encode w true false false false))
                  (rewrite_passes w opts (encode w true true false false))
                  (rewrite_passes w opts (encode w true false true false)))
        as [c ->].
      by exists c. }
  destruct Hsome as [c Hc]. exists c.
  assert (Hw : written (main_task w opts) = [c]).
  { by rewrite Hrun, written_after, Hpre, app_nil_l. }
  split; [done|]. split; [by rewrite Hrun|].
  apply best_of_written. rewrite Hc. by apply list_elem_of_singleton.
Qed.

Lemma best_mode_writes_smallest_witness :
  exists c,
    written (main_task good_world best_ascii) = [c]
    /\ (main_task good_world best_ascii).2 = 10
    /\ c ∈ best_candidates good_world best_ascii
    /\ forall c', c' ∈ best_candidates good_world best_ascii ->
         getNumAnds good_world c <= getNumAnds good_world c'.
Proof.
  apply (best_mode_writes_smallest good_world best_ascii []);
    try reflexivity. by left.
Defined.

(** C9, as amended: a run with [--naive] or [--explicit] that is asked for a
    circuit is not refused at startup.  The game is constructed and solved;
    when it is realizable the message is printed after the solver and the
    exit code is 10, when it is not the exit code is 20; no circuit is
    written. *)
Theorem naive_explicit_solved_first {Circuit : Type} (w : World Circuit) (opts : Options)
    (msgs : list (Event Circuit)) :
  opt_naive opts || opt_explicit opts = true ->
  (opt_file opts = None \/ file_found w = true) ->
  parse_ret w = 0 -> parity_ret w = 0 ->
  check_states (states (parsed w)) 0 false false [] = (msgs, Some false) ->
  opt_print_game opts = false -> opt_no_solve opts = false ->
  opt_real opts = false ->
  let realizable := if opt_sym opts then sym_solved w else explicit_winner w =? 0 in
  main_task w opts
  = ([EvParse; EvCheckParity] ++ msgs ++ [EvInitSylvan]
     ++ (if opt_sym opts
         then [EvConstructSym]
              ++ (if opt_bisim opts || opt_bisim_game opts then [EvBisimGame] else [])
              ++ [EvSolveSym]
         else if opt_naive opts then [EvConstructNaive; EvSolveExplicit]
         else [EvConstructExplicit; EvSolveExplicit])
     ++ (if realizable
         then [EvStderr "--naive and --explicit are incompatible with generating the AIG!"]
         else []),
     if realizable then 10 else 20)
  /\ Exists (fun e => is_pipeline_phase e = true) (main_task w opts).1
  /\ written (main_task w opts) = []
  /\ ((main_task w opts).2 = 10 \/ (main_task w opts).2 = 20).
Proof.
  intros Hne Hfile Hparse Hparity Hcheck Hpg Hns Hreal realizable.
  pose proof (main_task_naive_run w opts msgs Hne Hfile Hparse Hparity Hcheck Hpg Hns Hreal)
    as Hrun.
  cbv zeta in Hrun. fold realizable in Hrun.
  pose proof (check_states_msgs (states (parsed w)) 0 false false
                (@nil (Event Circuit)) eq_refl) as Hmsgs.
  rewrite Hcheck in Hmsgs. cbn [fst] in Hmsgs.
  split; [exact Hrun|]. rewrite Hrun. cbn [fst snd]. split; [|split].
  - rewrite !Exists_app. right. right. right. left.
    destruct (opt_sym opts); [|destruct (opt_naive opts)];
      by apply Exists_cons_hd.
  - rewrite (written_code _ _ 0), !written_app, Hmsgs.
    by destruct (opt_sym opts), (opt_bisim opts || opt_bisim_game opts),
         (opt_naive opts), realizable.
  - destruct realizable; [by left|by right].
Qed.

Lemma naive_explicit_solved_first_witness :
  main_task good_world naive_ascii
  = ([EvParse; EvCheckParity; EvInitSylvan; EvConstructNaive; EvSolveExplicit;
      EvStderr "--naive and --explicit are incompatible with generating the AIG!"], 10)
  /\ Exists (fun e => is_pipeline_phase e = true) (main_task good_world naive_ascii).1
  /\ written (main_task good_world naive_ascii) = []
  /\ ((main_task good_world naive_ascii).2 = 10
      \/ (main_task good_world naive_ascii).2 = 20).
Proof.
  apply (naive_explicit_solved_first good_world naive_ascii []);
    try reflexivity. by left.
Defined.

(** The claim as written fails: with [--naive -a] on a realizable input the
    game is constructed and solved before the message, and the exit code is
    10. *)
Lemma naive_rejected_at_startup_counterexample :
  main_task good_world naive_ascii
  = ([EvParse; EvCheckParity; EvInitSylvan; EvConstructNaive; EvSolveExplicit;
      EvStderr "--naive and --explicit are incompatible with generating the AIG!"], 10)
  /\ ~ (forall (w : World Z) (opts : Options),
          opt_naive opts || opt_explicit opts = true ->
          opt_write_binary opts || opt_write_ascii opts = true ->
          Forall (fun e => is_pipeline_phase e = false) (main_task w opts).1
          /\ (main_task w opts).2 <> 10 /\ (main_task w opts).2 <> 20).
Proof.
  split; [reflexivity|]. intros H.
  destruct (H good_world naive_ascii eq_refl eq_refl) as (_ & H10 & _).
  by apply H10.
Qed.

(** ** The ISOP path *)

Section Isop.
Local Open Scope nat_scope.
Implicit Types (f a b L U : bdd) (z : zcover) (env : nat -> bool) (k n x : nat).

Lemma bdd_ordered_weaken k n k' n' f :
  k' <= k -> n <= n' -> bdd_ordered k n f -> bdd_ordered k' n' f.
Proof.
  revert k k'. induction f as [| |v lo IHlo hi IHhi]; intros k k' Hk Hn; simpl; [done..|].
  intros (Hv & Hne & Hlo & Hhi). split; [lia|]. split; [done|].
  split; [by apply (IHlo (S v))|by apply (IHhi (S v))].
Qed.

(** A diagram does not look at the variables below its range. *)
Lemma bdd_sem_above k n f env env' :
  bdd_ordered k n f ->
  (forall v, k <= v -> env v = env' v) ->
  bdd_sem env f = bdd_sem env' f.
Proof.
  revert k. induction f as [| |v lo IHlo hi IHhi]; intros k; simpl; [done..|].
  intros (Hv & _ & Hlo & Hhi) Henv. rewrite (Henv v) by lia.
  rewrite (IHlo (S v)), (IHhi (S v)); [done|done|..]; try done;
    intros v' Hv'; apply Henv; lia.
Qed.

Lemma bdd_makenode_sem env x lo hi :
  bdd_sem env (bdd_makenode x lo hi)
  = if env x then bdd_sem env hi else bdd_sem env lo.
Proof.
  unfold bdd_makenode. destruct (decide (lo = hi)) as [->|]; [|done].
  by destruct (env x).
Qed.

Lemma bdd_makenode_ordered k n x lo hi :
  k <= x < n -> bdd_ordered (S x) n lo -> bdd_ordered (S x) n hi ->
  bdd_ordered k n (bdd_makenode x lo hi).
Proof.
  intros Hx Hlo Hhi. unfold bdd_makenode. destruct (decide (lo = hi)) as [->|Hne].
  - eapply bdd_ordered_weaken; [| |exact Hhi]; lia.
  - simpl. done.
Qed.

Lemma cofactor_sem env x c f :
  env x = c -> bdd_sem env (cofactor x c f) = bdd_sem env f.
Proof.
  intros Hc. destruct f as [| |v lo hi]; simpl; [done..|].
  destruct (decide (v = x)) as [->|]; [|done]. rewrite Hc. by destruct c.
Qed.

Lemma cofactor_depth x c f : bdd_depth (cofactor x c f) <= bdd_depth f.
Proof.
  destruct f as [| |v lo hi]; simpl; [done..|].
  destruct (decide (v = x)); [destruct c; lia|done].
Qed.

Lemma cofactor_depth_lt x c f :
  bdd_var f = Some x -> bdd_depth (cofactor x c f) < bdd_depth f.
Proof.
  destruct f as [| |v lo hi]; simpl; [done..|]. intros [= ->].
  rewrite decide_True by done. destruct c; lia.
Qed.

Lemma top_var_cases a b x :
  top_var a b = Some x ->
  (bdd_var a = Some x \/ bdd_var b = Some x)
  /\ (forall v, bdd_var a = Some v -> x <= v)
  /\ (forall v, bdd_var b = Some v -> x <= v).
Proof.
  unfold top_var. destruct (bdd_var a) as [va|], (bdd_var b) as [vb|];
    intros [= <-]; (split; [|split; intros v [= <-]; lia]).
  - destruct (decide (va <= vb)); [left|right]; f_equal; lia.
  - by left.
  - by right.
Qed.

Lemma top_var_none a b :
  top_var a b = None -> bdd_var a = None /\ bdd_var b = None.
Proof. unfold top_var. by destruct (bdd_var a), (bdd_var b). Qed.

Lemma bdd_var_ordered k n f v :
  bdd_ordered k n f -> bdd_var f = Some v -> k <= v < n.
Proof. destruct f; simpl; [done..|]. by intros (Hv & _) [= <-]. Qed.

Lemma cofactor_ordered k n x c f :
  bdd_ordered k n f -> (forall v, bdd_var f = Some v -> x <= v) ->
  bdd_ordered (S x) n (cofactor x c f).
Proof.
  destruct f as [| |v lo hi]; simpl; [done..|].
  intros (Hv & Hne & Hlo & Hhi) Hx. specialize (Hx v eq_refl).
  destruct (decide (v = x)) as [->|Hvx]; [by destruct c|].
  simpl. split; [lia|done].
Qed.

Lemma leaf_sem f env env' : bdd_var f = None -> bdd_sem env f = bdd_sem env' f.
Proof. by destruct f. Qed.

Lemma bdd_apply_sem op fuel a b env :
  bdd_depth a + bdd_depth b <= fuel ->
  bdd_sem env (bdd_apply op fuel a b) = op (bdd_sem env a) (bdd_sem env b).
Proof.
  revert a b. induction fuel as [|fuel IH]; intros a b Hfuel.
  - destruct a, b; simpl in Hfuel; try lia; simpl;
      by destruct (op _ _).
  - cbn [bdd_apply]. destruct (top_var a b) as [x|] eqn:Htop.
    + destruct (top_var_cases a b x Htop) as (Hx & _ & _).
      assert (Hd : forall c,
                bdd_depth (cofactor x c a) + bdd_depth (cofactor x c b) <= fuel).
      { intros c. pose proof (cofactor_depth x c a). pose proof (cofactor_depth x c b).
        destruct Hx as [Hx|Hx]; apply (cofactor_depth_lt x c) in Hx; lia. }
      rewrite bdd_makenode_sem, !IH by done.
      destruct (env x) eqn:Hex; by rewrite !cofactor_sem.
    + apply top_var_none in Htop as [Ha Hb].
      rewrite (leaf_sem a env (fun _ => false)), (leaf_sem b env (fun _ => false)) by done.
      by destruct (op _ _).
Qed.

Lemma bdd_apply_ordered op fuel k n a b :
  bdd_ordered k n a -> bdd_ordered k n b ->
  bdd_ordered k n (bdd_apply op fuel a b).
Proof.
  revert k a b. induction fuel as [|fuel IH]; intros k a b Ha Hb.
  - simpl. destruct (top_var a b); [done|]. by destruct (op _ _).
  - cbn [bdd_apply]. destruct (top_var a b) as [x|] eqn:Htop;
      [|by destruct (op _ _)].
    destruct (top_var_cases a b x Htop) as (Hx & Hxa & Hxb).
    apply bdd_makenode_ordered.
    + destruct Hx as [Hx|Hx];
        [apply (bdd_var_ordered k n a)|apply (bdd_var_ordered k n b)]; done.
    + apply IH; by eapply cofactor_ordered.
    + apply IH; by eapply cofactor_ordered.
Qed.

Lemma sylvan_and_sem a b env :
  bdd_sem env (sylvan_and a b) = bdd_sem env a && bdd_sem env b.
Proof. by apply bdd_apply_sem. Qed.

Lemma sylvan_or_sem a b env :
  bdd_sem env (sylvan_or a b) = bdd_sem env a || bdd_sem env b.
Proof. by apply bdd_apply_sem. Qed.

Lemma sylvan_not_sem f env : bdd_sem env (sylvan_not f) = negb (bdd_sem env f).
Proof. induction f; simpl; [done..|]. by destruct (env var). Qed.

Lemma sylvan_not_involutive f : sylvan_not (sylvan_not f) = f.
Proof. induction f; simpl; congruence. Qed.

Lemma sylvan_not_ordered k n f : bdd_ordered k n f -> bdd_ordered k n (sylvan_not f).
Proof.
  revert k. induction f as [| |v lo IHlo hi IHhi]; intros k; simpl; [done..|].
  intros (Hv & Hne & Hlo & Hhi). split; [done|]. split; [|by split; auto].
  intros Heq. apply Hne. by rewrite <- (sylvan_not_involutive lo), Heq, sylvan_not_involutive.
Qed.

(** Canonicity: reduced ordered diagrams of the same function are the same
    diagram. *)
Lemma bdd_canonical_depth m : forall a b k n,
  bdd_depth a + bdd_depth b <= m ->
  bdd_ordered k n a -> bdd_ordered k n b ->
  (forall env, bdd_sem env a = bdd_sem env b) -> a = b.
Proof.
  induction m as [|m IH]; intros a b k n Hm Ha Hb Heq.
  - destruct a, b; simpl in Hm; try lia; try done;
      by specialize (Heq (fun _ => false)).
  - destruct (top_var a b) as [x|] eqn:Htop.
    + destruct (top_var_cases a b x Htop) as (Hx & Hxa & Hxb).
      assert (Hcof : forall c, cofactor x c a = cofactor x c b).
      { intros c. apply (IH _ _ (S x) n).
        - pose proof (cofactor_depth x c a). pose proof (cofactor_depth x c b).
          destruct Hx as [Hx|Hx]; apply (cofactor_depth_lt x c) in Hx; lia.
        - by eapply cofactor_ordered.
        - by eapply cofactor_ordered.
        - intros env.
          set (env' := fun u => if decide (u = x) then c else env u).
          assert (He : env' x = c) by (unfold env'; by rewrite decide_True).
          assert (Habove : forall v, S x <= v -> env v = env' v).
          { intros v Hv. unfold env'. rewrite decide_False; [done|lia]. }
          rewrite (bdd_sem_above (S x) n (cofactor x c a) env env');
            [|by eapply cofactor_ordered|done].
          rewrite (bdd_sem_above (S x) n (cofactor x c b) env env');
            [|by eapply cofactor_ordered|done].
          by rewrite !cofactor_sem. }
      pose proof (Hcof false) as H0. pose proof (Hcof true) as H1.
      destruct a as [| |va loa hia], b as [| |vb lob hib]; simpl in Hx;
        try (by destruct Hx).
      * destruct Hx as [[= ->]|[= ->]]; simpl in H0, H1; rewrite decide_True in H0, H1 by done;
          destruct Hb as (_ & Hne & _); destruct Hne; congruence.
      * destruct Hx as [[= ->]|[= ->]]; simpl in H0, H1; rewrite decide_True in H0, H1 by done;
          destruct Hb as (_ & Hne & _); destruct Hne; congruence.
      * destruct Hx as [[= ->]|[= ->]]; simpl in H0, H1; rewrite decide_True in H0, H1 by done;
          destruct Ha as (_ & Hne & _); destruct Hne; congruence.
      * destruct Hx as [[= ->]|[= ->]]; simpl in H0, H1; rewrite decide_True in H0, H1 by done;
          destruct Ha as (_ & Hne & _); destruct Hne; congruence.
      * simpl in H0, H1.
        destruct (decide (va = x)) as [->|Hva], (decide (vb = x)) as [->|Hvb].
        -- congruence.
        -- destruct Ha as (_ & Hne & _); destruct Hne; congruence.
        -- destruct Hb as (_ & Hne & _); destruct Hne; congruence.
        -- destruct Hx as [[= ?]|[= ?]]; done.
    + apply top_var_none in Htop as [Hva Hvb].
      destruct a, b; try done; by specialize (Heq (fun _ => false)).
Qed.

Lemma bdd_canonical k n a b :
  bdd_ordered k n a -> bdd_ordered k n b ->
  (forall env, bdd_sem env a = bdd_sem env b) -> a = b.
Proof. by apply (bdd_canonical_depth (bdd_depth a + bdd_depth b)). Qed.

Lemma zdd_makenode_sem env v (lo hi : zcover) :
  zcover_sem env (zdd_makenode v lo hi)
  = (zcover_lit env v && zcover_sem env hi) || zcover_sem env lo.
Proof.
  unfold zdd_makenode. destruct (decide (hi = cover_false)) as [->|]; [|done].
  simpl. by rewrite andb_false_r.
Qed.

Lemma zcover_lit_pos env x : zcover_lit env (2 * x) = env x.
Proof.
  unfold zcover_lit. rewrite Nat.mul_comm, Nat.div_mul by done.
  rewrite Nat.mul_comm, Nat.odd_even. apply xorb_false_r.
Qed.

Lemma zcover_lit_neg env x : zcover_lit env (2 * x + 1) = negb (env x).
Proof.
  unfold zcover_lit.
  replace ((2 * x + 1) / 2) with x
    by (apply (Nat.div_unique _ 2 x 1); lia).
  rewrite Nat.odd_odd. apply xorb_true_r.
Qed.

(** The cofactors of an interval are intervals. *)
Lemma cofactor_le k n x c L U :
  bdd_ordered k n L -> bdd_ordered k n U ->
  (forall v, bdd_var L = Some v -> x <= v) ->
  (forall v, bdd_var U = Some v -> x <= v) ->
  (forall env, bdd_sem env L = true -> bdd_sem env U = true) ->
  forall env, bdd_sem env (cofactor x c L) = true ->
              bdd_sem env (cofactor x c U) = true.
Proof.
  intros HL HU HxL HxU Hle env.
  set (env' := fun u => if decide (u = x) then c else env u).
  assert (He : env' x = c) by (unfold env'; by rewrite decide_True).
  assert (Habove : forall v, S x <= v -> env v = env' v).
  { intros v Hv. unfold env'. rewrite decide_False; [done|lia]. }
  rewrite (bdd_sem_above (S x) n (cofactor x c L) env env');
    [|by eapply cofactor_ordered|done].
  rewrite (bdd_sem_above (S x) n (cofactor x c U) env env');
    [|by eapply cofactor_ordered|done].
  rewrite !cofactor_sem by done. apply Hle.
Qed.

(** Without a variable in its range, a diagram is a leaf. *)
Lemma bdd_ordered_leaf k n f :
  n <= k -> bdd_ordered k n f -> f = bdd_false \/ f = bdd_true.
Proof. destruct f; simpl; [by left|by right|lia]. Qed.

Lemma bdd_var_none f : bdd_var f = None -> f = bdd_false \/ f = bdd_true.
Proof. destruct f; simpl; [by left|by right|done]. Qed.

(** The procedure of Minato and Morreale: on an interval [L <= U] the
    result [bddres] lies in the interval, is a diagram of the kernel, and is
    the function of the cover. *)
Lemma isop_rec_spec fuel : forall k n L U z r,
  n <= k + fuel ->
  bdd_ordered k n L -> bdd_ordered k n U ->
  (forall env, bdd_sem env L = true -> bdd_sem env U = true) ->
  isop_rec fuel L U = (z, r) ->
  bdd_ordered k n r
  /\ forall env,
       (bdd_sem env L = true -> bdd_sem env r = true)
       /\ (bdd_sem env r = true -> bdd_sem env U = true)
       /\ zcover_sem env z = bdd_sem env r.
Proof.
  assert (Hleaves : forall L U,
            (L = bdd_false \/ L = bdd_true) -> (U = bdd_false \/ U = bdd_true) ->
            L <> bdd_false -> U <> bdd_true ->
            ~ (forall env, bdd_sem env L = true -> bdd_sem env U = true)).
  { intros L U [->| ->] [->| ->] HL HU Hle; try done.
    by specialize (Hle (fun _ => false) eq_refl). }
  induction fuel as [|fuel IH]; intros k n L U z r Hfuel HL HU Hle; cbn [isop_rec].
  - destruct (decide (L = bdd_false)) as [->|HLf]; [by intros [= <- <-]|].
    destruct (decide (U = bdd_true)) as [->|HUt]; [by intros [= <- <-]|].
    destruct (Hleaves L U); try done; apply (bdd_ordered_leaf k n); (lia || done).
  - destruct (decide (L = bdd_false)) as [->|HLf]; [by intros [= <- <-]|].
    destruct (decide (U = bdd_true)) as [->|HUt]; [by intros [= <- <-]|].
    destruct (top_var L U) as [x|] eqn:Htop.
    2:{ apply top_var_none in Htop as [HvL HvU].
        destruct (Hleaves L U); try done; by apply bdd_var_none. }
    destruct (top_var_cases L U x Htop) as (Hx & HxL & HxU).
    assert (Hkx : k <= x < n).
    { destruct Hx as [Hx|Hx];
        [apply (bdd_var_ordered k n L)|apply (bdd_var_ordered k n U)]; done. }
    pose proof (cofactor_ordered k n x false L HL HxL) as HL0.
    pose proof (cofactor_ordered k n x true L HL HxL) as HL1.
    pose proof (cofactor_ordered k n x false U HU HxU) as HU0.
    pose proof (cofactor_ordered k n x true U HU HxU) as HU1.
    pose proof (cofactor_le k n x false L U HL HU HxL HxU Hle) as Hle0.
    pose proof (cofactor_le k n x true L U HL HU HxL HxU Hle) as Hle1.
    set (L0 := cofactor x false L) in *. set (L1 := cofactor x true L) in *.
    set (U0 := cofactor x false U) in *. set (U1 := cofactor x true U) in *.
    destruct (isop_rec fuel (sylvan_and L0 (sylvan_not U1)) U0) as [zdd0 bdd0] eqn:E0.
    destruct (isop_rec fuel (sylvan_and L1 (sylvan_not U0)) U1) as [zdd1 bdd1] eqn:E1.
    apply (IH (S x) n) in E0 as [Hr0 Hs0]; [|lia| |done|].
    2:{ apply bdd_apply_ordered; [done|by apply sylvan_not_ordered]. }
    2:{ intros env. rewrite sylvan_and_sem. intros [H _]%andb_prop. by apply Hle0. }
    apply (IH (S x) n) in E1 as [Hr1 Hs1]; [|lia| |done|].
    2:{ apply bdd_apply_ordered; [done|by apply sylvan_not_ordered]. }
    2:{ intros env. rewrite sylvan_and_sem. intros [H _]%andb_prop. by apply Hle1. }
    destruct (isop_rec fuel
                (sylvan_or (sylvan_and L0 (sylvan_not bdd0))
                           (sylvan_and L1 (sylvan_not bdd1)))
                (sylvan_and U0 U1)) as [zdd2 bdd2] eqn:E2.
    apply (IH (S x) n) in E2 as [Hr2 Hs2]; [|lia| | |].
    2:{ apply bdd_apply_ordered; apply bdd_apply_ordered; try done;
          by apply sylvan_not_ordered. }
    2:{ by apply bdd_apply_ordered. }
    2:{ intros env. rewrite sylvan_or_sem, !sylvan_and_sem, !sylvan_not_sem.
        specialize (Hle0 env). specialize (Hle1 env).
        destruct (Hs0 env) as (Ha0 & _). destruct (Hs1 env) as (Ha1 & _).
        rewrite sylvan_and_sem, sylvan_not_sem in Ha0, Ha1.
        destruct (bdd_sem env L0), (bdd_sem env L1), (bdd_sem env U0),
          (bdd_sem env U1), (bdd_sem env bdd0), (bdd_sem env bdd1);
          simpl in *; auto. }
    intros [= <- <-]. split.
    + apply bdd_apply_ordered.
      * eapply bdd_ordered_weaken; [| |exact Hr2]; lia.
      * by apply bdd_makenode_ordered.
    + intros env.
      rewrite sylvan_or_sem, bdd_makenode_sem, !zdd_makenode_sem.
      change (x + (x + 0)) with (2 * x).
      rewrite zcover_lit_pos, zcover_lit_neg.
      destruct (Hs0 env) as (Ha0 & Hb0 & ->). destruct (Hs1 env) as (Ha1 & Hb1 & ->).
      destruct (Hs2 env) as (Ha2 & Hb2 & ->).
      rewrite sylvan_and_sem, sylvan_not_sem in Ha0, Ha1.
      rewrite sylvan_or_sem, !sylvan_and_sem, !sylvan_not_sem in Ha2.
      rewrite sylvan_and_sem in Hb2.
      destruct (env x) eqn:Hex.
      * rewrite <- (cofactor_sem env x true L Hex), <- (cofactor_sem env x true U Hex).
        fold L1 U1.
        destruct (bdd_sem env L0), (bdd_sem env L1), (bdd_sem env U0),
          (bdd_sem env U1), (bdd_sem env bdd0), (bdd_sem env bdd1),
          (bdd_sem env bdd2); simpl in *; auto.
      * rewrite <- (cofactor_sem env x false L Hex), <- (cofactor_sem env x false U Hex).
        fold L0 U0.
        destruct (bdd_sem env L0), (bdd_sem env L1), (bdd_sem env U0),
          (bdd_sem env U1), (bdd_sem env bdd0), (bdd_sem env bdd1),
          (bdd_sem env bdd2); simpl in *; auto.
Qed.

Lemma bdd_ordered_bound k n f : bdd_ordered k n f -> bdd_ordered k (bdd_bound f) f.
Proof.
  revert k. induction f as [| |v lo IHlo hi IHhi]; intros k; simpl; [done..|].
  intros (Hv & Hne & Hlo & Hhi). split; [lia|]. split; [done|]. split.
  - eapply bdd_ordered_weaken; [| |exact (IHlo _ Hlo)]; lia.
  - eapply bdd_ordered_weaken; [| |exact (IHhi _ Hhi)]; lia.
Qed.

Lemma zdd_cover_to_bdd_ordered z : exists n, bdd_ordered 0 n (zdd_cover_to_bdd z).
Proof.
  induction z as [| |v lo [nlo IHlo] hi [nhi IHhi]]; simpl; [by exists 0..|].
  exists (S (v / 2) `max` (nlo `max` nhi)).
  apply bdd_apply_ordered; [apply bdd_apply_ordered|].
  - destruct (Nat.even v); simpl; (split; [lia|done]).
  - eapply bdd_ordered_weaken; [| |exact IHhi]; lia.
  - eapply bdd_ordered_weaken; [| |exact IHlo]; lia.
Qed.

Lemma zdd_cover_to_bdd_sem z env :
  bdd_sem env (zdd_cover_to_bdd z) = zcover_sem env z.
Proof.
  induction z as [| |v lo IHlo hi IHhi]; simpl; [done..|].
  rewrite sylvan_or_sem, sylvan_and_sem, IHlo, IHhi. f_equal. f_equal.
  unfold zcover_lit. rewrite <- Nat.negb_even.
  destruct (Nat.even v); cbn [bdd_sem negb]; by destruct (env _).
Qed.

(** A cover with the empty product is true everywhere. *)
Lemma zcover_has_empty_sem z env :
  zcover_has_empty z = true -> zcover_sem env z = true.
Proof.
  induction z as [| |var low IHl high _]; simpl; [done|done|].
  intros H. rewrite (IHl H). apply orb_true_r.
Qed.

(** The cover that [zdd_isop] gives for a diagram of the kernel holds the
    empty product only when it is the cover of the empty product alone: an
    irredundant cover never has the empty product next to another one. *)
Lemma zdd_isop_empty_product n f :
  bdd_ordered 0 n f ->
  zcover_has_empty (zdd_isop f f).1 = true ->
  (zdd_isop f f).1 = cover_true.
Proof.
  intros Hf. pose proof Hf as Hb. apply bdd_ordered_bound in Hb.
  destruct (zdd_isop f f) as [isop bddres] eqn:E. cbn [fst]. intros Hempty.
  pose proof E as E'. unfold zdd_isop in E'.
  apply (isop_rec_spec _ 0 (bdd_bound f)) in E' as [Hr Hs]; [|lia|done|done|done].
  assert (Htrue : f = bdd_true).
  { apply (bdd_canonical 0 n); [done|done|].
    intros env. destruct (Hs env) as (_ & H2 & H3). simpl.
    apply H2. rewrite <- H3. by apply zcover_has_empty_sem. }
  subst f. by injection E as <- _.
Qed.

(** The round trip on one diagram of the kernel. *)
Lemma zdd_isop_roundtrip n f :
  bdd_ordered 0 n f ->
  exists isop,
    zdd_isop f f = (isop, f)
    /\ zdd_cover_to_bdd isop = f
    /\ forall env, zcover_sem env isop = bdd_sem env f.
Proof.
  intros Hf. apply bdd_ordered_bound in Hf.
  destruct (zdd_isop f f) as [isop bddres] eqn:E. unfold zdd_isop in E.
  apply (isop_rec_spec _ 0 (bdd_bound f)) in E as [Hr Hs]; [|lia|done|done|done].
  assert (Hres : bddres = f).
  { apply (bdd_canonical 0 (bdd_bound f)); [done|done|].
    intros env. destruct (Hs env) as (H1 & H2 & _).
    destruct (bdd_sem env bddres), (bdd_sem env f); auto.
    symmetry. by apply H2. }
  subst bddres. exists isop. split; [done|].
  assert (Hsem : forall env, zcover_sem env isop = bdd_sem env f)
    by (intros env; apply Hs).
  split; [|done].
  destruct (zdd_cover_to_bdd_ordered isop) as [m Hm].
  apply (bdd_canonical 0 (m `max` bdd_bound f)).
  - eapply bdd_ordered_weaken; [| |exact Hm]; lia.
  - eapply bdd_ordered_weaken; [| |exact Hf]; lia.
  - intros env. by rewrite zdd_cover_to_bdd_sem.
Qed.

Lemma mapM_process_cover n (l : list bdd) :
  Forall (bdd_ordered 0 n) l ->
  mapM process_cover l = Some ((fun f => (zdd_isop f f).1) <$> l).
Proof.
  induction 1 as [|f l Hf _ IH]; [done|].
  cbn [mapM]. rewrite IH, fmap_cons. unfold process_cover at 1.
  destruct (zdd_isop_roundtrip n f Hf) as (isop & Hisop & _).
  rewrite Hisop, decide_True by done. reflexivity.
Qed.
End Isop.

(** C7: for BDDs of the kernel (reduced and ordered), the assertions of the
    ISOP path hold: [zdd_isop (f, f)] hands back [f] as [bddres], the
    characteristic BDD of the cover is [f], so that [bdd_to_aig_isop]
    reaches the conversion of the cover, and the two loops of [process]
    over the cap and state BDDs run to their end. *)
Theorem isop_assertions_hold (n : nat) (cap_bdds state_bdds : list bdd) :
  Forall (bdd_ordered 0 n) cap_bdds ->
  Forall (bdd_ordered 0 n) state_bdds ->
  (forall f, f ∈ cap_bdds ++ state_bdds ->
     exists isop,
       zdd_isop f f = (isop, f)
       /\ zdd_cover_to_bdd isop = f
       /\ isop_checked f = Some isop)
  /\ process_covers cap_bdds state_bdds
     = Some ((fun f => (zdd_isop f f).1) <$> cap_bdds,
             (fun f => (zdd_isop f f).1) <$> state_bdds).
Proof.
  intros Hcap Hstate. split.
  - intros f Hf.
    assert (Hord : bdd_ordered 0 n f).
    { apply elem_of_app in Hf as [Hf|Hf];
        [rewrite Forall_forall in Hcap|rewrite Forall_forall in Hstate]; auto. }
    destruct (zdd_isop_roundtrip n f Hord) as (isop & Hisop & Hback & _).
    exists isop. split; [done|]. split; [done|].
    unfold isop_checked. rewrite Hisop, Hback. by rewrite !decide_True.
  - unfold process_covers.
    by rewrite (mapM_process_cover n cap_bdds Hcap),
               (mapM_process_cover n state_bdds Hstate).
Qed.

Lemma isop_assertions_hold_witness :
  (forall f, f ∈ [xor_bdd; or_and_bdd] ++ [bdd_true; bdd_false] ->
     exists isop,
       zdd_isop f f = (isop, f)
       /\ zdd_cover_to_bdd isop = f
       /\ isop_checked f = Some isop)
  /\ process_covers [xor_bdd; or_and_bdd] [bdd_true; bdd_false]
     = Some ((fun f => (zdd_isop f f).1) <$> [xor_bdd; or_and_bdd],
             (fun f => (zdd_isop f f).1) <$> [bdd_true; bdd_false]).
Proof.
  apply (isop_assertions_hold 3).
  - repeat constructor; simpl; (lia || discriminate).
  - repeat constructor.
Defined.

(** * Further properties of the code *)

(** ** [adjustPriority] *)

(** X1: for priorities and numbers of acceptance sets that keep the
    arithmetic within [int] ([0 <= p, q <= noPriorities],
    [noPriorities + 3 < 2^31]), [adjustPriority] keeps the parity of a
    priority for an even controller and flips it for an odd one, and it
    keeps the order of the priorities of a max-parity automaton and
    reverses that of a min-parity automaton; the results are positive
    [int]s. *)
Theorem adjustPriority_parity_order p q mx odd k :
  0 <= p <= k -> 0 <= q <= k ->
  k + 3 < 2 ^ 31 ->
  Z.even (adjustPriority p mx odd k) = xorb (Z.even p) odd
  /\ adjustPriority q mx odd k - adjustPriority p mx odd k
     = (if mx then q - p else p - q)
  /\ 1 <= adjustPriority p mx odd k < 2 ^ 31
  /\ 1 <= adjustPriority q mx odd k < 2 ^ 31.
Proof.
  intros Hp Hq Hk.
  destruct (adjustPriority_in_int p mx odd k Hp Hk) as (_ & _ & _ & _ & Hrp).
  destruct (adjustPriority_in_int q mx odd k Hq Hk) as (_ & _ & _ & _ & Hrq).
  split; [|split; [|done]]; rewrite !adjustPriority_unfold.
  - destruct mx, odd; rewrite ?Z.even_sub, ?Z.even_add, ?Z.even_sub, ?Z.even_mul;
      simpl; by destruct (Z.even p).
  - destruct mx; lia.
Qed.

Lemma adjustPriority_parity_order_witness :
  Z.even (adjustPriority 1 false true 3) = true
  /\ adjustPriority 2 false true 3 - adjustPriority 1 false true 3 = -1.
Proof.
  destruct (adjustPriority_parity_order 1 2 false true 3
              ltac:(lia) ltac:(lia) ltac:(lia)) as (H1 & H2 & _).
  split; [exact H1|exact H2].
Defined.

(** ** Leaves of the transition MTBDD *)

Lemma leaf_target_of priority succ :
  0 <= priority < 2 ^ 31 -> 0 <= succ < 2 ^ 31 ->
  leaf_target (leaf_of priority succ) = succ.
Proof.
  intros Hp Hs. rewrite leaf_of_literals by done.
  unfold leaf_target, to_int.
  change 0xffffffff with (Z.ones 32). rewrite Z.land_ones by lia.
  rewrite Z.add_comm, Z.mod_add, Z.mod_small by lia.
  destruct (Z.ltb_spec succ (2 ^ 31)); lia.
Qed.

(** X2: the leaf that [constructGame] packs from a priority and a successor
    is unpacked to the same two numbers, as long as both are non-negative
    [int]s; so different (priority, successor) pairs give different
    leaves. *)
Theorem leaf_roundtrip priority succ priority' succ' :
  0 <= priority < 2 ^ 31 -> 0 <= succ < 2 ^ 31 ->
  0 <= priority' < 2 ^ 31 -> 0 <= succ' < 2 ^ 31 ->
  leaf_priority (leaf_of priority succ) = priority
  /\ leaf_target (leaf_of priority succ) = succ
  /\ (leaf_of priority succ = leaf_of priority' succ' ->
      priority = priority' /\ succ = succ').
Proof.
  intros Hp Hs Hp' Hs'.
  split; [by apply leaf_priority_of|]. split; [by apply leaf_target_of|].
  intros Heq. split.
  - rewrite <- (leaf_priority_of priority succ), Heq by done.
    by apply leaf_priority_of.
  - rewrite <- (leaf_target_of priority succ), Heq by done.
    by apply leaf_target_of.
Qed.

Lemma leaf_roundtrip_witness :
  leaf_priority (leaf_of 3 5) = 3
  /\ leaf_target (leaf_of 3 5) = 5
  /\ (leaf_of 3 5 = leaf_of 3 5 -> 3 = 3 /\ 5 = 5).
Proof. apply leaf_roundtrip; lia. Defined.

(** ** [makeand] *)

(** X3: asking [makeand] again for the same pair, in either order, returns
    the same literal and changes nothing: the first call has entered the
    pair in the cache if it made a gate. *)
Theorem makeand_idempotent a b m :
  makeand a b (makeand a b m).2 = makeand a b m
  /\ makeand b a (makeand a b m).2 = makeand a b m.
Proof.
  assert (H : makeand a b (makeand a b m).2 = makeand a b m).
  { unfold makeand.
    destruct (if b <? a then (b, a) else (a, b)) as [x y].
    destruct (x =? 0); [done|].
    destruct (x =? 1); [done|].
    destruct (cache m !! cache_key x y) as [c|] eqn:Ec; simpl.
    - by rewrite Ec.
    - by rewrite lookup_insert_eq. }
  split; [done|]. by rewrite makeand_comm.
Qed.

(** X4: on literals of a sound circuit, [makeand (a, b)] returns a literal
    of the new circuit that computes the conjunction of [a] and [b]; the
    literals of the old circuit keep their functions and the memo table is
    left alone (as long as the literal counter stays within [int]). *)
Theorem makeand_conjunction a b m :
  aig_inv m -> lit_ok m a -> lit_ok m b ->
  lit (makeand a b m).2 < 2 ^ 31 ->
  aig_inv (makeand a b m).2
  /\ lit_ok (makeand a b m).2 (makeand a b m).1
  /\ mapping (makeand a b m).2 = mapping m
  /\ (forall inp, aig_value (makeand a b m).2 inp (makeand a b m).1
                  = aig_value m inp a && aig_value m inp b)
  /\ (forall l inp, lit_ok m l ->
        aig_value (makeand a b m).2 inp l = aig_value m inp l).
Proof.
  intros Hinv Ha Hb Hlit.
  destruct (makeand_sound a b m Hinv Ha Hb Hlit) as (Hinv' & Hext & Hl & Hmap & Hval).
  split; [done|]. split; [done|]. split; [done|]. split; [done|].
  intros l inp Hlok. by apply Hext.
Qed.

Lemma makeand_conjunction_witness :
  aig_inv (makeand 2 5 fresh_maker).2
  /\ lit_ok (makeand 2 5 fresh_maker).2 (makeand 2 5 fresh_maker).1
  /\ mapping (makeand 2 5 fresh_maker).2 = mapping fresh_maker
  /\ (forall inp, aig_value (makeand 2 5 fresh_maker).2 inp (makeand 2 5 fresh_maker).1
                  = aig_value fresh_maker inp 2 && aig_value fresh_maker inp 5)
  /\ (forall l inp, lit_ok fresh_maker l ->
        aig_value (makeand 2 5 fresh_maker).2 inp l = aig_value fresh_maker inp l).
Proof.
  apply makeand_conjunction.
  - exact fresh_maker_inv.
  - unfold lit_ok. simpl. lia.
  - unfold lit_ok. simpl. lia.
  - vm_compute. reflexivity.
Defined.

(** ** The memo table of [bdd_to_aig] *)

(** X5: a second call of [bdd_to_aig] on the same handle, in the state the
    first call has left, returns the same literal after one look at the memo
    table and changes nothing. *)
Theorem bdd_to_aig_memoised fuel fuel' nodes bdd m res m' :
  0 <= bdd < two64 ->
  bdd_to_aig fuel nodes bdd m = Some (res, m') ->
  bdd_to_aig (S fuel') nodes bdd m' = Some (res, m').
Proof.
  intros Hb. destruct fuel as [|fuel]; [done|].
  rewrite !bdd_to_aig_unfold.
  destruct (Z.eqb_spec bdd mtbdd_true) as [->|Ht]; [by intros [= <- <-]|].
  destruct (Z.eqb_spec bdd mtbdd_false) as [->|Hf]; [by intros [= <- <-]|].
  cbv zeta. rewrite handle_strip by done.
  generalize (mtbdd_index bdd), (mtbdd_hasmark bdd). intros b0 comp.
  unfold bind at 1, mapping_find.
  destruct (mapping m !! b0) as [l|] eqn:Hmap.
  { intros [= <- <-]. unfold bind, mapping_find. by rewrite Hmap. }
  unfold bind at 1.
  destruct (of_option (mtbdd_getvar nodes b0) m) as [[v m1]|]; [|done].
  unfold bind at 1.
  destruct (var_to_lit_at v m1) as [[the_lit m2]|]; [|done].
  unfold bind at 1.
  destruct (of_option (mtbdd_getlow nodes b0) m2) as [[low m3]|]; [|done].
  unfold bind at 1.
  destruct (of_option (mtbdd_gethigh nodes b0) m3) as [[high m4]|]; [|done].
  unfold bind at 1.
  destruct (shannon_node _ the_lit low high m4) as [[r m5]|]; [|done].
  unfold bind at 1, mapping_set, ret.
  intros [= <- <-]. unfold bind, mapping_find. simpl.
  by rewrite lookup_insert_eq.
Qed.

Lemma bdd_to_aig_memoised_witness :
  exists res m',
    bdd_to_aig 3 xor_nodes 2 fresh_maker = Some (res, m')
    /\ bdd_to_aig 1 xor_nodes 2 m' = Some (res, m').
Proof.
  destruct (bdd_to_aig 3 xor_nodes 2 fresh_maker) as [[res m']|] eqn:E;
    [|by vm_compute in E].
  exists res, m'. split; [done|].
  apply (bdd_to_aig_memoised 3 0 xor_nodes 2 fresh_maker); [|done].
  unfold two64. lia.
Defined.

(** ** The sum-of-products conversion on any cover *)

(** X6: on a well-formed table of covers (any table without cycles) and
    from a sound state, [bdd_to_aig_cover_sop] returns for every cover; for
    [zdd_true] the literal is true, and otherwise it computes the sum of the
    products of the cover that have at least one literal: a product without
    literals is passed over, and a cover without any product left gives
    false.  The products are those of the whole cover: more fuel for the
    enumeration yields no other list, and their sum is the function of the
    cover. *)
Theorem bdd_to_aig_cover_sop_value nodes cover m :
  zdd_wf nodes ->
  zdd_handle_ok nodes cover ->
  zdd_vars_allocated nodes m ->
  aig_inv m ->
  memo_inv (fun _ => True) (cover_denote nodes) m ->
  exists r m',
    bdd_to_aig_cover_sop nodes cover m = Some (r, m')
    /\ var_to_lit m' = var_to_lit m
    /\ (forall fuel, (size nodes < fuel)%nat ->
          zdd_cover_enum fuel nodes cover = zdd_products nodes cover)
    /\ (forall env, sop_value env (zdd_products nodes cover)
                    = cover_denote nodes env cover)
    /\ (lit m' < 2 ^ 31 ->
        aig_inv m'
        /\ forall inp,
             aig_value m' inp r
             = if cover =? zdd_true then true
               else sop_value (dd_env m inp)
                      (List.filter nonempty (zdd_products nodes cover))).
Proof.
  intros Hwf Hok Hvars Hinv Hmemo.
  destruct (bdd_to_aig_cover_sop_ok (fun _ => True) (cover_denote nodes)
              nodes cover m Hvars)
    as (r & m' & Hrun & _ & Hv & Hpost).
  pose proof (zdd_rank_le nodes cover) as Hle.
  exists r, m'. split; [done|]. split; [done|]. split.
  { intros fuel Hfuel. unfold zdd_products.
    apply (zdd_cover_enum_stable nodes Hwf); [done|lia|lia]. }
  split.
  { intros env. apply (sop_value_products nodes Hwf env (S (size nodes))); [done|lia]. }
  intros Hb.
  destruct Hpost as ([Hinv' _] & Hext & _ & Hval); [done|by split|done|].
  split; [done|]. intros inp.
  by rewrite Hval, (dd_env_extends m m' inp Hext).
Qed.

Lemma bdd_to_aig_cover_sop_value_witness :
  exists r m',
    bdd_to_aig_cover_sop redundant_cover 1 fresh_maker = Some (r, m')
    /\ var_to_lit m' = var_to_lit fresh_maker
    /\ (lit m' < 2 ^ 31 ->
        aig_inv m'
        /\ forall inp,
             aig_value m' inp r
             = if 1 =? zdd_true then true
               else sop_value (dd_env fresh_maker inp)
                      (List.filter nonempty (zdd_products redundant_cover 1))).
Proof.
  destruct (bdd_to_aig_cover_sop_value redundant_cover 1 fresh_maker)
    as (r & m' & Hrun & Hv & _ & _ & Hval).
  - exact redundant_cover_wf.
  - right; right. by eexists.
  - unfold zdd_vars_allocated, redundant_cover. apply map_Forall_singleton.
    by eexists.
  - exact fresh_maker_inv.
  - by apply memo_inv_empty.
  - by exists r, m'.
Defined.

(** ** The checks of the driver on the states *)

Section CheckStates.
Context {Circuit : Type}.
Implicit Types (sts : list State) (msgs : list (Event Circuit)).

Lemma ids_cons (s : State) sts i :
  bool_decide (s_id <$> s :: sts = seqZ i (Z.of_nat (length (s :: sts))))
  = (i =? s_id s)
    && bool_decide (s_id <$> sts = seqZ (i + 1) (Z.of_nat (length sts))).
Proof.
  rewrite fmap_cons. cbn [length].
  rewrite seqZ_cons by lia.
  replace (Z.pred (Z.of_nat (S (length sts)))) with (Z.of_nat (length sts)) by lia.
  replace (Z.succ i) with (i + 1) by lia.
  destruct (Z.eqb_spec i (s_id s)) as [->|Hne]; simpl.
  - apply bool_decide_ext. split; [by intros [= ->]|by intros ->].
  - apply bool_decide_eq_false. intros [= ? _]. done.
Qed.

(** The loop from a state other than the first one. *)
Lemma check_states_later sts : forall i sp bad msgs,
  0 < i ->
  (check_states sts i sp bad msgs).2
  = if negb sp && existsb (fun s => negb (s_noAccSig s =? 0)) sts then None
    else Some (bad || negb (bool_decide
                 (s_id <$> sts = seqZ i (Z.of_nat (length sts))))).
Proof.
  induction sts as [|s sts IH]; intros i sp bad msgs Hi.
  { simpl. rewrite andb_false_r. simpl. by rewrite orb_false_r. }
  cbn [check_states existsb]. rewrite ids_cons.
  destruct (Z.eqb_spec i 0) as [->|_]; [lia|].
  destruct (negb (s_noAccSig s =? 0)) eqn:Hacc; cbn [orb].
  - destruct sp; cbn [negb andb]; [|done].
    rewrite IH by lia. cbn [negb andb].
    by destruct (i =? s_id s), bad.
  - rewrite IH by lia. destruct (negb sp && existsb _ sts); [done|].
    by destruct (i =? s_id s), bad.
Qed.

Lemma check_states_first sts :
  (check_states sts 0 false false (@nil (Event Circuit))).2
  = match sts with
    | [] => Some false
    | s0 :: rest =>
        if (s_noAccSig s0 =? 0)
           && existsb (fun s => negb (s_noAccSig s =? 0)) rest
        then None
        else Some (negb (bool_decide
                     (s_id <$> sts = seqZ 0 (Z.of_nat (length sts)))))
    end.
Proof.
  destruct sts as [|s0 rest]; [done|].
  cbn [check_states]. rewrite ids_cons. change (0 =? 0) with true.
  cbn [orb]. destruct (s_noAccSig s0 =? 0); cbn [negb andb].
  - rewrite check_states_later by lia. cbn [negb andb].
    destruct (existsb _ rest); [done|]. by destruct (0 =? s_id s0).
  - rewrite check_states_later by lia. cbn [negb andb].
    by destruct (0 =? s_id s0).
Qed.
End CheckStates.

(** X7: the loop of [main_task] over the states lets the automaton pass
    exactly when the id of every state is its index and, if the first
    state has no acceptance set, no state has one.  (A state without
    acceptance set after a first state that has one is let through.) *)
Theorem check_states_passes {Circuit : Type} (sts : list State) :
  (check_states sts 0 false false (@nil (Event Circuit))).2 = Some false
  <-> s_id <$> sts = seqZ 0 (Z.of_nat (length sts))
      /\ (forall s0 rest, sts = s0 :: rest -> s_noAccSig s0 = 0 ->
            Forall (fun s => s_noAccSig s = 0) rest).
Proof.
  rewrite check_states_first. destruct sts as [|s0 rest].
  { split; [|done]. intros _. split; [done|]. by intros ? ? ?. }
  assert (Hex : existsb (fun s => negb (s_noAccSig s =? 0)) rest = false
                <-> Forall (fun s => s_noAccSig s = 0) rest).
  { rewrite <- not_true_iff_false, existsb_exists, Forall_forall. split.
    - intros Hno s Hs. destruct (Z.eqb_spec (s_noAccSig s) 0) as [|Hne]; [done|].
      destruct Hno. exists s. split; [by apply list_elem_of_In|].
      by apply negb_true_iff, Z.eqb_neq.
    - intros Hall (s & Hs & Hne). apply list_elem_of_In in Hs.
      apply negb_true_iff, Z.eqb_neq in Hne. by apply Hne, Hall. }
  split.
  - intros H.
    destruct (Z.eqb_spec (s_noAccSig s0) 0) as [E0|E0]; cbn [andb] in H.
    + destruct (existsb _ rest) eqn:Hx; [done|].
      injection H as H. apply negb_false_iff, bool_decide_eq_true in H.
      split; [done|]. intros ? ? [= <- <-] _. by apply Hex.
    + injection H as H. apply negb_false_iff, bool_decide_eq_true in H.
      split; [done|]. by intros ? ? [= <- <-] ?.
  - intros [Hids Hacc].
    rewrite (bool_decide_eq_true_2 _ Hids). cbn [negb].
    destruct (Z.eqb_spec (s_noAccSig s0) 0) as [E0|E0]; cbn [andb]; [|done].
    specialize (Hacc s0 rest eq_refl E0). apply Hex in Hacc. by rewrite Hacc.
Qed.

(** ** What a run of [main_task] ends with *)

Section DriverMore.
Context {Circuit : Type}.
Implicit Types (w : World Circuit) (opts : Options).

Lemma after_code (evs : list (Event Circuit)) (k : Outcome Circuit) :
  (after evs k).2 = k.2.
Proof. done. Qed.

Lemma after_trace (evs : list (Event Circuit)) (k : Outcome Circuit) :
  (after evs k).1 = evs ++ k.1.
Proof. done. Qed.

Lemma best_of_code w opts : (best_of w opts).2 = 10.
Proof. done. Qed.

Lemma after_solving_code w opts (realizable : bool) :
  (after_solving w opts realizable).2 = if realizable then 10 else 20.
Proof.
  unfold after_solving.
  destruct (opt_real opts), realizable; try done.
  destruct (opt_naive opts || opt_explicit opts); [done|].
  rewrite after_code. destruct (opt_best opts); [done|].
  rewrite after_code.
  destruct (opt_print_kiss opts); [done|].
  destruct (opt_print_witness opts); [done|].
  cbv zeta. by destruct (opt_drewrite opts), (opt_compress opts).
Qed.

Lemma construct_and_solve_code w opts :
  (construct_and_solve w opts).2 = 0
  \/ ((construct_and_solve w opts).2 = (if solver_verdict w opts then 10 else 20)
      /\ solve_event opts ∈ (construct_and_solve w opts).1).
Proof.
  unfold construct_and_solve, solver_verdict, solve_event.
  destruct (opt_sym opts); cbn [negb].
  - rewrite after_code, after_trace.
    destruct (opt_print_game opts); [by left|].
    destruct (opt_no_solve opts); [by left|].
    right. rewrite after_code, after_trace, after_solving_code. split; [done|].
    rewrite !elem_of_app. right. left. apply list_elem_of_singleton. done.
  - assert (H : forall evb : list (Event Circuit) * bool,
      (let '(ev_construct, has_sym) := evb in
       after ev_construct
         (if opt_print_game opts then ([EvWritePGSolver], 0)
          else if opt_no_solve opts then ([], 0)
          else
            let realizable := explicit_winner w =? 0 in
            after ([EvSolveExplicit]
                   ++ (if realizable && has_sym then
                         [EvApplyStrategy]
                         ++ (if apply_ok w then []
                             else [EvStderr "cannot apply strategy!"])
                       else []))
              (after_solving w opts realizable))).2 = 0
      \/ ((let '(ev_construct, has_sym) := evb in
           after ev_construct
             (if opt_print_game opts then ([EvWritePGSolver], 0)
              else if opt_no_solve opts then ([], 0)
              else
                let realizable := explicit_winner w =? 0 in
                after ([EvSolveExplicit]
                       ++ (if realizable && has_sym then
                             [EvApplyStrategy]
                             ++ (if apply_ok w then []
                                 else [EvStderr "cannot apply strategy!"])
                           else []))
                  (after_solving w opts realizable))).2
          = (if explicit_winner w =? 0 then 10 else 20)
          /\ EvSolveExplicit ∈
             (let '(ev_construct, has_sym) := evb in
              after ev_construct
                (if opt_print_game opts then ([EvWritePGSolver], 0)
                 else if opt_no_solve opts then ([], 0)
                 else
                   let realizable := explicit_winner w =? 0 in
                   after ([EvSolveExplicit]
                          ++ (if realizable && has_sym then
                                [EvApplyStrategy]
                                ++ (if apply_ok w then []
                                    else [EvStderr "cannot apply strategy!"])
                              else []))
                     (after_solving w opts realizable))).1)).
    { intros [evs has_sym]. rewrite after_code, after_trace.
      destruct (opt_print_game opts); [by left|].
      destruct (opt_no_solve opts); [by left|].
      right. cbv zeta. rewrite after_code, after_trace, after_solving_code.
      split; [done|]. rewrite !elem_of_app. right. left. left. left. }
    apply H.
Qed.

Lemma main_task_code w opts :
  (parse_ret w <> 0 /\ (main_task w opts).2 = parse_ret w)
  \/ (parity_ret w <> 0 /\ (main_task w opts).2 = parity_ret w)
  \/ (main_task w opts).2 = -1
  \/ (main_task w opts).2 = 0
  \/ ((main_task w opts).2 = (if solver_verdict w opts then 10 else 20)
      /\ solve_event opts ∈ (main_task w opts).1).
Proof.
  assert (Hrest :
    let out :=
      after [EvParse]
        (if negb (parse_ret w =? 0) then ([], parse_ret w)
         else after [EvCheckParity]
           (if negb (parity_ret w =? 0) then ([], parity_ret w)
            else
              match check_states (states (parsed w)) 0 false false [] with
              | (msgs, None) => (msgs, -1)
              | (msgs, Some true) => (msgs, -1)
              | (msgs, Some false) =>
                  after (msgs ++ [EvInitSylvan]) (construct_and_solve w opts)
              end)) in
    (parse_ret w <> 0 /\ out.2 = parse_ret w)
    \/ (parity_ret w <> 0 /\ out.2 = parity_ret w)
    \/ out.2 = -1
    \/ out.2 = 0
    \/ (out.2 = (if solver_verdict w opts then 10 else 20)
        /\ solve_event opts ∈ out.1)).
  { cbv zeta. rewrite after_code, after_trace.
    destruct (Z.eqb_spec (parse_ret w) 0) as [_|Hp]; cbn [negb]; [|by left].
    rewrite after_code, after_trace.
    destruct (Z.eqb_spec (parity_ret w) 0) as [_|Hp]; cbn [negb];
      [|by right; left].
    destruct (check_states (states (parsed w)) 0 false false [])
      as [msgs [[|]|]]; [by right; right; left| |by right; right; left].
    rewrite after_code, after_trace.
    destruct (construct_and_solve_code w opts) as [H0|[Hc Hs]].
    - by right; right; right; left.
    - right; right; right; right. split; [done|].
      rewrite !elem_of_app. by right; right; right. }
  unfold main_task. destruct (opt_file opts) as [filename|]; [|exact Hrest].
  destruct (negb (file_found w)); [by right; right; right; left|exact Hrest].
Qed.
End DriverMore.

(** X8: the exit code of [main_task] is the non-zero code of the parser or
    of the acceptance check, or -1 (the states fail the checks), or 0 (the
    file is missing, or the run stops before the solver), or it reports the
    solver: 10 only if the solver ran and found the specification
    realizable, 20 only if it ran and found it unrealizable. *)
Theorem main_task_exit_code {Circuit : Type} (w : World Circuit) (opts : Options) :
  (parse_ret w <> 0 /\ (main_task w opts).2 = parse_ret w)
  \/ (parity_ret w <> 0 /\ (main_task w opts).2 = parity_ret w)
  \/ (main_task w opts).2 = -1
  \/ (main_task w opts).2 = 0
  \/ ((main_task w opts).2 = 10
      /\ solver_verdict w opts = true /\ solve_event opts ∈ (main_task w opts).1)
  \/ ((main_task w opts).2 = 20
      /\ solver_verdict w opts = false /\ solve_event opts ∈ (main_task w opts).1).
Proof.
  destruct (main_task_code w opts) as [H|[H|[H|[H|[Hc Hs]]]]].
  - by left.
  - by right; left.
  - by right; right; left.
  - by right; right; right; left.
  - destruct (solver_verdict w opts); [right; right; right; right; left|
                                       right; right; right; right; right]; done.
Qed.

Section DriverTraces.
Context {Circuit : Type}.
Implicit Types (w : World Circuit) (opts : Options).

Lemma check_states_Forall (P : Event Circuit -> Prop) (sts : list State) :
  (forall s, P (EvStderr s)) ->
  forall i sp bad (msgs : list (Event Circuit)),
    Forall P msgs -> Forall P (check_states sts i sp bad msgs).1.
Proof.
  intros HP. induction sts as [|s sts IH]; intros i sp bad msgs Hm; [done|].
  cbn [check_states].
  assert (Hm' : Forall P
            (if negb (i =? s_id s)
             then msgs ++ [EvStderr "state has an invalid id"] else msgs)).
  { destruct (negb (i =? s_id s)); [|done].
    apply Forall_app. split; [done|]. by constructor. }
  destruct (negb (s_noAccSig s =? 0)); [|by apply IH].
  destruct (i =? 0); [by apply IH|].
  destruct (negb sp); [|by apply IH].
  cbn [fst]. apply Forall_app. split; [done|]. by constructor.
Qed.

(** A property of the events that holds up to the initialisation of the DD
    kernel and of the events of [construct_and_solve] holds of the run. *)
Lemma main_task_Forall (P : Event Circuit -> Prop) w opts :
  P EvParse -> P EvCheckParity -> P EvInitSylvan ->
  (forall s, P (EvStderr s)) -> (forall s, P (EvStdout s)) ->
  Forall P (construct_and_solve w opts).1 ->
  Forall P (main_task w opts).1.
Proof.
  intros H1 H2 H3 H4 H5 Hcs.
  assert (Hrest : Forall P
    (after [EvParse]
       (if negb (parse_ret w =? 0) then ([], parse_ret w)
        else after [EvCheckParity]
          (if negb (parity_ret w =? 0) then ([], parity_ret w)
           else
             match check_states (states (parsed w)) 0 false false [] with
             | (msgs, None) => (msgs, -1)
             | (msgs, Some true) => (msgs, -1)
             | (msgs, Some false) =>
                 after (msgs ++ [EvInitSylvan]) (construct_and_solve w opts)
             end))).1).
  { rewrite after_trace. apply Forall_app. split; [by constructor|].
    destruct (negb (parse_ret w =? 0)); [done|].
    rewrite after_trace. apply Forall_app. split; [by constructor|].
    destruct (negb (parity_ret w =? 0)); [done|].
    pose proof (check_states_Forall P (states (parsed w)) H4 0 false false []
                  (Forall_nil_2 P)) as Hmsgs.
    destruct (check_states (states (parsed w)) 0 false false [])
      as [msgs [[|]|]]; cbn [fst] in *; [done| |done].
    rewrite after_trace, !Forall_app. split; [|done].
    split; [done|by constructor]. }
  unfold main_task. destruct (opt_file opts) as [filename|]; [|exact Hrest].
  destruct (negb (file_found w)); [|exact Hrest].
  cbn [fst]. by constructor.
Qed.

(** The same for [construct_and_solve], up to the solver. *)
Lemma construct_and_solve_Forall (P : Event Circuit -> Prop) w opts :
  P EvConstructNaive -> P EvConstructExplicit -> P EvConstructSym ->
  P EvBisimGame -> P EvToExplicit -> P EvWritePGSolver ->
  (opt_print_game opts = false -> opt_no_solve opts = false ->
   P EvSolveExplicit /\ P EvSolveSym /\ P EvApplyStrategy
   /\ (forall s, P (EvStderr s))
   /\ Forall P (after_solving w opts (solver_verdict w opts)).1) ->
  Forall P (construct_and_solve w opts).1.
Proof.
  intros H1 H2 H3 H4 H5 H6 Hsolve.
  unfold construct_and_solve, solver_verdict in *.
  destruct (opt_sym opts); cbn [negb].
  - rewrite after_trace, !Forall_app. split.
    { split; [by constructor|].
      destruct (opt_bisim opts || opt_bisim_game opts); [by constructor|done]. }
    destruct (opt_print_game opts); [by repeat constructor|].
    destruct (opt_no_solve opts); [done|].
    destruct Hsolve as (Hs1 & Hs2 & Hs3 & Hs4 & Hs5); [done..|].
    rewrite after_trace. apply Forall_app. split; [by constructor|done].
  - assert (H : forall evb : list (Event Circuit) * bool,
      Forall P evb.1 ->
      Forall P
        (let '(ev_construct, has_sym) := evb in
         after ev_construct
           (if opt_print_game opts then ([EvWritePGSolver], 0)
            else if opt_no_solve opts then ([], 0)
            else
              let realizable := explicit_winner w =? 0 in
              after ([EvSolveExplicit]
                     ++ (if realizable && has_sym then
                           [EvApplyStrategy]
                           ++ (if apply_ok w then []
                               else [EvStderr "cannot apply strategy!"])
                         else []))
                (after_solving w opts realizable))).1).
    { intros [evs has_sym] Hevs. cbn [fst] in Hevs.
      rewrite after_trace. apply Forall_app. split; [done|].
      destruct (opt_print_game opts); [by repeat constructor|].
      destruct (opt_no_solve opts); [done|].
      destruct Hsolve as (Hs1 & Hs2 & Hs3 & Hs4 & Hs5); [done..|].
      cbv zeta. rewrite after_trace, !Forall_app. split; [|done].
      split; [by constructor|].
      destruct ((explicit_winner w =? 0) && has_sym); [|done].
      apply Forall_app. split; [by constructor|].
      destruct (apply_ok w); [done|by constructor]. }
    apply H.
    destruct (opt_naive opts); [by constructor|].
    destruct (opt_explicit opts); [by constructor|].
    cbn [fst]. rewrite !Forall_app. split; [by constructor|].
    split; [|by constructor].
    destruct (opt_bisim opts || opt_bisim_game opts); [by constructor|done].
Qed.
End DriverTraces.


Section DriverRuns.
Context {Circuit : Type}.
Implicit Types (w : World Circuit) (opts : Options).

(** A run on an input that passes the parser and the checks. *)
Lemma main_task_accepted w opts (msgs : list (Event Circuit)) :
  (opt_file opts = None \/ file_found w = true) ->
  parse_ret w = 0 -> parity_ret w = 0 ->
  check_states (states (parsed w)) 0 false false [] = (msgs, Some false) ->
  main_task w opts
  = after ([EvParse; EvCheckParity] ++ msgs ++ [EvInitSylvan])
      (construct_and_solve w opts).
Proof.
  intros Hfile Hparse Hparity Hcheck.
  unfold main_task. rewrite Hparse, Hparity, Hcheck. cbn [Z.eqb negb].
  assert (Hgo : after [EvParse]
            (after [EvCheckParity]
               (after (msgs ++ [EvInitSylvan]) (construct_and_solve w opts)))
          = after ([EvParse; EvCheckParity] ++ msgs ++ [EvInitSylvan])
              (construct_and_solve w opts)).
  { unfold after. cbn [fst snd]. f_equal; rewrite <- ?app_assoc; done. }
  destruct Hfile as [Hf|Hf].
  - by rewrite Hf.
  - rewrite Hf. cbn [negb]. by destruct (opt_file opts).
Qed.

(** The part of [construct_and_solve] before the verdict is used. *)
Lemma construct_and_solve_solved w opts :
  opt_print_game opts = false -> opt_no_solve opts = false ->
  exists evs,
    construct_and_solve w opts
    = after evs (after_solving w opts (solver_verdict w opts))
    /\ Forall (fun e => is_synthesis e = false) evs
    /\ solve_event opts ∈ evs.
Proof.
  intros Hpg Hns. unfold construct_and_solve, solver_verdict, solve_event.
  rewrite Hpg, Hns.
  destruct (opt_sym opts); cbn [negb].
  - eexists. split.
    + unfold after. cbn [fst snd]. rewrite !app_assoc. reflexivity.
    + split.
      * destruct (opt_bisim opts || opt_bisim_game opts); by repeat constructor.
      * rewrite !elem_of_app, !elem_of_cons. naive_solver.
  - destruct (opt_naive opts); [|destruct (opt_explicit opts)].
    + eexists. split.
      * unfold after. cbn [fst snd]. rewrite !app_assoc. reflexivity.
      * rewrite andb_false_r. split; [by repeat constructor|].
        rewrite !elem_of_app, !elem_of_cons. naive_solver.
    + eexists. split.
      * unfold after. cbn [fst snd]. rewrite !app_assoc. reflexivity.
      * rewrite andb_false_r. split; [by repeat constructor|].
        rewrite !elem_of_app, !elem_of_cons. naive_solver.
    + eexists. split.
      * unfold after. cbv zeta. cbn [fst snd]. rewrite !app_assoc. reflexivity.
      * split.
        -- destruct (opt_bisim opts || opt_bisim_game opts),
             ((explicit_winner w =? 0) && true), (apply_ok w);
             by repeat constructor.
        -- rewrite !elem_of_app, !elem_of_cons. naive_solver.
Qed.

Lemma last_after (evs : list (Event Circuit)) (k : Outcome Circuit) e :
  last k.1 = Some e -> last (after evs k).1 = Some e.
Proof.
  intros Hl. rewrite after_trace. destruct k as [kevs c]. cbn [fst] in *.
  destruct kevs as [|e0 kevs] using rev_ind; [done|].
  rewrite app_assoc, last_snoc. by rewrite last_snoc in Hl.
Qed.
End DriverRuns.

(** X9: with [--real] a run does nothing of the synthesis, whatever else is
    asked for (no post-processing, encoding, rewriting, printing or writing
    of a circuit); and when the input is accepted and the solver is not
    switched off, the run ends with [REALIZABLE] on stdout and exit code 10
    or with [UNREALIZABLE] and exit code 20, as the solver says. *)
Theorem real_mode_verdict {Circuit : Type} (w : World Circuit) (opts : Options)
    (msgs : list (Event Circuit)) :
  opt_real opts = true ->
  Forall (fun e => is_synthesis e = false) (main_task w opts).1
  /\ ((opt_file opts = None \/ file_found w = true) ->
      parse_ret w = 0 -> parity_ret w = 0 ->
      check_states (states (parsed w)) 0 false false [] = (msgs, Some false) ->
      opt_print_game opts = false -> opt_no_solve opts = false ->
      last (main_task w opts).1
      = Some (EvStdout (if solver_verdict w opts then "REALIZABLE"
                        else "UNREALIZABLE"))
      /\ (main_task w opts).2 = (if solver_verdict w opts then 10 else 20)).
Proof.
  intros Hreal. split.
  - apply main_task_Forall; try done.
    apply construct_and_solve_Forall; try done.
    intros _ _. repeat split; try done.
    unfold after_solving. rewrite Hreal.
    destruct (solver_verdict w opts); by repeat constructor.
  - intros Hfile Hparse Hparity Hcheck Hpg Hns.
    rewrite (main_task_accepted w opts msgs) by done.
    destruct (construct_and_solve_solved w opts Hpg Hns) as (evs & -> & _ & _).
    rewrite !after_code. split.
    + apply last_after, last_after. unfold after_solving. rewrite Hreal.
      by destruct (solver_verdict w opts).
    + apply after_solving_code.
Qed.

Lemma real_mode_verdict_witness :
  Forall (fun e => is_synthesis e = false) (main_task good_world real_best).1
  /\ last (main_task good_world real_best).1 = Some (EvStdout "REALIZABLE")
  /\ (main_task good_world real_best).2 = 10.
Proof.
  destruct (real_mode_verdict good_world real_best [] eq_refl) as [H1 H2].
  split; [exact H1|]. apply H2; try reflexivity. by left.
Defined.

(** X10: with [--print-game] or [--no-solve] no solver runs, nothing of the
    synthesis happens, and the exit code is that of the parser or of the
    acceptance check, -1 or 0: never a verdict. *)
Theorem no_solve_stops_before_solver {Circuit : Type} (w : World Circuit)
    (opts : Options) :
  opt_print_game opts || opt_no_solve opts = true ->
  Forall (fun e => is_solving e = false /\ is_synthesis e = false)
    (main_task w opts).1
  /\ ((main_task w opts).2 = parse_ret w
      \/ (main_task w opts).2 = parity_ret w
      \/ (main_task w opts).2 = -1
      \/ (main_task w opts).2 = 0).
Proof.
  intros Hflag.
  assert (Hall : Forall (fun e => is_solving e = false /\ is_synthesis e = false)
                   (main_task w opts).1).
  { apply main_task_Forall; try done.
    apply construct_and_solve_Forall; try done.
    intros Hpg Hns. by rewrite Hpg, Hns in Hflag. }
  split; [done|].
  destruct (main_task_code w opts) as [[_ H]|[[_ H]|[H|[H|[_ Hs]]]]]; auto.
  rewrite Forall_forall in Hall. destruct (Hall _ Hs) as [Hsolv _].
  unfold solve_event in Hsolv. by destruct (opt_sym opts).
Qed.

Lemma no_solve_stops_before_solver_witness :
  Forall (fun e => is_solving e = false /\ is_synthesis e = false)
    (main_task good_world no_solve_best).1
  /\ ((main_task good_world no_solve_best).2 = parse_ret good_world
      \/ (main_task good_world no_solve_best).2 = parity_ret good_world
      \/ (main_task good_world no_solve_best).2 = -1
      \/ (main_task good_world no_solve_best).2 = 0).
Proof. apply no_solve_stops_before_solver. reflexivity. Defined.

(** X11: without [--best], a run on an accepted, realizable input that is
    not in one of the modes above encodes once, with the options as given
    and with the solution minimised first if [--bisim] or [--bisim-sol]
    asks for it, rewrites ([--drewrite]) before it compresses
    ([--compress]), and writes the circuit once: in binary if [-b] is given,
    else in ascii if [-a] is given, else not at all.  [--print-kiss] and
    [--print-witness] print and end the run before any encoding. *)
Theorem single_encoding_written {Circuit : Type} (w : World Circuit)
    (opts : Options) (msgs : list (Event Circuit)) :
  opt_best opts = false ->
  (opt_file opts = None \/ file_found w = true) ->
  parse_ret w = 0 -> parity_ret w = 0 ->
  check_states (states (parsed w)) 0 false false [] = (msgs, Some false) ->
  opt_print_game opts = false -> opt_no_solve opts = false ->
  opt_real opts = false ->
  opt_naive opts = false -> opt_explicit opts = false ->
  solver_verdict w opts = true ->
  let circuit :=
    rewrite_passes w opts
      (encode w (opt_bisim opts || opt_bisim_sol opts) (opt_isop opts)
         (opt_onehot opts) (opt_sop opts)) in
  (main_task w opts).2 = 10
  /\ written (main_task w opts)
     = (if opt_print_kiss opts || opt_print_witness opts then []
        else if opt_write_binary opts || opt_write_ascii opts then [circuit]
        else [])
  /\ last (main_task w opts).1
     = Some (if opt_print_kiss opts then EvPrintKiss
             else if opt_print_witness opts then EvPrintWitness
             else if opt_write_binary opts then EvWriteBinary circuit
             else if opt_write_ascii opts then EvWriteAscii circuit
             else if opt_compress opts then EvCompress
             else if opt_drewrite opts then EvDrewrite
             else EvEncode (opt_bisim opts || opt_bisim_sol opts) (opt_isop opts)
                    (opt_onehot opts) (opt_sop opts)).
Proof.
  intros Hbest Hfile Hparse Hparity Hcheck Hpg Hns Hreal Hnaive Hexpl Hwin circuit.
  rewrite (main_task_accepted w opts msgs) by done.
  destruct (construct_and_solve_solved w opts Hpg Hns) as (evs & -> & Hevs & _).
  rewrite Hwin.
  pose proof (check_states_msgs (states (parsed w)) 0 false false
                (@nil (Event Circuit)) eq_refl) as Hmsgs.
  rewrite Hcheck in Hmsgs. cbn [fst] in Hmsgs.
  assert (Hwevs : written (evs, 0) = []).
  { clear -Hevs. induction Hevs as [|e evs He _ IH]; [done|].
    unfold written in *. cbn [fst omap list_omap] in *.
    by destruct e. }
  rewrite !after_code, after_solving_code. split; [done|].
  rewrite !written_after, !written_app, Hmsgs, Hwevs, !app_nil_l.
  assert (Hafter : after_solving w opts true
    = after ([EvPostprocess]
             ++ (if opt_bisim opts || opt_bisim_sol opts then [EvBisimSol] else []))
        (if opt_print_kiss opts then ([EvPrintKiss], 10)
         else if opt_print_witness opts then ([EvPrintWitness], 10)
         else
           ([EvEncode (opt_bisim opts || opt_bisim_sol opts) (opt_isop opts)
               (opt_onehot opts) (opt_sop opts)]
            ++ (if opt_drewrite opts then [EvDrewrite] else [])
            ++ (if opt_compress opts then [EvCompress] else [])
            ++ (if opt_write_binary opts then [EvWriteBinary circuit]
                else if opt_write_ascii opts then [EvWriteAscii circuit]
                else []), 10))).
  { unfold after_solving. rewrite Hreal, Hnaive, Hexpl, Hbest. cbn [orb].
    unfold after. cbv zeta. subst circuit. unfold rewrite_passes.
    destruct (opt_print_kiss opts); [by rewrite <- app_assoc|].
    destruct (opt_print_witness opts); [by rewrite <- app_assoc|].
    destruct (opt_drewrite opts), (opt_compress opts); cbn [fst snd];
      by rewrite <- app_assoc. }
  rewrite Hafter. split.
  - rewrite written_after.
    replace (written ([EvPostprocess]
                      ++ (if opt_bisim opts || opt_bisim_sol opts
                          then [EvBisimSol] else []), 0))
      with (@nil Circuit)
      by (by destruct (opt_bisim opts || opt_bisim_sol opts)).
    destruct (opt_print_kiss opts); [done|].
    destruct (opt_print_witness opts); [done|]. cbn [orb].
    rewrite (written_code _ 10 0), !written_app.
    rewrite !written_flag by done.
    by destruct (opt_write_binary opts), (opt_write_ascii opts).
  - apply last_after, last_after, last_after.
    destruct (opt_print_kiss opts); [done|].
    destruct (opt_print_witness opts); [done|]. cbn [fst].
    by destruct (opt_write_binary opts), (opt_write_ascii opts),
         (opt_compress opts), (opt_drewrite opts).
Qed.

Lemma single_encoding_written_witness :
  (main_task good_world isop_both).2 = 10
  /\ written (main_task good_world isop_both) = [8]
  /\ last (main_task good_world isop_both).1 = Some (EvWriteBinary 8).
Proof.
  apply (single_encoding_written good_world isop_both []); try reflexivity.
  by left.
Defined.

(** ** The two evaluations of a label *)

Lemma evalAP_unlisted id apIds : forall mask value,
  id ∉ apIds -> evalAP id apIds mask value = 0.
Proof.
  induction apIds as [|a rest IH]; intros mask value Hid; [done|].
  apply not_elem_of_cons in Hid as [Hne Hid]. simpl.
  destruct (Z.eqb_spec id a); [done|]. by apply IH.
Qed.

Lemma ap_index_range id apIds : forall i j,
  ap_index id apIds i = Some j -> i <= j < i + Z.of_nat (length apIds).
Proof.
  induction apIds as [|a rest IH]; intros i j; simpl; [done|].
  destruct (id =? a).
  - intros [= <-]. lia.
  - intros H. apply IH in H. lia.
Qed.

(** The DD variable of an uncontrollable AP is its position among the
    uncontrollable APs. *)
Lemma assign_variables_uncontrollable data aps : forall uidx oidx k i x,
  NoDup aps ->
  aps !! k = Some i ->
  assign_variables data aps uidx oidx !! k = Some x ->
  controllable data i = false ->
  ap_index i (List.filter (fun i => negb (controllable data i)) aps) uidx = Some x.
Proof.
  induction aps as [|a aps IH]; intros uidx oidx k i x Hnd Hk Hx Hc; [done|].
  apply NoDup_cons in Hnd as [Ha Hnd]. cbn [assign_variables List.filter] in *.
  destruct k as [|k]; simpl in Hk.
  - injection Hk as ->. rewrite Hc in *. simpl in Hx. injection Hx as <-.
    simpl. by rewrite Z.eqb_refl.
  - assert (Hne : i <> a).
    { intros ->. apply Ha. by eapply list_elem_of_lookup_2. }
    destruct (controllable data a); simpl in Hx |- *.
    + by apply (IH uidx (oidx + 1) k).
    + destruct (Z.eqb_spec i a); [done|]. by apply (IH (uidx + 1) oidx k).
Qed.

Lemma assign_variables_length data aps : forall uidx oidx,
  length (assign_variables data aps uidx oidx) = length aps.
Proof.
  induction aps as [|a aps IH]; intros uidx oidx; [done|]. simpl.
  destruct (controllable data a); simpl; by rewrite IH.
Qed.

Lemma ucntAPs_controllable data id : id ∈ ucntAPs data -> controllable data id = false.
Proof.
  unfold ucntAPs. rewrite list_elem_of_In, filter_In. intros [_ H].
  by apply negb_true_iff.
Qed.

(** The three-valued result and the BDD agree where the former is
    decided. *)
Lemma evalLabel_agrees data u v :
  uap_count data <= 64 ->
  (forall j, 0 <= j < uap_count data -> Z.testbit v j = Z.testbit u j) ->
  forall fuel label e b,
    evalLabelNaive fuel label (aliases data) (ucntAPs data) u = Some e ->
    evalLabel fuel label data (variables data) v = Some b ->
    (e = 1 /\ b = true) \/ (e = -1 /\ b = false) \/ e = 0.
Proof.
  intros H64 Hbits. induction fuel as [|fuel IH]; intros label e b; [done|].
  destruct label as [id|l r|l r|l|id|name]; cbn [evalLabelNaive evalLabel].
  - intros [= <-] [= <-]. destruct (id =? 0); auto.
  - destruct (evalLabelNaive fuel l _ _ u) as [el|] eqn:E1; [|done].
    destruct (evalLabelNaive fuel r _ _ u) as [er|] eqn:E2; [|done].
    destruct (evalLabel fuel l data _ v) as [bl|] eqn:E3; [|done].
    destruct (evalLabel fuel r data _ v) as [br|] eqn:E4; [|done].
    cbn. intros [= <-] [= <-].
    destruct (IH l el bl E1 E3) as [[-> ->]|[[-> ->]| ->]],
             (IH r er br E2 E4) as [[-> ->]|[[-> ->]| ->]]; cbn;
      try destruct bl; try destruct br; cbn; auto.
  - destruct (evalLabelNaive fuel l _ _ u) as [el|] eqn:E1; [|done].
    destruct (evalLabelNaive fuel r _ _ u) as [er|] eqn:E2; [|done].
    destruct (evalLabel fuel l data _ v) as [bl|] eqn:E3; [|done].
    destruct (evalLabel fuel r data _ v) as [br|] eqn:E4; [|done].
    cbn. intros [= <-] [= <-].
    destruct (IH l el bl E1 E3) as [[-> ->]|[[-> ->]| ->]],
             (IH r er br E2 E4) as [[-> ->]|[[-> ->]| ->]]; cbn;
      try destruct bl; try destruct br; cbn; auto.
  - destruct (evalLabelNaive fuel l _ _ u) as [el|] eqn:E1; [|done].
    destruct (evalLabel fuel l data _ v) as [bl|] eqn:E3; [|done].
    cbn. intros [= <-] [= <-].
    destruct (IH l el bl E1 E3) as [[-> ->]|[[-> ->]| ->]]; cbn; auto.
  - intros [= <-]. destruct (Z.ltb_spec id 0) as [|Hid]; [done|].
    destruct (variables data !! Z.to_nat id) as [x|] eqn:Hx; [|done].
    cbn. intros [= <-].
    assert (Hlen : (Z.to_nat id < length (seqZ 0 (noAPs data)))%nat).
    { apply lookup_lt_Some in Hx. unfold variables in Hx.
      by rewrite assign_variables_length in Hx. }
    assert (Hseq : seqZ 0 (noAPs data) !! Z.to_nat id = Some id).
    { rewrite length_seqZ in Hlen. rewrite lookup_seqZ. split; lia. }
    destruct (controllable data id) eqn:Hc.
    + right; right. apply evalAP_unlisted. intros Hin.
      apply ucntAPs_controllable in Hin. congruence.
    + pose proof (assign_variables_uncontrollable data _ 0 (uap_count data) _ _ _
                    (NoDup_seqZ _ _) Hseq Hx Hc) as Hidx.
      fold (ucntAPs data) in Hidx.
      pose proof (ap_index_range _ _ _ _ Hidx) as Hr.
      rewrite (evalAP_listed id u (ucntAPs data) 0 1 x); [|lia| |done|done].
      * rewrite Hbits by (unfold uap_count; lia).
        destruct (Z.testbit u x); auto.
      * unfold uap_count in H64. lia.
  - destruct (find_alias (aliases data) name) as [ex|]; [|done].
    cbn. apply IH.
Qed.

(** X12: the label evaluation of the naive splitting is sound for the BDD
    that the explicit splitting builds from the same label: under a
    valuation of all the DD variables that extends the valuation of the
    uncontrollable APs, a label that [evalLabelNaive] finds true (1) has a
    BDD that is true, and one that it finds false (-1) has a BDD that is
    false. *)
Theorem evalLabelNaive_sound_for_evalLabel data fuel label u v e b :
  uap_count data <= 64 ->
  (forall j, 0 <= j < uap_count data -> Z.testbit v j = Z.testbit u j) ->
  evalLabelNaive fuel label (aliases data) (ucntAPs data) u = Some e ->
  evalLabel fuel label data (variables data) v = Some b ->
  (e = 1 -> b = true) /\ (e = -1 -> b = false).
Proof.
  intros H64 Hbits He Hb.
  destruct (evalLabel_agrees data u v H64 Hbits fuel label e b He Hb)
    as [[-> ->]|[[-> ->]| ->]]; split; intros; done.
Qed.

Lemma evalLabelNaive_sound_for_evalLabel_witness :
  evalLabelNaive 3 (NT_OR (NT_AP 0) (NT_AP 1)) (aliases toggle_data)
    (ucntAPs toggle_data) 1 = Some 1
  /\ evalLabel 3 (NT_OR (NT_AP 0) (NT_AP 1)) toggle_data
       (variables toggle_data) 1 = Some true
  /\ (1 = 1 -> true = true) /\ (1 = -1 -> true = false).
Proof.
  split; [reflexivity|]. split; [reflexivity|].
  apply (evalLabelNaive_sound_for_evalLabel toggle_data 3
           (NT_OR (NT_AP 0) (NT_AP 1)) 1 1).
  - vm_compute. discriminate.
  - intros j Hj. reflexivity.
  - reflexivity.
  - reflexivity.
Defined.

(** ** The loops of the encoder *)

Section ForEach.
Context (K : Z -> Prop) (D : (Z -> bool) -> Z -> bool).

Lemma run_ok_of_option {A} (P : Prop) m (Q : A -> AIGmaker -> Prop) (o : option A) x :
  o = Some x ->
  (P -> state_ok K D m -> Q x m) -> run_ok K D P m Q (of_option o m).
Proof. intros -> HQ. by apply run_ok_ret. Qed.

(** Every body keeps what the earlier ones have established, as long as
    that survives an extension of the circuit. *)
Lemma run_ok_for_each {A B} (Q : nat -> A -> B -> AIGmaker -> Prop)
    (body : nat -> A -> M B) (a : list A) :
  (forall i x r m1 m2, Q i x r m1 -> aig_extends m1 m2 -> Q i x r m2) ->
  forall i m,
    (forall j x m1, a !! j = Some x -> var_to_lit m1 = var_to_lit m ->
       run_ok K D True m1 (Q (i + j)%nat x) (body (i + j)%nat x m1)) ->
    run_ok K D True m
      (fun rs m' =>
         length rs = length a
         /\ forall j x r, a !! j = Some x -> rs !! j = Some r ->
              Q (i + j)%nat x r m')
      (for_each body i a m).
Proof.
  intros Hmono. induction a as [|x a IH]; intros i m Hbody.
  { apply run_ok_ret. intros _ _. split; [done|]. by intros j x r ?. }
  cbn [for_each]. eapply run_ok_bind.
  { pose proof (Hbody 0%nat x m eq_refl eq_refl) as H0.
    rewrite Nat.add_0_r in H0. exact H0. }
  intros r m1 Hv1. eapply run_ok_bind.
  { apply run_ok_rec. apply (IH (S i) m1).
    intros j y m2 Hj Hv2.
    replace (S i + j)%nat with (i + S j)%nat by lia.
    apply Hbody; [done|congruence]. }
  intros rs m2 Hv2. apply run_ok_ret.
  intros ((_ & _ & _ & Hq) & _ & Hext & Hlen & Hrs) _.
  split; [simpl; by rewrite Hlen|].
  intros [|j] y r'; simpl.
  - intros [= <-] [= <-]. rewrite Nat.add_0_r. by eapply Hmono.
  - intros Hy Hr'. replace (i + S j)%nat with (S i + j)%nat by lia.
    by apply Hrs.
Qed.
End ForEach.

Lemma output_ok_extends caps f i o m1 m2 :
  output_ok caps f i o m1 -> aig_extends m1 m2 -> output_ok caps f i o m2.
Proof. intros [Hn Hc] Hext. split; [done|]. by eapply computes_extends. Qed.

Lemma latch_ok_extends state_to_lit f i l m1 m2 :
  latch_ok state_to_lit f i l m1 -> aig_extends m1 m2 ->
  latch_ok state_to_lit f i l m2.
Proof. intros [Hn Hc] Hext. split; [done|]. by eapply computes_extends. Qed.

(** A conversion followed by the entry of the symbol. *)
Lemma run_ok_symbol {S T} K D (conv : M Z) (table : list S) (mk : Z -> S -> T)
    (Q : T -> AIGmaker -> Prop) f i m :
  run_ok K D True m (fun r m' => computes f m' r) (conv m) ->
  (i < length table)%nat ->
  (forall r s m', table !! i = Some s -> computes f m' r -> Q (mk r s) m') ->
  run_ok K D True m Q
    (bind conv (fun res => bind (of_option (table !! i))
                             (fun s => ret (mk res s))) m).
Proof.
  intros Hconv Hi HQ.
  destruct (lookup_lt_is_Some_2 table i Hi) as [s Hs].
  eapply run_ok_bind; [exact Hconv|].
  intros r m1 Hv1. rewrite Hs. unfold bind, of_option.
  apply (run_ok_ret K D _ m1 Q (mk r s)). intros (_ & _ & _ & Hc) _. by apply HQ.
Qed.

(** X13: without [--isop], [process] on BDDs of a well-formed node table
    (any table without cycles), with fuel above the heights of the BDDs and
    from a sound state, returns and enters one output for every cap BDD and
    one latch for every state BDD, in order, with the names of [caps] and
    the literals of [state_to_lit]; and, provided the literal counter has
    stayed within [int], every output literal and every next-state literal
    computes in the final circuit the function of its BDD. *)
Theorem process_shannon_correct (zdd_isop : Z -> Z * Z) (zdd_cover_to_bdd : Z -> Z)
    fuel bdd_nodes zdd_nodes caps state_to_lit cap_bdds state_bdds m :
  dd_wf bdd_nodes ->
  Forall (fun b => handle_ok bdd_nodes b
                   /\ (bdd_rank bdd_nodes b < fuel)%nat)
    (cap_bdds ++ state_bdds) ->
  (length cap_bdds <= length caps)%nat ->
  (length state_bdds <= length state_to_lit)%nat ->
  vars_allocated bdd_nodes m ->
  aig_inv m ->
  memo_inv bdd_key_ok (mtbdd_denote bdd_nodes) m ->
  exists outputs latches m',
    process zdd_isop zdd_cover_to_bdd fuel bdd_nodes zdd_nodes caps state_to_lit
      false cap_bdds state_bdds m = Some ((outputs, latches), m')
    /\ (lit m' < 2 ^ 31 ->
        length outputs = length cap_bdds
        /\ length latches = length state_bdds
        /\ (forall i b o, cap_bdds !! i = Some b -> outputs !! i = Some o ->
              caps !! i = Some o.2
              /\ forall inp, aig_value m' inp o.1
                             = mtbdd_denote bdd_nodes (dd_env m inp) b)
        /\ (forall i b l, state_bdds !! i = Some b -> latches !! i = Some l ->
              state_to_lit !! i = Some l.1
              /\ forall inp, aig_value m' inp l.2
                             = mtbdd_denote bdd_nodes (dd_env m inp) b)).
Proof.
  intros Hwf Hall Hcaps Hstates Hvars Hinv Hmemo.
  apply Forall_app in Hall as [Hcb Hsb]. rewrite Forall_forall in Hcb, Hsb.
  set (K := bdd_key_ok). set (D := mtbdd_denote bdd_nodes).
  assert (Hrun : run_ok K D True m
    (fun r m' =>
       length r.1 = length cap_bdds /\ length r.2 = length state_bdds
       /\ (forall i b o, cap_bdds !! i = Some b -> r.1 !! i = Some o ->
             output_ok caps (fun env => D env b) i o m')
       /\ (forall i b l, state_bdds !! i = Some b -> r.2 !! i = Some l ->
             latch_ok state_to_lit (fun env => D env b) i l m'))
    (process zdd_isop zdd_cover_to_bdd fuel bdd_nodes zdd_nodes caps state_to_lit
       false cap_bdds state_bdds m)).
  { unfold process. eapply run_ok_bind.
    { apply (run_ok_for_each K D
               (fun i b o m' => output_ok caps (fun env => D env b) i o m')).
      - intros i x r m1 m2. apply output_ok_extends.
      - intros j b m1 Hj Hv1. cbn [Nat.add]. unfold processCAP.
        apply (run_ok_symbol K D _ caps (fun r s => (r, s)) _
                 (fun env => D env b)).
        + destruct (Hcb b) as [Hok Hf]; [by eapply list_elem_of_lookup_2|].
          apply (bdd_to_aig_ok bdd_nodes Hwf fuel b m1 Hok Hf).
          unfold vars_allocated in *. by rewrite Hv1.
        + apply lookup_lt_Some in Hj. lia.
        + intros r s m' Hs Hc. by split. }
    intros outputs m1 Hv1. eapply run_ok_bind.
    { apply run_ok_rec.
      apply (run_ok_for_each K D
               (fun i b l m' => latch_ok state_to_lit (fun env => D env b) i l m')).
      - intros i x r m2 m3. apply latch_ok_extends.
      - intros j b m2 Hj Hv2. cbn [Nat.add]. unfold processState.
        apply (run_ok_symbol K D _ state_to_lit (fun r s => (s, r)) _
                 (fun env => D env b)).
        + destruct (Hsb b) as [Hok Hf]; [by eapply list_elem_of_lookup_2|].
          apply (bdd_to_aig_ok bdd_nodes Hwf fuel b m2 Hok Hf).
          unfold vars_allocated in *. by rewrite Hv2, Hv1.
        + apply lookup_lt_Some in Hj. lia.
        + intros r s m' Hs Hc. by split. }
    intros latches m2 Hv2. apply run_ok_ret.
    intros ((_ & _ & _ & Hlo & Ho) & _ & Hext & Hll & Hl) _. cbn [fst snd].
    split; [done|]. split; [done|]. split; [|done].
    intros i b o Hb Hoi. eapply output_ok_extends; [|exact Hext]. by eapply Ho. }
  destruct Hrun as ([outputs latches] & m' & Hrun & _ & Hv & Hpost).
  exists outputs, latches, m'. split; [done|]. intros Hbound.
  destruct Hpost as (_ & Hext & Hlo & Hll & Ho & Hl); [done|by split|done|].
  cbn [fst snd] in *. split; [done|]. split; [done|]. split.
  - intros i b o Hb Hoi. destruct (Ho i b o Hb Hoi) as [Hn [_ Hval]].
    split; [done|]. intros inp. by rewrite Hval, (dd_env_extends m m' inp Hext).
  - intros i b l Hb Hli. destruct (Hl i b l Hb Hli) as [Hn [_ Hval]].
    split; [done|]. intros inp. by rewrite Hval, (dd_env_extends m m' inp Hext).
Qed.

Lemma process_shannon_correct_witness :
  exists outputs latches m',
    process x0_isop id 3 xor_nodes_rev x0_zdd_nodes ["o"] [6]
      false [1] [Z.lor 1 sylvan_complement] fresh_maker
    = Some ((outputs, latches), m')
    /\ lit m' < 2 ^ 31
    /\ length outputs = 1%nat /\ length latches = 1%nat.
Proof.
  destruct (process_shannon_correct x0_isop id 3 xor_nodes_rev x0_zdd_nodes ["o"] [6]
              [1] [Z.lor 1 sylvan_complement] fresh_maker xor_nodes_rev_wf)
    as (outputs & latches & m' & Hrun & Hpost).
  - cbn [app]. apply Forall_cons. split.
    { split; [split; [done|right; by eexists]|vm_compute; lia]. }
    apply Forall_cons. split; [|constructor].
    split; [split; [done|right; by eexists]|vm_compute; lia].
  - simpl. lia.
  - simpl. lia.
  - exact xor_nodes_rev_allocated.
  - exact fresh_maker_inv.
  - by apply memo_inv_empty.
  - assert (Hb : lit m' < 2 ^ 31).
    { vm_compute in Hrun. injection Hrun as _ _ <-. done. }
    exists outputs, latches, m'. split; [done|]. split; [done|].
    destruct (Hpost Hb) as (H1 & H2 & _). by split.
Defined.

(** X14: with [--isop], when the kernel's [zdd_isop] hands back every BDD
    as [bddres] and gives covers of a well-formed ZDD table (any table
    without cycles), [process], with fuel above the heights of the covers
    and from a sound state, returns and enters one output for every cap BDD
    and one
    latch for every state BDD, in order; and, provided the literal counter
    has stayed within [int], every output literal and next-state literal
    computes in the final circuit the sum of products of the cover of its
    BDD. *)
Theorem process_isop_correct (zdd_isop : Z -> Z * Z) (zdd_cover_to_bdd : Z -> Z)
    fuel bdd_nodes zdd_nodes caps state_to_lit cap_bdds state_bdds m :
  zdd_wf zdd_nodes ->
  Forall (fun b => (zdd_isop b).2 = b
                   /\ zdd_handle_ok zdd_nodes (zdd_isop b).1
                   /\ (zdd_rank zdd_nodes (zdd_isop b).1 < fuel)%nat)
    (cap_bdds ++ state_bdds) ->
  (length cap_bdds <= length caps)%nat ->
  (length state_bdds <= length state_to_lit)%nat ->
  zdd_vars_allocated zdd_nodes m ->
  aig_inv m ->
  memo_inv (fun _ => True) (cover_denote zdd_nodes) m ->
  exists outputs latches m',
    process zdd_isop zdd_cover_to_bdd fuel bdd_nodes zdd_nodes caps state_to_lit
      true cap_bdds state_bdds m = Some ((outputs, latches), m')
    /\ (lit m' < 2 ^ 31 ->
        length outputs = length cap_bdds
        /\ length latches = length state_bdds
        /\ (forall i b o, cap_bdds !! i = Some b -> outputs !! i = Some o ->
              caps !! i = Some o.2
              /\ forall inp, aig_value m' inp o.1
                             = cover_denote zdd_nodes (dd_env m inp) (zdd_isop b).1)
        /\ (forall i b l, state_bdds !! i = Some b -> latches !! i = Some l ->
              state_to_lit !! i = Some l.1
              /\ forall inp, aig_value m' inp l.2
                             = cover_denote zdd_nodes (dd_env m inp) (zdd_isop b).1)).
Proof.
  intros Hwf Hall Hcaps Hstates Hvars Hinv Hmemo.
  apply Forall_app in Hall as [Hcb Hsb].
  assert (Hcovers : forall l,
            Forall (fun b => (zdd_isop b).2 = b
                             /\ zdd_handle_ok zdd_nodes (zdd_isop b).1
                             /\ (zdd_rank zdd_nodes (zdd_isop b).1 < fuel)%nat) l ->
            mapM (isop_cover zdd_isop) l = Some ((fun b => (zdd_isop b).1) <$> l)).
  { induction 1 as [|b l (Hres & _) _ IH]; [done|].
    cbn [mapM]. rewrite IH, fmap_cons. unfold isop_cover at 1.
    destruct (zdd_isop b) as [z r]. cbn [fst snd] in *. subst r.
    rewrite Z.eqb_refl. reflexivity. }
  rewrite Forall_forall in Hcb, Hsb.
  set (K := fun _ : Z => True). set (D := cover_denote zdd_nodes).
  assert (Hrun : run_ok K D True m
    (fun r m' =>
       length r.1 = length cap_bdds /\ length r.2 = length state_bdds
       /\ (forall i b o, cap_bdds !! i = Some b -> r.1 !! i = Some o ->
             output_ok caps (fun env => D env (zdd_isop b).1) i o m')
       /\ (forall i b l, state_bdds !! i = Some b -> r.2 !! i = Some l ->
             latch_ok state_to_lit (fun env => D env (zdd_isop b).1) i l m'))
    (process zdd_isop zdd_cover_to_bdd fuel bdd_nodes zdd_nodes caps state_to_lit
       true cap_bdds state_bdds m)).
  { unfold process.
    rewrite (Hcovers cap_bdds) by (by apply Forall_forall).
    rewrite (Hcovers state_bdds) by (by apply Forall_forall).
    unfold bind at 1, of_option. unfold bind at 1.
    eapply run_ok_bind.
    { apply (run_ok_for_each K D
               (fun i z o m' => output_ok caps (fun env => D env z) i o m')).
      - intros i x r m1 m2. apply output_ok_extends.
      - intros j z m1 Hj Hv1. cbn [Nat.add].
        apply list_lookup_fmap_Some in Hj as (b & -> & Hj).
        apply (run_ok_symbol K D _ caps (fun r s => (r, s)) _
                 (fun env => D env (zdd_isop b).1)).
        + destruct (Hcb b) as (_ & Hok & Hf); [by eapply list_elem_of_lookup_2|].
          apply (bdd_to_aig_cover_ok zdd_nodes Hwf fuel _ m1 Hok Hf).
          unfold zdd_vars_allocated in *. by rewrite Hv1.
        + apply lookup_lt_Some in Hj. lia.
        + intros r s m' Hs Hc. by split. }
    intros outputs m1 Hv1. eapply run_ok_bind.
    { apply run_ok_rec.
      apply (run_ok_for_each K D
               (fun i z l m' => latch_ok state_to_lit (fun env => D env z) i l m')).
      - intros i x r m2 m3. apply latch_ok_extends.
      - intros j z m2 Hj Hv2. cbn [Nat.add].
        apply list_lookup_fmap_Some in Hj as (b & -> & Hj).
        apply (run_ok_symbol K D _ state_to_lit (fun r s => (s, r)) _
                 (fun env => D env (zdd_isop b).1)).
        + destruct (Hsb b) as (_ & Hok & Hf); [by eapply list_elem_of_lookup_2|].
          apply (bdd_to_aig_cover_ok zdd_nodes Hwf fuel _ m2 Hok Hf).
          unfold zdd_vars_allocated in *. by rewrite Hv2, Hv1.
        + apply lookup_lt_Some in Hj. lia.
        + intros r s m' Hs Hc. by split. }
    intros latches m2 Hv2. apply run_ok_ret.
    intros ((_ & _ & _ & Hlo & Ho) & _ & Hext & Hll & Hl) _. cbn [fst snd].
    rewrite length_fmap in Hlo, Hll.
    split; [done|]. split; [done|]. split.
    - intros i b o Hb Hoi. eapply output_ok_extends; [|exact Hext].
      apply (Ho i (zdd_isop b).1 o); [|done]. by rewrite list_lookup_fmap, Hb.
    - intros i b l Hb Hli.
      apply (Hl i (zdd_isop b).1 l); [|done]. by rewrite list_lookup_fmap, Hb. }
  destruct Hrun as ([outputs latches] & m' & Hrun & _ & Hv & Hpost).
  exists outputs, latches, m'. split; [done|]. intros Hbound.
  destruct Hpost as (_ & Hext & Hlo & Hll & Ho & Hl); [done|by split|done|].
  cbn [fst snd] in *. split; [done|]. split; [done|]. split.
  - intros i b o Hb Hoi. destruct (Ho i b o Hb Hoi) as [Hn [_ Hval]].
    split; [done|]. intros inp. by rewrite Hval, (dd_env_extends m m' inp Hext).
  - intros i b l Hb Hli. destruct (Hl i b l Hb Hli) as [Hn [_ Hval]].
    split; [done|]. intros inp. by rewrite Hval, (dd_env_extends m m' inp Hext).
Qed.

Lemma process_isop_correct_witness :
  exists outputs latches m',
    process x0_isop id 2 x0_bdd_nodes x0_zdd_nodes ["o"] [6]
      true [1] [1] fresh_maker
    = Some ((outputs, latches), m')
    /\ lit m' < 2 ^ 31
    /\ length outputs = 1%nat /\ length latches = 1%nat.
Proof.
  destruct (process_isop_correct x0_isop id 2 x0_bdd_nodes x0_zdd_nodes ["o"] [6]
              [1] [1] fresh_maker)
    as (outputs & latches & m' & Hrun & Hpost).
  - split.
    + unfold x0_zdd_nodes. apply map_Forall_singleton.
      split; [done|]. split; [done|]. split; [by left|by right; left].
    + apply dd_acyclic_ordered, (bool_decide_unpack _). by vm_compute.
  - cbn [app]. apply Forall_cons. split.
    { split; [done|]. split; [right; right; by eexists|vm_compute; lia]. }
    apply Forall_cons. split; [|constructor].
    split; [done|]. split; [right; right; by eexists|vm_compute; lia].
  - simpl. lia.
  - simpl. lia.
  - unfold zdd_vars_allocated, x0_zdd_nodes. apply map_Forall_singleton.
    by eexists.
  - exact fresh_maker_inv.
  - by apply memo_inv_empty.
  - assert (Hb : lit m' < 2 ^ 31).
    { vm_compute in Hrun. injection Hrun as _ _ <-. done. }
    exists outputs, latches, m'. split; [done|]. split; [done|].
    destruct (Hpost Hb) as (H1 & H2 & _). by split.
Defined.


(** ** The constructor *)

Lemma seqZ_shift (f : Z -> Z) n :
  f <$> seqZ 1 n = (fun j => f (j + 1)) <$> seqZ 0 n.
Proof.
  change 1 with (1 + 0) at 1.
  rewrite <- (fmap_add_seqZ 1 0 n), <- list_fmap_compose.
  apply list_fmap_ext. intros _ j _. simpl. f_equal; lia.
Qed.

Lemma init_inputs_spec data game aps :
  forall uap_to_lit caps inputs lit,
    let unc := List.filter (fun i => negb (controllable data i)) aps in
    let ctl := List.filter (controllable data) aps in
    let lits := (fun j => lit + 2 * j) <$> seqZ 0 (Z.of_nat (length unc)) in
    Z.of_nat (length uap_to_lit + length unc) <= g_uap_count game ->
    Z.of_nat (length caps + length ctl) <= g_cap_count game ->
    init_inputs data game aps uap_to_lit caps inputs lit
    = Some (uap_to_lit ++ lits, caps ++ ctl, inputs ++ zip lits unc,
            lit + 2 * Z.of_nat (length unc)).
Proof.
  induction aps as [|i aps IH]; intros uap_to_lit caps inputs lit; cbv zeta.
  { intros _ _. simpl. rewrite !app_nil_r. do 2 f_equal; lia. }
  cbn [init_inputs List.filter].
  destruct (controllable data i); cbn [negb length]; intros Hu Hc.
  - destruct (Z.ltb_spec (Z.of_nat (length caps)) (g_cap_count game)); [|lia].
    rewrite IH; [|rewrite ?length_app; cbn [length]; lia..]. cbn [length].
    by rewrite <- app_assoc.
  - destruct (Z.ltb_spec (Z.of_nat (length uap_to_lit)) (g_uap_count game)); [|lia].
    rewrite IH; [|rewrite ?length_app; cbn [length]; lia..]. cbn [length].
    replace (Z.of_nat (S (length (List.filter (fun i0 => negb (controllable data i0)) aps))))
      with (Z.succ (Z.of_nat
              (length (List.filter (fun i0 => negb (controllable data i0)) aps))))
      by lia.
    rewrite (seqZ_cons 0 (Z.succ _)) by lia. rewrite Z.pred_succ.
    change (Z.succ 0) with 1. rewrite fmap_cons, seqZ_shift.
    cbn [zip zip_with]. rewrite <- !app_assoc. cbn [app].
    replace (lit + 2 * 0) with lit by lia.
    assert (Hf : (fun j => lit + 2 + 2 * j) <$>
                 seqZ 0 (Z.of_nat
                   (length (List.filter (fun i0 => negb (controllable data i0)) aps)))
                 = (fun j => lit + 2 * (j + 1)) <$>
                   seqZ 0 (Z.of_nat
                     (length (List.filter (fun i0 => negb (controllable data i0)) aps)))).
    { apply list_fmap_ext. intros _ j _. lia. }
    rewrite Hf. do 2 f_equal. lia.
Qed.

Lemma set_vars_total vars lits n v2l :
  (n <= length vars)%nat -> (n <= length lits)%nat ->
  is_Some (set_vars vars lits n v2l).
Proof.
  revert vars lits v2l. induction n as [|n IH]; intros vars lits v2l Hv Hl.
  { by eexists. }
  destruct vars as [|v vars], lits as [|l lits]; simpl in *; try lia.
  apply IH; lia.
Qed.

Lemma set_vars_other vars lits n : forall v2l v2l' k,
  set_vars vars lits n v2l = Some v2l' ->
  k ∉ take n vars -> v2l' !! k = v2l !! k.
Proof.
  revert vars lits. induction n as [|n IH]; intros vars lits v2l v2l' k.
  { by intros [= <-]. }
  destruct vars as [|v vars], lits as [|l lits]; simpl; try done.
  intros Hrun Hk. apply not_elem_of_cons in Hk as [Hne Hk].
  rewrite (IH _ _ _ _ _ Hrun Hk). by apply lookup_insert_ne.
Qed.

Lemma set_vars_lookup vars lits n : forall v2l v2l' j v,
  set_vars vars lits n v2l = Some v2l' ->
  NoDup (take n vars) -> (j < n)%nat -> vars !! j = Some v ->
  v2l' !! v = lits !! j.
Proof.
  revert vars lits. induction n as [|n IH]; intros vars lits v2l v2l' j v; [lia|].
  destruct vars as [|v0 vars], lits as [|l lits]; simpl; try done.
  intros Hrun Hnd Hj Hv. apply NoDup_cons in Hnd as [Hv0 Hnd].
  destruct j as [|j]; simpl in *.
  - injection Hv as ->. rewrite (set_vars_other _ _ _ _ _ _ Hrun Hv0).
    apply lookup_insert_eq.
  - apply (IH _ _ _ _ _ _ Hrun Hnd); [lia|done].
Qed.

Lemma set_vars_Forall (P : Z -> Prop) vars lits n : forall v2l v2l',
  set_vars vars lits n v2l = Some v2l' ->
  map_Forall (fun _ l => P l) v2l -> Forall P lits ->
  map_Forall (fun _ l => P l) v2l'.
Proof.
  revert vars lits. induction n as [|n IH]; intros vars lits v2l v2l'.
  { by intros [= <-]. }
  destruct vars as [|v0 vars], lits as [|l lits]; simpl; try done.
  intros Hrun Hm Hl. apply Forall_cons in Hl as [Hl0 Hl].
  apply (IH _ _ _ _ Hrun); [|done]. by apply map_Forall_insert_2.
Qed.

(** X15: for a game that has as many uncontrollable APs as the automaton,
    room for its controllable APs, one variable per state bit and per
    uncontrollable AP, all different, and few enough of them for the
    literals to stay within [int] ([2 + 2 * (uap_count + statebits) <
    2^31]), the constructor gives the
    uncontrollable APs the input literals 2, 4, ... in the order of the APs
    and the state bits the literals after them, and leaves [lit] at the next
    one; [var_to_lit] sends the variables of [s_vars] and [uap_vars] to
    these literals in order; and the state it leaves is sound: the circuit
    invariant holds and the memo table is empty. *)
Theorem AIGmaker_init_allocation data game :
  g_uap_count game = uap_count data ->
  Z.of_nat (length (List.filter (controllable data) (seqZ 0 (noAPs data))))
    <= g_cap_count game ->
  0 <= g_statebits game ->
  length (g_s_vars game) = Z.to_nat (g_statebits game) ->
  length (g_uap_vars game) = Z.to_nat (g_uap_count game) ->
  NoDup (g_s_vars game ++ g_uap_vars game) ->
  2 + 2 * (uap_count data + g_statebits game) < 2 ^ 31 ->
  exists al,
    AIGmaker_init data game = Some al
    /\ al_uap_to_lit al = (fun j => 2 + 2 * j) <$> seqZ 0 (uap_count data)
    /\ al_inputs al = zip (al_uap_to_lit al) (ucntAPs data)
    /\ al_caps al = List.filter (controllable data) (seqZ 0 (noAPs data))
    /\ al_state_to_lit al
       = (fun j => 2 + 2 * (uap_count data + j)) <$> seqZ 0 (g_statebits game)
    /\ lit (al_maker al) = 2 + 2 * (uap_count data + g_statebits game)
    /\ (forall j v, g_s_vars game !! j = Some v ->
          var_to_lit (al_maker al) !! v = al_state_to_lit al !! j)
    /\ (forall j v, g_uap_vars game !! j = Some v ->
          var_to_lit (al_maker al) !! v = al_uap_to_lit al !! j)
    /\ aig_inv (al_maker al)
    /\ mapping (al_maker al) = ∅.
Proof.
  intros Hu Hc Hsb Hsv Huv Hnd Hbound.
  unfold AIGmaker_init.
  assert (Hucnt : Z.of_nat (length (ucntAPs data)) = uap_count data) by done.
  rewrite (init_inputs_spec data game); cbn [length Nat.add]; fold (ucntAPs data).
  2:{ lia. }
  2:{ lia. }
  cbn [app mbind option_bind]. rewrite Hucnt.
  set (uap_to_lit := (fun j => 2 + 2 * j) <$> seqZ 0 (uap_count data)).
  set (state_to_lit := (fun i => 2 + 2 * uap_count data + 2 * i)
                       <$> seqZ 0 (g_statebits game)).
  assert (Hlu : length uap_to_lit = Z.to_nat (uap_count data)).
  { unfold uap_to_lit. by rewrite length_fmap, length_seqZ. }
  assert (Hls : length state_to_lit = Z.to_nat (g_statebits game)).
  { unfold state_to_lit. by rewrite length_fmap, length_seqZ. }
  destruct (set_vars_total (g_s_vars game) state_to_lit
              (Z.to_nat (g_statebits game)) ∅) as [v1 Hv1]; [lia|lia|].
  rewrite Hv1. cbn [mbind option_bind].
  destruct (set_vars_total (g_uap_vars game) uap_to_lit
              (Z.to_nat (g_uap_count game)) v1) as [v2 Hv2]; [lia|lia|].
  rewrite Hv2. cbn [mbind option_bind].
  eexists. split; [reflexivity|]. cbn [al_uap_to_lit al_inputs al_caps
    al_state_to_lit al_maker lit var_to_lit mapping].
  apply NoDup_app in Hnd as (Hnds & Hdisj & Hndu).
  split; [done|]. split; [done|]. split; [done|]. split.
  { apply list_fmap_ext. intros _ j _. lia. }
  split; [lia|]. split; [|split; [|split; [|done]]].
  - intros j v Hj.
    assert (Hjn : (j < Z.to_nat (g_statebits game))%nat)
      by (apply lookup_lt_Some in Hj; lia).
    rewrite (set_vars_other _ _ _ _ _ _ Hv2).
    + apply (set_vars_lookup _ _ _ _ _ _ _ Hv1); [|done|done].
      rewrite take_ge by lia. done.
    + rewrite take_ge by lia. apply Hdisj. by eapply list_elem_of_lookup_2.
  - intros j v Hj.
    assert (Hjn : (j < Z.to_nat (g_uap_count game))%nat)
      by (apply lookup_lt_Some in Hj; lia).
    apply (set_vars_lookup _ _ _ _ _ _ _ Hv2); [|done|done].
    rewrite take_ge by lia. done.
  - assert (Hpos : 0 <= uap_count data) by (rewrite <- Hucnt; lia).
    apply aig_inv_fresh; cbn [ands cache lit var_to_lit].
    + done.
    + done.
    + rewrite Hls, !Z.even_add, !Z.even_mul. done.
    + rewrite Hls. lia.
    + assert (Hrange : forall l, l ∈ uap_to_lit ++ state_to_lit ->
                Z.even l = true
                /\ 2 <= l < 2 + 2 * uap_count data + 2 * Z.of_nat (length state_to_lit)).
      { intros l Hl. rewrite Hls. apply elem_of_app in Hl as [Hl|Hl].
        - apply list_elem_of_fmap in Hl as (j & -> & Hj).
          apply elem_of_seqZ in Hj.
          rewrite Z.even_add, Z.even_mul. split; [done|lia].
        - apply list_elem_of_fmap in Hl as (j & -> & Hj).
          apply elem_of_seqZ in Hj.
          rewrite !Z.even_add, !Z.even_mul. split; [done|lia]. }
      apply (set_vars_Forall _ _ _ _ _ _ Hv2).
      * apply (set_vars_Forall _ _ _ _ _ _ Hv1); [apply map_Forall_empty|].
        apply Forall_forall. intros l Hl. apply Hrange, elem_of_app. by right.
      * apply Forall_forall. intros l Hl. apply Hrange, elem_of_app. by left.
Qed.

Lemma AIGmaker_init_allocation_witness :
  exists al,
    AIGmaker_init toggle_data toggle_game = Some al
    /\ al_uap_to_lit al = [2] /\ al_state_to_lit al = [4]
    /\ lit (al_maker al) = 6 /\ aig_inv (al_maker al).
Proof.
  destruct (AIGmaker_init_allocation toggle_data toggle_game)
    as (al & Hrun & Hu & _ & _ & Hs & Hl & _ & _ & Hinv & _).
  - reflexivity.
  - vm_compute. discriminate.
  - simpl. lia.
  - reflexivity.
  - reflexivity.
  - apply (bool_decide_unpack _). vm_compute. reflexivity.
  - vm_compute. reflexivity.
  - exists al. split; [done|]. split; [done|]. split; [done|]. by split.
Defined.


(** ** The naive game as a graph *)

Section NaiveGraph.
Context (fuel : nat) (data : HoaData) (isMaxParity controllerIsOdd : bool).







End NaiveGraph.




(** ** Compression *)

Lemma last_cons_default {A} (l : list A) : forall x d,
  List.last (x :: l) d = List.last l x.
Proof.
  induction l as [|y l IH]; intros x d; [done|].
  change (List.last (x :: y :: l) d) with (List.last (y :: l) d).
  by rewrite !IH.
Qed.

Section CompressLoop.
Context {Abc Aiger : Type}.
Context (Cmd_CommandExecute : string -> Abc -> option Abc)
        (Abc_NtkNodeNum : Abc -> Z)
        (writeToAbc : Aiger -> option Abc)
        (readFromAbc : Abc -> option Aiger).
Hypothesis commands_run : forall c s, is_Some (Cmd_CommandExecute c s).
Hypothesis size_range : forall s, 0 <= Abc_NtkNodeNum s < 2 ^ 31 - 1.

Lemma executeCompressCommands_total s :
  is_Some (executeCompressCommands Cmd_CommandExecute s).
Proof.
  unfold executeCompressCommands. generalize compressCommands.
  intros l. revert s. induction l as [|c l IH]; intros s; [by eexists|].
  cbn [fold_opt]. destruct (commands_run c s) as [s' Hs'].
  change (executeAbcCommand Cmd_CommandExecute s c)
    with (Cmd_CommandExecute c s).
  rewrite Hs'. cbn [mbind option_bind]. apply IH.
Qed.

Lemma compress_loop_rounds fuel : forall old s,
  (0 < Abc_NtkNodeNum s < old -> (Z.to_nat (Abc_NtkNodeNum s) <= fuel)%nat) ->
  exists ss,
    compress_loop Cmd_CommandExecute Abc_NtkNodeNum fuel old (Abc_NtkNodeNum s) s
      = Some (List.last ss s)
    /\ rounds_from Cmd_CommandExecute Abc_NtkNodeNum s ss
    /\ (0 < Abc_NtkNodeNum s < old ->
        ss <> [] /\ (length ss <= Z.to_nat (Abc_NtkNodeNum s))%nat)
    /\ (~ 0 < Abc_NtkNodeNum s < old -> ss = []).
Proof.
  induction fuel as [|fuel IH]; intros old s Hfuel.
  - assert (Hno : ~ 0 < Abc_NtkNodeNum s < old) by (intros H; specialize (Hfuel H); lia).
    exists []. cbn [compress_loop List.last].
    replace ((0 <? Abc_NtkNodeNum s) && (Abc_NtkNodeNum s <? old)) with false by lia.
    split; [done|]. split; [|split; [done|done]].
    intros i x y _ Hy. by rewrite lookup_nil in Hy.
  - cbn [compress_loop].
    destruct ((0 <? Abc_NtkNodeNum s) && (Abc_NtkNodeNum s <? old)) eqn:Hc.
    2:{ exists []. cbn [List.last]. split; [done|]. split.
        - intros i x y _ Hy. by rewrite lookup_nil in Hy.
        - split; [lia|done]. }
    assert (Hcond : 0 < Abc_NtkNodeNum s < old) by lia.
    specialize (Hfuel Hcond).
    destruct (executeCompressCommands_total s) as [s1 Hs1].
    rewrite Hs1. cbn [mbind option_bind].
    pose proof (size_range s) as Hr. pose proof (size_range s1) as Hr1.
    replace (int_ok (Abc_NtkNodeNum s - Abc_NtkNodeNum s1)) with true
      by (unfold int_ok; lia).
    cbn [negb].
    destruct (Z.ltb_spec (Abc_NtkNodeNum s - Abc_NtkNodeNum s1)
                (Abc_NtkNodeNum s `quot` 20)) as [Hbreak|Hgo].
    + exists [s1]. cbn [List.last length]. split; [done|]. split.
      * intros [|i] x y Hx Hy;
          [|by destruct i].
        cbn in Hx, Hy. injection Hx as <-. injection Hy as <-.
        split; [done|]. cbn. lia.
      * split; [|done]. intros _. split; [done|]. cbn. lia.
    + assert (Hq : 0 <= Abc_NtkNodeNum s `quot` 20)
        by (apply Z.quot_pos; lia).
      destruct (IH (Abc_NtkNodeNum s) s1) as (ss & Hrun & Hrounds & Hyes & Hno).
      { intros H. lia. }
      exists (s1 :: ss). rewrite Hrun. split.
      { by rewrite last_cons_default. }
      split.
      * intros [|i] x y Hx Hy.
        -- cbn in Hx, Hy. injection Hx as <-. injection Hy as <-.
           split; [done|]. cbn [length]. intros Hlen.
           destruct (decide (0 < Abc_NtkNodeNum s1 < Abc_NtkNodeNum s))
             as [Hlt|Hnlt]; [lia|].
           rewrite (Hno Hnlt) in Hlen. cbn in Hlen. lia.
        -- cbn [lookup list_lookup] in Hx, Hy.
           destruct (Hrounds i x y Hx Hy) as [Hstep Hdec].
           split; [done|]. cbn [length]. intros Hlen. apply Hdec. lia.
      * split; [|done]. intros _. split; [done|]. cbn [length].
        destruct (decide (0 < Abc_NtkNodeNum s1 < Abc_NtkNodeNum s))
          as [Hlt|Hnlt].
        -- destruct (Hyes Hlt) as [_ Hlen]. lia.
        -- rewrite (Hno Hnlt). cbn. lia.
Qed.

End CompressLoop.

(** X17: when no command of ABC fails and the sizes fit, [compress] comes
    to an end: for a network of [n] nodes it runs the commands at most [n]
    times (so that fuel [n] is enough), at least once unless the network is
    empty, and reads back the network after the last round; every round
    but the last has made the network smaller, by a twentieth of its size
    or more. *)
Theorem compress_converges {Abc Aiger : Type}
    (Cmd_CommandExecute : string -> Abc -> option Abc)
    (Abc_NtkNodeNum : Abc -> Z)
    (writeToAbc : Aiger -> option Abc) (readFromAbc : Abc -> option Aiger)
    (fuel : nat) (a : Aiger) (s0 : Abc) :
  (forall c s, is_Some (Cmd_CommandExecute c s)) ->
  (forall s, 0 <= Abc_NtkNodeNum s < 2 ^ 31 - 1) ->
  writeToAbc a = Some s0 ->
  (Z.to_nat (Abc_NtkNodeNum s0) <= fuel)%nat ->
  exists ss,
    AIGmaker_compress Cmd_CommandExecute Abc_NtkNodeNum writeToAbc readFromAbc
      fuel a = readFromAbc (List.last ss s0)
    /\ rounds_from Cmd_CommandExecute Abc_NtkNodeNum s0 ss
    /\ (length ss <= Z.to_nat (Abc_NtkNodeNum s0))%nat
    /\ (ss = [] <-> Abc_NtkNodeNum s0 = 0).
Proof.
  intros Hcmd Hsize Hwrite Hfuel.
  destruct (compress_loop_rounds Cmd_CommandExecute Abc_NtkNodeNum Hcmd Hsize
              fuel (Abc_NtkNodeNum s0 + 1) s0) as (ss & Hrun & Hrounds & Hyes & Hno).
  { intros _. done. }
  exists ss. unfold AIGmaker_compress. rewrite Hwrite. cbn [mbind option_bind].
  pose proof (Hsize s0) as Hr.
  replace (int_ok (Abc_NtkNodeNum s0 + 1)) with true by (unfold int_ok; lia).
  cbn [negb]. rewrite Hrun. cbn [mbind option_bind].
  split; [done|]. split; [done|].
  destruct (decide (0 < Abc_NtkNodeNum s0)) as [Hpos|Hzero].
  - destruct Hyes as [Hne Hlen]; [lia|]. split; [done|].
    split; [done|lia].
  - rewrite Hno by lia. cbn. split; [lia|]. split; [lia|done].
Qed.

Lemma compress_converges_witness :
  exists ss,
    AIGmaker_compress x0_exec x0_size (fun a : Z => Some a) (fun s : Z => Some s)
      40 40 = Some (List.last ss 40)
    /\ ss <> [].
Proof.
  destruct (compress_converges x0_exec x0_size (fun a : Z => Some a)
              (fun s : Z => Some s) 40 40 40) as (ss & Hrun & _ & _ & Hne).
  - intros c s. by eexists.
  - intros s. unfold x0_size. lia.
  - reflexivity.
  - vm_compute. lia.
  - exists ss. split; [done|]. intros Hnil. apply Hne in Hnil. discriminate.
Defined.
